(** * WikiCrawler: the path-search layer of wiki_crawler.py

    A shallow embedding of the [WikiCrawler] class (title resolution, the
    two memoised link fetchers, and the three searches: breadth-first,
    heuristic best-first and bidirectional breadth-first) together with the
    properties of the search layer.

    Conventions of the embedding:
    - Python [int] is [Z]; a [float] is a binary64 float of the kernel, with
      its IEEE 754 addition and comparisons; a [set] of titles is a
      [gset string]; a [dict] is a [gmap]; a [deque] is a list used at both
      ends; the [heapq] heap is a list from which the least tuple is
      extracted.
    - A [str] is held as its UTF-8 encoding; where the program counts or
      splits characters ([_title_score], [_shorten_label]) it is read as the
      sequence of its code points.
    - The order in which Python iterates over a [set] is not determined by
      the program: it is a component of the environment ([set_iter]).
    - The MediaWiki endpoint is a component of the environment as well: a
      fixed answer (or a failure) for every query.
    - [str.lower()] follows the Unicode character database of the
      interpreter, and [difflib.SequenceMatcher(...).ratio()] is library
      code: both are taken from the environment ([str_lower], [seq_ratio]).
    - Every method is a state transformer over the crawler object that
      returns a value, raises, or exhausts the fuel of a loop; the state
      reached is kept in all three cases, as attribute updates persist when
      a Python exception propagates. *)

From Stdlib Require Import ZArith Floats String Ascii List Lia DecimalString.
From stdpp Require Import gmap strings list fin_maps sorting.

Local Open Scope string_scope.
Local Open Scope Z_scope.

(** ** Python sequences and strings *)

Module PyStr.

(** [seq[:k]] for a Python integer [k]: a negative bound counts from the
    end of the sequence. *)
Definition slice_to {A} (k : Z) (l : list A) : list A :=
  if k <? 0 then take (Z.to_nat (Z.of_nat (length l) + k)) l
  else take (Z.to_nat k) l.

End PyStr.

(** A [str] as the sequence of its code points. *)
Module PyUni.

Definition ustr : Type := list N.

(** The bytes of a string. *)
Definition bytes (s : string) : list N := map N_of_ascii (list_ascii_of_string s).

Definition is_continuation (b : N) : bool := ((128 <=? b) && (b <? 192))%N.

(** The code points that a sequence of bytes encodes in UTF-8. A byte that
    begins no well-formed sequence does not occur in the encoding of a
    [str]; it is kept as it is. *)
Fixpoint decode_bytes (bs : list N) : ustr :=
  match bs with
  | [] => []
  | b0 :: r0 =>
      if (b0 <? 128)%N then b0 :: decode_bytes r0
      else
        match r0 with
        | b1 :: r1 =>
            if ((192 <=? b0) && (b0 <? 224) && is_continuation b1)%N then
              ((b0 - 192) * 64 + (b1 - 128))%N :: decode_bytes r1
            else
              match r1 with
              | b2 :: r2 =>
                  if ((224 <=? b0) && (b0 <? 240)
                      && is_continuation b1 && is_continuation b2)%N then
                    ((b0 - 224) * 4096 + (b1 - 128) * 64 + (b2 - 128))%N :: decode_bytes r2
                  else
                    match r2 with
                    | b3 :: r3 =>
                        if ((240 <=? b0) && (b0 <? 248) && is_continuation b1
                            && is_continuation b2 && is_continuation b3)%N then
                          ((b0 - 240) * 262144 + (b1 - 128) * 4096
                           + (b2 - 128) * 64 + (b3 - 128))%N :: decode_bytes r3
                        else b0 :: decode_bytes r0
                    | [] => b0 :: decode_bytes r0
                    end
              | [] => b0 :: decode_bytes r0
              end
        | [] => b0 :: decode_bytes r0
        end
  end.

(** The code points of a string. *)
Definition decode (s : string) : ustr := decode_bytes (bytes s).

(** The characters [str.split()] treats as separators: those for which
    [str.isspace()] holds. *)
Definition is_space (c : N) : bool :=
  (((9 <=? c) && (c <=? 13)) || ((28 <=? c) && (c <=? 32)) || (c =? 133) || (c =? 160)
   || (c =? 5760) || ((8192 <=? c) && (c <=? 8202)) || (c =? 8232) || (c =? 8233)
   || (c =? 8239) || (c =? 8287) || (c =? 12288))%N.

Definition flush (cur : ustr) (acc : list ustr) : list ustr :=
  match cur with
  | [] => acc
  | _ => cur :: acc
  end.

(** Scans from the right: [cur] is the token being read, [acc] the tokens
    already complete to its right. *)
Fixpoint split_aux (s : ustr) : ustr * list ustr :=
  match s with
  | [] => ([], [])
  | c :: s' =>
      let '(cur, acc) := split_aux s' in
      if is_space c then ([], flush cur acc) else (c :: cur, acc)
  end.

(** [str.split()] with no argument: maximal runs of non-blank characters. *)
Definition split (s : ustr) : list ustr :=
  let '(cur, acc) := split_aux s in flush cur acc.

(** [sep.join(parts)] *)
Fixpoint join (sep : ustr) (parts : list ustr) : ustr :=
  match parts with
  | [] => []
  | [p] => p
  | p :: ps => (p ++ sep ++ join sep ps)%list
  end.

Fixpoint is_prefix (p s : ustr) : bool :=
  match p, s with
  | [], _ => true
  | a :: p', b :: s' => ((a =? b)%N && is_prefix p' s')%bool
  | _ :: _, [] => false
  end.

(** [needle in hay] *)
Fixpoint contains (needle hay : ustr) : bool :=
  (is_prefix needle hay ||
   match hay with
   | [] => false
   | _ :: hay' => contains needle hay'
   end)%bool.

(** The code points of an ASCII literal. *)
Definition of_string (s : string) : ustr := bytes s.

End PyUni.

(** [str(z)] for a Python [int]. *)
Definition py_int (z : Z) : string := NilZero.string_of_int (Z.to_int z).

(** ** Exceptions and the method monad *)

(** The exceptions of the program, and [RequestException] for those that
    the [requests] library raises (connection errors, timeouts, a body that
    is not JSON): all are subclasses of [Exception]. *)
Inductive exn : Type :=
| ValueError (msg : string)
| RuntimeError (msg : string)
| IndexError (msg : string)
| WikipediaAPIError (msg : string)
| RequestException (msg : string).

Inductive outcome (A : Type) : Type :=
| Ret (a : A)
| Raise (e : exn)
| OutOfFuel.
Arguments Ret {A} a.
Arguments Raise {A} e.
Arguments OutOfFuel {A}.

(** ** The environment: API answers, set iteration order, similarity *)

(** A request that gives no JSON answer: the endpoint answers with a status
    other than 200 ([text] is [resp.text[:200]]), or [session.get] or
    [resp.json()] raises. *)
Inductive ApiFailure : Type :=
| BadStatus (status_code : Z) (text : string)
| RequestFailed (msg : string).

(** The exception with which [_api_get] ends on such a request. *)
Definition api_exn (f : ApiFailure) : exn :=
  match f with
  | BadStatus status_code text =>
      WikipediaAPIError ("Bad status " ++ py_int status_code ++ ": " ++ text)
  | RequestFailed msg => RequestException msg
  end.

Inductive ApiResult (A : Type) : Type :=
| ApiOk (a : A)
| ApiFail (f : ApiFailure).
Arguments ApiOk {A} a.
Arguments ApiFail {A} f.

Record PageInfo := { pi_missing : bool; pi_title : string }.
Record LinkEntry := { le_ns : Z; le_title : string }.

(** The answers to one paginated query, followed through its continuation
    tokens. [ChainFail] stands for a request on which [_api_get] raises. *)
Inductive QueryChain : Type :=
| ChainFail (f : ApiFailure)
| ChainLast (entries : list LinkEntry)
| ChainMore (entries : list LinkEntry) (token : string) (next : QueryChain).

Inductive Request : Type :=
| ReqInfo (title : string)
| ReqLinks (title : string) (plcontinue : option string)
| ReqLinksHere (title : string) (lhcontinue : option string)
| ReqRandom (ns : Z)
| ReqSearch (query : string) (limit : Z).

Record Env := {
  api_info : string → ApiResult (list PageInfo);
  api_links : string → QueryChain;
  api_linkshere : string → QueryChain;
  api_random : Z → ApiResult (list string);
  api_search : string → Z → ApiResult (list string);
  set_iter : gset string → list string;
  set_iter_perm : ∀ s, set_iter s ≡ₚ elements s;
  str_lower : string → string;
  seq_ratio : string → string → float;
  seq_ratio_range : ∀ a b, (0 <=? seq_ratio a b)%float && (seq_ratio a b <=? 1)%float = true
}.

(** ** The crawler object *)

Record DiGraph := { g_nodes : gset string; g_edges : gset (string * string) }.

Inductive Method := MBfs | MBest | MBidiFwd | MBidiBwd.

Inductive Note : Type :=
| NoteTargetFound
| NoteEnqueuedFrom (current : string)
| NoteHeuristicTop (k : Z)
| NoteMeetingFwd
| NoteMeetingBwd
| NoteFwdEnqueuedFrom (current : string)
| NoteBwdEnqueued (n current : string).

Record Decision := {
  d_method : Method;
  d_depth : Z;
  d_note : Note;
  d_score : option float
}.

Inductive Frontier := QBfs | QHeap | QFwd | QBwd.

(** Observations of a run, most recent first. The program never reads them:
    they record the requests that reach the endpoint, the calls of the two
    link fetchers and the frontier operations. *)
Inductive Event : Type :=
| EvApi (r : Request)
| EvGetLinks (title : string)
| EvGetLinksHere (title : string)
| EvEnqueue (f : Frontier) (node : string) (depth : Z)
| EvDequeue (f : Frontier) (node : string) (depth : Z).

Record Crawler := {
  link_cache : gmap string (gset string);
  linkshere_cache : gmap string (gset string);
  title_cache : gmap string string;
  crawl_graph : DiGraph;
  decision_info : gmap (string * string) Decision;
  trace : list Event
}.

Definition M (A : Type) : Type := Crawler → outcome A * Crawler.

Definition ret {A} (a : A) : M A := fun c => (Ret a, c).
Definition raise {A} (e : exn) : M A := fun c => (Raise e, c).

Definition bind {A B} (m : M A) (k : A → M B) : M B := fun c =>
  match m c with
  | (Ret a, c') => k a c'
  | (Raise e, c') => (Raise e, c')
  | (OutOfFuel, c') => (OutOfFuel, c')
  end.

Notation "'let!' x ':=' m 'in' k" := (bind m (fun x => k))
  (at level 10, x pattern, m at level 100, k at level 200, only parsing).
Notation "'run!' m 'in' k" := (bind m (fun _ => k))
  (at level 10, m at level 100, k at level 200, only parsing).

Definition modify (f : Crawler → Crawler) : M unit := fun c => (Ret tt, f c).
Definition gets {A} (f : Crawler → A) : M A := fun c => (Ret (f c), c).

(** [try: m except Exception: handler]. *)
Definition try_except {A} (m : M A) (handler : exn → M A) : M A := fun c =>
  match m c with
  | (Raise e, c') => handler e c'
  | r => r
  end.

(** Attribute updates of the crawler object. *)
Definition add_event (e : Event) (c : Crawler) : Crawler :=
  {| link_cache := link_cache c; linkshere_cache := linkshere_cache c;
     title_cache := title_cache c; crawl_graph := crawl_graph c;
     decision_info := decision_info c; trace := e :: trace c |}.

Definition with_title_cache (tc : gmap string string) (c : Crawler) : Crawler :=
  {| link_cache := link_cache c; linkshere_cache := linkshere_cache c;
     title_cache := tc; crawl_graph := crawl_graph c;
     decision_info := decision_info c; trace := trace c |}.

Definition with_link_cache (lc : gmap string (gset string)) (c : Crawler) : Crawler :=
  {| link_cache := lc; linkshere_cache := linkshere_cache c;
     title_cache := title_cache c; crawl_graph := crawl_graph c;
     decision_info := decision_info c; trace := trace c |}.

Definition with_linkshere_cache (lc : gmap string (gset string)) (c : Crawler) : Crawler :=
  {| link_cache := link_cache c; linkshere_cache := lc;
     title_cache := title_cache c; crawl_graph := crawl_graph c;
     decision_info := decision_info c; trace := trace c |}.

Definition with_crawl_graph (g : DiGraph) (c : Crawler) : Crawler :=
  {| link_cache := link_cache c; linkshere_cache := linkshere_cache c;
     title_cache := title_cache c; crawl_graph := g;
     decision_info := decision_info c; trace := trace c |}.

Definition with_decision_info (d : gmap (string * string) Decision) (c : Crawler) : Crawler :=
  {| link_cache := link_cache c; linkshere_cache := linkshere_cache c;
     title_cache := title_cache c; crawl_graph := crawl_graph c;
     decision_info := d; trace := trace c |}.

Definition emit (e : Event) : M unit := modify (add_event e).
Definition set_title_cache (tc : gmap string string) : M unit := modify (with_title_cache tc).
Definition set_link_cache (lc : gmap string (gset string)) : M unit := modify (with_link_cache lc).
Definition set_linkshere_cache (lc : gmap string (gset string)) : M unit :=
  modify (with_linkshere_cache lc).
Definition set_crawl_graph (g : DiGraph) : M unit := modify (with_crawl_graph g).
Definition set_decision_info (d : gmap (string * string) Decision) : M unit :=
  modify (with_decision_info d).

(** [WikiCrawler.__init__]: empty caches, empty graph, no decisions. *)
Definition new_crawler : Crawler :=
  {| link_cache := ∅; linkshere_cache := ∅; title_cache := ∅;
     crawl_graph := {| g_nodes := ∅; g_edges := ∅ |};
     decision_info := ∅; trace := [] |}.

(** networkx [DiGraph] operations used by the searches. *)
Definition empty_graph : DiGraph := {| g_nodes := ∅; g_edges := ∅ |}.

Definition add_node (n : string) (g : DiGraph) : DiGraph :=
  {| g_nodes := {[n]} ∪ g_nodes g; g_edges := g_edges g |}.

Definition add_edge (u v : string) (g : DiGraph) : DiGraph :=
  {| g_nodes := {[u]} ∪ ({[v]} ∪ g_nodes g);
     g_edges := {[(u, v)]} ∪ g_edges g |}.

Definition has_node (n : string) (g : DiGraph) : bool := bool_decide (n ∈ g_nodes g).
Definition has_edge (u v : string) (g : DiGraph) : bool := bool_decide ((u, v) ∈ g_edges g).

(** A generic [while] loop: [step] tests the loop condition, runs the body
    once and says whether the loop goes on. *)
Inductive StepResult (S A : Type) : Type :=
| Continue (s : S)
| Done (a : A).
Arguments Continue {S A} s.
Arguments Done {S A} a.

Fixpoint run_loop {S A} (step : S → M (StepResult S A)) (fuel : nat) (s : S) : M A :=
  match fuel with
  | O => fun c => (OutOfFuel, c)
  | Datatypes.S fuel' =>
      let! r := step s in
      match r with
      | Continue s' => run_loop step fuel' s'
      | Done a => ret a
      end
  end.

(** ** Methods of [WikiCrawler] *)

Section Methods.

Context (env : Env).

(** [_api_get] for a [prop=info] query with [redirects=1]. *)
Definition api_get_info (title : string) : M (list PageInfo) :=
  run! emit (EvApi (ReqInfo title)) in
  match api_info env title with
  | ApiOk pages => ret pages
  | ApiFail f => raise (api_exn f)
  end.

Definition resolve_title (title : string) : M (option string) :=
  let! tc := gets title_cache in
  match tc !! title with
  | Some canonical => ret (Some canonical)
  | None =>
      let! pages := api_get_info title in
      match pages with
      | [] => ret None
      | page :: _ =>
          if pi_missing page then ret None
          else
            let normalized_title := pi_title page in
            run! set_title_cache
                   (<[normalized_title := normalized_title]>
                      (<[title := normalized_title]> tc)) in
            ret (Some normalized_title)
      end
  end.

Definition random_page_title (namespace : Z) : M string :=
  run! emit (EvApi (ReqRandom namespace)) in
  match api_random env namespace with
  | ApiFail f => raise (api_exn f)
  | ApiOk [] => raise (WikipediaAPIError "Could not fetch random page")
  | ApiOk (title :: _) => ret title
  end.

Definition search_title (query : string) (limit : Z) : M (option string) :=
  run! emit (EvApi (ReqSearch query limit)) in
  match api_search env query limit with
  | ApiFail f => raise (api_exn f)
  | ApiOk [] => ret None
  | ApiOk (title :: _) => ret (Some title)
  end.

(** One batch of a [prop=links] answer: the titles in namespace 0. *)
Definition add_links (entries : list LinkEntry) (links : gset string) : gset string :=
  fold_left (fun acc l => if le_ns l =? 0 then {[le_title l]} ∪ acc else acc)
            entries links.

(** One batch of a [prop=linkshere] answer. *)
Definition add_incoming (entries : list LinkEntry) (incoming : gset string) : gset string :=
  fold_left (fun acc l => {[le_title l]} ∪ acc) entries incoming.

(** The [while True] loop of a paginated query: one request per batch, until
    an answer carries no (or an empty) continuation token. *)
Fixpoint fetch_all (mk : option string → Request)
    (add : list LinkEntry → gset string → gset string)
    (cont : option string) (chain : QueryChain) (acc : gset string) : M (gset string) :=
  run! emit (EvApi (mk cont)) in
  match chain with
  | ChainFail f => raise (api_exn f)
  | ChainLast entries => ret (add entries acc)
  | ChainMore entries token next =>
      if String.eqb token EmptyString then ret (add entries acc)
      else fetch_all mk add (Some token) next (add entries acc)
  end.

Definition get_links (title : string) : M (gset string) :=
  run! emit (EvGetLinks title) in
  let! resolved := resolve_title title in
  match resolved with
  | None => ret ∅
  | Some normalized_title =>
      if String.eqb normalized_title EmptyString then ret ∅
      else
        let! lc := gets link_cache in
        match lc !! normalized_title with
        | Some links => ret links
        | None =>
            let! links := fetch_all (ReqLinks normalized_title) add_links None
                            (api_links env normalized_title) ∅ in
            let! lc := gets link_cache in
            run! set_link_cache (<[normalized_title := links]> lc) in
            ret links
        end
  end.

Definition get_linkshere (title : string) : M (gset string) :=
  run! emit (EvGetLinksHere title) in
  let! resolved := resolve_title title in
  match resolved with
  | None => ret ∅
  | Some normalized_title =>
      if String.eqb normalized_title EmptyString then ret ∅
      else
        let! lc := gets linkshere_cache in
        match lc !! normalized_title with
        | Some incoming => ret incoming
        | None =>
            let! incoming := fetch_all (ReqLinksHere normalized_title) add_incoming None
                               (api_linkshere env normalized_title) ∅ in
            let! lc := gets linkshere_cache in
            run! set_linkshere_cache (<[normalized_title := incoming]> lc) in
            ret incoming
        end
  end.

(** The [try: ... except Exception: neighbors = set()] around a fetch. *)
Definition links_or_empty (fetch : string → M (gset string)) (current : string) : M (gset string) :=
  try_except (fetch current) (fun _ => ret ∅).

(** [for n in neighbors: add_node(n) / add_edge(current, n)] unless present. *)
Definition record_edge (mk : string → string * string) (g : DiGraph) (n : string) : DiGraph :=
  let g := if has_node n g then g else add_node n g in
  let '(u, v) := mk n in
  if has_edge u v g then g else add_edge u v g.

Definition record_edges (mk : string → string * string) (ns : list string) : M unit :=
  let! g := gets crawl_graph in
  set_crawl_graph (fold_left (record_edge mk) ns g).

Definition set_decision (k : string * string) (d : Decision) : M unit :=
  let! di := gets decision_info in
  set_decision_info (<[k := d]> di).

(** *** Breadth-first search *)

Record BfsState := {
  bfs_q : list (string * list string * Z);
  bfs_visited : gset string;
  bfs_visited_count : Z
}.

Definition bfs_enqueue (current : string) (depth : Z) (path : list string)
    (acc : list (string * list string * Z) * gset string) (n : string)
    : M (list (string * list string * Z) * gset string) :=
  let '(q, visited) := acc in
  if bool_decide (n ∈ visited) then ret (q, visited)
  else
    run! emit (EvEnqueue QBfs n (depth + 1)) in
    run! set_decision (current, n)
           {| d_method := MBfs; d_depth := depth + 1;
              d_note := NoteEnqueuedFrom current; d_score := None |} in
    ret ((q ++ [(n, (path ++ [n])%list, depth + 1)])%list, {[n]} ∪ visited).

(** A [for] loop whose body runs in the method monad. *)
Fixpoint for_each {A S} (body : S → A → M S) (l : list A) (s : S) : M S :=
  match l with
  | [] => ret s
  | x :: l' => let! s' := body s x in for_each body l' s'
  end.

Definition bfs_step (target : string) (max_depth max_visited : Z) (s : BfsState)
    : M (StepResult BfsState (option (list string))) :=
  match bfs_q s with
  | [] => ret (Done None)
  | (current, path, depth) :: q =>
      run! emit (EvDequeue QBfs current depth) in
      let visited_count := bfs_visited_count s + 1 in
      if max_visited <? visited_count then
        raise (RuntimeError "Visited cap exceeded; aborting")
      else if max_depth <=? depth then
        ret (Continue {| bfs_q := q; bfs_visited := bfs_visited s;
                         bfs_visited_count := visited_count |})
      else
        let! neighbors := links_or_empty get_links current in
        run! record_edges (fun n => (current, n)) (set_iter env neighbors) in
        if bool_decide (target ∈ neighbors) then
          run! set_decision (current, target)
                 {| d_method := MBfs; d_depth := depth + 1;
                    d_note := NoteTargetFound; d_score := None |} in
          ret (Done (Some (path ++ [target])%list))
        else
          let! (q', visited') :=
            for_each (bfs_enqueue current depth path) (set_iter env neighbors)
                     (q, bfs_visited s) in
          ret (Continue {| bfs_q := q'; bfs_visited := visited';
                           bfs_visited_count := visited_count |})
  end.

(** The number of loop iterations is bounded by the visited cap: one more
    dequeue than [max_visited] raises. *)
Definition loop_fuel (max_visited : Z) : nat := Datatypes.S (Z.to_nat max_visited).

Definition find_path_bfs (start_title target_title : string) (max_depth max_visited : Z)
    : M (option (list string)) :=
  let! start := resolve_title start_title in
  match start with
  | None => raise (ValueError ("Start page not found: " ++ start_title))
  | Some start =>
      let! target := resolve_title target_title in
      match target with
      | None => raise (ValueError ("Target page not found: " ++ target_title))
      | Some target =>
          run! set_crawl_graph (add_node start empty_graph) in
          run! set_decision_info ∅ in
          if String.eqb start target then ret (Some [start])
          else
            run! emit (EvEnqueue QBfs start 0) in
            run_loop (bfs_step target max_depth max_visited) (loop_fuel max_visited)
              {| bfs_q := [(start, [start], 0)]; bfs_visited := {[start]};
                 bfs_visited_count := 0 |}
      end
  end.

(** *** Heuristic best-first search *)

Definition title_score (candidate_title target_title : string) : float :=
  let ratio := seq_ratio env (str_lower env candidate_title) (str_lower env target_title) in
  let score := ratio in
  let target_tokens :=
    List.filter (fun t => (2 <? length t)%nat)
                (PyUni.split (PyUni.decode (str_lower env target_title))) in
  let cand_lower := PyUni.decode (str_lower env candidate_title) in
  let token_bonus :=
    fold_left (fun token_bonus tkn =>
                 if PyUni.contains tkn cand_lower then (token_bonus + 0.25)%float
                 else token_bonus)
              target_tokens 0%float in
  (score + token_bonus)%float.

(** A heap entry is the tuple [(-score, depth, uid, node, path)]. *)
Record HeapEntry := {
  h_neg_score : float;
  h_depth : Z;
  h_uid : Z;
  h_node : string;
  h_path : list string
}.

Fixpoint path_compare (a b : list string) : comparison :=
  match a, b with
  | [], [] => Eq
  | [], _ :: _ => Lt
  | _ :: _, [] => Gt
  | x :: a', y :: b' =>
      match String.compare x y with
      | Eq => path_compare a' b'
      | c => c
      end
  end.

(** The order of the components that follow the score. *)
Definition entry_rest_compare (a b : HeapEntry) : comparison :=
  match Z.compare (h_depth a) (h_depth b) with
  | Eq =>
      match Z.compare (h_uid a) (h_uid b) with
      | Eq =>
          match String.compare (h_node a) (h_node b) with
          | Eq => path_compare (h_path a) (h_path b)
          | c => c
          end
      | c => c
      end
  | c => c
  end.

(** Python's [<] on tuples: the first components that are not equal
    ([==]) decide. *)
Definition entry_ltb (a b : HeapEntry) : bool :=
  if (h_neg_score a =? h_neg_score b)%float then
    match entry_rest_compare a b with
    | Lt => true
    | _ => false
    end
  else (h_neg_score a <? h_neg_score b)%float.

(** [heapq]: the heap is kept as a list; [heappop] removes and returns its
    least tuple. The tuples of a heap are totally ordered: their scores are
    numbers and their uids differ. *)
Definition heappush (h : list HeapEntry) (x : HeapEntry) : list HeapEntry := x :: h.

Fixpoint pop_least (x : HeapEntry) (l : list HeapEntry) : HeapEntry * list HeapEntry :=
  match l with
  | [] => (x, [])
  | y :: l' =>
      let '(m, rest) := pop_least y l' in
      if entry_ltb m x then (m, x :: rest) else (x, l)
  end.

Definition heappop (h : list HeapEntry) : option (HeapEntry * list HeapEntry) :=
  match h with
  | [] => None
  | x :: l => Some (pop_least x l)
  end.

(** [scored.sort(reverse=True, key=lambda x: x[0])]: a stable sort by
    decreasing score. *)
Fixpoint insert_desc (x : float * string) (l : list (float * string))
    : list (float * string) :=
  match l with
  | [] => [x]
  | y :: l' => if (fst x <? fst y)%float then y :: insert_desc x l' else x :: l
  end.

Definition sort_desc (l : list (float * string)) : list (float * string) :=
  foldr insert_desc [] l.

Record BestState := {
  bf_heap : list HeapEntry;
  bf_visited : gset string;
  bf_visited_count : Z;
  bf_uid_counter : Z
}.

(** [scored]: the neighbours outside [visited], each with its score. *)
Definition score_unvisited (target : string) (visited : gset string) (ns : list string)
    : list (float * string) :=
  fold_left (fun scored n =>
               if bool_decide (n ∈ visited) then scored
               else (scored ++ [(title_score n target, n)])%list)
            ns [].

Definition best_enqueue (current : string) (depth : Z) (path : list string) (top_len : Z)
    (acc : list HeapEntry * gset string * Z) (item : float * string)
    : M (list HeapEntry * gset string * Z) :=
  let '(heap, visited, uid_counter) := acc in
  let '(sc, n) := item in
  if bool_decide (n ∈ visited) then ret (heap, visited, uid_counter)
  else
    let uid_counter := uid_counter + 1 in
    run! emit (EvEnqueue QHeap n (depth + 1)) in
    run! set_decision (current, n)
           {| d_method := MBest; d_depth := depth + 1;
              d_note := NoteHeuristicTop top_len; d_score := Some sc |} in
    ret (heappush heap {| h_neg_score := (- sc)%float; h_depth := depth + 1;
                          h_uid := uid_counter; h_node := n;
                          h_path := (path ++ [n])%list |},
         {[n]} ∪ visited, uid_counter).

Definition best_step (target : string) (max_depth max_visited max_branch : Z) (s : BestState)
    : M (StepResult BestState (option (list string))) :=
  match heappop (bf_heap s) with
  | None => ret (Done None)
  | Some (top, heap) =>
      let current := h_node top in
      let depth := h_depth top in
      let path := h_path top in
      run! emit (EvDequeue QHeap current depth) in
      let visited_count := bf_visited_count s + 1 in
      if max_visited <? visited_count then
        raise (RuntimeError "Visited cap exceeded; aborting")
      else if max_depth <=? depth then
        ret (Continue {| bf_heap := heap; bf_visited := bf_visited s;
                         bf_visited_count := visited_count;
                         bf_uid_counter := bf_uid_counter s |})
      else
        let! neighbors := links_or_empty get_links current in
        run! record_edges (fun n => (current, n)) (set_iter env neighbors) in
        if bool_decide (target ∈ neighbors) then
          run! set_decision (current, target)
                 {| d_method := MBest; d_depth := depth + 1;
                    d_note := NoteTargetFound; d_score := None |} in
          ret (Done (Some (path ++ [target])%list))
        else
          let scored := score_unvisited target (bf_visited s) (set_iter env neighbors) in
          match scored with
          | [] =>
              ret (Continue {| bf_heap := heap; bf_visited := bf_visited s;
                               bf_visited_count := visited_count;
                               bf_uid_counter := bf_uid_counter s |})
          | _ :: _ =>
              let top_neighbors := PyStr.slice_to max_branch (sort_desc scored) in
              let! (hv, uid') :=
                for_each (best_enqueue current depth path (Z.of_nat (length top_neighbors)))
                         top_neighbors (heap, bf_visited s, bf_uid_counter s) in
              ret (Continue {| bf_heap := fst hv; bf_visited := snd hv;
                               bf_visited_count := visited_count;
                               bf_uid_counter := uid' |})
          end
  end.

(** The heap, the visited set and the counters on entry to the loop. *)
Definition best_initial (start target : string) : BestState :=
  let start_score := title_score start target in
  {| bf_heap := heappush [] {| h_neg_score := (- start_score)%float; h_depth := 0;
                               h_uid := 0; h_node := start; h_path := [start] |};
     bf_visited := {[start]}; bf_visited_count := 0; bf_uid_counter := 1 |}.

Definition find_path_best_first (start_title target_title : string)
    (max_depth max_visited max_branch : Z) : M (option (list string)) :=
  let! start := resolve_title start_title in
  match start with
  | None => raise (ValueError ("Start page not found: " ++ start_title))
  | Some start =>
      let! target := resolve_title target_title in
      match target with
      | None => raise (ValueError ("Target page not found: " ++ target_title))
      | Some target =>
          run! set_crawl_graph (add_node start empty_graph) in
          run! set_decision_info ∅ in
          if String.eqb start target then ret (Some [start])
          else
            run! emit (EvEnqueue QHeap start 0) in
            run_loop (best_step target max_depth max_visited max_branch)
              (loop_fuel max_visited) (best_initial start target)
      end
  end.

(** *** Bidirectional breadth-first search *)

(** [parent.get(node)]: [None] for a missing key and for a key bound to
    [None]. *)
Definition parent_get (parent : gmap string (option string)) (node : string) : option string :=
  mjoin (parent !! node).

(** [while node is not None: left.append(node); node = parent_fwd.get(node)] *)
Fixpoint walk_left (fuel : nat) (parent_fwd : gmap string (option string))
    (node : option string) (left_ : list string) : option (list string) :=
  match node with
  | None => Some left_
  | Some n =>
      match fuel with
      | O => None
      | Datatypes.S fuel' => walk_left fuel' parent_fwd (parent_get parent_fwd n) (left_ ++ [n])%list
      end
  end.

(** [while cur is not None and cur != target: ...] *)
Fixpoint walk_right (fuel : nat) (parent_bwd : gmap string (option string))
    (target cur : string) (right_ : list string) : option (list string) :=
  if String.eqb cur target then Some right_
  else
    match parent_get parent_bwd cur with
    | None => Some right_
    | Some nxt =>
        match fuel with
        | O => None
        | Datatypes.S fuel' => walk_right fuel' parent_bwd target nxt (right_ ++ [nxt])%list
        end
    end.

Definition lift_fuel {A} (o : option A) : M A := fun c =>
  match o with
  | Some a => (Ret a, c)
  | None => (OutOfFuel, c)
  end.

Definition reconstruct_bidi_path (parent_fwd parent_bwd : gmap string (option string))
    (meeting_node start target : string) : M (list string) :=
  let! left_ := lift_fuel (walk_left (Datatypes.S (size parent_fwd)) parent_fwd
                                    (Some meeting_node) []) in
  let left_ := reverse left_ in
  let! right_ := lift_fuel (walk_right (Datatypes.S (size parent_bwd)) parent_bwd
                                      target meeting_node []) in
  let full_path := (left_ ++ right_)%list in
  match full_path with
  | [] => raise (IndexError "list index out of range")
  | first :: _ =>
      let full_path := if String.eqb first start then full_path else start :: full_path in
      match last full_path with
      | None => raise (IndexError "list index out of range")
      | Some final =>
          ret (if String.eqb final target then full_path else (full_path ++ [target])%list)
      end
  end.

Record BidiState := {
  parent_fwd : gmap string (option string);
  parent_bwd : gmap string (option string);
  q_fwd : list (string * Z);
  q_bwd : list (string * Z);
  visited_fwd : gset string;
  visited_bwd : gset string;
  bidi_visited_count : Z
}.

Definition fwd_enqueue (current : string) (depth : Z)
    (acc : gmap string (option string) * list (string * Z) * gset string) (n : string)
    : M (gmap string (option string) * list (string * Z) * gset string) :=
  let '(parent, q, visited) := acc in
  if bool_decide (n ∈ visited) then ret (parent, q, visited)
  else
    run! emit (EvEnqueue QFwd n (depth + 1)) in
    run! set_decision (current, n)
           {| d_method := MBidiFwd; d_depth := depth + 1;
              d_note := NoteFwdEnqueuedFrom current; d_score := None |} in
    ret (<[n := Some current]> parent, (q ++ [(n, depth + 1)])%list, {[n]} ∪ visited).

Definition bwd_enqueue (current : string) (depth : Z)
    (acc : gmap string (option string) * list (string * Z) * gset string) (n : string)
    : M (gmap string (option string) * list (string * Z) * gset string) :=
  let '(parent, q, visited) := acc in
  if bool_decide (n ∈ visited) then ret (parent, q, visited)
  else
    run! emit (EvEnqueue QBwd n (depth + 1)) in
    run! set_decision (n, current)
           {| d_method := MBidiBwd; d_depth := depth + 1;
              d_note := NoteBwdEnqueued n current; d_score := None |} in
    ret (<[n := Some current]> parent, (q ++ [(n, depth + 1)])%list, {[n]} ∪ visited).

(** [if key not in self.decision_info: self.decision_info[key] = d] *)
Definition set_decision_if_absent (k : string * string) (d : Decision) : M unit :=
  let! di := gets decision_info in
  match di !! k with
  | Some _ => ret tt
  | None => set_decision_info (<[k := d]> di)
  end.

Definition bidi_step (start target : string) (max_depth max_visited : Z) (s : BidiState)
    : M (StepResult BidiState (option (list string))) :=
  match q_fwd s, q_bwd s with
  | [], _ => ret (Done None)
  | _ :: _, [] => ret (Done None)
  | (fcur, fdepth) :: qf, (bcur, bdepth) :: qb =>
      let visited_count := bidi_visited_count s + 1 in
      if (length (q_fwd s) <=? length (q_bwd s))%nat then
        let current := fcur in
        let depth := fdepth in
        run! emit (EvDequeue QFwd current depth) in
        if max_visited <? visited_count then
          raise (RuntimeError "Visited cap exceeded; aborting")
        else if max_depth <=? depth then
          ret (Continue {| parent_fwd := parent_fwd s; parent_bwd := parent_bwd s;
                           q_fwd := qf; q_bwd := q_bwd s;
                           visited_fwd := visited_fwd s; visited_bwd := visited_bwd s;
                           bidi_visited_count := visited_count |})
        else
          let! neighbors := links_or_empty get_links current in
          run! record_edges (fun n => (current, n)) (set_iter env neighbors) in
          let inter := neighbors ∩ visited_bwd s in
          match set_iter env inter with
          | meet :: _ =>
              run! set_decision_if_absent (current, meet)
                     {| d_method := MBidiFwd; d_depth := depth + 1;
                        d_note := NoteMeetingFwd; d_score := None |} in
              let! p := reconstruct_bidi_path (parent_fwd s) (parent_bwd s) meet start target in
              ret (Done (Some p))
          | [] =>
              let! (pq, visited') :=
                for_each (fwd_enqueue current depth) (set_iter env neighbors)
                         (parent_fwd s, qf, visited_fwd s) in
              ret (Continue {| parent_fwd := fst pq; parent_bwd := parent_bwd s;
                               q_fwd := snd pq; q_bwd := q_bwd s;
                               visited_fwd := visited'; visited_bwd := visited_bwd s;
                               bidi_visited_count := visited_count |})
          end
      else
        let current := bcur in
        let depth := bdepth in
        run! emit (EvDequeue QBwd current depth) in
        if max_visited <? visited_count then
          raise (RuntimeError "Visited cap exceeded; aborting")
        else if max_depth <=? depth then
          ret (Continue {| parent_fwd := parent_fwd s; parent_bwd := parent_bwd s;
                           q_fwd := q_fwd s; q_bwd := qb;
                           visited_fwd := visited_fwd s; visited_bwd := visited_bwd s;
                           bidi_visited_count := visited_count |})
        else
          let! incoming := links_or_empty get_linkshere current in
          run! record_edges (fun n => (n, current)) (set_iter env incoming) in
          let inter := incoming ∩ visited_fwd s in
          match set_iter env inter with
          | meet :: _ =>
              run! set_decision_if_absent (meet, current)
                     {| d_method := MBidiBwd; d_depth := depth + 1;
                        d_note := NoteMeetingBwd; d_score := None |} in
              let! p := reconstruct_bidi_path (parent_fwd s) (parent_bwd s) meet start target in
              ret (Done (Some p))
          | [] =>
              let! (pq, visited') :=
                for_each (bwd_enqueue current depth) (set_iter env incoming)
                         (parent_bwd s, qb, visited_bwd s) in
              ret (Continue {| parent_fwd := parent_fwd s; parent_bwd := fst pq;
                               q_fwd := q_fwd s; q_bwd := snd pq;
                               visited_fwd := visited_fwd s; visited_bwd := visited';
                               bidi_visited_count := visited_count |})
          end
  end.

Definition find_path_bidi (start_title target_title : string) (max_depth max_visited : Z)
    : M (option (list string)) :=
  let! start := resolve_title start_title in
  match start with
  | None => raise (ValueError ("Start page not found: " ++ start_title))
  | Some start =>
      let! target := resolve_title target_title in
      match target with
      | None => raise (ValueError ("Target page not found: " ++ target_title))
      | Some target =>
          if String.eqb start target then ret (Some [start])
          else
            run! set_crawl_graph (add_node target (add_node start empty_graph)) in
            run! set_decision_info ∅ in
            run! emit (EvEnqueue QFwd start 0) in
            run! emit (EvEnqueue QBwd target 0) in
            run_loop (bidi_step start target max_depth max_visited) (loop_fuel max_visited)
              {| parent_fwd := {[start := None]}; parent_bwd := {[target := None]};
                 q_fwd := [(start, 0)]; q_bwd := [(target, 0)];
                 visited_fwd := {[start]}; visited_bwd := {[target]};
                 bidi_visited_count := 0 |}
      end
  end.

End Methods.

(** ** Observations on a trace *)

#[global] Instance Frontier_eq_dec : EqDecision Frontier.
Proof. solve_decision. Defined.

Definition enqueue_of (f : Frontier) (e : Event) : option string :=
  match e with
  | EvEnqueue f' n _ => if decide (f' = f) then Some n else None
  | _ => None
  end.

Definition dequeue_of (f : Frontier) (e : Event) : option string :=
  match e with
  | EvDequeue f' n _ => if decide (f' = f) then Some n else None
  | _ => None
  end.

(** The nodes put on, respectively taken from, frontier [f] in [evs]. *)
Definition enqueued (f : Frontier) (evs : list Event) : list string := omap (enqueue_of f) evs.
Definition dequeued (f : Frontier) (evs : list Event) : list string := omap (dequeue_of f) evs.

Definition is_queue_event (e : Event) : bool :=
  match e with
  | EvEnqueue _ _ _ | EvDequeue _ _ _ => true
  | _ => false
  end.

Definition is_enqueue_event (e : Event) : bool :=
  match e with
  | EvEnqueue _ _ _ => true
  | _ => false
  end.

(** A request for links, outgoing or incoming. *)
Definition is_link_request (e : Event) : bool :=
  match e with
  | EvApi (ReqLinks _ _) | EvApi (ReqLinksHere _ _) => true
  | _ => false
  end.

Definition is_api_event (e : Event) : bool :=
  match e with
  | EvApi _ => true
  | _ => false
  end.

(** A call of [get_links] or [get_linkshere]. *)
Definition is_fetch_call (e : Event) : bool :=
  match e with
  | EvGetLinks _ | EvGetLinksHere _ => true
  | _ => false
  end.

(** [c'] is reached from [c] by adding events that all satisfy [P]. *)
Definition trace_grows (P : Event → bool) (c c' : Crawler) : Prop :=
  ∃ new, trace c' = (new ++ trace c)%list ∧ forallb P new = true.

(** ** Example environments *)

Definition assoc_links (g : list (string * list string)) (t : string) : list string :=
  match List.find (fun p => String.eqb (fst p) t) g with
  | Some p => snd p
  | None => []
  end.

Definition assoc_incoming (g : list (string * list string)) (t : string) : list string :=
  map fst (List.filter (fun p => existsb (String.eqb t) (snd p)) g).

Definition main_ns (l : list string) : list LinkEntry :=
  map (fun x => {| le_ns := 0; le_title := x |}) l.

Definition redirect_target (redirects : list (string * string)) (t : string) : string :=
  match List.find (fun p => String.eqb (fst p) t) redirects with
  | Some p => snd p
  | None => t
  end.

(** [str.lower] and [str.strip] on ASCII text, for the examples. *)
Definition lower_ascii_char (c : ascii) : ascii :=
  let n := nat_of_ascii c in
  if (Nat.leb 65 n && Nat.leb n 90)%bool then ascii_of_nat (n + 32) else c.

Fixpoint lower_ascii (s : string) : string :=
  match s with
  | EmptyString => EmptyString
  | String c s' => String (lower_ascii_char c) (lower_ascii s')
  end.





(** A small wiki: the titles of [missing] name no page, a title of
    [redirects] resolves to its target, every other title is canonical; the
    links are those of the adjacency list [g]; sets are iterated in the
    order of [elements]; the similarity ratio of any two titles is 0, so
    that a score is the token bonus. *)
Definition wiki_env (missing : list string) (redirects : list (string * string))
    (g : list (string * list string)) : Env :=
  {| api_info := fun t =>
       ApiOk [{| pi_missing := existsb (String.eqb t) missing;
                 pi_title := redirect_target redirects t |}];
     api_links := fun t => ChainLast (main_ns (assoc_links g t));
     api_linkshere := fun t => ChainLast (main_ns (assoc_incoming g t));
     api_random := fun _ => ApiOk [];
     api_search := fun _ _ => ApiOk [];
     set_iter := elements;
     set_iter_perm := fun s => reflexivity (elements s);
     str_lower := lower_ascii;
     seq_ratio := fun _ _ => 0%float;
     seq_ratio_range := fun _ _ => eq_refl |}.

Definition graph_env (g : list (string * list string)) : Env := wiki_env [] [] g.

(** ** Relations between the crawler before and after a method *)

(** [m] takes every crawler to an [R]-related one, whatever it returns. *)
Definition stable (R : Crawler → Crawler → Prop) {A} (m : M A) : Prop :=
  ∀ c, R c (m c).2.

(** No entry of the two link caches is removed or replaced. *)
Definition caches_kept (c c' : Crawler) : Prop :=
  link_cache c ⊆ link_cache c' ∧ linkshere_cache c ⊆ linkshere_cache c'.

(** The crawl graph and the decision info are the same. *)
Definition search_data_kept (c c' : Crawler) : Prop :=
  crawl_graph c' = crawl_graph c ∧ decision_info c' = decision_info c.

(** ** What the endpoint answers, without the crawler *)

Definition add_events (evs : list Event) (c : Crawler) : Crawler :=
  {| link_cache := link_cache c; linkshere_cache := linkshere_cache c;
     title_cache := title_cache c; crawl_graph := crawl_graph c;
     decision_info := decision_info c; trace := (evs ++ trace c)%list |}.

Section Endpoint.

Context (env : Env).

(** The canonical title the endpoint gives for [t]. *)
Definition resolve_pure (t : string) : outcome (option string) :=
  match api_info env t with
  | ApiFail f => Raise (api_exn f)
  | ApiOk [] => Ret None
  | ApiOk (page :: _) =>
      if pi_missing page then Ret None else Ret (Some (pi_title page))
  end.

(** The set a paginated query adds up to. *)
Fixpoint chain_result (add : list LinkEntry → gset string → gset string)
    (chain : QueryChain) (acc : gset string) : outcome (gset string) :=
  match chain with
  | ChainFail f => Raise (api_exn f)
  | ChainLast entries => Ret (add entries acc)
  | ChainMore entries token next =>
      if String.eqb token EmptyString then Ret (add entries acc)
      else chain_result add next (add entries acc)
  end.

(** The requests a paginated query sends, most recent first. *)
Fixpoint chain_requests (mk : option string → Request) (cont : option string)
    (chain : QueryChain) : list Event :=
  match chain with
  | ChainMore entries token next =>
      if String.eqb token EmptyString then [EvApi (mk cont)]
      else (chain_requests mk (Some token) next ++ [EvApi (mk cont)])%list
  | _ => [EvApi (mk cont)]
  end.

(** The caches hold what the endpoint answers. *)
Definition coherent (c : Crawler) : Prop :=
  (∀ t n, title_cache c !! t = Some n → resolve_pure t = Ret (Some n)) ∧
  (∀ n s, link_cache c !! n = Some s →
          chain_result (add_links) (api_links env n) ∅ = Ret s) ∧
  (∀ n s, linkshere_cache c !! n = Some s →
          chain_result (add_incoming) (api_linkshere env n) ∅ = Ret s).

(** A canonical title is its own canonical title. *)
Definition canonical_fixed : Prop :=
  ∀ t n, resolve_pure t = Ret (Some n) → resolve_pure n = Ret (Some n).

(** What [get_links], respectively [get_linkshere], returns on coherent
    caches. *)
Definition fetch_pure (add : list LinkEntry → gset string → gset string)
    (api : string → QueryChain) (t : string) : outcome (gset string) :=
  match resolve_pure t with
  | Ret None => Ret ∅
  | Ret (Some n) => if String.eqb n EmptyString then Ret ∅ else chain_result add (api n) ∅
  | Raise e => Raise e
  | OutOfFuel => OutOfFuel
  end.

Definition links_pure : string → outcome (gset string) :=
  fetch_pure add_links (api_links env).

Definition linkshere_pure : string → outcome (gset string) :=
  fetch_pure add_incoming (api_linkshere env).

(** The neighbours a search sees: a fetch that raises counts as empty. *)
Definition out_links (u : string) : gset string :=
  match links_pure u with
  | Ret s => s
  | _ => ∅
  end.

Definition in_links (u : string) : gset string :=
  match linkshere_pure u with
  | Ret s => s
  | _ => ∅
  end.

End Endpoint.

Definition is_info_request (e : Event) : bool :=
  match e with
  | EvApi (ReqInfo _) => true
  | _ => false
  end.

(** Events of a link fetcher: its call and the requests it sends. *)
Definition is_fetch_event (e : Event) : bool :=
  match e with
  | EvApi _ | EvGetLinks _ | EvGetLinksHere _ => true
  | _ => false
  end.

(** The three caches are the same. *)
Definition caches_same (c c' : Crawler) : Prop :=
  link_cache c' = link_cache c ∧ linkshere_cache c' = linkshere_cache c ∧
  title_cache c' = title_cache c.

(** The three searches, on the same arguments. *)
Definition searches (env : Env) (start_title target_title : string)
    (max_depth max_visited max_branch : Z) : list (M (option (list string))) :=
  [find_path_bfs env start_title target_title max_depth max_visited;
   find_path_best_first env start_title target_title max_depth max_visited max_branch;
   find_path_bidi env start_title target_title max_depth max_visited].

(** ** Operations on a crawler, as a client performs them *)

Inductive CrawlerOp : Type :=
| OpResolveTitle (title : string)
| OpRandomPageTitle (namespace : Z)
| OpSearchTitle (query : string) (limit : Z)
| OpGetLinks (title : string)
| OpGetLinksHere (title : string)
| OpFindPathBfs (start_title target_title : string) (max_depth max_visited : Z)
| OpFindPathBestFirst (start_title target_title : string)
    (max_depth max_visited max_branch : Z)
| OpFindPathBidi (start_title target_title : string) (max_depth max_visited : Z).

(** The crawler after one operation, whatever the operation returned. *)
Definition run_op (env : Env) (op : CrawlerOp) (c : Crawler) : Crawler :=
  match op with
  | OpResolveTitle t => (resolve_title env t c).2
  | OpRandomPageTitle ns => (random_page_title env ns c).2
  | OpSearchTitle q l => (search_title env q l c).2
  | OpGetLinks t => (get_links env t c).2
  | OpGetLinksHere t => (get_linkshere env t c).2
  | OpFindPathBfs s t d v => (find_path_bfs env s t d v c).2
  | OpFindPathBestFirst s t d v b => (find_path_best_first env s t d v b c).2
  | OpFindPathBidi s t d v => (find_path_bidi env s t d v c).2
  end.

Definition run_ops (env : Env) (ops : list CrawlerOp) (c : Crawler) : Crawler :=
  fold_left (fun c op => run_op env op c) ops c.

(** The two memoised fetchers and the cache of each. *)
Inductive LinkKind := Outgoing | Incoming.

Definition fetcher (env : Env) (k : LinkKind) : string → M (gset string) :=
  match k with
  | Outgoing => get_links env
  | Incoming => get_linkshere env
  end.

Definition cache_of (k : LinkKind) : Crawler → gmap string (gset string) :=
  match k with
  | Outgoing => link_cache
  | Incoming => linkshere_cache
  end.

(** ** Pure accounts of the loops *)

(** The elements of [ns] that an enqueuing [for] loop finds outside
    [visited], in the order it meets them. *)
Fixpoint fresh_nodes (visited : gset string) (ns : list string) : list string :=
  match ns with
  | [] => []
  | n :: ns' =>
      if bool_decide (n ∈ visited) then fresh_nodes visited ns'
      else n :: fresh_nodes ({[n]} ∪ visited) ns'
  end.

(** The titles [get_links] was called on in [evs]. *)
Definition get_links_call (e : Event) : option string :=
  match e with
  | EvGetLinks t => Some t
  | _ => None
  end.

Definition expanded (evs : list Event) : list string := omap get_links_call evs.

Definition is_dequeue_event (e : Event) : bool :=
  match e with
  | EvDequeue _ _ _ => true
  | _ => false
  end.

(** The number of nodes taken from a frontier in [evs]. *)
Definition dequeue_count (evs : list Event) : Z :=
  Z.of_nat (length (List.filter is_dequeue_event evs)).

(** ** Paths in a link graph *)

(** Every two consecutive nodes of [p] are joined by [E]. *)
Fixpoint walk (E : string → string → Prop) (p : list string) : Prop :=
  match p with
  | x :: ((y :: _) as p') => E x y ∧ walk E p'
  | _ => True
  end.

(** [p] leads from [s] to [t] along [E]. *)
Definition path_between (E : string → string → Prop) (s t : string) (p : list string) : Prop :=
  head p = Some s ∧ last p = Some t ∧ walk E p.

(** The link graph as [get_links] shows it on crawler [c]: [u] links to [v]
    when [get_links u] returns a set that holds [v]. *)
Definition links_to (env : Env) (c : Crawler) (u v : string) : Prop :=
  ∃ s, (get_links env u c).1 = Ret s ∧ v ∈ s.

(** [v] is [k] links away from [start]. *)
Inductive reach (E : string → string → Prop) (start : string) : nat → string → Prop :=
| reach_start : reach E start 0 start
| reach_step k u v : reach E start k u → E u v → reach E start (S k) v.

(** ** The invariant of the breadth-first loop *)

Section BfsInvariant.

Context (N : string → gset string) (start target : string).

Definition edge (u v : string) : Prop := v ∈ N u.

(** A queue entry carries a path from [start] to its node, of as many links
    as its depth, and no shorter walk leads to the node. *)
Definition bfs_entry_ok (visited : gset string) (e : string * list string * Z) : Prop :=
  path_between edge start e.1.1 e.1.2 ∧
  Z.of_nat (length e.1.2) = e.2 + 1 ∧
  e.1.1 ∈ visited ∧
  ∀ k, reach edge start k e.1.1 → e.2 ≤ Z.of_nat k.

(** The queue holds entries of depth [D] followed by entries of depth
    [D + 1]; every node within [D] links of [start] was visited; every
    visited node that left the queue was expanded: [target] is not among
    its neighbours, which were all visited. *)
Definition bfs_inv (D : Z) (s : BfsState) : Prop :=
  ∃ qa qb,
    bfs_q s = (qa ++ qb)%list ∧
    Forall (fun e => e.2 = D) qa ∧
    Forall (fun e => e.2 = D + 1) qb ∧
    Forall (bfs_entry_ok (bfs_visited s)) (bfs_q s) ∧
    NoDup (map (fun e => e.1.1) (bfs_q s)) ∧
    (∀ k v, reach edge start k v → Z.of_nat k ≤ D → v ∈ bfs_visited s) ∧
    (∀ v, v ∈ bfs_visited s → v ∉ map (fun e => e.1.1) (bfs_q s) →
          (target ∉ N v) ∧ (∀ w, w ∈ N v → w ∈ bfs_visited s)).

(** [path] leads to [target] and no walk to [target] has fewer links. *)
Definition shortest_to_target (path : list string) : Prop :=
  path_between edge start target path ∧
  ∀ k, reach edge start k target → (length path ≤ Datatypes.S k)%nat.

End BfsInvariant.

(** ** Pure accounts of the enqueuing loops of the other two searches *)

(** The scored neighbours that the pushing loop of best-first finds outside
    [visited], in the order it meets them. *)
Fixpoint fresh_scored (visited : gset string) (items : list (float * string))
    : list (float * string) :=
  match items with
  | [] => []
  | item :: items' =>
      if bool_decide (item.2 ∈ visited) then fresh_scored visited items'
      else item :: fresh_scored ({[item.2]} ∪ visited) items'
  end.

(** The heap and the uid counter after pushing [items] in order. *)
Fixpoint push_entries (depth : Z) (path : list string) (items : list (float * string))
    (heap : list HeapEntry) (uid_counter : Z) : list HeapEntry * Z :=
  match items with
  | [] => (heap, uid_counter)
  | item :: items' =>
      push_entries depth path items'
        (heappush heap {| h_neg_score := (- item.1)%float; h_depth := depth + 1;
                          h_uid := uid_counter + 1; h_node := item.2;
                          h_path := (path ++ [item.2])%list |})
        (uid_counter + 1)
  end.

(** The parent map after recording [current] as the parent of [ns]. *)
Definition set_parents (current : string) (ns : list string)
    (parent : gmap string (option string)) : gmap string (option string) :=
  fold_left (fun p n => <[n := Some current]> p) ns parent.

(** The outcome of an iteration that ends the search with the path [o]. *)
Definition found_path {S} (o : outcome (list string))
    : outcome (StepResult S (option (list string))) :=
  match o with
  | Ret p => Ret (Done (Some p))
  | Raise e => Raise e
  | OutOfFuel => OutOfFuel
  end.

(** The visited cap, read on the events [new] of a call with outcome [r]: a
    [RuntimeError] comes right after the dequeue that takes the number of
    dequeued nodes above [max_visited], and in no other case does that
    number exceed [max_visited] once a node was dequeued. *)
Definition cap_enforced {A} (max_visited : Z) (r : outcome A) (new : list Event) : Prop :=
  match r with
  | Raise (RuntimeError msg) =>
      msg = "Visited cap exceeded; aborting" ∧
      ∃ f n d new',
        new = EvDequeue f n d :: new' ∧
        max_visited < dequeue_count new ∧
        (dequeue_count new' ≤ max_visited ∨ dequeue_count new' = 0)
  | _ => dequeue_count new ≤ max_visited ∨ dequeue_count new = 0
  end.

(** Every entry of the heap carries the score of its node against the
    target, negated. *)
Definition heap_scored (env : Env) (target : string) (s : BestState) : Prop :=
  ∀ e, e ∈ bf_heap s → h_neg_score e = (- title_score env (h_node e) target)%float.

(** ** Small wikis used in the examples *)

(** [A] links to [B], which links to [T]. *)
Definition chain_env : Env := graph_env [("A", ["B"]); ("B", ["T"])].

(** [A] links to [B] and to [C]; nothing links to [T]. *)
Definition fork_env : Env := graph_env [("A", ["B"; "C"])].

(** [a] redirects to [A], which links to [B]. *)
Definition alias_env : Env := wiki_env [] [("a", "A")] [("A", ["B"])].

(** [X] names no page. *)
Definition gap_env : Env := wiki_env ["X"] [] [("A", ["B"])].

(** The state of the bidirectional loop on entry, from [start] to [target]. *)
Definition bidi_entry (start target : string) : BidiState :=
  {| parent_fwd := {[start := None]}; parent_bwd := {[target := None]};
     q_fwd := [(start, 0)]; q_bwd := [(target, 0)];
     visited_fwd := {[start]}; visited_bwd := {[target]};
     bidi_visited_count := 0 |}.

(** Scores in decreasing order. *)
Definition by_score_desc (a b : float * string) : Prop := (b.1 <=? a.1)%float = true.

(** ** The order of the floats *)

(** A float that is a number (not NaN). *)
Definition sf_num (x : spec_float) : Prop :=
  match x with
  | S754_nan => False
  | _ => True
  end.

(** A number that is not negative: a zero of either sign, a positive
    number, or plus infinity. *)
Definition sf_nonneg (x : spec_float) : Prop :=
  match x with
  | S754_zero _ | S754_infinity false | S754_finite false _ _ => True
  | _ => False
  end.

(** The position of a number in the order of the floats: its class first
    (minus infinity, negative, zero, positive, plus infinity), then its
    exponent and its mantissa. *)
Definition sf_rank (x : spec_float) : Z * Z * Z :=
  match x with
  | S754_infinity true => (-2, 0, 0)
  | S754_finite true m e => (-1, - e, Z.neg m)
  | S754_zero _ | S754_nan => (0, 0, 0)
  | S754_finite false m e => (1, e, Z.pos m)
  | S754_infinity false => (2, 0, 0)
  end.

Definition rank_lt (a b : Z * Z * Z) : Prop :=
  a.1.1 < b.1.1 ∨ (a.1.1 = b.1.1 ∧ (a.1.2 < b.1.2 ∨ (a.1.2 = b.1.2 ∧ a.2 < b.2))).

Definition fnum (x : float) : Prop := sf_num (Prim2SF x).
Definition fnonneg (x : float) : Prop := sf_nonneg (Prim2SF x).
Definition frank (x : float) : Z * Z * Z := sf_rank (Prim2SF x).

(** ** The score, in the words of its description *)

(** A quarter for each of [k] tokens. *)
Definition quarter_per_token (k : nat) : float :=
  Nat.iter k (fun bonus => (bonus + 0.25)%float) 0%float.

(** The similarity ratio of the two titles in lower case, plus a quarter
    for each whitespace token of the target in lower case that is longer
    than two characters and occurs in the candidate in lower case. *)
Definition claimed_score (env : Env) (candidate_title target_title : string) : float :=
  let candidate := PyUni.decode (str_lower env candidate_title) in
  let target_tokens := PyUni.split (PyUni.decode (str_lower env target_title)) in
  let matching :=
    List.filter (fun t => (2 <? length t)%nat && PyUni.contains t candidate) target_tokens in
  (seq_ratio env (str_lower env candidate_title) (str_lower env target_title)
   + quarter_per_token (length matching))%float.

(** ** The iterations of a search *)

(** The state and the crawler after [n] iterations of a loop that all went
    on. *)
Fixpoint iterations {S A} (step : S → M (StepResult S A)) (n : nat) (s : S) (c : Crawler)
    : option (S * Crawler) :=
  match n with
  | O => Some (s, c)
  | Datatypes.S n' =>
      match step s c with
      | (Ret (Continue s'), c') => iterations step n' s' c'
      | _ => None
      end
  end.

(** The state of the breadth-first loop on entry. *)
Definition bfs_initial (start : string) : BfsState :=
  {| bfs_q := [(start, [start], 0)]; bfs_visited := {[start]}; bfs_visited_count := 0 |}.

(** The crawler on entry to the loop of a search that resolved its titles
    on [c]: the crawl graph and the decisions are reset and the first nodes
    are on the frontiers. *)
Definition bfs_loop_entry (start : string) (c : Crawler) : Crawler :=
  add_event (EvEnqueue QBfs start 0)
    (with_decision_info ∅ (with_crawl_graph (add_node start empty_graph) c)).

Definition best_loop_entry (start : string) (c : Crawler) : Crawler :=
  add_event (EvEnqueue QHeap start 0)
    (with_decision_info ∅ (with_crawl_graph (add_node start empty_graph) c)).

Definition bidi_loop_entry (start target : string) (c : Crawler) : Crawler :=
  add_event (EvEnqueue QBwd target 0)
    (add_event (EvEnqueue QFwd start 0)
       (with_decision_info ∅
          (with_crawl_graph (add_node target (add_node start empty_graph)) c))).

(** The dequeue with which the next iteration of a loop begins, if the
    loop goes on. *)
Definition bfs_next (s : BfsState) : option Event :=
  match bfs_q s with
  | [] => None
  | (current, _, depth) :: _ => Some (EvDequeue QBfs current depth)
  end.

Definition best_next (s : BestState) : option Event :=
  match heappop (bf_heap s) with
  | None => None
  | Some (top, _) => Some (EvDequeue QHeap (h_node top) (h_depth top))
  end.

Definition bidi_next (s : BidiState) : option Event :=
  match q_fwd s, q_bwd s with
  | (fcur, fdepth) :: _, (bcur, bdepth) :: _ =>
      Some (if (length (q_fwd s) <=? length (q_bwd s))%nat
            then EvDequeue QFwd fcur fdepth else EvDequeue QBwd bcur bdepth)
  | _, _ => None
  end.

(** The titles of a search resolve on [c] to [start] and [target], leaving
    the crawler [c2]. *)
Definition resolved (env : Env) (start_title target_title start target : string)
    (c c2 : Crawler) : Prop :=
  ∃ c1, resolve_title env start_title c = (Ret (Some start), c1) ∧
        resolve_title env target_title c1 = (Ret (Some target), c2).

(** A loop that starts in [s0] on [c0] counts its iterations, and the
    search, whose outcome is [run], raises [RuntimeError] at the dequeue
    that follows [max_visited] iterations or more (more: for a negative
    cap). *)
Definition raises_at_cap {S} (max_visited : Z)
    (step : S → M (StepResult S (option (list string))))
    (count : S → Z) (next : S → option Event) (s0 : S) (c0 : Crawler)
    (run : outcome (option (list string)) * Crawler) : Prop :=
  ∀ n s c,
    iterations step n s0 c0 = Some (s, c) →
    count s = Z.of_nat n ∧
    ∀ deq, next s = Some deq → max_visited ≤ Z.of_nat n →
           run = (Raise (RuntimeError "Visited cap exceeded; aborting"), add_event deq c).

(** The only exception that [r] may be is the one of the visited cap. *)
Definition only_cap_error {A} (r : outcome A) : Prop :=
  ∀ e, r = Raise e → e = RuntimeError "Visited cap exceeded; aborting".

(** A wiki where [A] links to [B] and [C], and [B] to [T]; the request for
    the links of [C] times out, and the request for the pages that link to
    [T] is answered with the status 503. *)
Definition flaky_env : Env :=
  let base := graph_env [("A", ["B"; "C"]); ("B", ["T"])] in
  {| api_info := api_info base;
     api_links := fun t =>
       if String.eqb t "C" then ChainFail (RequestFailed "Read timed out.")
       else api_links base t;
     api_linkshere := fun t =>
       if String.eqb t "T" then ChainFail (BadStatus 503 "Service Unavailable")
       else api_linkshere base t;
     api_random := api_random base;
     api_search := api_search base;
     set_iter := set_iter base;
     set_iter_perm := set_iter_perm base;
     str_lower := str_lower base;
     seq_ratio := seq_ratio base;
     seq_ratio_range := seq_ratio_range base |}.

(** A wiki where [A] links to three pages; against the target
    [Alan Turing], one of them has both tokens of the target in its title,
    one has one, and one has none. *)
Definition turing_env : Env :=
  graph_env [("A", ["Turing machine"; "B"; "Alan Turing Institute"])].

(** ** More on the fetch layer *)





Definition fetch_call (k : LinkKind) (t : string) : Event :=
  match k with
  | Outgoing => EvGetLinks t
  | Incoming => EvGetLinksHere t
  end.


(** Every canonical title in the title cache is cached as its own
    canonical title. *)
Definition titles_closed (c : Crawler) : Prop :=
  ∀ t n, title_cache c !! t = Some n → title_cache c !! n = Some n.

(** [P] holds after whenever it holds before. *)
Definition preserves (P : Crawler → Prop) (c c' : Crawler) : Prop := P c → P c'.

(** The caches agree with the endpoint and no entry of the title cache is
    lost. *)
Definition coherent_growth (env : Env) (c c' : Crawler) : Prop :=
  coherent env c → coherent env c' ∧ title_cache c ⊆ title_cache c'.

(** ** More on the searches *)

(** A parent map of the bidirectional search is a forest: every parent has
    an entry of its own, and a rank below the number of entries decreases
    from a node to its parent. *)
Definition parent_forest (parent : gmap string (option string)) : Prop :=
  ∃ rank : string → nat,
    (∀ n p, parent !! n = Some (Some p) →
            is_Some (parent !! p) ∧ (rank p < rank n)%nat) ∧
    (∀ n, is_Some (parent !! n) → (rank n < size parent)%nat).

(** One side of the bidirectional search: the visited nodes are the keys
    of the parent map, which is a forest, and the queue holds visited
    nodes. *)
Definition side_ok (parent : gmap string (option string)) (visited : gset string)
    (q : list (string * Z)) : Prop :=
  parent_forest parent ∧
  (∀ n, n ∈ visited ↔ is_Some (parent !! n)) ∧
  (∀ e, e ∈ q → e.1 ∈ visited).

Definition bidi_inv (s : BidiState) : Prop :=
  side_ok (parent_fwd s) (visited_fwd s) (q_fwd s) ∧
  side_ok (parent_bwd s) (visited_bwd s) (q_bwd s).

(** The decisions after recording [d x] under [key x] for each [x] of [l],
    in order. *)
Definition record_all {A} (key : A → string * string) (d : A → Decision) (l : list A)
    (di : gmap (string * string) Decision) : gmap (string * string) Decision :=
  fold_left (fun di x => <[key x := d x]> di) l di.

Definition bfs_decision (depth : Z) (note : Note) : Decision :=
  {| d_method := MBfs; d_depth := depth; d_note := note; d_score := None |}.

(** Every hop of [p] is an edge of the crawl graph and has the decision
    [d i a b], [i] counting the hops from 0. *)
Definition hops_recorded (d : nat → string → string → Decision) (c : Crawler)
    (p : list string) : Prop :=
  ∀ i a b, p !! i = Some a → p !! S i = Some b →
    (a, b) ∈ g_edges (crawl_graph c) ∧ decision_info c !! (a, b) = Some (d i a b).

(** The decision of the breadth-first search for hop [i] of a path of [len]
    nodes: the last hop found the target, the others enqueued a node. *)
Definition bfs_hop_decision (len : nat) (i : nat) (a b : string) : Decision :=
  bfs_decision (Z.of_nat i + 1)
    (if decide (S (S i) = len) then NoteTargetFound else NoteEnqueuedFrom a).

(** A path on the frontier: it ends at its node, has as many links as its
    depth, repeats no node, and stays within the visited nodes. *)
Definition path_ok (visited : gset string) (cur : string) (p : list string) (d : Z) : Prop :=
  last p = Some cur ∧ Z.of_nat (length p) = d + 1 ∧ NoDup p ∧ ∀ x, x ∈ p → x ∈ visited.

Definition bfs_record_inv (target : string) (s : BfsState) (c : Crawler) : Prop :=
  (target ∉ bfs_visited s) ∧
  ∀ e, e ∈ bfs_q s →
    path_ok (bfs_visited s) e.1.1 e.1.2 e.2 ∧
    hops_recorded (fun i a _ => bfs_decision (Z.of_nat i + 1) (NoteEnqueuedFrom a)) c e.1.2.

(** What holds of a path that the breadth-first loop returns. *)
Definition bfs_found (max_depth : Z) (p : list string) (c : Crawler) : Prop :=
  NoDup p ∧ Z.of_nat (length p) - 1 ≤ max_depth ∧
  hops_recorded (bfs_hop_decision (length p)) c p.

(** The invariant of the best-first loop on the paths of the heap, for a
    link relation [E]. *)
Definition best_inv (E : string → string → Prop) (start target : string) (s : BestState)
    : Prop :=
  (target ∉ bf_visited s) ∧
  ∀ e, e ∈ bf_heap s →
    path_ok (bf_visited s) (h_node e) (h_path e) (h_depth e) ∧
    head (h_path e) = Some start ∧ walk E (h_path e).

(** What holds of a path that the best-first loop returns. *)
Definition best_found (E : string → string → Prop) (start target : string) (max_depth : Z)
    (p : list string) : Prop :=
  NoDup p ∧ Z.of_nat (length p) - 1 ≤ max_depth ∧ path_between E start target p.

(** ** Labels of the flowchart ([_shorten_label])

    A label is the sequence of its code points: the function counts
    characters and inserts U+2026, one character of a Python [str]. *)

Definition shorten_label (label : PyUni.ustr) (max_len : Z) : exn + PyUni.ustr :=
  if Z.of_nat (length label) <=? max_len then inr label
  else
    let parts := PyUni.split label in
    if (length parts =? 1)%nat then
      inr (PyStr.slice_to (max_len - 3) label ++ PyUni.of_string "...")%list
    else
      let first := PyUni.join (PyUni.of_string " ") (PyStr.slice_to 3 parts) in
      match last parts with
      | None => inl (IndexError "list index out of range")
      | Some last_ =>
          let short := (first ++ [32; 8230; 32]%N ++ last_)%list in
          if Z.of_nat (length short) <=? max_len then inr short
          else inr (PyStr.slice_to (max_len - 3) label ++ PyUni.of_string "...")%list
      end.

(** ** The explanation of a path ([explain_path]) *)

Definition newline : string := String (ascii_of_nat 10) EmptyString.

(** The strings that the searches store under ['method'] and ['note']. *)
Definition method_text (m : Method) : string :=
  match m with
  | MBfs => "bfs"
  | MBest => "best"
  | MBidiFwd => "bidi_fwd"
  | MBidiBwd => "bidi_bwd"
  end.

Definition note_text (n : Note) : string :=
  match n with
  | NoteTargetFound => "direct neighbor - target found"
  | NoteEnqueuedFrom current => "enqueued from " ++ current
  | NoteHeuristicTop k => "enqueued by heuristic (top " ++ py_int k ++ ")"
  | NoteMeetingFwd => "meeting edge (found by forward expansion)"
  | NoteMeetingBwd => "meeting edge (found by backward expansion)"
  | NoteFwdEnqueuedFrom current => "forward enqueued from " ++ current
  | NoteBwdEnqueued n current => "backward enqueued: " ++ n ++ " links to " ++ current
  end.

Section Explain.

(** [f"{score:.4f}"], the formatting of a float by the interpreter. *)
Context (format_score : float → string).

(** The body of the loop over the hops, for hop [i] from [a] to [b]. *)
Definition explain_step (di : gmap (string * string) Decision) (i : nat) (a b : string)
    : string :=
  let info :=
    match di !! (a, b) with
    | Some d => Some d
    | None => di !! (b, a)
    end in
  let step_no := py_int (Z.of_nat i + 1) in
  match info with
  | Some d =>
      let title := step_no ++ ". " ++ a ++ " -> " ++ b in
      let method := "   • method: " ++ method_text (d_method d) in
      let depth :=
        "   • depth (click count from origin on that side): " ++ py_int (d_depth d) in
      let score :=
        match d_score d with
        | Some score => ["   • heuristic score: " ++ format_score score]
        | None => []
        end in
      let note :=
        if String.eqb (note_text (d_note d)) EmptyString then []
        else ["   • note: " ++ note_text (d_note d)] in
      let parts := ([title; method; depth] ++ score ++ note)%list in
      String.concat newline parts
  | None =>
      step_no ++ ". " ++ a ++ " -> " ++ b ++ newline
      ++ "   • reason: link observed during crawling (no recorded enqueue metadata)."
  end.

(** [for i in range(len(path)-1)], from hop [i] on. *)
Fixpoint explain_steps (di : gmap (string * string) Decision) (i : nat) (p : list string)
    : list string :=
  match p with
  | a :: ((b :: _) as p') => explain_step di i a b :: explain_steps di (S i) p'
  | _ => []
  end.

Definition explain_path (path : option (list string)) : M string :=
  let! di := gets decision_info in
  match path with
  | None | Some [] | Some [_] =>
      ret "No path or trivial path (start == target). Nothing to explain."
  | Some p =>
      let total := "Total hops: " ++ py_int (Z.of_nat (length p) - 1) in
      ret (String.concat newline
             (["Explanation of the path found (step-by-step):"; total; EmptyString]
              ++ explain_steps di 0 p)%list)
  end.

End Explain.

(** The explanation of hop [i] of a path of [len] nodes that the
    breadth-first search found. *)
Definition bfs_step_text (len i : nat) (a b : string) : string :=
  String.concat newline
    [py_int (Z.of_nat i + 1) ++ ". " ++ a ++ " -> " ++ b;
     "   • method: bfs";
     "   • depth (click count from origin on that side): " ++ py_int (Z.of_nat i + 1);
     "   • note: " ++ (if decide (S (S i) = len) then "direct neighbor - target found"
                       else "enqueued from " ++ a)].

Fixpoint bfs_steps_text (len i : nat) (p : list string) : list string :=
  match p with
  | a :: ((b :: _) as p') => bfs_step_text len i a b :: bfs_steps_text len (S i) p'
  | _ => []
  end.

(** The explanation of a path of two nodes or more that the breadth-first
    search found. *)
Definition bfs_explanation (path : list string) : string :=
  let total := "Total hops: " ++ py_int (Z.of_nat (length path) - 1) in
  String.concat newline
    (["Explanation of the path found (step-by-step):"; total; EmptyString]
     ++ bfs_steps_text (length path) 0 path)%list.

(** ** The interactive prompts ([ask], [ask_yes_no],
    [interactive_collect_core])

    The console is what remains to be read on the standard input and what
    was written on the standard output, most recent first. A call of
    [input] reads a line, or raises [EOFError] (at the end of the input, or
    where the input holds [EndOfFile]) or [KeyboardInterrupt]. A prompt
    returns, or raises [SystemExit]. *)

Inductive Input : Type :=
| Line (s : string)
| EndOfFile
| Interrupt.

Record Console := { stdin : list Input; stdout : list string }.

Inductive Answer (A : Type) : Type :=
| Answered (a : A)
| SystemExit (msg : string).
Arguments Answered {A} a.
Arguments SystemExit {A} msg.

Definition IO (A : Type) : Type := Console → Answer A * Console.

Definition io_ret {A} (a : A) : IO A := fun k => (Answered a, k).

Definition io_bind {A B} (m : IO A) (f : A → IO B) : IO B := fun k =>
  match m k with
  | (Answered a, k') => f a k'
  | (SystemExit msg, k') => (SystemExit msg, k')
  end.

Notation "'ask!' x ':=' m 'in' f" := (io_bind m (fun x => f))
  (at level 10, x pattern, m at level 100, f at level 200, only parsing).

(** [print(s)] *)
Definition print (s : string) : IO unit := fun k =>
  (Answered tt, {| stdin := stdin k; stdout := (s ++ newline) :: stdout k |}).

(** [str(e)] for an exception raised with one message. *)
Definition exn_message (e : exn) : string :=
  match e with
  | ValueError msg | RuntimeError msg | IndexError msg | WikipediaAPIError msg
  | RequestException msg => msg
  end.

Definition aborted : string := "Interactive prompt aborted by user.".

Section Prompts.

(** [str.strip] and [str.lower], of the interpreter. *)
Context (strip lower : string → string).

(** The [while True] loop of [ask], on the lines still to be read; [out]
    is the output so far. *)
Fixpoint ask_loop (prompt_str : string) (default : option string)
    (validator : option (string → exn + string)) (inputs : list Input) (out : list string)
    : Answer string * Console :=
  match inputs with
  | Line l :: rest =>
      let val := strip l in
      let val :=
        match default with
        | Some d => if String.eqb val EmptyString then d else val
        | None => val
        end in
      match validator with
      | Some validate =>
          match validate val with
          | inr r => (Answered r, {| stdin := rest; stdout := prompt_str :: out |})
          | inl e =>
              ask_loop prompt_str default validator rest
                (("Invalid value: " ++ exn_message e ++ newline) :: prompt_str :: out)
          end
      | None => (Answered val, {| stdin := rest; stdout := prompt_str :: out |})
      end
  | _ =>
      (SystemExit aborted, {| stdin := tail inputs; stdout := newline :: prompt_str :: out |})
  end.

Definition ask (prompt : string) (default : option string)
    (validator : option (string → exn + string)) : IO string := fun k =>
  let prompt_str :=
    match default with
    | None => prompt ++ ": "
    | Some d => prompt ++ " [" ++ d ++ "]: "
    end in
  ask_loop prompt_str default validator (stdin k) (stdout k).

Fixpoint ask_yes_no_loop (prompt_str : string) (default : bool) (inputs : list Input)
    (out : list string) : Answer bool * Console :=
  match inputs with
  | Line l :: rest =>
      let val := lower (strip l) in
      if String.eqb val EmptyString then
        (Answered default, {| stdin := rest; stdout := prompt_str :: out |})
      else if String.eqb val "y" || String.eqb val "yes" then
        (Answered true, {| stdin := rest; stdout := prompt_str :: out |})
      else if String.eqb val "n" || String.eqb val "no" then
        (Answered false, {| stdin := rest; stdout := prompt_str :: out |})
      else
        ask_yes_no_loop prompt_str default rest
          (("Please answer y or n." ++ newline) :: prompt_str :: out)
  | _ =>
      (SystemExit aborted, {| stdin := tail inputs; stdout := newline :: prompt_str :: out |})
  end.

Definition ask_yes_no (prompt : string) (default : bool) : IO bool := fun k =>
  let dstr := if default then "Y/n" else "y/N" in
  ask_yes_no_loop (prompt ++ " [" ++ dstr ++ "]: ") default (stdin k) (stdout k).

(** The dictionary that [interactive_collect_core] returns. *)
Record CoreOptions := {
  opt_start_title : option string;
  opt_random_start : bool;
  opt_target_title : string;
  opt_strategy : string;
  opt_flowchart : string;
  opt_flowchart_mode : string;
  opt_hide_nonpath_labels : bool;
  opt_explain : bool;
  opt_explain_file : string
}.

Definition is_one_of (choices : list string) (s : string) : bool :=
  existsb (String.eqb s) choices.

Definition target_validator (s : string) : exn + string :=
  if String.eqb s EmptyString then inl (ValueError "Target cannot be empty") else inr s.

Definition strategies : list string := ["bfs"; "best"; "bidi"].

Definition strat_validator (s : string) : exn + string :=
  let s := lower s in
  if is_one_of strategies s then inr s
  else inl (ValueError "Choose one of: bfs, best, bidi").

Definition flowchart_modes : list string :=
  ["path-only"; "path-neighbors"; "pruned"; "mindmap"; "full"].

Definition fc_mode_validator (s : string) : exn + string :=
  let s := lower s in
  if is_one_of flowchart_modes s then inr s
  else inl (ValueError "Choose one of: path-only, path-neighbors, pruned, mindmap, full").

Definition interactive_collect_core : IO CoreOptions :=
  ask! _ := print "=== WikiCrawler interactive setup (core options) ===" in
  ask! _ := print
    "Leave blank to accept defaults shown in [brackets]. Type 'random' for random start." in
  ask! start_or_random :=
    ask "Start article (type 'random' to pick a random page)" (Some "random") None in
  let random_start := is_one_of ["random"; "r"] (lower (strip start_or_random)) in
  let start_title := if random_start then None else Some start_or_random in
  ask! target_title :=
    ask "Target article (title or keywords)" (Some EmptyString) (Some target_validator) in
  ask! strategy :=
    ask "Search strategy (bfs | best | bidi)" (Some "bidi") (Some strat_validator) in
  ask! want_flowchart := ask_yes_no "Save flowchart PNG after run?" false in
  ask! (flowchart, flowchart_mode, hide_nonpath_labels) :=
    (if want_flowchart then
       ask! flowchart := ask "Flowchart output filepath" (Some "./flowchart.png") None in
       ask! flowchart_mode :=
         ask "Flowchart mode (path-only | path-neighbors | pruned | mindmap | full)"
             (Some "mindmap") (Some fc_mode_validator) in
       ask! hide_nonpath_labels :=
         ask_yes_no "Hide labels for non-path nodes to reduce clutter?" true in
       io_ret (flowchart, flowchart_mode, hide_nonpath_labels)
     else io_ret (EmptyString, "pruned", false)) in
  io_ret {| opt_start_title := start_title;
            opt_random_start := random_start;
            opt_target_title := target_title;
            opt_strategy := strategy;
            opt_flowchart := flowchart;
            opt_flowchart_mode := flowchart_mode;
            opt_hide_nonpath_labels := hide_nonpath_labels;
            opt_explain := true;
            opt_explain_file := EmptyString |}.

End Prompts.

Section PromptValues.

Context (strip lower : string → string).

(** The value [ask] works with after reading the line [l]. *)
Definition ask_value (default : option string) (l : string) : string :=
  match default with
  | Some d => if String.eqb (strip l) EmptyString then d else strip l
  | None => strip l
  end.


(** The options that [interactive_collect_core] may return. *)
Definition valid_options (o : CoreOptions) : Prop :=
  opt_strategy o ∈ strategies ∧
  opt_flowchart_mode o ∈ flowchart_modes ∧
  opt_target_title o ≠ EmptyString ∧
  (opt_random_start o = true ↔ opt_start_title o = None) ∧
  (opt_flowchart o = EmptyString →
   opt_flowchart_mode o = "pruned" ∧ opt_hide_nonpath_labels o = false) ∧
  opt_explain o = true ∧ opt_explain_file o = EmptyString.

End PromptValues.

(** ** The crawl graph *)

(** Every edge of the crawl graph is a link that the endpoint reports: an
    outgoing link of its source or an incoming link of its target. *)
Definition graph_sound (env : Env) (c : Crawler) : Prop :=
  ∀ u v, (u, v) ∈ g_edges (crawl_graph c) → v ∈ out_links env u ∨ u ∈ in_links env v.

Definition sound (env : Env) (c : Crawler) : Prop := coherent env c ∧ graph_sound env c.

(** ** More small wikis and inputs for the examples *)


(** [b] redirects to [B]; [A] links to [b], [B] to [X] and [X] to [B]. *)
Definition redirect_env : Env :=
  wiki_env [] [("b", "B")] [("A", ["b"]); ("B", ["X"]); ("X", ["B"])].


(** * Properties *)

(** ** The method monad *)

#[global] Arguments run_loop {S A} step fuel s : simpl never.
#[global] Arguments loop_fuel max_visited : simpl never.

Lemma run_loop_O {S A} (step : S → M (StepResult S A)) s c :
  run_loop step O s c = (OutOfFuel, c).
Proof. reflexivity. Qed.

Lemma run_loop_S {S A} (step : S → M (StepResult S A)) fuel s :
  run_loop step (Datatypes.S fuel) s =
    bind (step s) (fun r => match r with
                            | Continue s' => run_loop step fuel s'
                            | Done a => ret a
                            end).
Proof. reflexivity. Qed.

Lemma bind_ret_inv {A B} (m : M A) (k : A → M B) c b c' :
  bind m k c = (Ret b, c') → ∃ a c1, m c = (Ret a, c1) ∧ k a c1 = (Ret b, c').
Proof.
  unfold bind. destruct (m c) as [[a | e |] c1]; intros H; try discriminate.
  eauto.
Qed.

Lemma bind_eq_ret {A B} (m : M A) (k : A → M B) c a c1 :
  m c = (Ret a, c1) → bind m k c = k a c1.
Proof. unfold bind. intros ->. reflexivity. Qed.

Lemma bind_eq_raise {A B} (m : M A) (k : A → M B) c e c1 :
  m c = (Raise e, c1) → bind m k c = (Raise e, c1).
Proof. unfold bind. intros ->. reflexivity. Qed.

#[global] Instance trace_grows_preorder P : PreOrder (trace_grows P).
Proof.
  split.
  - intros c. exists []. split; reflexivity.
  - intros c1 c2 c3 (n1 & H1 & F1) (n2 & H2 & F2).
    exists (n2 ++ n1)%list. split.
    + rewrite H2, H1. apply app_assoc.
    + rewrite forallb_app, F1, F2. reflexivity.
Qed.

#[global] Instance caches_kept_preorder : PreOrder caches_kept.
Proof.
  split.
  - intros c. split; reflexivity.
  - intros c1 c2 c3 [H1 H1'] [H2 H2']. split; etrans; eauto.
Qed.

#[global] Instance search_data_kept_preorder : PreOrder search_data_kept.
Proof.
  split.
  - intros c. split; reflexivity.
  - intros c1 c2 c3 [H1 H1'] [H2 H2']. split; congruence.
Qed.

Section Stable.

Context (R : Crawler → Crawler → Prop) `{!PreOrder R}.

Lemma stable_ret {A} (a : A) : stable R (ret a).
Proof. intros c. reflexivity. Qed.

Lemma stable_raise {A} e : stable R (@raise A e).
Proof. intros c. reflexivity. Qed.

Lemma stable_gets {A} (f : Crawler → A) : stable R (gets f).
Proof. intros c. reflexivity. Qed.

Lemma stable_lift_fuel {A} (o : option A) : stable R (lift_fuel o).
Proof. intros c. destruct o; reflexivity. Qed.

Lemma stable_bind {A B} (m : M A) (k : A → M B) :
  stable R m → (∀ a, stable R (k a)) → stable R (bind m k).
Proof.
  intros Hm Hk c. unfold bind. specialize (Hm c).
  destruct (m c) as [[a | e |] c1]; simpl in *; try assumption.
  etrans; [exact Hm | apply Hk].
Qed.

Lemma stable_try_except {A} (m : M A) (h : exn → M A) :
  stable R m → (∀ e, stable R (h e)) → stable R (try_except m h).
Proof.
  intros Hm Hh c. unfold try_except. specialize (Hm c).
  destruct (m c) as [[a | e |] c1]; simpl in *; try assumption.
  etrans; [exact Hm | apply Hh].
Qed.

Lemma stable_for_each {A S} (body : S → A → M S) (l : list A) :
  (∀ s x, stable R (body s x)) → ∀ s, stable R (for_each body l s).
Proof.
  intros Hb. induction l as [| x l IH]; intros s; simpl.
  - apply stable_ret.
  - apply stable_bind; [apply Hb | intros s'; apply IH].
Qed.

Lemma stable_run_loop {S A} (step : S → M (StepResult S A)) fuel :
  (∀ s, stable R (step s)) → ∀ s, stable R (run_loop step fuel s).
Proof.
  intros Hs. induction fuel as [| fuel IH]; intros s.
  - intros c. reflexivity.
  - rewrite run_loop_S. apply stable_bind; [apply Hs |].
    intros [s' | a]; [apply IH | apply stable_ret].
Qed.

End Stable.

Ltac stable_step :=
  first
    [ apply stable_run_loop; [typeclasses eauto | intros ?]
    | apply stable_for_each; [typeclasses eauto | intros ? ?]
    | apply stable_ret; typeclasses eauto
    | apply stable_raise; typeclasses eauto
    | apply stable_gets; typeclasses eauto
    | apply stable_lift_fuel; typeclasses eauto
    | apply stable_try_except; [typeclasses eauto | | intros ?]
    | apply stable_bind; [typeclasses eauto | | intros ?]
    | match goal with
      | |- stable _ (match ?x with _ => _ end) => destruct x
      | |- stable _ (let '(_, _) := ?x in _) => destruct x
      | |- stable _ (let _ := _ in _) => cbv zeta
      end ].

(** ** Title resolution and the link fetchers *)

Section Fetch.

Context (env : Env).

Lemma resolve_title_hit t c n :
  title_cache c !! t = Some n → resolve_title env t c = (Ret (Some n), c).
Proof.
  intros H. unfold resolve_title, bind, gets. simpl. rewrite H. reflexivity.
Qed.

Lemma resolve_title_miss t c :
  title_cache c !! t = None →
  ∃ c', resolve_title env t c = (resolve_pure env t, c') ∧
        link_cache c' = link_cache c ∧
        linkshere_cache c' = linkshere_cache c ∧
        crawl_graph c' = crawl_graph c ∧
        decision_info c' = decision_info c ∧
        trace c' = EvApi (ReqInfo t) :: trace c ∧
        title_cache c' =
          match resolve_pure env t with
          | Ret (Some n) => <[n := n]> (<[t := n]> (title_cache c))
          | _ => title_cache c
          end.
Proof.
  intros H. unfold resolve_title, resolve_pure, api_get_info, bind, gets, emit, modify.
  simpl. rewrite H.
  destruct (api_info env t) as [[| page pages] | msg]; simpl.
  - eexists. split; [reflexivity |]. simpl. auto 10.
  - destruct (pi_missing page); simpl.
    + eexists. split; [reflexivity |]. simpl. auto 10.
    + eexists. split; [reflexivity |]. simpl. auto 10.
  - eexists. split; [reflexivity |]. simpl. auto 10.
Qed.

Lemma fetch_all_run mk add cont chain acc c :
  fetch_all mk add cont chain acc c =
    (chain_result add chain acc, add_events (chain_requests mk cont chain) c).
Proof.
  revert cont acc c. induction chain as [msg | entries | entries token next IH];
    intros cont acc c; simpl; unfold bind, emit, modify; simpl.
  - reflexivity.
  - reflexivity.
  - destruct (String.eqb token EmptyString); simpl; [reflexivity |].
    rewrite IH. unfold add_events. simpl. rewrite <- app_assoc. reflexivity.
Qed.

Lemma chain_requests_api mk cont chain :
  forallb is_api_event (chain_requests mk cont chain) = true.
Proof.
  revert cont. induction chain as [msg | entries | entries token next IH];
    intros cont; simpl; try reflexivity.
  destruct (String.eqb token EmptyString); simpl; [reflexivity |].
  rewrite forallb_app, IH. reflexivity.
Qed.

End Fetch.

(** ** Frame properties of the attribute updates *)

#[global] Instance caches_same_preorder : PreOrder caches_same.
Proof.
  split.
  - intros c. repeat split.
  - intros c1 c2 c3 (H1 & H1' & H1'') (H2 & H2' & H2''). repeat split; congruence.
Qed.

Lemma stable_trace_emit P e : P e = true → stable (trace_grows P) (emit e).
Proof. intros H c. exists [e]. simpl. rewrite H. auto. Qed.

Lemma stable_trace_modify P (f : Crawler → Crawler) :
  (∀ c, trace (f c) = trace c) → stable (trace_grows P) (modify f).
Proof. intros H c. exists []. simpl. auto. Qed.

Lemma stable_caches_modify (f : Crawler → Crawler) :
  (∀ c, link_cache (f c) = link_cache c) →
  (∀ c, linkshere_cache (f c) = linkshere_cache c) →
  stable caches_kept (modify f).
Proof. intros H1 H2 c. split; simpl; [rewrite H1 | rewrite H2]; reflexivity. Qed.

Lemma stable_same_modify (f : Crawler → Crawler) :
  (∀ c, link_cache (f c) = link_cache c) →
  (∀ c, linkshere_cache (f c) = linkshere_cache c) →
  (∀ c, title_cache (f c) = title_cache c) →
  stable caches_same (modify f).
Proof. intros H1 H2 H3 c. repeat split; simpl; auto. Qed.

Lemma stable_data_modify (f : Crawler → Crawler) :
  (∀ c, crawl_graph (f c) = crawl_graph c) →
  (∀ c, decision_info (f c) = decision_info c) →
  stable search_data_kept (modify f).
Proof. intros H1 H2 c. split; simpl; auto. Qed.

Ltac stable_leaf :=
  first
    [ apply stable_trace_emit; reflexivity
    | apply stable_trace_modify; intros ?; reflexivity
    | apply stable_caches_modify; intros ?; reflexivity
    | apply stable_same_modify; intros ?; reflexivity
    | apply stable_data_modify; intros ?; reflexivity ].

Ltac stable_solve :=
  repeat first [ stable_leaf | stable_step ]; try assumption.

Section FetchFrames.

Context (env : Env).

Lemma resolve_title_trace t : stable (trace_grows is_info_request) (resolve_title env t).
Proof. unfold resolve_title, api_get_info, set_title_cache, emit. stable_solve. Qed.

Lemma resolve_title_caches t : stable caches_kept (resolve_title env t).
Proof. unfold resolve_title, api_get_info, set_title_cache, emit. stable_solve. Qed.

Lemma resolve_title_data t : stable search_data_kept (resolve_title env t).
Proof. unfold resolve_title, api_get_info, set_title_cache, emit. stable_solve. Qed.

Lemma fetch_all_trace mk add cont chain acc :
  stable (trace_grows is_api_event) (fetch_all mk add cont chain acc).
Proof.
  intros c. rewrite fetch_all_run. simpl. eexists. split; [reflexivity |].
  apply chain_requests_api.
Qed.

Lemma fetch_all_same mk add cont chain acc :
  stable caches_same (fetch_all mk add cont chain acc).
Proof. intros c. rewrite fetch_all_run. repeat split. Qed.

Lemma fetch_all_data mk add cont chain acc :
  stable search_data_kept (fetch_all mk add cont chain acc).
Proof. intros c. rewrite fetch_all_run. repeat split. Qed.

End FetchFrames.

Lemma trace_grows_weaken (P Q : Event → bool) c c' :
  (∀ e, P e = true → Q e = true) → trace_grows P c c' → trace_grows Q c c'.
Proof.
  intros HPQ (new & Ht & Hall). exists new. split; [exact Ht |].
  rewrite forallb_forall in *. auto.
Qed.

Lemma stable_weaken (R R' : Crawler → Crawler → Prop) {A} (m : M A) :
  (∀ c c', R c c' → R' c c') → stable R m → stable R' m.
Proof. intros H Hm c. apply H, Hm. Qed.

Lemma caches_same_kept c c' : caches_same c c' → caches_kept c c'.
Proof. intros (H1 & H2 & _). split; [rewrite H1 | rewrite H2]; reflexivity. Qed.

Section GetLinks.

Context (env : Env).

(** The run of [get_links], case by case. *)
Lemma get_links_cases t c :
  ∃ rt c1,
    resolve_title env t (add_event (EvGetLinks t) c) = (rt, c1) ∧
    match rt with
    | Raise e => get_links env t c = (Raise e, c1)
    | OutOfFuel => get_links env t c = (OutOfFuel, c1)
    | Ret None => get_links env t c = (Ret ∅, c1)
    | Ret (Some n) =>
        if String.eqb n EmptyString then get_links env t c = (Ret ∅, c1)
        else
          match link_cache c1 !! n with
          | Some s => get_links env t c = (Ret s, c1)
          | None =>
              let c2 := add_events (chain_requests (ReqLinks n) None (api_links env n)) c1 in
              match chain_result add_links (api_links env n) ∅ with
              | Ret s =>
                  get_links env t c =
                    (Ret s, with_link_cache (<[n := s]> (link_cache c1)) c2)
              | Raise e => get_links env t c = (Raise e, c2)
              | OutOfFuel => get_links env t c = (OutOfFuel, c2)
              end
          end
    end.
Proof.
  destruct (resolve_title env t (add_event (EvGetLinks t) c)) as [rt c1] eqn:Hr.
  exists rt, c1. split; [reflexivity |].
  unfold get_links, bind, emit, modify. simpl. rewrite Hr.
  destruct rt as [[n |] | e |]; try reflexivity.
  destruct (String.eqb n EmptyString); [reflexivity |].
  unfold gets. simpl.
  destruct (link_cache c1 !! n) as [s |]; [reflexivity |].
  rewrite fetch_all_run.
  destruct (chain_result add_links (api_links env n) ∅); reflexivity.
Qed.

Lemma get_linkshere_cases t c :
  ∃ rt c1,
    resolve_title env t (add_event (EvGetLinksHere t) c) = (rt, c1) ∧
    match rt with
    | Raise e => get_linkshere env t c = (Raise e, c1)
    | OutOfFuel => get_linkshere env t c = (OutOfFuel, c1)
    | Ret None => get_linkshere env t c = (Ret ∅, c1)
    | Ret (Some n) =>
        if String.eqb n EmptyString then get_linkshere env t c = (Ret ∅, c1)
        else
          match linkshere_cache c1 !! n with
          | Some s => get_linkshere env t c = (Ret s, c1)
          | None =>
              let c2 :=
                add_events (chain_requests (ReqLinksHere n) None (api_linkshere env n)) c1 in
              match chain_result add_incoming (api_linkshere env n) ∅ with
              | Ret s =>
                  get_linkshere env t c =
                    (Ret s, with_linkshere_cache (<[n := s]> (linkshere_cache c1)) c2)
              | Raise e => get_linkshere env t c = (Raise e, c2)
              | OutOfFuel => get_linkshere env t c = (OutOfFuel, c2)
              end
          end
    end.
Proof.
  destruct (resolve_title env t (add_event (EvGetLinksHere t) c)) as [rt c1] eqn:Hr.
  exists rt, c1. split; [reflexivity |].
  unfold get_linkshere, bind, emit, modify. simpl. rewrite Hr.
  destruct rt as [[n |] | e |]; try reflexivity.
  destruct (String.eqb n EmptyString); [reflexivity |].
  unfold gets. simpl.
  destruct (linkshere_cache c1 !! n) as [s |]; [reflexivity |].
  rewrite fetch_all_run.
  destruct (chain_result add_incoming (api_linkshere env n) ∅); reflexivity.
Qed.

Lemma get_links_trace t : stable (trace_grows is_fetch_event) (get_links env t).
Proof.
  unfold get_links, set_link_cache, emit.
  apply stable_bind; [typeclasses eauto | stable_leaf | intros _].
  apply stable_bind; [typeclasses eauto | | intros r].
  { eapply stable_weaken; [| apply resolve_title_trace].
    intros c c'. apply trace_grows_weaken. intros [[]| | | |]; simpl; congruence. }
  destruct r as [n |]; [| stable_solve].
  destruct (String.eqb n EmptyString); [stable_solve |].
  apply stable_bind; [typeclasses eauto | stable_solve | intros lc].
  destruct (lc !! n); [stable_solve |].
  apply stable_bind; [typeclasses eauto | | intros links; stable_solve].
  eapply stable_weaken; [| apply fetch_all_trace].
  intros c c'. apply trace_grows_weaken. intros [| | | |]; simpl; congruence.
Qed.

Lemma get_linkshere_trace t : stable (trace_grows is_fetch_event) (get_linkshere env t).
Proof.
  unfold get_linkshere, set_linkshere_cache, emit.
  apply stable_bind; [typeclasses eauto | stable_leaf | intros _].
  apply stable_bind; [typeclasses eauto | | intros r].
  { eapply stable_weaken; [| apply resolve_title_trace].
    intros c c'. apply trace_grows_weaken. intros [[]| | | |]; simpl; congruence. }
  destruct r as [n |]; [| stable_solve].
  destruct (String.eqb n EmptyString); [stable_solve |].
  apply stable_bind; [typeclasses eauto | stable_solve | intros lc].
  destruct (lc !! n); [stable_solve |].
  apply stable_bind; [typeclasses eauto | | intros links; stable_solve].
  eapply stable_weaken; [| apply fetch_all_trace].
  intros c c'. apply trace_grows_weaken. intros [| | | |]; simpl; congruence.
Qed.

Lemma get_links_data t : stable search_data_kept (get_links env t).
Proof.
  unfold get_links, set_link_cache, emit.
  apply stable_bind; [typeclasses eauto | stable_leaf | intros _].
  apply stable_bind; [typeclasses eauto | apply resolve_title_data | intros r].
  destruct r as [n |]; [| stable_solve].
  destruct (String.eqb n EmptyString); [stable_solve |].
  apply stable_bind; [typeclasses eauto | stable_solve | intros lc].
  destruct (lc !! n); [stable_solve |].
  apply stable_bind; [typeclasses eauto | apply fetch_all_data | intros links; stable_solve].
Qed.

Lemma get_linkshere_data t : stable search_data_kept (get_linkshere env t).
Proof.
  unfold get_linkshere, set_linkshere_cache, emit.
  apply stable_bind; [typeclasses eauto | stable_leaf | intros _].
  apply stable_bind; [typeclasses eauto | apply resolve_title_data | intros r].
  destruct r as [n |]; [| stable_solve].
  destruct (String.eqb n EmptyString); [stable_solve |].
  apply stable_bind; [typeclasses eauto | stable_solve | intros lc].
  destruct (lc !! n); [stable_solve |].
  apply stable_bind; [typeclasses eauto | apply fetch_all_data | intros links; stable_solve].
Qed.

Lemma get_links_caches t : stable caches_kept (get_links env t).
Proof.
  intros c. destruct (get_links_cases t c) as (rt & c1 & Hr & Hc).
  pose proof (resolve_title_caches env t (add_event (EvGetLinks t) c)) as Hk.
  rewrite Hr in Hk. simpl in Hk.
  assert (caches_kept c c1) as Hc1 by exact Hk.
  destruct rt as [[n |] | e |]; try (rewrite Hc; exact Hc1).
  destruct (String.eqb n EmptyString); [rewrite Hc; exact Hc1 |].
  destruct (link_cache c1 !! n) as [s |] eqn:Hn; [rewrite Hc; exact Hc1 |].
  simpl in Hc.
  destruct (chain_result add_links (api_links env n) ∅); rewrite Hc; simpl;
    try exact Hc1.
  destruct Hc1 as [H1 H2]. split; simpl; [| exact H2].
  etrans; [exact H1 |]. apply insert_subseteq. exact Hn.
Qed.

Lemma get_linkshere_caches t : stable caches_kept (get_linkshere env t).
Proof.
  intros c. destruct (get_linkshere_cases t c) as (rt & c1 & Hr & Hc).
  pose proof (resolve_title_caches env t (add_event (EvGetLinksHere t) c)) as Hk.
  rewrite Hr in Hk. simpl in Hk.
  assert (caches_kept c c1) as Hc1 by exact Hk.
  destruct rt as [[n |] | e |]; try (rewrite Hc; exact Hc1).
  destruct (String.eqb n EmptyString); [rewrite Hc; exact Hc1 |].
  destruct (linkshere_cache c1 !! n) as [s |] eqn:Hn; [rewrite Hc; exact Hc1 |].
  simpl in Hc.
  destruct (chain_result add_incoming (api_linkshere env n) ∅); rewrite Hc; simpl;
    try exact Hc1.
  destruct Hc1 as [H1 H2]. split; simpl; [exact H1 |].
  etrans; [exact H2 |]. apply insert_subseteq. exact Hn.
Qed.

End GetLinks.

(** ** Entry of the three searches: unknown pages and equal endpoints *)

Section Entry.

Context (env : Env).

Lemma resolve_title_grows t c r c' :
  resolve_title env t c = (r, c') → trace_grows is_info_request c c'.
Proof. intros H. pose proof (resolve_title_trace env t c) as G. rewrite H in G. exact G. Qed.

Lemma resolve_title_keeps t c r c' :
  resolve_title env t c = (r, c') → search_data_kept c c'.
Proof. intros H. pose proof (resolve_title_data env t c) as G. rewrite H in G. exact G. Qed.

Lemma trace_grows_same_trace P c c1 c2 :
  trace_grows P c c1 → trace c2 = trace c1 → trace_grows P c c2.
Proof. intros (new & H & F) E. exists new. rewrite E. auto. Qed.

End Entry.

Ltac each_search H :=
  unfold searches in H;
  repeat (apply elem_of_cons in H as [-> | H]); [| | | by apply elem_of_nil in H].

(** C10. When [resolve_title] finds no page for the start title, or finds
    one for the start title and none for the target title, each of the three
    searches raises a [ValueError] whose message names the title that was
    given, leaves the crawl graph and the decision info as they were, and
    sends nothing but title-resolution requests. *)
Theorem unknown_page_raises_value_error
    (env : Env) (start_title target_title : string)
    (max_depth max_visited max_branch : Z) (c : Crawler) :
  let all := searches env start_title target_title max_depth max_visited max_branch in
  ((resolve_title env start_title c).1 = Ret None →
   ∀ search, search ∈ all →
     (search c).1 = Raise (ValueError ("Start page not found: " ++ start_title)) ∧
     search_data_kept c (search c).2 ∧
     trace_grows is_info_request c (search c).2) ∧
  (∀ start c1,
     resolve_title env start_title c = (Ret (Some start), c1) →
     (resolve_title env target_title c1).1 = Ret None →
     ∀ search, search ∈ all →
       (search c).1 = Raise (ValueError ("Target page not found: " ++ target_title)) ∧
       search_data_kept c (search c).2 ∧
       trace_grows is_info_request c (search c).2).
Proof.
  intros all. split.
  - intros Hs search Hin.
    destruct (resolve_title env start_title c) as [r c1] eqn:E. simpl in Hs. subst r.
    pose proof (resolve_title_keeps env _ _ _ _ E) as Hk.
    pose proof (resolve_title_grows env _ _ _ _ E) as Hg.
    each_search Hin.
    + unfold find_path_bfs, bind. rewrite E. simpl. auto.
    + unfold find_path_best_first, bind. rewrite E. simpl. auto.
    + unfold find_path_bidi, bind. rewrite E. simpl. auto.
  - intros start c1 E Ht search Hin.
    destruct (resolve_title env target_title c1) as [r c2] eqn:E2. simpl in Ht. subst r.
    assert (search_data_kept c c2) as Hk.
    { etrans; [eapply resolve_title_keeps | eapply resolve_title_keeps]; eassumption. }
    assert (trace_grows is_info_request c c2) as Hg.
    { etrans; [eapply resolve_title_grows | eapply resolve_title_grows]; eassumption. }
    each_search Hin.
    + unfold find_path_bfs, bind. rewrite E. simpl. rewrite E2. simpl. auto.
    + unfold find_path_best_first, bind. rewrite E. simpl. rewrite E2. simpl. auto.
    + unfold find_path_bidi, bind. rewrite E. simpl. rewrite E2. simpl. auto.
Qed.

(** C9. When the start title and the target title resolve to the same page
    [start], each of the three searches returns the one-node path [[start]];
    the events of the call are title-resolution requests only: no links are
    fetched and no node is put on a frontier. *)
Theorem same_page_returns_singleton
    (env : Env) (start_title target_title start : string)
    (max_depth max_visited max_branch : Z) (c c1 c2 : Crawler)
    (Hstart : resolve_title env start_title c = (Ret (Some start), c1))
    (Htarget : resolve_title env target_title c1 = (Ret (Some start), c2)) :
  ∀ search,
    search ∈ searches env start_title target_title max_depth max_visited max_branch →
    (search c).1 = Ret (Some [start]) ∧
    ∃ new, trace (search c).2 = (new ++ trace c)%list ∧
           forallb is_info_request new = true ∧
           forallb (fun e => negb (is_fetch_call e || is_link_request e || is_queue_event e))
                   new = true.
Proof.
  intros search Hin.
  assert (trace_grows is_info_request c c2) as (new & Hnew & Hall).
  { etrans; [eapply resolve_title_grows | eapply resolve_title_grows]; eassumption. }
  assert (forallb (fun e => negb (is_fetch_call e || is_link_request e || is_queue_event e))
                  new = true) as Hno.
  { rewrite forallb_forall in *. intros e He. specialize (Hall e He).
    destruct e as [[] | | | |]; simpl in *; congruence. }
  each_search Hin.
  - unfold find_path_bfs, bind. rewrite Hstart. simpl. rewrite Htarget. simpl.
    rewrite String.eqb_refl. simpl. split; [reflexivity |]. exists new. auto.
  - unfold find_path_best_first, bind. rewrite Hstart. simpl. rewrite Htarget. simpl.
    rewrite String.eqb_refl. simpl. split; [reflexivity |]. exists new. auto.
  - unfold find_path_bidi, bind. rewrite Hstart. simpl. rewrite Htarget. simpl.
    rewrite String.eqb_refl. simpl. split; [reflexivity |]. exists new. auto.
Qed.

(** ** The link caches only grow *)

Ltac caches_solve :=
  repeat first
    [ apply get_links_caches
    | apply get_linkshere_caches
    | apply resolve_title_caches
    | stable_leaf
    | stable_step ].

Section CachesKept.

Context (env : Env).

Lemma bfs_step_caches target max_depth max_visited s :
  stable caches_kept (bfs_step env target max_depth max_visited s).
Proof.
  unfold bfs_step, links_or_empty, record_edges, set_decision, bfs_enqueue,
    set_decision_info, set_crawl_graph, emit.
  caches_solve.
Qed.

Lemma best_step_caches target max_depth max_visited max_branch s :
  stable caches_kept (best_step env target max_depth max_visited max_branch s).
Proof.
  unfold best_step, links_or_empty, record_edges, set_decision, best_enqueue,
    set_decision_info, set_crawl_graph, emit.
  caches_solve.
Qed.

Lemma bidi_step_caches start target max_depth max_visited s :
  stable caches_kept (bidi_step env start target max_depth max_visited s).
Proof.
  unfold bidi_step, links_or_empty, record_edges, set_decision, fwd_enqueue, bwd_enqueue,
    set_decision_if_absent, reconstruct_bidi_path, set_decision_info, set_crawl_graph, emit.
  caches_solve.
Qed.

Lemma run_op_caches op : ∀ c, caches_kept c (run_op env op c).
Proof.
  destruct op; simpl; intros c.
  - apply resolve_title_caches.
  - revert c. change (stable caches_kept (random_page_title env namespace)).
    unfold random_page_title, emit. caches_solve.
  - revert c. change (stable caches_kept (search_title env query limit)).
    unfold search_title, emit. caches_solve.
  - apply get_links_caches.
  - apply get_linkshere_caches.
  - revert c.
    change (stable caches_kept (find_path_bfs env start_title target_title max_depth max_visited)).
    unfold find_path_bfs, set_decision_info, set_crawl_graph, emit.
    repeat first [apply bfs_step_caches | caches_solve].
  - revert c.
    change (stable caches_kept
              (find_path_best_first env start_title target_title max_depth max_visited max_branch)).
    unfold find_path_best_first, set_decision_info, set_crawl_graph, emit.
    repeat first [apply best_step_caches | caches_solve].
  - revert c.
    change (stable caches_kept (find_path_bidi env start_title target_title max_depth max_visited)).
    unfold find_path_bidi, set_decision_info, set_crawl_graph, emit.
    repeat first [apply bidi_step_caches | caches_solve].
Qed.

Lemma run_ops_caches ops : ∀ c, caches_kept c (run_ops env ops c).
Proof.
  induction ops as [| op ops IH]; intros c; simpl.
  - reflexivity.
  - etrans; [apply run_op_caches | apply IH].
Qed.

End CachesKept.

(** ** A memoised link set is returned without a links request *)

Section Memo.

Context (env : Env).

Lemma resolve_title_value t c1 c2 :
  title_cache c1 = title_cache c2 →
  (resolve_title env t c1).1 = (resolve_title env t c2).1.
Proof.
  intros E. destruct (title_cache c2 !! t) as [n |] eqn:H.
  - rewrite (resolve_title_hit env t c2 n H).
    rewrite (resolve_title_hit env t c1 n); [reflexivity | congruence].
  - destruct (resolve_title_miss env t c2 H) as (c2' & -> & _).
    destruct (resolve_title_miss env t c1) as (c1' & -> & _); [congruence | reflexivity].
Qed.

(** A resolution that hits the title cache sends nothing; one that misses
    sends one [prop=info] request. *)
Lemma resolve_title_events t c :
  trace (resolve_title env t c).2 =
    match title_cache c !! t with
    | Some _ => trace c
    | None => EvApi (ReqInfo t) :: trace c
    end.
Proof.
  destruct (title_cache c !! t) as [n |] eqn:H.
  - rewrite (resolve_title_hit env t c n H). reflexivity.
  - destruct (resolve_title_miss env t c H) as (c' & -> & _ & _ & _ & _ & Ht & _).
    exact Ht.
Qed.

Lemma fetcher_cases k t c :
  ∃ rt c1,
    resolve_title env t (add_event (match k with
                                    | Outgoing => EvGetLinks t
                                    | Incoming => EvGetLinksHere t
                                    end) c) = (rt, c1) ∧
    match rt with
    | Ret (Some n) =>
        if String.eqb n EmptyString then fetcher env k t c = (Ret ∅, c1)
        else
          match cache_of k c1 !! n with
          | Some s => fetcher env k t c = (Ret s, c1)
          | None =>
              ∀ s c', fetcher env k t c = (Ret s, c') → cache_of k c' !! n = Some s
          end
    | _ => True
    end.
Proof.
  destruct k; simpl.
  - destruct (get_links_cases env t c) as (rt & c1 & Hr & Hc).
    exists rt, c1. split; [exact Hr |].
    destruct rt as [[n |] | |]; try exact I.
    destruct (String.eqb n EmptyString); [exact Hc |].
    destruct (link_cache c1 !! n); [exact Hc |].
    simpl in Hc. intros s c' H.
    destruct (chain_result add_links (api_links env n) ∅); rewrite Hc in H;
      inversion H; subst.
    simpl. apply lookup_insert_eq.
  - destruct (get_linkshere_cases env t c) as (rt & c1 & Hr & Hc).
    exists rt, c1. split; [exact Hr |].
    destruct rt as [[n |] | |]; try exact I.
    destruct (String.eqb n EmptyString); [exact Hc |].
    destruct (linkshere_cache c1 !! n); [exact Hc |].
    simpl in Hc. intros s c' H.
    destruct (chain_result add_incoming (api_linkshere env n) ∅); rewrite Hc in H;
      inversion H; subst.
    simpl. apply lookup_insert_eq.
Qed.

Lemma cache_of_kept k c c' n s :
  caches_kept c c' → cache_of k c !! n = Some s → cache_of k c' !! n = Some s.
Proof.
  intros [H1 H2] H. destruct k; simpl in *; eapply lookup_weaken; eassumption.
Qed.

(** Once a fetcher has returned for a title that resolves to [n], the cache
    holds what it returned. *)
Lemma fetcher_fills_cache k t n s c c' :
  (resolve_title env t c).1 = Ret (Some n) → n ≠ EmptyString →
  fetcher env k t c = (Ret s, c') → cache_of k c' !! n = Some s.
Proof.
  intros Hn Hne Hf.
  destruct (fetcher_cases k t c) as (rt & c1 & Hr & Hc).
  assert (rt = Ret (Some n)) as ->.
  { rewrite <- Hn, (resolve_title_value t c (add_event (match k with
                                    | Outgoing => EvGetLinks t
                                    | Incoming => EvGetLinksHere t
                                    end) c)) by reflexivity.
    rewrite Hr. reflexivity. }
  destruct (String.eqb_spec n EmptyString); [contradiction |].
  destruct (cache_of k c1 !! n) as [s' |] eqn:Hs.
  - rewrite Hc in Hf. inversion Hf; subst. exact Hs.
  - eapply Hc, Hf.
Qed.

(** A fetcher called on a title that resolves to [n], with [n] in its
    cache, returns the cached set; its events are its own call and at most
    one title-resolution request. *)
Lemma fetcher_hit k t n s c :
  (resolve_title env t c).1 = Ret (Some n) → n ≠ EmptyString →
  cache_of k c !! n = Some s →
  ∃ c' new,
    fetcher env k t c = (Ret s, c') ∧
    trace c' = (new ++ trace c)%list ∧
    forallb (fun e => negb (is_link_request e)) new = true ∧
    (is_Some (title_cache c !! t) → forallb (fun e => negb (is_api_event e)) new = true).
Proof.
  intros Hn Hne Hs.
  set (ev := match k with Outgoing => EvGetLinks t | Incoming => EvGetLinksHere t end).
  destruct (fetcher_cases k t c) as (rt & c1 & Hr & Hc). fold ev in Hr.
  assert (rt = Ret (Some n)) as ->.
  { rewrite <- Hn, (resolve_title_value t c (add_event ev c)) by reflexivity.
    rewrite Hr. reflexivity. }
  destruct (String.eqb_spec n EmptyString); [contradiction |].
  assert (cache_of k c1 !! n = Some s) as Hs1.
  { eapply cache_of_kept; [| exact Hs].
    pose proof (resolve_title_caches env t (add_event ev c)) as Hk.
    rewrite Hr in Hk. exact Hk. }
  rewrite Hs1 in Hc.
  pose proof (resolve_title_events t (add_event ev c)) as Ht.
  rewrite Hr in Ht. simpl in Ht.
  exists c1. destruct (title_cache c !! t) as [m |] eqn:Hm.
  - exists [ev]. repeat split; try assumption.
    + destruct k; reflexivity.
    + intros _. destruct k; reflexivity.
  - exists [EvApi (ReqInfo t); ev]. repeat split; try assumption.
    + destruct k; reflexivity.
    + intros [? ?]. discriminate.
Qed.

End Memo.

(** C7, as amended. Once a link fetcher ([get_links] or [get_linkshere]) has
    returned a set for a title whose canonical title [n] is not empty, the
    cache holds that set under [n]. After any later operations on the
    crawler, a call of the same fetcher with any title that resolves to [n]
    returns the same set and sends no links request; it sends no request at
    all when the title it is given is in the title cache. No operation
    removes or replaces an entry of the two link caches. *)
Theorem link_sets_are_memoised
    (env : Env) (k : LinkKind) (t t' n : string) (s : gset string)
    (c0 c1 : Crawler) (ops : list CrawlerOp)
    (Hresolve : (resolve_title env t c0).1 = Ret (Some n))
    (Hnonempty : n ≠ EmptyString)
    (Hfirst : fetcher env k t c0 = (Ret s, c1))
    (Hlater : (resolve_title env t' (run_ops env ops c1)).1 = Ret (Some n)) :
  let c2 := run_ops env ops c1 in
  cache_of k c1 !! n = Some s ∧
  (∃ c3 new,
     fetcher env k t' c2 = (Ret s, c3) ∧
     trace c3 = (new ++ trace c2)%list ∧
     forallb (fun e => negb (is_link_request e)) new = true ∧
     (is_Some (title_cache c2 !! t') →
      forallb (fun e => negb (is_api_event e)) new = true)) ∧
  (∀ op c, caches_kept c (run_op env op c)).
Proof.
  intros c2.
  pose proof (fetcher_fills_cache env k t n s c0 c1 Hresolve Hnonempty Hfirst) as Hc1.
  split; [exact Hc1 |]. split.
  - apply (fetcher_hit env k t' n s c2); try assumption.
    eapply cache_of_kept; [apply run_ops_caches | exact Hc1].
  - intros op c. apply run_op_caches.
Qed.

(** ** One iteration of the breadth-first loop *)

Section BfsStep.

Context (env : Env).

Lemma resolve_title_fuel t c : (resolve_title env t c).1 ≠ OutOfFuel.
Proof.
  destruct (title_cache c !! t) eqn:Ht.
  - rewrite (resolve_title_hit env _ _ _ Ht). discriminate.
  - destruct (resolve_title_miss env _ _ Ht) as (c' & -> & _). simpl.
    unfold resolve_pure. destruct (api_info env t) as [[| p ?] |]; try discriminate.
    destruct (pi_missing p); discriminate.
Qed.

Lemma chain_result_fuel add chain acc : chain_result add chain acc ≠ OutOfFuel.
Proof.
  revert acc. induction chain as [| | entries token next IH]; simpl; intros acc;
    try discriminate.
  destruct (String.eqb token EmptyString); [discriminate | apply IH].
Qed.

Lemma get_links_fuel t c : (get_links env t c).1 ≠ OutOfFuel.
Proof.
  destruct (get_links_cases env t c) as (rt & c1 & Hr & Hc).
  pose proof (resolve_title_fuel t (add_event (EvGetLinks t) c)) as Hf.
  rewrite Hr in Hf. simpl in Hf.
  destruct rt as [[n |] | e |]; try (rewrite Hc; discriminate); [| contradiction].
  destruct (String.eqb n EmptyString); [rewrite Hc; discriminate |].
  destruct (link_cache c1 !! n); [rewrite Hc; discriminate |].
  simpl in Hc. pose proof (chain_result_fuel add_links (api_links env n) ∅).
  destruct (chain_result add_links (api_links env n) ∅); rewrite Hc; simpl;
    congruence.
Qed.

Lemma get_linkshere_fuel t c : (get_linkshere env t c).1 ≠ OutOfFuel.
Proof.
  destruct (get_linkshere_cases env t c) as (rt & c1 & Hr & Hc).
  pose proof (resolve_title_fuel t (add_event (EvGetLinksHere t) c)) as Hf.
  rewrite Hr in Hf. simpl in Hf.
  destruct rt as [[n |] | e |]; try (rewrite Hc; discriminate); [| contradiction].
  destruct (String.eqb n EmptyString); [rewrite Hc; discriminate |].
  destruct (linkshere_cache c1 !! n); [rewrite Hc; discriminate |].
  simpl in Hc. pose proof (chain_result_fuel add_incoming (api_linkshere env n) ∅).
  destruct (chain_result add_incoming (api_linkshere env n) ∅); rewrite Hc; simpl;
    congruence.
Qed.

(** The set a search works with after a guarded fetch: the set fetched, or
    the empty set when the fetch raised. *)
Lemma links_or_empty_run (fetch : string → M (gset string)) current c :
  (fetch current c).1 ≠ OutOfFuel →
  links_or_empty fetch current c =
    (Ret (match (fetch current c).1 with
          | Ret s => s
          | _ => ∅
          end), (fetch current c).2).
Proof.
  unfold links_or_empty, try_except. intros H.
  destruct (fetch current c) as [[s | e |] c']; simpl in *; try reflexivity.
  contradiction.
Qed.

Lemma for_each_cons {A S} (body : S → A → M S) x l s c :
  for_each body (x :: l) s c =
    match body s x c with
    | (Ret s', c') => for_each body l s' c'
    | (Raise e, c') => (Raise e, c')
    | (OutOfFuel, c') => (OutOfFuel, c')
    end.
Proof. reflexivity. Qed.

Lemma bfs_enqueue_eq current depth path q visited n c :
  bfs_enqueue current depth path (q, visited) n c =
    if bool_decide (n ∈ visited) then (Ret (q, visited), c)
    else
      (Ret ((q ++ [(n, (path ++ [n])%list, depth + 1)])%list, {[n]} ∪ visited),
       with_decision_info
         (<[(current, n) := {| d_method := MBfs; d_depth := depth + 1;
                               d_note := NoteEnqueuedFrom current; d_score := None |}]>
            (decision_info c))
         (add_event (EvEnqueue QBfs n (depth + 1)) c)).
Proof.
  unfold bfs_enqueue. destruct (bool_decide (n ∈ visited)); reflexivity.
Qed.

Lemma bfs_enqueue_run current depth path ns : ∀ q visited c,
  ∃ c',
    for_each (bfs_enqueue current depth path) ns (q, visited) c =
      (Ret ((q ++ map (fun n => (n, (path ++ [n])%list, depth + 1))
                      (fresh_nodes visited ns))%list,
            list_to_set (fresh_nodes visited ns) ∪ visited), c') ∧
    trace c' = (reverse (map (fun n => EvEnqueue QBfs n (depth + 1)) (fresh_nodes visited ns))
                  ++ trace c)%list ∧
    caches_same c c'.
Proof.
  induction ns as [| n ns IH]; intros q visited c.
  - exists c. simpl. rewrite app_nil_r, (left_id_L ∅ (∪)). repeat split.
  - rewrite for_each_cons, bfs_enqueue_eq. simpl fresh_nodes.
    destruct (bool_decide (n ∈ visited)) eqn:Hn.
    + apply IH.
    + edestruct IH as (c' & Hrun & Htr & Hsame).
      exists c'. rewrite Hrun. split; [| split].
      * simpl. rewrite <- app_assoc. simpl.
        replace (list_to_set (fresh_nodes ({[n]} ∪ visited) ns) ∪ ({[n]} ∪ visited))
          with ({[n]} ∪ list_to_set (fresh_nodes ({[n]} ∪ visited) ns) ∪ visited)
          by set_solver.
        reflexivity.
      * rewrite Htr. simpl. rewrite reverse_cons, <- app_assoc. reflexivity.
      * destruct Hsame as (H1 & H2 & H3). repeat split; assumption.
Qed.

(** The iteration on a non-empty queue, case by case. *)
Lemma bfs_step_run target max_depth max_visited s current path depth q c :
  bfs_q s = (current, path, depth) :: q →
  let c1 := add_event (EvDequeue QBfs current depth) c in
  let count := bfs_visited_count s + 1 in
  let fetched := get_links env current c1 in
  let neighbors := match fetched.1 with Ret n => n | _ => ∅ end in
  let fresh := fresh_nodes (bfs_visited s) (set_iter env neighbors) in
  if max_visited <? count then
    bfs_step env target max_depth max_visited s c =
      (Raise (RuntimeError "Visited cap exceeded; aborting"), c1)
  else if max_depth <=? depth then
    bfs_step env target max_depth max_visited s c =
      (Ret (Continue {| bfs_q := q; bfs_visited := bfs_visited s;
                        bfs_visited_count := count |}), c1)
  else if bool_decide (target ∈ neighbors) then
    ∃ c',
      bfs_step env target max_depth max_visited s c =
        (Ret (Done (Some (path ++ [target])%list)), c') ∧
      trace c' = trace fetched.2 ∧ caches_same fetched.2 c'
  else
    ∃ c',
      bfs_step env target max_depth max_visited s c =
        (Ret (Continue
                {| bfs_q := (q ++ map (fun n => (n, (path ++ [n])%list, depth + 1)) fresh)%list;
                   bfs_visited := list_to_set fresh ∪ bfs_visited s;
                   bfs_visited_count := count |}), c') ∧
      trace c' = (reverse (map (fun n => EvEnqueue QBfs n (depth + 1)) fresh)
                    ++ trace fetched.2)%list ∧
      caches_same fetched.2 c'.
Proof.
  intros Hq c1 count fetched neighbors fresh.
  unfold bfs_step. rewrite Hq.
  rewrite (bind_eq_ret _ _ c tt c1) by reflexivity. cbv zeta. fold count.
  destruct (max_visited <? count); [reflexivity |].
  destruct (max_depth <=? depth); [reflexivity |].
  rewrite (bind_eq_ret _ _ c1 neighbors fetched.2)
    by apply (links_or_empty_run (get_links env) current c1 (get_links_fuel _ _)).
  set (c2 := with_crawl_graph
               (fold_left (record_edge (fun n => (current, n))) (set_iter env neighbors)
                          (crawl_graph fetched.2)) fetched.2).
  rewrite (bind_eq_ret _ _ fetched.2 tt c2) by reflexivity.
  destruct (bool_decide (target ∈ neighbors)).
  - eexists. split; [reflexivity |]. simpl. repeat split.
  - destruct (bfs_enqueue_run current depth path (set_iter env neighbors)
                q (bfs_visited s) c2) as (c' & Hrun & Htr & Hsame).
    exists c'. rewrite (bind_eq_ret _ _ c2 _ c' Hrun).
    split; [reflexivity |]. split; [exact Htr |].
    destruct Hsame as (H1 & H2 & H3). repeat split; assumption.
Qed.

End BfsStep.

(** ** Reading a trace *)

Lemma enqueued_app f (l1 l2 : list Event) :
  enqueued f (l1 ++ l2) = (enqueued f l1 ++ enqueued f l2)%list.
Proof. apply omap_app. Qed.

Lemma dequeued_app f (l1 l2 : list Event) :
  dequeued f (l1 ++ l2) = (dequeued f l1 ++ dequeued f l2)%list.
Proof. apply omap_app. Qed.

Lemma expanded_app (l1 l2 : list Event) :
  expanded (l1 ++ l2) = (expanded l1 ++ expanded l2)%list.
Proof. apply omap_app. Qed.

Lemma enqueued_dequeue f f' n d evs :
  enqueued f (EvDequeue f' n d :: evs) = enqueued f evs.
Proof. reflexivity. Qed.

Lemma dequeued_dequeue f n d evs :
  dequeued f (EvDequeue f n d :: evs) = n :: dequeued f evs.
Proof.
  unfold dequeued. change (EvDequeue f n d :: evs) with ([EvDequeue f n d] ++ evs)%list.
  rewrite omap_app. simpl. destruct (decide (f = f)); [reflexivity | contradiction].
Qed.

Lemma expanded_dequeue f n d evs : expanded (EvDequeue f n d :: evs) = expanded evs.
Proof. reflexivity. Qed.

Lemma enqueued_get_links f t evs : enqueued f (EvGetLinks t :: evs) = enqueued f evs.
Proof. reflexivity. Qed.

Lemma dequeued_get_links f t evs : dequeued f (EvGetLinks t :: evs) = dequeued f evs.
Proof. reflexivity. Qed.

Lemma expanded_get_links t evs : expanded (EvGetLinks t :: evs) = t :: expanded evs.
Proof. reflexivity. Qed.

Lemma no_queue_events_enqueued f evs :
  forallb (fun e => negb (is_queue_event e)) evs = true → enqueued f evs = [].
Proof.
  induction evs as [| e evs IH]; simpl; [reflexivity |].
  intros H. apply andb_true_iff in H as [He H].
  unfold enqueued in *. simpl. rewrite (IH H).
  destruct e; simpl in *; try reflexivity; discriminate.
Qed.

Lemma no_queue_events_dequeued f evs :
  forallb (fun e => negb (is_queue_event e)) evs = true → dequeued f evs = [].
Proof.
  induction evs as [| e evs IH]; simpl; [reflexivity |].
  intros H. apply andb_true_iff in H as [He H].
  unfold dequeued in *. simpl. rewrite (IH H).
  destruct e; simpl in *; try reflexivity; discriminate.
Qed.

Lemma api_events_not_queue evs :
  forallb is_api_event evs = true →
  forallb (fun e => negb (is_queue_event e)) evs = true.
Proof.
  rewrite !forallb_forall. intros H e He. specialize (H e He).
  destruct e; simpl in *; congruence.
Qed.

Lemma api_events_expanded evs : forallb is_api_event evs = true → expanded evs = [].
Proof.
  induction evs as [| e evs IH]; simpl; [reflexivity |].
  intros H. apply andb_true_iff in H as [He H].
  unfold expanded in *. simpl. rewrite (IH H).
  destruct e; simpl in *; try reflexivity; discriminate.
Qed.

Lemma info_events_api evs :
  forallb is_info_request evs = true → forallb is_api_event evs = true.
Proof.
  rewrite !forallb_forall. intros H e He. specialize (H e He).
  destruct e as [[] | | | |]; simpl in *; congruence.
Qed.

Lemma enqueued_rev_map f d (ns : list string) :
  enqueued f (reverse (map (fun n => EvEnqueue f n d) ns)) = reverse ns.
Proof.
  induction ns as [| n ns IH]; simpl; [reflexivity |].
  rewrite !reverse_cons, enqueued_app, IH. unfold enqueued. simpl.
  destruct (decide (f = f)); [reflexivity | contradiction].
Qed.

Lemma dequeued_rev_map f d (ns : list string) :
  dequeued f (reverse (map (fun n => EvEnqueue f n d) ns)) = [].
Proof.
  induction ns as [| n ns IH]; simpl; [reflexivity |].
  rewrite reverse_cons, dequeued_app, IH. reflexivity.
Qed.

Lemma expanded_rev_map f d (ns : list string) :
  expanded (reverse (map (fun n => EvEnqueue f n d) ns)) = [].
Proof.
  induction ns as [| n ns IH]; simpl; [reflexivity |].
  rewrite reverse_cons, expanded_app, IH. reflexivity.
Qed.

(** ** The nodes an enqueuing loop adds *)

Lemma fresh_nodes_spec ns : ∀ visited,
  NoDup (fresh_nodes visited ns) ∧
  (∀ n, n ∈ fresh_nodes visited ns ↔ n ∈ ns ∧ n ∉ visited).
Proof.
  induction ns as [| x ns IH]; intros visited; simpl.
  - split; [constructor |]. intros n. split; [intros H | intros [H _]];
      by apply elem_of_nil in H.
  - destruct (bool_decide_reflect (x ∈ visited)) as [Hx | Hx].
    + destruct (IH visited) as [Hnd Hin]. split; [exact Hnd |].
      intros n. rewrite Hin. set_solver.
    + destruct (IH ({[x]} ∪ visited)) as [Hnd Hin]. split.
      * constructor; [| exact Hnd]. rewrite Hin. set_solver.
      * intros n. rewrite elem_of_cons, Hin. split.
        -- intros [-> | [H1 H2]]; set_solver.
        -- intros [H1 H2]. apply elem_of_cons in H1 as [-> | H1]; [by left |].
           destruct (decide (n = x)) as [-> | Hne]; [by left |]. right. set_solver.
Qed.

Section FetchEvents.

Context (env : Env).

(** The events of a call of [get_links]: the call, then requests. *)
Lemma get_links_events t c :
  ∃ api, trace (get_links env t c).2 = (api ++ EvGetLinks t :: trace c)%list ∧
         forallb is_api_event api = true.
Proof.
  destruct (get_links_cases env t c) as (rt & c1 & Hr & Hc).
  pose proof (resolve_title_trace env t (add_event (EvGetLinks t) c)) as (new & Hn & Ha).
  rewrite Hr in Hn. simpl in Hn. apply info_events_api in Ha.
  assert (trace (get_links env t c).2 = trace c1 ∨
          ∃ n, trace (get_links env t c).2 =
                 (chain_requests (ReqLinks n) None (api_links env n) ++ trace c1)%list)
    as [Ht | [n Ht]].
  { destruct rt as [[n |] | e |]; try (rewrite Hc; by left).
    destruct (String.eqb n EmptyString); [rewrite Hc; by left |].
    destruct (link_cache c1 !! n); [rewrite Hc; by left |].
    simpl in Hc. right. exists n.
    destruct (chain_result add_links (api_links env n) ∅); rewrite Hc; reflexivity. }
  - exists new. rewrite Ht, Hn. auto.
  - exists (chain_requests (ReqLinks n) None (api_links env n) ++ new)%list.
    rewrite Ht, Hn, <- app_assoc. split; [reflexivity |].
    rewrite forallb_app, Ha, chain_requests_api. reflexivity.
Qed.

Lemma get_linkshere_events t c :
  ∃ api, trace (get_linkshere env t c).2 = (api ++ EvGetLinksHere t :: trace c)%list ∧
         forallb is_api_event api = true.
Proof.
  destruct (get_linkshere_cases env t c) as (rt & c1 & Hr & Hc).
  pose proof (resolve_title_trace env t (add_event (EvGetLinksHere t) c)) as (new & Hn & Ha).
  rewrite Hr in Hn. simpl in Hn. apply info_events_api in Ha.
  assert (trace (get_linkshere env t c).2 = trace c1 ∨
          ∃ n, trace (get_linkshere env t c).2 =
                 (chain_requests (ReqLinksHere n) None (api_linkshere env n) ++ trace c1)%list)
    as [Ht | [n Ht]].
  { destruct rt as [[n |] | e |]; try (rewrite Hc; by left).
    destruct (String.eqb n EmptyString); [rewrite Hc; by left |].
    destruct (linkshere_cache c1 !! n); [rewrite Hc; by left |].
    simpl in Hc. right. exists n.
    destruct (chain_result add_incoming (api_linkshere env n) ∅); rewrite Hc; reflexivity. }
  - exists new. rewrite Ht, Hn. auto.
  - exists (chain_requests (ReqLinksHere n) None (api_linkshere env n) ++ new)%list.
    rewrite Ht, Hn, <- app_assoc. split; [reflexivity |].
    rewrite forallb_app, Ha, chain_requests_api. reflexivity.
Qed.

End FetchEvents.

(** ** Induction over a loop *)

Lemma run_loop_inv {S A} (step : S → M (StepResult S A))
    (I : S → Crawler → Prop) (Q : outcome A → Crawler → Prop) :
  (∀ s c, I s c → Q OutOfFuel c) →
  (∀ s c, I s c →
     match step s c with
     | (Ret (Continue s'), c') => I s' c'
     | (Ret (Done a), c') => Q (Ret a) c'
     | (Raise e, c') => Q (Raise e) c'
     | (OutOfFuel, c') => Q OutOfFuel c'
     end) →
  ∀ fuel s c, I s c → Q (run_loop step fuel s c).1 (run_loop step fuel s c).2.
Proof.
  intros Hfuel Hstep. induction fuel as [| fuel IH]; intros s c HI.
  - rewrite run_loop_O. eapply Hfuel, HI.
  - rewrite run_loop_S. unfold bind. specialize (Hstep s c HI).
    destruct (step s c) as [[[s' | a] | e |] c']; simpl; auto.
Qed.

(** ** Breadth-first search: first in, first out, once each *)

Section BfsTrace.

Context (env : Env).

(** The queue discipline, read on the events [new] of a run so far: what
    was enqueued is what was dequeued followed by what waits in the queue,
    nothing was enqueued twice, the visited set is the set of the enqueued
    nodes, and [get_links] was called on dequeued nodes only, in order. *)
Lemma bfs_step_discipline target max_depth max_visited base s c :
  (∃ new, trace c = (new ++ base)%list ∧
          NoDup (enqueued QBfs new) ∧
          enqueued QBfs new = (reverse (map (fun e => e.1.1) (bfs_q s)) ++ dequeued QBfs new)%list ∧
          bfs_visited s = list_to_set (enqueued QBfs new) ∧
          sublist (expanded new) (dequeued QBfs new)) →
  match bfs_step env target max_depth max_visited s c with
  | (Ret (Continue s'), c') =>
      ∃ new, trace c' = (new ++ base)%list ∧
             NoDup (enqueued QBfs new) ∧
             enqueued QBfs new =
               (reverse (map (fun e => e.1.1) (bfs_q s')) ++ dequeued QBfs new)%list ∧
             bfs_visited s' = list_to_set (enqueued QBfs new) ∧
             sublist (expanded new) (dequeued QBfs new)
  | (_, c') =>
      ∃ new, trace c' = (new ++ base)%list ∧
             NoDup (enqueued QBfs new) ∧
             (∃ waiting, enqueued QBfs new = (waiting ++ dequeued QBfs new)%list) ∧
             sublist (expanded new) (dequeued QBfs new)
  end.
Proof.
  intros (new & Htr & Hnd & Hfifo & Hvis & Hsub).
  destruct (bfs_q s) as [| [[current path] depth] q] eqn:Hq.
  { unfold bfs_step. rewrite Hq. simpl. exists new. eauto 10. }
  pose proof (bfs_step_run env target max_depth max_visited s current path depth q c Hq)
    as Hrun.
  cbv zeta in Hrun.
  set (c1 := add_event (EvDequeue QBfs current depth) c) in *.
  (* the events once the node is dequeued *)
  assert (Hfifo1 : enqueued QBfs (EvDequeue QBfs current depth :: new) =
                   (reverse (map (fun e => e.1.1) q) ++
                    dequeued QBfs (EvDequeue QBfs current depth :: new))%list).
  { rewrite enqueued_dequeue, dequeued_dequeue, Hfifo. simpl.
    rewrite reverse_cons, <- app_assoc. reflexivity. }
  assert (Hsub1 : sublist (expanded (EvDequeue QBfs current depth :: new))
                          (dequeued QBfs (EvDequeue QBfs current depth :: new))).
  { rewrite expanded_dequeue, dequeued_dequeue. apply sublist_cons. exact Hsub. }
  destruct (max_visited <? bfs_visited_count s + 1).
  { rewrite Hrun. exists (EvDequeue QBfs current depth :: new). simpl.
    rewrite Htr. split; [reflexivity |]. split; [exact Hnd |]. split; [| exact Hsub1].
    eexists. exact Hfifo1. }
  destruct (max_depth <=? depth).
  { rewrite Hrun. exists (EvDequeue QBfs current depth :: new). simpl.
    rewrite Htr. split; [reflexivity |]. split; [exact Hnd |].
    split; [exact Hfifo1 |]. split; [exact Hvis | exact Hsub1]. }
  destruct (get_links_events env current c1) as (api & Hapi & Hall).
  set (fetched := get_links env current c1) in *.
  set (neighbors := match fetched.1 with Ret n => n | _ => ∅ end) in *.
  set (new2 := (api ++ EvGetLinks current :: EvDequeue QBfs current depth :: new)%list).
  assert (Htr2 : trace fetched.2 = (new2 ++ base)%list).
  { rewrite Hapi. unfold new2. simpl. rewrite Htr, <- app_assoc. reflexivity. }
  assert (Henq2 : enqueued QBfs new2 = enqueued QBfs new).
  { unfold new2. rewrite enqueued_app.
    rewrite (no_queue_events_enqueued _ _ (api_events_not_queue _ Hall)).
    rewrite app_nil_l, enqueued_get_links, enqueued_dequeue. reflexivity. }
  assert (Hdeq2 : dequeued QBfs new2 = current :: dequeued QBfs new).
  { unfold new2. rewrite dequeued_app.
    rewrite (no_queue_events_dequeued _ _ (api_events_not_queue _ Hall)).
    rewrite app_nil_l, dequeued_get_links, dequeued_dequeue. reflexivity. }
  assert (Hexp2 : expanded new2 = current :: expanded new).
  { unfold new2. rewrite expanded_app, (api_events_expanded _ Hall).
    rewrite app_nil_l, expanded_get_links, expanded_dequeue. reflexivity. }
  assert (Hsub2 : sublist (expanded new2) (dequeued QBfs new2)).
  { rewrite Hexp2, Hdeq2. apply sublist_skip. exact Hsub. }
  assert (Hfifo2 : enqueued QBfs new2 =
                   (reverse (map (fun e => e.1.1) q) ++ dequeued QBfs new2)%list).
  { rewrite Henq2, Hdeq2, Hfifo. simpl. rewrite reverse_cons, <- app_assoc. reflexivity. }
  destruct (bool_decide (target ∈ neighbors)).
  { destruct Hrun as (c' & -> & Htr' & _). exists new2.
    rewrite Htr', Htr2. split; [reflexivity |]. rewrite Henq2 at 1.
    split; [exact Hnd |]. split; [eexists; exact Hfifo2 | exact Hsub2]. }
  destruct Hrun as (c' & -> & Htr' & _).
  set (fresh := fresh_nodes (bfs_visited s) (set_iter env neighbors)) in *.
  destruct (fresh_nodes_spec (set_iter env neighbors) (bfs_visited s)) as [Hfnd Hfin].
  fold fresh in Hfnd, Hfin.
  exists (reverse (map (fun n => EvEnqueue QBfs n (depth + 1)) fresh) ++ new2)%list.
  rewrite Htr', Htr2, app_assoc. split; [reflexivity |].
  rewrite enqueued_app, dequeued_app, expanded_app.
  rewrite enqueued_rev_map, dequeued_rev_map, expanded_rev_map. simpl.
  split; [| split; [| split]].
  - rewrite Henq2. apply NoDup_app. split; [rewrite reverse_Permutation; exact Hfnd |].
    split; [| exact Hnd].
    intros n Hn1 Hn2. apply elem_of_reverse, Hfin in Hn1 as [_ Hn1].
    apply Hn1. rewrite Hvis. apply elem_of_list_to_set. exact Hn2.
  - rewrite Hfifo2, map_app, reverse_app, map_map. simpl. rewrite map_id.
    rewrite <- app_assoc. reflexivity.
  - rewrite Henq2, Hvis, list_to_set_app_L.
    f_equal. apply set_eq. intros n. rewrite !elem_of_list_to_set, elem_of_reverse.
    reflexivity.
  - exact Hsub2.
Qed.

End BfsTrace.

Lemma info_events_quiet evs :
  forallb is_info_request evs = true →
  enqueued QBfs evs = [] ∧ dequeued QBfs evs = [] ∧ expanded evs = [].
Proof.
  intros H. apply info_events_api in H.
  split; [| split].
  - apply no_queue_events_enqueued, api_events_not_queue, H.
  - apply no_queue_events_dequeued, api_events_not_queue, H.
  - apply api_events_expanded, H.
Qed.

(** C6. In any run of [find_path_bfs], whatever its outcome: no title is
    put on the queue twice (a title is added to the visited set exactly when
    it is put on the queue), the queue is first in, first out (the nodes
    dequeued are, in order, the first of the nodes enqueued), so no title is
    dequeued twice, and [get_links] is called on dequeued nodes only, in
    order, so no title is expanded twice. *)
Theorem bfs_visits_each_node_once
    (env : Env) (start_title target_title : string) (max_depth max_visited : Z)
    (c : Crawler) :
  ∃ new,
    trace (find_path_bfs env start_title target_title max_depth max_visited c).2
      = (new ++ trace c)%list ∧
    NoDup (enqueued QBfs new) ∧
    NoDup (dequeued QBfs new) ∧
    NoDup (expanded new) ∧
    (∃ waiting, enqueued QBfs new = (waiting ++ dequeued QBfs new)%list) ∧
    sublist (expanded new) (dequeued QBfs new).
Proof.
  cut (∃ new,
         trace (find_path_bfs env start_title target_title max_depth max_visited c).2
           = (new ++ trace c)%list ∧
         NoDup (enqueued QBfs new) ∧
         (∃ waiting, enqueued QBfs new = (waiting ++ dequeued QBfs new)%list) ∧
         sublist (expanded new) (dequeued QBfs new)).
  { intros (new & Htr & Hnd & [waiting Hw] & Hsub). exists new.
    assert (NoDup (dequeued QBfs new)) as Hnd'.
    { rewrite Hw in Hnd. apply NoDup_app in Hnd. tauto. }
    split; [exact Htr |]. split; [exact Hnd |]. split; [exact Hnd' |].
    split; [eapply sublist_NoDup; eassumption |]. eauto. }
  assert (Hquiet : ∀ c', trace_grows is_info_request c c' →
            ∃ new, trace c' = (new ++ trace c)%list ∧
                   NoDup (enqueued QBfs new) ∧
                   (∃ waiting, enqueued QBfs new = (waiting ++ dequeued QBfs new)%list) ∧
                   sublist (expanded new) (dequeued QBfs new)).
  { intros c' (new & Htr & Hall). exists new.
    destruct (info_events_quiet new Hall) as (-> & -> & ->).
    split; [exact Htr |]. split; [constructor |]. split; [by exists [] | constructor]. }
  unfold find_path_bfs, bind.
  destruct (resolve_title env start_title c) as [r1 c1] eqn:E1.
  pose proof (resolve_title_trace env start_title c) as G1. rewrite E1 in G1. simpl in G1.
  destruct r1 as [[start |] | e |]; simpl; try (apply Hquiet; exact G1).
  destruct (resolve_title env target_title c1) as [r2 c2] eqn:E2.
  pose proof (resolve_title_trace env target_title c1) as G2. rewrite E2 in G2. simpl in G2.
  assert (trace_grows is_info_request c c2) as G by (etrans; eassumption).
  destruct r2 as [[target |] | e |]; simpl; try (apply Hquiet; exact G).
  destruct (String.eqb start target); simpl; [apply Hquiet; exact G |].
  destruct G as (new0 & Htr0 & Hall0).
  destruct (info_events_quiet new0 Hall0) as (He0 & Hd0 & Hx0).
  apply (run_loop_inv (bfs_step env target max_depth max_visited)
           (fun s c' =>
              ∃ new, trace c' = (new ++ trace c)%list ∧
                     NoDup (enqueued QBfs new) ∧
                     enqueued QBfs new =
                       (reverse (map (fun e => e.1.1) (bfs_q s)) ++ dequeued QBfs new)%list ∧
                     bfs_visited s = list_to_set (enqueued QBfs new) ∧
                     sublist (expanded new) (dequeued QBfs new))
           (fun _ c' =>
              ∃ new, trace c' = (new ++ trace c)%list ∧
                     NoDup (enqueued QBfs new) ∧
                     (∃ waiting, enqueued QBfs new = (waiting ++ dequeued QBfs new)%list) ∧
                     sublist (expanded new) (dequeued QBfs new))).
  - intros s c' (new & H1 & H2 & H3 & _ & H5). exists new. eauto 10.
  - intros s c' HI.
    pose proof (bfs_step_discipline env target max_depth max_visited (trace c) s c' HI) as H.
    destruct (bfs_step env target max_depth max_visited s c') as [[[s' | a] | e |] c''];
      exact H.
  - assert (enqueued QBfs (EvEnqueue QBfs start 0 :: new0) = [start]) as Ha.
    { change (EvEnqueue QBfs start 0 :: new0) with ([EvEnqueue QBfs start 0] ++ new0)%list.
      rewrite enqueued_app, He0. reflexivity. }
    assert (dequeued QBfs (EvEnqueue QBfs start 0 :: new0) = []) as Hb.
    { change (EvEnqueue QBfs start 0 :: new0) with ([EvEnqueue QBfs start 0] ++ new0)%list.
      rewrite dequeued_app, Hd0. reflexivity. }
    assert (expanded (EvEnqueue QBfs start 0 :: new0) = []) as Hc.
    { change (EvEnqueue QBfs start 0 :: new0) with ([EvEnqueue QBfs start 0] ++ new0)%list.
      rewrite expanded_app, Hx0. reflexivity. }
    exists (EvEnqueue QBfs start 0 :: new0). rewrite Ha, Hb, Hc.
    split; [simpl; rewrite Htr0; reflexivity |]. split; [apply NoDup_singleton |].
    split; [reflexivity |]. split; [| constructor].
    simpl. rewrite (right_id_L ∅ (∪)). reflexivity.
Qed.

(** ** On coherent caches the fetchers return what the endpoint answers *)

Section Coherent.

Context (env : Env).
Hypothesis Hfixed : canonical_fixed env.

Lemma coherent_same c c' : caches_same c c' → coherent env c → coherent env c'.
Proof.
  intros (H1 & H2 & H3) (Ht & Hl & Hh). unfold coherent.
  rewrite H1, H2, H3. auto.
Qed.

Lemma resolve_title_coherent t c :
  coherent env c →
  (resolve_title env t c).1 = resolve_pure env t ∧ coherent env (resolve_title env t c).2.
Proof.
  intros Hc. destruct (title_cache c !! t) as [n |] eqn:Ht.
  - rewrite (resolve_title_hit env _ _ _ Ht). simpl. split; [| exact Hc].
    destruct Hc as (Hc & _). symmetry. apply Hc, Ht.
  - destruct (resolve_title_miss env _ _ Ht) as (c' & -> & H1 & H2 & _ & _ & _ & H3).
    simpl. split; [reflexivity |].
    destruct Hc as (Hc & Hl & Hh). unfold coherent. rewrite H1, H2, H3.
    split; [| auto].
    destruct (resolve_pure env t) as [[n |] | |] eqn:Hr; try exact Hc.
    intros t' n'. rewrite lookup_insert. case_decide as E1.
    + intros [= <-]. subst t'. apply Hfixed in Hr. exact Hr.
    + rewrite lookup_insert. case_decide as E2.
      * intros [= <-]. subst t'. exact Hr.
      * apply Hc.
Qed.

Lemma get_links_coherent t c :
  coherent env c →
  (get_links env t c).1 = links_pure env t ∧ coherent env (get_links env t c).2.
Proof.
  intros Hc.
  destruct (get_links_cases env t c) as (rt & c1 & Hr & Hcase).
  destruct (resolve_title_coherent t (add_event (EvGetLinks t) c)) as [Hv Hc1].
  { eapply coherent_same; [| exact Hc]. repeat split. }
  rewrite Hr in Hv, Hc1. simpl in Hv, Hc1. subst rt.
  unfold links_pure, fetch_pure.
  destruct (resolve_pure env t) as [[n |] | e |]; try (rewrite Hcase; auto).
  destruct (String.eqb n EmptyString); [rewrite Hcase; auto |].
  destruct (link_cache c1 !! n) as [s |] eqn:Hn.
  - rewrite Hcase. simpl. split; [| exact Hc1].
    destruct Hc1 as (_ & Hl & _). symmetry. apply Hl, Hn.
  - simpl in Hcase.
    destruct (chain_result add_links (api_links env n) ∅) as [s | e |] eqn:Hres;
      rewrite Hcase; simpl; (split; [reflexivity |]).
    + destruct Hc1 as (Ht & Hl & Hh). split; [exact Ht |]. split; [| exact Hh].
      simpl. intros n' s'. rewrite lookup_insert. case_decide as E.
      * intros [= <-]. subst n'. exact Hres.
      * apply Hl.
    + eapply coherent_same; [| exact Hc1]. repeat split.
    + eapply coherent_same; [| exact Hc1]. repeat split.
Qed.

(** The graph [get_links] shows on a coherent crawler is that of the
    endpoint, a fetch that raises giving no link. *)
Lemma links_to_out_links c u v :
  coherent env c → links_to env c u v ↔ v ∈ out_links env u.
Proof.
  intros Hc. destruct (get_links_coherent u c Hc) as [Hv _].
  unfold links_to, out_links. rewrite Hv.
  destruct (links_pure env u) as [s | e |].
  - split; [intros (s' & [= <-] & H); exact H | intros H; eauto].
  - split; [intros (s' & [=] & _) | intros H; by apply not_elem_of_empty in H].
  - split; [intros (s' & [=] & _) | intros H; by apply not_elem_of_empty in H].
Qed.

End Coherent.

(** ** Walks and distances *)

Section Walks.

Context (E : string → string → Prop).

Lemma walk_snoc p x y : walk E p → last p = Some x → E x y → walk E (p ++ [y]).
Proof.
  induction p as [| a p IH]; intros Hw Hl He; [discriminate |].
  destruct p as [| b p].
  - simpl in Hl. injection Hl as ->. simpl. auto.
  - destruct Hw as [Hab Hw]. split; [exact Hab |].
    apply IH; [exact Hw | exact Hl | exact He].
Qed.

Lemma reach_cons s y k t : E s y → reach E y k t → reach E s (S k) t.
Proof.
  intros He Hr. induction Hr as [| k u v Hr IH Huv].
  - eapply reach_step; [apply reach_start | exact He].
  - eapply reach_step; [exact IH | exact Huv].
Qed.

Lemma walk_reach p : ∀ s t,
  head p = Some s → last p = Some t → walk E p → reach E s (pred (length p)) t.
Proof.
  induction p as [| a p IH]; intros s t Hh Hl Hw; [discriminate |].
  injection Hh as ->.
  destruct p as [| b p].
  - simpl in Hl. injection Hl as ->. apply reach_start.
  - destruct Hw as [Hab Hw].
    change (pred (length (s :: b :: p))) with (S (pred (length (b :: p)))).
    eapply reach_cons; [exact Hab |].
    apply IH; [reflexivity | exact Hl | exact Hw].
Qed.

Lemma reach_zero s v : reach E s 0 v → v = s.
Proof. inversion 1. reflexivity. Qed.

Lemma reach_succ s k v : reach E s (S k) v → ∃ u, reach E s k u ∧ E u v.
Proof. inversion 1; subst. eauto. Qed.

End Walks.

Lemma walk_ext (E E' : string → string → Prop) p :
  (∀ u v, E u v ↔ E' u v) → walk E p ↔ walk E' p.
Proof.
  intros H. induction p as [| a p IH]; [reflexivity |].
  destruct p as [| b p]; [reflexivity |].
  change (E a b ∧ walk E (b :: p) ↔ E' a b ∧ walk E' (b :: p)).
  rewrite H, IH. reflexivity.
Qed.

Lemma elem_of_map {A B} (f : A → B) (l : list A) (y : B) :
  y ∈ map f l ↔ ∃ x, y = f x ∧ x ∈ l.
Proof. change (map f l) with (f <$> l). apply list_elem_of_fmap. Qed.

(** ** Breadth-first search returns a shortest path *)

Section BfsInv.

Context (N : string → gset string) (start target : string).
Hypothesis Hdistinct : start ≠ target.

Local Abbreviation E := (edge N).
Local Abbreviation node := (fun e : string * list string * Z => e.1.1).

Lemma bfs_inv_head D s cur p d q :
  bfs_inv N start target D s → bfs_q s = (cur, p, d) :: q →
  (d = D ∨ (d = D + 1 ∧ Forall (fun e => e.2 = D + 1) (bfs_q s))).
Proof.
  intros (qa & qb & Hq & Ha & Hb & _) Hs. rewrite Hs in Hq.
  destruct qa as [| a qa]; simpl in Hq.
  - right. rewrite Hs, Hq. split; [| exact Hb].
    subst qb. apply Forall_cons in Hb as [Hb _]. exact Hb.
  - left. injection Hq as <- _. apply Forall_cons in Ha as [Ha _]. exact Ha.
Qed.

Lemma bfs_inv_depths D s e :
  bfs_inv N start target D s → e ∈ bfs_q s → e.2 = D ∨ e.2 = D + 1.
Proof.
  intros (qa & qb & Hq & Ha & Hb & _) He. rewrite Hq in He.
  apply elem_of_app in He as [He | He].
  - left. rewrite Forall_forall in Ha. apply Ha, He.
  - right. rewrite Forall_forall in Hb. apply Hb, He.
Qed.

(** A node nearer than the depth of the queue left the queue. *)
Lemma bfs_inv_near D s k y :
  bfs_inv N start target D s → reach E start k y → Z.of_nat k < D →
  y ∈ bfs_visited s ∧ y ∉ map node (bfs_q s).
Proof.
  intros Hinv Hr Hk. pose proof Hinv as (qa & qb & Hq & Ha & Hb & Hok & Hnd & HB & HC).
  split; [eapply HB; [exact Hr | lia] |].
  intros Hin. apply elem_of_map in Hin as (e & -> & He).
  rewrite Forall_forall in Hok. destruct (Hok e He) as (_ & _ & _ & Hmin).
  specialize (Hmin k Hr).
  destruct (bfs_inv_depths D s e Hinv He); lia.
Qed.

Lemma bfs_inv_found D s cur p q :
  bfs_inv N start target D s → bfs_q s = (cur, p, D) :: q → target ∈ N cur →
  shortest_to_target N start target (p ++ [target]).
Proof.
  intros Hinv Hs Ht. pose proof Hinv as (qa & qb & Hq & Ha & Hb & Hok & Hnd & HB & HC).
  rewrite Forall_forall in Hok.
  destruct (Hok (cur, p, D)) as ((Hh & Hl & Hw) & Hlen & Hvis & Hmin).
  { rewrite Hs. apply list_elem_of_here. }
  simpl in *. split.
  - split; [| split].
    + destruct p; [discriminate | exact Hh].
    + apply last_snoc.
    + eapply walk_snoc; eassumption.
  - intros k Hr. rewrite length_app. simpl.
    destruct k as [| k].
    + apply reach_zero in Hr. congruence.
    + apply reach_succ in Hr as (y & Hr & Hy).
      destruct (Z_lt_le_dec (Z.of_nat k) D) as [Hlt | Hge]; [| lia].
      destruct (bfs_inv_near D s k y Hinv Hr Hlt) as [Hy1 Hy2].
      destruct (HC y Hy1 Hy2) as [Hno _]. contradiction.
Qed.

Lemma bfs_inv_step D s cur p q ns count :
  bfs_inv N start target D s → bfs_q s = (cur, p, D) :: q → target ∉ N cur →
  (∀ n, n ∈ ns ↔ n ∈ N cur) →
  let fresh := fresh_nodes (bfs_visited s) ns in
  bfs_inv N start target D
    {| bfs_q := (q ++ map (fun n => (n, (p ++ [n])%list, D + 1)) fresh)%list;
       bfs_visited := list_to_set fresh ∪ bfs_visited s;
       bfs_visited_count := count |}.
Proof.
  intros Hinv Hs Ht Hns fresh.
  pose proof Hinv as (qa & qb & Hq & Ha & Hb & Hok & Hnd & HB & HC).
  destruct (fresh_nodes_spec ns (bfs_visited s)) as [Hfnd Hfin]. fold fresh in Hfnd, Hfin.
  rewrite Forall_forall in Hok.
  destruct (Hok (cur, p, D)) as ((Hh & Hl & Hw) & Hlen & Hvis & Hmin).
  { rewrite Hs. apply list_elem_of_here. }
  simpl in Hh, Hl, Hw, Hlen, Hvis, Hmin.
  assert (Hqa : ∃ qa', qa = (cur, p, D) :: qa' ∧ q = (qa' ++ qb)%list).
  { rewrite Hs in Hq. destruct qa as [| a qa]; simpl in Hq.
    - subst qb. apply Forall_cons in Hb as [Hb _]. simpl in Hb. lia.
    - injection Hq as <- ->. eauto. }
  destruct Hqa as (qa' & -> & ->).
  apply Forall_cons in Ha as [_ Ha].
  rewrite Hs in Hnd. simpl in Hnd. apply NoDup_cons in Hnd as [Hcur Hnd].
  assert (Hnodes : map node (map (fun n => (n, (p ++ [n])%list, D + 1)) fresh) = fresh).
  { rewrite map_map. simpl. apply map_id. }
  exists qa', (qb ++ map (fun n => (n, (p ++ [n])%list, D + 1)) fresh)%list. simpl.
  split; [symmetry; apply app_assoc |]. split; [exact Ha |]. split; [| split; [| split; [| split]]].
  - apply Forall_app. split; [exact Hb |].
    apply Forall_forall. intros e He. apply elem_of_map in He as (n & -> & _).
    reflexivity.
  - apply Forall_forall. intros e He. apply elem_of_app in He as [He | He].
    + destruct (Hok e) as (H1 & H2 & H3 & H4).
      { rewrite Hs. apply list_elem_of_further, He. }
      split; [exact H1 |]. split; [exact H2 |]. split; [set_solver | exact H4].
    + apply elem_of_map in He as (n & -> & Hn). simpl.
      apply Hfin in Hn as Hn'. destruct Hn' as [Hn1 Hn2].
      split; [| split; [| split]].
      * split; [| split].
        -- destruct p; [discriminate | exact Hh].
        -- apply last_snoc.
        -- eapply walk_snoc; [exact Hw | exact Hl |]. apply Hns, Hn1.
      * cbn [fst snd]. rewrite length_app, Nat2Z.inj_add, Hlen. reflexivity.
      * apply elem_of_union_l, elem_of_list_to_set, Hn.
      * cbn [fst snd]. intros k Hr.
        destruct (Z_lt_le_dec (Z.of_nat k) (D + 1)) as [Hlt | Hge]; [| lia].
        exfalso. apply Hn2. eapply HB; [exact Hr | lia].
  - rewrite map_app, Hnodes. apply NoDup_app. split; [exact Hnd |]. split; [| exact Hfnd].
    intros n Hn1 Hn2. apply Hfin in Hn2 as [_ Hn2]. apply Hn2.
    apply elem_of_map in Hn1 as (e & -> & He).
    destruct (Hok e) as (_ & _ & H3 & _); [| exact H3].
    rewrite Hs. apply list_elem_of_further, He.
  - intros k v Hr Hk. apply elem_of_union_r. eapply HB; eassumption.
  - intros v Hv Hnq. rewrite map_app, Hnodes in Hnq.
    assert (v ∉ fresh) as Hvf by (intros H; apply Hnq, elem_of_app; by right).
    assert (v ∉ map node (qa' ++ qb)) as Hvq by (intros H; apply Hnq, elem_of_app; by left).
    assert (v ∈ bfs_visited s) as Hv'.
    { apply elem_of_union in Hv as [Hv | Hv]; [| exact Hv].
      apply elem_of_list_to_set in Hv. contradiction. }
    destruct (decide (v = cur)) as [-> | Hne].
    + split; [exact Ht |]. intros w Hw'.
      destruct (decide (w ∈ bfs_visited s)) as [Hwv | Hwv]; [set_solver |].
      apply elem_of_union_l, elem_of_list_to_set, Hfin. split; [apply Hns, Hw' | exact Hwv].
    + destruct (HC v Hv') as [H1 H2].
      { rewrite Hs. simpl. intros H. apply elem_of_cons in H as [H | H]; contradiction. }
      split; [exact H1 |]. intros w Hw'. apply elem_of_union_r, H2, Hw'.
Qed.

Lemma bfs_inv_shift D s :
  0 ≤ D → bfs_inv N start target D s → Forall (fun e => e.2 = D + 1) (bfs_q s) →
  bfs_inv N start target (D + 1) s.
Proof.
  intros HD Hinv Hall. pose proof Hinv as (qa & qb & Hq & Ha & Hb & Hok & Hnd & HB & HC).
  exists (bfs_q s), []. split; [symmetry; apply app_nil_r |]. split; [exact Hall |].
  split; [constructor |]. split; [exact Hok |]. split; [exact Hnd |]. split; [| exact HC].
  intros k v Hr Hk.
  destruct (Z_lt_le_dec (Z.of_nat k) (D + 1)) as [Hlt | Hge].
  { eapply HB; [exact Hr | lia]. }
  destruct k as [| k]; [lia |].
  apply reach_succ in Hr as (y & Hr & Hy).
  assert (y ∈ bfs_visited s) as Hy1 by (eapply HB; [exact Hr | lia]).
  assert (y ∉ map node (bfs_q s)) as Hy2.
  { intros Hin. apply elem_of_map in Hin as (e & -> & He).
    rewrite Forall_forall in Hok, Hall. destruct (Hok e He) as (_ & _ & _ & Hmin).
    specialize (Hmin k Hr). specialize (Hall e He). lia. }
  destruct (HC y Hy1 Hy2) as [_ Hsub]. apply Hsub, Hy.
Qed.

End BfsInv.

Section BfsLoop.

Context (env : Env).
Hypothesis Hfixed : canonical_fixed env.
Context (start target : string) (max_depth max_visited : Z).
Hypothesis Hdistinct : start ≠ target.

Local Abbreviation N := (out_links env).
Local Abbreviation step := (bfs_step env target max_depth max_visited).

Lemma elem_of_set_iter (s : gset string) n : n ∈ set_iter env s ↔ n ∈ s.
Proof. rewrite (set_iter_perm env s). apply elem_of_elements. Qed.

Lemma bfs_step_empty s c : bfs_q s = [] → step s c = (Ret (Done None), c).
Proof. intros H. unfold bfs_step. rewrite H. reflexivity. Qed.

(** Entries at the depth cap are dequeued and dropped: no path comes out. *)
Lemma bfs_all_deep fuel : ∀ s c path,
  Forall (fun e => max_depth ≤ e.2) (bfs_q s) →
  (run_loop step fuel s c).1 ≠ Ret (Some path).
Proof.
  induction fuel as [| fuel IH]; intros s c path Hdeep; [discriminate |].
  rewrite run_loop_S. unfold bind.
  destruct (bfs_q s) as [| [[cur p] d] q] eqn:Hq.
  - rewrite (bfs_step_empty s c Hq). discriminate.
  - pose proof (bfs_step_run env target max_depth max_visited s cur p d q c Hq) as Hrun.
    cbv zeta in Hrun.
    destruct (max_visited <? bfs_visited_count s + 1); [rewrite Hrun; discriminate |].
    apply Forall_cons in Hdeep as [Hd Hdeep]. simpl in Hd.
    destruct (Z.leb_spec max_depth d) as [_ | Hlt]; [| lia].
    rewrite Hrun. apply IH. exact Hdeep.
Qed.

Lemma bfs_fetch_coherent cur c :
  coherent env c →
  match (get_links env cur c).1 with Ret n => n | _ => ∅ end = N cur ∧
  coherent env (get_links env cur c).2.
Proof.
  intros Hc. destruct (get_links_coherent env Hfixed cur c Hc) as [Hv Hc'].
  rewrite Hv. split; [reflexivity | exact Hc'].
Qed.

Lemma bfs_loop_shortest fuel : ∀ D s c path c',
  0 ≤ D < max_depth →
  bfs_inv N start target D s →
  coherent env c →
  run_loop step fuel s c = (Ret (Some path), c') →
  shortest_to_target N start target path.
Proof.
  induction fuel as [| fuel IH]; intros D s c path c' HD Hinv Hc Hrun; [discriminate |].
  destruct (bfs_q s) as [| [[cur p] d] q] eqn:Hq.
  { rewrite run_loop_S in Hrun. unfold bind in Hrun.
    rewrite (bfs_step_empty s c Hq) in Hrun. discriminate. }
  assert (Hexpand : ∀ D', 0 ≤ D' < max_depth → bfs_inv N start target D' s → d = D' →
                          shortest_to_target N start target path).
  { intros D' HD' Hinv' ->.
    rewrite run_loop_S in Hrun. unfold bind in Hrun.
    pose proof (bfs_step_run env target max_depth max_visited s cur p D' q c Hq) as Hstep.
    cbv zeta in Hstep.
    destruct (max_visited <? bfs_visited_count s + 1); [rewrite Hstep in Hrun; discriminate |].
    destruct (Z.leb_spec max_depth D') as [Hle | _]; [lia |].
    destruct (bfs_fetch_coherent cur (add_event (EvDequeue QBfs cur D') c)) as [Hn Hc1].
    { eapply coherent_same; [| exact Hc]. repeat split. }
    rewrite Hn in Hstep.
    destruct (bool_decide_reflect (target ∈ N cur)) as [Ht | Ht].
    - destruct Hstep as (c1 & Hs1 & _). rewrite Hs1 in Hrun.
      injection Hrun as <- _.
      eapply bfs_inv_found with (cur := cur) (q := q); eassumption.
    - destruct Hstep as (c1 & Hs1 & _ & Hsame). rewrite Hs1 in Hrun.
      eapply (IH D'); [exact HD' | | | exact Hrun].
      + eapply bfs_inv_step with (cur := cur) (p := p) (q := q); try eassumption.
        apply elem_of_set_iter.
      + eapply coherent_same; [exact Hsame | exact Hc1]. }
  destruct (bfs_inv_head N start target D s cur p d q Hinv Hq) as [-> | [-> Hall]].
  - apply (Hexpand D); auto.
  - destruct (Z_lt_le_dec (D + 1) max_depth) as [Hlt | Hge].
    + apply (Hexpand (D + 1)); [lia | | reflexivity].
      apply bfs_inv_shift; [lia | exact Hinv | exact Hall].
    + exfalso. eapply (bfs_all_deep (S fuel) s c path).
      * eapply Forall_impl; [exact Hall |]. intros e He. simpl in He. lia.
      * rewrite Hrun. reflexivity.
Qed.

(** The loop starts in the invariant. *)
Lemma bfs_inv_initial :
  bfs_inv N start target 0
    {| bfs_q := [(start, [start], 0)]; bfs_visited := {[start]}; bfs_visited_count := 0 |}.
Proof.
  exists [(start, [start], 0)], []. simpl.
  split; [reflexivity |]. split; [repeat constructor |]. split; [constructor |].
  split; [| split; [| split]].
  - repeat constructor; simpl; try set_solver. intros k _. lia.
  - apply NoDup_singleton.
  - intros k v Hr Hk. destruct k as [| k]; [| lia].
    apply reach_zero in Hr. set_solver.
  - intros v Hv Hq. exfalso. apply Hq. set_solver.
Qed.

End BfsLoop.

(** C1. On a crawler whose caches hold what the endpoint answers, and with
    an endpoint for which canonical titles are their own canonical titles:
    when [find_path_bfs] returns a path, both titles resolved, and the path
    leads from the resolved start to the resolved target along links that
    [get_links] shows, and no such path has fewer nodes. A fetch that raises
    shows no link, so nothing is assumed on fetches; a returned path has at
    most [max_depth] links, so nothing is assumed on the depth cap. *)
Theorem bfs_returns_shortest_path
    (env : Env) (start_title target_title : string) (max_depth max_visited : Z)
    (c c' : Crawler) (path : list string)
    (Hfixed : canonical_fixed env)
    (Hcoherent : coherent env c)
    (Hrun : find_path_bfs env start_title target_title max_depth max_visited c
              = (Ret (Some path), c')) :
  ∃ start target,
    (resolve_title env start_title c).1 = Ret (Some start) ∧
    (resolve_title env target_title (resolve_title env start_title c).2).1
      = Ret (Some target) ∧
    path_between (links_to env c) start target path ∧
    ∀ p, path_between (links_to env c) start target p → (length path ≤ length p)%nat.
Proof.
  unfold find_path_bfs, bind in Hrun.
  destruct (resolve_title env start_title c) as [r1 c1] eqn:E1.
  destruct (resolve_title_coherent env Hfixed start_title c Hcoherent) as [_ Hc1].
  rewrite E1 in Hc1. simpl in Hc1.
  destruct r1 as [[start |] | e |]; try discriminate. simpl.
  destruct (resolve_title env target_title c1) as [r2 c2] eqn:E2.
  destruct (resolve_title_coherent env Hfixed target_title c1 Hc1) as [_ Hc2].
  rewrite E2 in Hc2. simpl in Hc2.
  destruct r2 as [[target |] | e |]; try discriminate.
  exists start, target. simpl. split; [reflexivity |]. split; [reflexivity |].
  assert (Hedges : ∀ u v, links_to env c u v ↔ edge (out_links env) u v).
  { intros u v. apply links_to_out_links; assumption. }
  cut (shortest_to_target (out_links env) start target path).
  { intros [(Hh & Hl & Hw) Hmin]. split.
    - split; [exact Hh |]. split; [exact Hl |]. apply (walk_ext _ _ _ Hedges), Hw.
    - intros p (Hh' & Hl' & Hw'). apply (walk_ext _ _ _ Hedges) in Hw'.
      pose proof (walk_reach _ p start target Hh' Hl' Hw') as Hr.
      specialize (Hmin _ Hr). destruct p; [discriminate | simpl in Hmin; exact Hmin]. }
  unfold set_crawl_graph, set_decision_info, modify in Hrun. simpl in Hrun.
  destruct (String.eqb_spec start target) as [<- | Hne].
  - injection Hrun as <- _. split.
    + split; [reflexivity |]. split; [reflexivity | exact I].
    + intros k _. simpl. lia.
  - unfold bind, emit, modify in Hrun. simpl in Hrun.
    destruct (Z_lt_le_dec 0 max_depth) as [Hpos | Hneg].
    + eapply (bfs_loop_shortest env Hfixed start target max_depth max_visited Hne
                (loop_fuel max_visited) 0); [lia | | | exact Hrun].
      * apply bfs_inv_initial; assumption.
      * eapply coherent_same; [| exact Hc2]. repeat split.
    + exfalso. eapply bfs_all_deep; [| rewrite Hrun; reflexivity].
      simpl. repeat constructor. simpl. exact Hneg.
Qed.

(** ** One iteration of the best-first loop *)

Section BestStep.

Context (env : Env).

Lemma best_enqueue_eq current depth path top_len heap visited uid item c :
  best_enqueue current depth path top_len (heap, visited, uid) item c =
    if bool_decide (item.2 ∈ visited) then (Ret (heap, visited, uid), c)
    else
      (Ret (heappush heap {| h_neg_score := (- item.1)%float; h_depth := depth + 1;
                             h_uid := uid + 1; h_node := item.2;
                             h_path := (path ++ [item.2])%list |},
            {[item.2]} ∪ visited, uid + 1),
       with_decision_info
         (<[(current, item.2) := {| d_method := MBest; d_depth := depth + 1;
                                    d_note := NoteHeuristicTop top_len;
                                    d_score := Some item.1 |}]>
            (decision_info c))
         (add_event (EvEnqueue QHeap item.2 (depth + 1)) c)).
Proof.
  unfold best_enqueue. destruct item as [sc n]. simpl.
  destruct (bool_decide (n ∈ visited)); reflexivity.
Qed.

Lemma best_enqueue_run current depth path top_len items : ∀ heap visited uid c,
  ∃ c',
    for_each (best_enqueue current depth path top_len) items (heap, visited, uid) c =
      (Ret ((push_entries depth path (fresh_scored visited items) heap uid).1,
            list_to_set (map snd (fresh_scored visited items)) ∪ visited,
            (push_entries depth path (fresh_scored visited items) heap uid).2), c') ∧
    trace c' = (reverse (map (fun item => EvEnqueue QHeap item.2 (depth + 1))
                             (fresh_scored visited items))
                  ++ trace c)%list ∧
    caches_same c c'.
Proof.
  induction items as [| item items IH]; intros heap visited uid c.
  - exists c. simpl. rewrite (left_id_L ∅ (∪)). repeat split.
  - rewrite for_each_cons, best_enqueue_eq. simpl fresh_scored.
    destruct (bool_decide (item.2 ∈ visited)) eqn:Hn.
    + apply IH.
    + edestruct IH as (c' & Hrun & Htr & Hsame).
      exists c'. rewrite Hrun. split; [| split].
      * simpl.
        replace (list_to_set (map snd (fresh_scored ({[item.2]} ∪ visited) items))
                   ∪ ({[item.2]} ∪ visited))
          with ({[item.2]} ∪ list_to_set (map snd (fresh_scored ({[item.2]} ∪ visited) items))
                  ∪ visited)
          by set_solver.
        reflexivity.
      * rewrite Htr. simpl. rewrite reverse_cons, <- app_assoc. reflexivity.
      * destruct Hsame as (H1 & H2 & H3). repeat split; assumption.
Qed.

(** The iteration on a non-empty heap, case by case. *)
Lemma best_step_run target max_depth max_visited max_branch s top heap c :
  heappop (bf_heap s) = Some (top, heap) →
  let current := h_node top in
  let depth := h_depth top in
  let path := h_path top in
  let c1 := add_event (EvDequeue QHeap current depth) c in
  let count := bf_visited_count s + 1 in
  let fetched := get_links env current c1 in
  let neighbors := match fetched.1 with Ret n => n | _ => ∅ end in
  let scored := score_unvisited env target (bf_visited s) (set_iter env neighbors) in
  let top_neighbors := PyStr.slice_to max_branch (sort_desc scored) in
  let pushed := fresh_scored (bf_visited s) top_neighbors in
  if max_visited <? count then
    best_step env target max_depth max_visited max_branch s c =
      (Raise (RuntimeError "Visited cap exceeded; aborting"), c1)
  else if max_depth <=? depth then
    best_step env target max_depth max_visited max_branch s c =
      (Ret (Continue {| bf_heap := heap; bf_visited := bf_visited s;
                        bf_visited_count := count;
                        bf_uid_counter := bf_uid_counter s |}), c1)
  else if bool_decide (target ∈ neighbors) then
    ∃ c',
      best_step env target max_depth max_visited max_branch s c =
        (Ret (Done (Some (path ++ [target])%list)), c') ∧
      trace c' = trace fetched.2 ∧ caches_same fetched.2 c'
  else
    ∃ c',
      best_step env target max_depth max_visited max_branch s c =
        (Ret (Continue
                match scored with
                | [] => {| bf_heap := heap; bf_visited := bf_visited s;
                           bf_visited_count := count;
                           bf_uid_counter := bf_uid_counter s |}
                | _ :: _ =>
                    {| bf_heap := (push_entries depth path pushed heap (bf_uid_counter s)).1;
                       bf_visited := list_to_set (map snd pushed) ∪ bf_visited s;
                       bf_visited_count := count;
                       bf_uid_counter :=
                         (push_entries depth path pushed heap (bf_uid_counter s)).2 |}
                end), c') ∧
      trace c' =
        (match scored with
         | [] => []
         | _ :: _ => reverse (map (fun item => EvEnqueue QHeap item.2 (depth + 1)) pushed)
         end ++ trace fetched.2)%list ∧
      caches_same fetched.2 c'.
Proof.
  intros Hpop current depth path c1 count fetched neighbors scored top_neighbors pushed.
  unfold best_step. rewrite Hpop. fold current depth path.
  rewrite (bind_eq_ret _ _ c tt c1) by reflexivity. cbv zeta. fold count.
  destruct (max_visited <? count); [reflexivity |].
  destruct (max_depth <=? depth); [reflexivity |].
  rewrite (bind_eq_ret _ _ c1 neighbors fetched.2)
    by apply (links_or_empty_run (get_links env) current c1 (get_links_fuel env _ _)).
  set (c2 := with_crawl_graph
               (fold_left (record_edge (fun n => (current, n))) (set_iter env neighbors)
                          (crawl_graph fetched.2)) fetched.2).
  rewrite (bind_eq_ret _ _ fetched.2 tt c2) by reflexivity.
  destruct (bool_decide (target ∈ neighbors)).
  - eexists. split; [reflexivity |]. simpl. repeat split.
  - fold scored.
    destruct (best_enqueue_run current depth path (Z.of_nat (length top_neighbors))
                top_neighbors heap (bf_visited s) (bf_uid_counter s) c2)
      as (c' & Hrun & Htr & Hsame).
    fold pushed in Hrun, Htr. fold top_neighbors.
    destruct scored as [| sc0 scored'].
    + exists c2. split; [reflexivity |]. repeat split.
    + exists c'. rewrite (bind_eq_ret _ _ c2 _ c' Hrun).
      split; [reflexivity |]. split; [exact Htr |].
      destruct Hsame as (H1 & H2 & H3). repeat split; assumption.
Qed.

End BestStep.

(** ** One iteration of the bidirectional loop *)

Section BidiStep.

Context (env : Env).

Lemma fwd_enqueue_eq current depth parent q visited n c :
  fwd_enqueue current depth (parent, q, visited) n c =
    if bool_decide (n ∈ visited) then (Ret (parent, q, visited), c)
    else
      (Ret (<[n := Some current]> parent, (q ++ [(n, depth + 1)])%list, {[n]} ∪ visited),
       with_decision_info
         (<[(current, n) := {| d_method := MBidiFwd; d_depth := depth + 1;
                               d_note := NoteFwdEnqueuedFrom current; d_score := None |}]>
            (decision_info c))
         (add_event (EvEnqueue QFwd n (depth + 1)) c)).
Proof.
  unfold fwd_enqueue. destruct (bool_decide (n ∈ visited)); reflexivity.
Qed.

Lemma bwd_enqueue_eq current depth parent q visited n c :
  bwd_enqueue current depth (parent, q, visited) n c =
    if bool_decide (n ∈ visited) then (Ret (parent, q, visited), c)
    else
      (Ret (<[n := Some current]> parent, (q ++ [(n, depth + 1)])%list, {[n]} ∪ visited),
       with_decision_info
         (<[(n, current) := {| d_method := MBidiBwd; d_depth := depth + 1;
                               d_note := NoteBwdEnqueued n current; d_score := None |}]>
            (decision_info c))
         (add_event (EvEnqueue QBwd n (depth + 1)) c)).
Proof.
  unfold bwd_enqueue. destruct (bool_decide (n ∈ visited)); reflexivity.
Qed.

Lemma fwd_enqueue_run current depth ns : ∀ parent q visited c,
  ∃ c',
    for_each (fwd_enqueue current depth) ns (parent, q, visited) c =
      (Ret (set_parents current (fresh_nodes visited ns) parent,
            (q ++ map (fun n => (n, depth + 1)) (fresh_nodes visited ns))%list,
            list_to_set (fresh_nodes visited ns) ∪ visited), c') ∧
    trace c' = (reverse (map (fun n => EvEnqueue QFwd n (depth + 1)) (fresh_nodes visited ns))
                  ++ trace c)%list ∧
    caches_same c c'.
Proof.
  induction ns as [| n ns IH]; intros parent q visited c.
  - exists c. simpl. rewrite app_nil_r, (left_id_L ∅ (∪)). repeat split.
  - rewrite for_each_cons, fwd_enqueue_eq. simpl fresh_nodes.
    destruct (bool_decide (n ∈ visited)) eqn:Hn.
    + apply IH.
    + edestruct IH as (c' & Hrun & Htr & Hsame).
      exists c'. rewrite Hrun. split; [| split].
      * simpl. rewrite <- app_assoc. simpl.
        replace (list_to_set (fresh_nodes ({[n]} ∪ visited) ns) ∪ ({[n]} ∪ visited))
          with ({[n]} ∪ list_to_set (fresh_nodes ({[n]} ∪ visited) ns) ∪ visited)
          by set_solver.
        reflexivity.
      * rewrite Htr. simpl. rewrite reverse_cons, <- app_assoc. reflexivity.
      * destruct Hsame as (H1 & H2 & H3). repeat split; assumption.
Qed.

Lemma bwd_enqueue_run current depth ns : ∀ parent q visited c,
  ∃ c',
    for_each (bwd_enqueue current depth) ns (parent, q, visited) c =
      (Ret (set_parents current (fresh_nodes visited ns) parent,
            (q ++ map (fun n => (n, depth + 1)) (fresh_nodes visited ns))%list,
            list_to_set (fresh_nodes visited ns) ∪ visited), c') ∧
    trace c' = (reverse (map (fun n => EvEnqueue QBwd n (depth + 1)) (fresh_nodes visited ns))
                  ++ trace c)%list ∧
    caches_same c c'.
Proof.
  induction ns as [| n ns IH]; intros parent q visited c.
  - exists c. simpl. rewrite app_nil_r, (left_id_L ∅ (∪)). repeat split.
  - rewrite for_each_cons, bwd_enqueue_eq. simpl fresh_nodes.
    destruct (bool_decide (n ∈ visited)) eqn:Hn.
    + apply IH.
    + edestruct IH as (c' & Hrun & Htr & Hsame).
      exists c'. rewrite Hrun. split; [| split].
      * simpl. rewrite <- app_assoc. simpl.
        replace (list_to_set (fresh_nodes ({[n]} ∪ visited) ns) ∪ ({[n]} ∪ visited))
          with ({[n]} ∪ list_to_set (fresh_nodes ({[n]} ∪ visited) ns) ∪ visited)
          by set_solver.
        reflexivity.
      * rewrite Htr. simpl. rewrite reverse_cons, <- app_assoc. reflexivity.
      * destruct Hsame as (H1 & H2 & H3). repeat split; assumption.
Qed.

(** The path reconstruction reads its arguments only. *)
Lemma reconstruct_bidi_path_pure pf pb meet start target c :
  reconstruct_bidi_path pf pb meet start target c =
    ((reconstruct_bidi_path pf pb meet start target new_crawler).1, c).
Proof.
  unfold reconstruct_bidi_path, bind, lift_fuel.
  destruct (walk_left (S (size pf)) pf (Some meet) []) as [l |]; [| reflexivity].
  destruct (walk_right (S (size pb)) pb target meet []) as [r |]; [| reflexivity].
  destruct (reverse l ++ r)%list as [| first rest]; [reflexivity |].
  destruct (last (if (first =? start)%string then first :: rest else start :: first :: rest));
    reflexivity.
Qed.

(** The iteration when both queues hold a node, case by case. *)
Lemma bidi_step_run start target max_depth max_visited s fcur fdepth qf bcur bdepth qb c :
  q_fwd s = (fcur, fdepth) :: qf →
  q_bwd s = (bcur, bdepth) :: qb →
  let count := bidi_visited_count s + 1 in
  if (length (q_fwd s) <=? length (q_bwd s))%nat then
    let c1 := add_event (EvDequeue QFwd fcur fdepth) c in
    let fetched := get_links env fcur c1 in
    let neighbors := match fetched.1 with Ret n => n | _ => ∅ end in
    let fresh := fresh_nodes (visited_fwd s) (set_iter env neighbors) in
    if max_visited <? count then
      bidi_step env start target max_depth max_visited s c =
        (Raise (RuntimeError "Visited cap exceeded; aborting"), c1)
    else if max_depth <=? fdepth then
      bidi_step env start target max_depth max_visited s c =
        (Ret (Continue {| parent_fwd := parent_fwd s; parent_bwd := parent_bwd s;
                          q_fwd := qf; q_bwd := q_bwd s;
                          visited_fwd := visited_fwd s; visited_bwd := visited_bwd s;
                          bidi_visited_count := count |}), c1)
    else
      match set_iter env (neighbors ∩ visited_bwd s) with
      | meet :: _ =>
          ∃ c',
            bidi_step env start target max_depth max_visited s c =
              (found_path (reconstruct_bidi_path (parent_fwd s) (parent_bwd s)
                             meet start target new_crawler).1, c') ∧
            trace c' = trace fetched.2 ∧ caches_same fetched.2 c'
      | [] =>
          ∃ c',
            bidi_step env start target max_depth max_visited s c =
              (Ret (Continue
                      {| parent_fwd := set_parents fcur fresh (parent_fwd s);
                         parent_bwd := parent_bwd s;
                         q_fwd := (qf ++ map (fun n => (n, fdepth + 1)) fresh)%list;
                         q_bwd := q_bwd s;
                         visited_fwd := list_to_set fresh ∪ visited_fwd s;
                         visited_bwd := visited_bwd s;
                         bidi_visited_count := count |}), c') ∧
            trace c' = (reverse (map (fun n => EvEnqueue QFwd n (fdepth + 1)) fresh)
                          ++ trace fetched.2)%list ∧
            caches_same fetched.2 c'
      end
  else
    let c1 := add_event (EvDequeue QBwd bcur bdepth) c in
    let fetched := get_linkshere env bcur c1 in
    let incoming := match fetched.1 with Ret n => n | _ => ∅ end in
    let fresh := fresh_nodes (visited_bwd s) (set_iter env incoming) in
    if max_visited <? count then
      bidi_step env start target max_depth max_visited s c =
        (Raise (RuntimeError "Visited cap exceeded; aborting"), c1)
    else if max_depth <=? bdepth then
      bidi_step env start target max_depth max_visited s c =
        (Ret (Continue {| parent_fwd := parent_fwd s; parent_bwd := parent_bwd s;
                          q_fwd := q_fwd s; q_bwd := qb;
                          visited_fwd := visited_fwd s; visited_bwd := visited_bwd s;
                          bidi_visited_count := count |}), c1)
    else
      match set_iter env (incoming ∩ visited_fwd s) with
      | meet :: _ =>
          ∃ c',
            bidi_step env start target max_depth max_visited s c =
              (found_path (reconstruct_bidi_path (parent_fwd s) (parent_bwd s)
                             meet start target new_crawler).1, c') ∧
            trace c' = trace fetched.2 ∧ caches_same fetched.2 c'
      | [] =>
          ∃ c',
            bidi_step env start target max_depth max_visited s c =
              (Ret (Continue
                      {| parent_fwd := parent_fwd s;
                         parent_bwd := set_parents bcur fresh (parent_bwd s);
                         q_fwd := q_fwd s;
                         q_bwd := (qb ++ map (fun n => (n, bdepth + 1)) fresh)%list;
                         visited_fwd := visited_fwd s;
                         visited_bwd := list_to_set fresh ∪ visited_bwd s;
                         bidi_visited_count := count |}), c') ∧
            trace c' = (reverse (map (fun n => EvEnqueue QBwd n (bdepth + 1)) fresh)
                          ++ trace fetched.2)%list ∧
            caches_same fetched.2 c'
      end.
Proof.
  intros Hf Hb count. unfold bidi_step.
  set (side := (length (q_fwd s) <=? length (q_bwd s))%nat).
  rewrite Hf, Hb. destruct side; cbv iota beta.
  - set (c1 := add_event (EvDequeue QFwd fcur fdepth) c).
    set (fetched := get_links env fcur c1).
    set (neighbors := match fetched.1 with Ret n => n | _ => ∅ end).
    rewrite (bind_eq_ret _ _ c tt c1) by reflexivity. fold count.
    destruct (max_visited <? count); [reflexivity |].
    destruct (max_depth <=? fdepth); [reflexivity |].
    rewrite (bind_eq_ret _ _ c1 neighbors fetched.2)
      by apply (links_or_empty_run (get_links env) fcur c1 (get_links_fuel env _ _)).
    set (c2 := with_crawl_graph
                 (fold_left (record_edge (fun n => (fcur, n))) (set_iter env neighbors)
                            (crawl_graph fetched.2)) fetched.2).
    rewrite (bind_eq_ret _ _ fetched.2 tt c2) by reflexivity.
    destruct (set_iter env (neighbors ∩ visited_bwd s)) as [| meet rest].
    + destruct (fwd_enqueue_run fcur fdepth (set_iter env neighbors)
                  (parent_fwd s) qf (visited_fwd s) c2) as (c' & Hrun & Htr & Hsame).
      exists c'. rewrite (bind_eq_ret _ _ c2 _ c' Hrun).
      split; [reflexivity |]. split; [exact Htr |].
      destruct Hsame as (H1 & H2 & H3). repeat split; assumption.
    + unfold bind at 1.
      destruct (set_decision_if_absent (fcur, meet)
                  {| d_method := MBidiFwd; d_depth := fdepth + 1;
                     d_note := NoteMeetingFwd; d_score := None |} c2) as [r3 c3] eqn:H3.
      assert (r3 = Ret tt ∧ trace c3 = trace c2 ∧ caches_same c2 c3) as (-> & Ht3 & Hs3).
      { unfold set_decision_if_absent, bind, gets, set_decision_info, modify in H3.
        simpl in H3.
        match type of H3 with
        | context [?m !! (fcur, meet)] => destruct (m !! (fcur, meet))
        end; injection H3 as <- <-; repeat split. }
      exists c3. unfold bind. rewrite reconstruct_bidi_path_pure.
      split; [| split].
      * destruct (reconstruct_bidi_path (parent_fwd s) (parent_bwd s) meet start target
                    new_crawler).1; reflexivity.
      * exact Ht3.
      * destruct Hs3 as (H1 & H2 & H4). repeat split; assumption.
  - set (c1 := add_event (EvDequeue QBwd bcur bdepth) c).
    set (fetched := get_linkshere env bcur c1).
    set (incoming := match fetched.1 with Ret n => n | _ => ∅ end).
    rewrite (bind_eq_ret _ _ c tt c1) by reflexivity. fold count.
    destruct (max_visited <? count); [reflexivity |].
    destruct (max_depth <=? bdepth); [reflexivity |].
    rewrite (bind_eq_ret _ _ c1 incoming fetched.2)
      by apply (links_or_empty_run (get_linkshere env) bcur c1 (get_linkshere_fuel env _ _)).
    set (c2 := with_crawl_graph
                 (fold_left (record_edge (fun n => (n, bcur))) (set_iter env incoming)
                            (crawl_graph fetched.2)) fetched.2).
    rewrite (bind_eq_ret _ _ fetched.2 tt c2) by reflexivity.
    destruct (set_iter env (incoming ∩ visited_fwd s)) as [| meet rest].
    + destruct (bwd_enqueue_run bcur bdepth (set_iter env incoming)
                  (parent_bwd s) qb (visited_bwd s) c2) as (c' & Hrun & Htr & Hsame).
      exists c'. rewrite (bind_eq_ret _ _ c2 _ c' Hrun).
      split; [reflexivity |]. split; [exact Htr |].
      destruct Hsame as (H1 & H2 & H3). repeat split; assumption.
    + unfold bind at 1.
      destruct (set_decision_if_absent (meet, bcur)
                  {| d_method := MBidiBwd; d_depth := bdepth + 1;
                     d_note := NoteMeetingBwd; d_score := None |} c2) as [r3 c3] eqn:H3.
      assert (r3 = Ret tt ∧ trace c3 = trace c2 ∧ caches_same c2 c3) as (-> & Ht3 & Hs3).
      { unfold set_decision_if_absent, bind, gets, set_decision_info, modify in H3.
        simpl in H3.
        match type of H3 with
        | context [?m !! (meet, bcur)] => destruct (m !! (meet, bcur))
        end; injection H3 as <- <-; repeat split. }
      exists c3. unfold bind. rewrite reconstruct_bidi_path_pure.
      split; [| split].
      * destruct (reconstruct_bidi_path (parent_fwd s) (parent_bwd s) meet start target
                    new_crawler).1; reflexivity.
      * exact Ht3.
      * destruct Hs3 as (H1 & H2 & H4). repeat split; assumption.
Qed.

End BidiStep.

(** ** Bidirectional search: which frontier an iteration works on *)

Lemma enqueue_events_plain f d (ns : list string) :
  forallb (fun e => negb (is_dequeue_event e || is_fetch_call e))
          (reverse (map (fun n => EvEnqueue f n d) ns)) = true.
Proof.
  apply forallb_forall. intros e He.
  rewrite <- list_elem_of_In, elem_of_reverse, elem_of_map in He.
  destruct He as (n & -> & _). reflexivity.
Qed.

Lemma api_events_plain evs :
  forallb is_api_event evs = true →
  forallb (fun e => negb (is_dequeue_event e || is_fetch_call e)) evs = true.
Proof.
  rewrite !forallb_forall. intros H e He. specialize (H e He).
  destruct e; simpl in *; congruence.
Qed.

(** The events of one iteration with a node in each queue: the dequeue of
    the head of the chosen queue, then the fetch call when the guards let the
    node expand, then requests and enqueues only. *)
Lemma bidi_step_events
    (env : Env) (start target : string) (max_depth max_visited : Z)
    (s : BidiState) (c : Crawler)
    (fcur bcur : string) (fdepth bdepth : Z) (qf qb : list (string * Z))
    (Hfwd : q_fwd s = (fcur, fdepth) :: qf)
    (Hbwd : q_bwd s = (bcur, bdepth) :: qb) :
  let forward := (length (q_fwd s) <=? length (q_bwd s))%nat in
  let depth := if forward then fdepth else bdepth in
  let expands := ((bidi_visited_count s + 1 <=? max_visited) && (depth <? max_depth))%bool in
  let dequeue := if forward then EvDequeue QFwd fcur fdepth else EvDequeue QBwd bcur bdepth in
  let fetch := if forward then EvGetLinks fcur else EvGetLinksHere bcur in
  ∃ rest,
    trace (bidi_step env start target max_depth max_visited s c).2 =
      (rest ++ (if expands then [fetch] else []) ++ dequeue :: trace c)%list ∧
    forallb (fun e => negb (is_dequeue_event e || is_fetch_call e)) rest = true.
Proof.
  intros forward depth expands dequeue fetch.
  pose proof (bidi_step_run env start target max_depth max_visited s
                fcur fdepth qf bcur bdepth qb c Hfwd Hbwd) as Hrun.
  cbv zeta in Hrun. fold forward in Hrun.
  subst expands depth dequeue fetch. destruct forward.
  - rewrite (Z.leb_antisym max_visited), (Z.ltb_antisym max_depth).
    destruct (max_visited <? bidi_visited_count s + 1).
    { rewrite Hrun. exists []. split; reflexivity. }
    destruct (max_depth <=? fdepth).
    { rewrite Hrun. exists []. split; reflexivity. }
    destruct (get_links_events env fcur (add_event (EvDequeue QFwd fcur fdepth) c))
      as (api & Hapi & Hall).
    simpl negb. simpl andb.
    destruct (set_iter env _) as [| meet rest] in Hrun.
    + destruct Hrun as (c' & -> & Htr & _). simpl. rewrite Htr, Hapi.
      eexists. rewrite app_assoc. split; [reflexivity |].
      rewrite forallb_app, enqueue_events_plain, (api_events_plain _ Hall). reflexivity.
    + destruct Hrun as (c' & -> & Htr & _). simpl. rewrite Htr, Hapi.
      exists api. split; [reflexivity | apply api_events_plain, Hall].
  - rewrite (Z.leb_antisym max_visited), (Z.ltb_antisym max_depth).
    destruct (max_visited <? bidi_visited_count s + 1).
    { rewrite Hrun. exists []. split; reflexivity. }
    destruct (max_depth <=? bdepth).
    { rewrite Hrun. exists []. split; reflexivity. }
    destruct (get_linkshere_events env bcur (add_event (EvDequeue QBwd bcur bdepth) c))
      as (api & Hapi & Hall).
    simpl negb. simpl andb.
    destruct (set_iter env _) as [| meet rest] in Hrun.
    + destruct Hrun as (c' & -> & Htr & _). simpl. rewrite Htr, Hapi.
      eexists. rewrite app_assoc. split; [reflexivity |].
      rewrite forallb_app, enqueue_events_plain, (api_events_plain _ Hall). reflexivity.
    + destruct Hrun as (c' & -> & Htr & _). simpl. rewrite Htr, Hapi.
      exists api. split; [reflexivity | apply api_events_plain, Hall].
Qed.

(** C3, as amended. In an iteration of the main loop of [find_path_bidi]
    with a node in each queue, exactly one node is dequeued: the head of the
    forward queue when the forward queue is not longer than the backward
    queue, the head of the backward queue otherwise. The links of that node
    are fetched when, and only when, the visited cap is not exceeded and the
    depth of the node is below [max_depth]; they are fetched with
    [get_links] for a forward node and with [get_linkshere] for a backward
    node, and nothing else is fetched in the iteration. *)
Theorem bidi_works_on_smaller_frontier
    (env : Env) (start target : string) (max_depth max_visited : Z)
    (s : BidiState) (c : Crawler)
    (fcur bcur : string) (fdepth bdepth : Z) (qf qb : list (string * Z))
    (Hfwd : q_fwd s = (fcur, fdepth) :: qf)
    (Hbwd : q_bwd s = (bcur, bdepth) :: qb) :
  let forward := (length (q_fwd s) <=? length (q_bwd s))%nat in
  let depth := if forward then fdepth else bdepth in
  let expands := ((bidi_visited_count s + 1 <=? max_visited) && (depth <? max_depth))%bool in
  let dequeue := if forward then EvDequeue QFwd fcur fdepth else EvDequeue QBwd bcur bdepth in
  let fetch := if forward then EvGetLinks fcur else EvGetLinksHere bcur in
  ∃ rest,
    trace (bidi_step env start target max_depth max_visited s c).2 =
      (rest ++ (if expands then [fetch] else []) ++ dequeue :: trace c)%list ∧
    forallb (fun e => negb (is_dequeue_event e || is_fetch_call e)) rest = true.
Proof.
  exact (bidi_step_events env start target max_depth max_visited s c
           fcur bcur fdepth bdepth qf qb Hfwd Hbwd).
Qed.

(** ** The visited cap *)

Lemma dequeue_count_app l1 l2 :
  dequeue_count (l1 ++ l2) = dequeue_count l1 + dequeue_count l2.
Proof.
  unfold dequeue_count. rewrite List.filter_app, length_app. lia.
Qed.

Lemma dequeue_count_plain evs :
  forallb (fun e => negb (is_dequeue_event e || is_fetch_call e)) evs = true →
  dequeue_count evs = 0.
Proof.
  unfold dequeue_count. induction evs as [| e evs IH]; simpl; [reflexivity |].
  intros H. apply andb_true_iff in H as [He H].
  destruct (is_dequeue_event e); simpl in *; [discriminate | auto].
Qed.

Lemma dequeue_count_dequeue f n d evs :
  dequeue_count (EvDequeue f n d :: evs) = dequeue_count evs + 1.
Proof. unfold dequeue_count. simpl. lia. Qed.

Lemma dequeue_count_fetch t evs : dequeue_count (EvGetLinks t :: evs) = dequeue_count evs.
Proof. reflexivity. Qed.

Lemma dequeue_count_fetch_here t evs :
  dequeue_count (EvGetLinksHere t :: evs) = dequeue_count evs.
Proof. reflexivity. Qed.

Lemma dequeue_count_enqueue f n d evs :
  dequeue_count (EvEnqueue f n d :: evs) = dequeue_count evs.
Proof. reflexivity. Qed.

Lemma dequeue_count_info evs : forallb is_info_request evs = true → dequeue_count evs = 0.
Proof.
  intros H. apply dequeue_count_plain, api_events_plain, info_events_api, H.
Qed.

(** A loop whose iterations each dequeue one node, check the cap at once and
    count the node enforces the cap. *)
Lemma cap_loop {S A} (step : S → M (StepResult S A)) (count : S → Z)
    (base : list Event) (max_visited : Z) :
  (∀ s c new,
     trace c = (new ++ base)%list → dequeue_count new = count s →
     (count s ≤ max_visited ∨ count s = 0) →
     match step s c with
     | (Ret (Continue s'), c') =>
         ∃ new', trace c' = (new' ++ base)%list ∧ dequeue_count new' = count s' ∧
                 count s' ≤ max_visited
     | (r, c') => ∃ new', trace c' = (new' ++ base)%list ∧ cap_enforced max_visited r new'
     end) →
  ∀ fuel s c new,
    trace c = (new ++ base)%list → dequeue_count new = count s →
    (count s ≤ max_visited ∨ count s = 0) →
    ∃ new', trace (run_loop step fuel s c).2 = (new' ++ base)%list ∧
            cap_enforced max_visited (run_loop step fuel s c).1 new'.
Proof.
  intros Hstep. induction fuel as [| fuel IH]; intros s c new Htr Hcnt Hle.
  - rewrite run_loop_O. exists new. split; [exact Htr |]. simpl. lia.
  - rewrite run_loop_S. unfold bind. specialize (Hstep s c new Htr Hcnt Hle).
    destruct (step s c) as [[[s' | a] | e |] c'].
    + destruct Hstep as (new' & Htr' & Hcnt' & Hle'). eapply IH; eauto.
    + exact Hstep.
    + exact Hstep.
    + exact Hstep.
Qed.

Section Cap.

Context (env : Env).

Lemma bfs_step_cap target max_depth max_visited base s c new :
  trace c = (new ++ base)%list → dequeue_count new = bfs_visited_count s →
  (bfs_visited_count s ≤ max_visited ∨ bfs_visited_count s = 0) →
  match bfs_step env target max_depth max_visited s c with
  | (Ret (Continue s'), c') =>
      ∃ new', trace c' = (new' ++ base)%list ∧ dequeue_count new' = bfs_visited_count s' ∧
              bfs_visited_count s' ≤ max_visited
  | (r, c') => ∃ new', trace c' = (new' ++ base)%list ∧ cap_enforced max_visited r new'
  end.
Proof.
  intros Htr Hcnt Hle.
  destruct (bfs_q s) as [| [[cur path] depth] q] eqn:Hq.
  { unfold bfs_step. rewrite Hq. simpl. exists new. split; [exact Htr |]. simpl. lia. }
  pose proof (bfs_step_run env target max_depth max_visited s cur path depth q c Hq) as Hrun.
  cbv zeta in Hrun.
  destruct (Z.ltb_spec max_visited (bfs_visited_count s + 1)) as [Hcap | Hcap].
  { rewrite Hrun. exists (EvDequeue QBfs cur depth :: new). simpl. rewrite Htr.
    split; [reflexivity |]. split; [reflexivity |].
    exists QBfs, cur, depth, new. rewrite dequeue_count_dequeue. repeat split; lia. }
  assert (Hone : dequeue_count (EvDequeue QBfs cur depth :: new) = bfs_visited_count s + 1)
    by (rewrite dequeue_count_dequeue; lia).
  destruct (max_depth <=? depth).
  { rewrite Hrun. exists (EvDequeue QBfs cur depth :: new). simpl. rewrite Htr. auto. }
  destruct (get_links_events env cur (add_event (EvDequeue QBfs cur depth) c))
    as (api & Hapi & Hall).
  assert (Hfetched : dequeue_count (api ++ EvGetLinks cur :: EvDequeue QBfs cur depth :: new)
                     = bfs_visited_count s + 1).
  { rewrite dequeue_count_app, (dequeue_count_plain _ (api_events_plain _ Hall)),
      dequeue_count_fetch. lia. }
  destruct (bool_decide _) in Hrun.
  - destruct Hrun as (c' & -> & Htr' & _).
    exists (api ++ EvGetLinks cur :: EvDequeue QBfs cur depth :: new)%list.
    rewrite Htr', Hapi. simpl. rewrite Htr, <- app_assoc. split; [reflexivity |]. lia.
  - destruct Hrun as (c' & -> & Htr' & _).
    match type of Htr' with
    | trace _ = (?enq ++ _)%list =>
        exists (enq ++ api ++ EvGetLinks cur :: EvDequeue QBfs cur depth :: new)%list
    end.
    rewrite Htr', Hapi. simpl. rewrite Htr.
    split; [rewrite <- !app_assoc; reflexivity |].
    rewrite dequeue_count_app, (dequeue_count_plain _ (enqueue_events_plain _ _ _)). lia.
Qed.

Lemma best_step_cap target max_depth max_visited max_branch base s c new :
  trace c = (new ++ base)%list → dequeue_count new = bf_visited_count s →
  (bf_visited_count s ≤ max_visited ∨ bf_visited_count s = 0) →
  match best_step env target max_depth max_visited max_branch s c with
  | (Ret (Continue s'), c') =>
      ∃ new', trace c' = (new' ++ base)%list ∧ dequeue_count new' = bf_visited_count s' ∧
              bf_visited_count s' ≤ max_visited
  | (r, c') => ∃ new', trace c' = (new' ++ base)%list ∧ cap_enforced max_visited r new'
  end.
Proof.
  intros Htr Hcnt Hle.
  destruct (heappop (bf_heap s)) as [[top heap] |] eqn:Hpop.
  2: { unfold best_step. rewrite Hpop. simpl. exists new. split; [exact Htr |]. simpl. lia. }
  pose proof (best_step_run env target max_depth max_visited max_branch s top heap c Hpop)
    as Hrun.
  cbv zeta in Hrun.
  set (cur := h_node top) in *. set (depth := h_depth top) in *.
  destruct (Z.ltb_spec max_visited (bf_visited_count s + 1)) as [Hcap | Hcap].
  { rewrite Hrun. exists (EvDequeue QHeap cur depth :: new). simpl. rewrite Htr.
    split; [reflexivity |]. split; [reflexivity |].
    exists QHeap, cur, depth, new. rewrite dequeue_count_dequeue. repeat split; lia. }
  assert (Hone : dequeue_count (EvDequeue QHeap cur depth :: new) = bf_visited_count s + 1)
    by (rewrite dequeue_count_dequeue; lia).
  destruct (max_depth <=? depth).
  { rewrite Hrun. exists (EvDequeue QHeap cur depth :: new). simpl. rewrite Htr. auto. }
  destruct (get_links_events env cur (add_event (EvDequeue QHeap cur depth) c))
    as (api & Hapi & Hall).
  assert (Hfetched : dequeue_count (api ++ EvGetLinks cur :: EvDequeue QHeap cur depth :: new)
                     = bf_visited_count s + 1).
  { rewrite dequeue_count_app, (dequeue_count_plain _ (api_events_plain _ Hall)),
      dequeue_count_fetch. lia. }
  destruct (bool_decide _) in Hrun.
  - destruct Hrun as (c' & -> & Htr' & _).
    exists (api ++ EvGetLinks cur :: EvDequeue QHeap cur depth :: new)%list.
    rewrite Htr', Hapi. simpl. rewrite Htr, <- app_assoc. split; [reflexivity |]. lia.
  - destruct Hrun as (c' & -> & Htr' & _).
    match type of Htr' with
    | trace _ = (?enq ++ _)%list =>
        exists (enq ++ api ++ EvGetLinks cur :: EvDequeue QHeap cur depth :: new)%list;
        assert (dequeue_count enq = 0) as Henq
    end.
    { destruct (score_unvisited _ _ _ _); [reflexivity |].
      apply dequeue_count_plain.
      apply forallb_forall. intros e He.
      rewrite <- list_elem_of_In, elem_of_reverse, elem_of_map in He.
      destruct He as (n & -> & _). reflexivity. }
    rewrite Htr', Hapi. simpl. rewrite Htr.
    split; [rewrite <- !app_assoc; reflexivity |].
    rewrite dequeue_count_app, Henq.
    destruct (score_unvisited _ _ _ _); simpl; lia.
Qed.

Lemma reconstruct_no_runtime_error pf pb meet start target c msg :
  (reconstruct_bidi_path pf pb meet start target c).1 ≠ Raise (RuntimeError msg).
Proof.
  unfold reconstruct_bidi_path, bind, lift_fuel.
  destruct (walk_left (S (size pf)) pf (Some meet) []) as [l |]; [| discriminate].
  destruct (walk_right (S (size pb)) pb target meet []) as [r |]; [| discriminate].
  destruct (reverse l ++ r)%list as [| first rest]; [discriminate |].
  destruct (last (if (first =? start)%string then first :: rest else start :: first :: rest));
    discriminate.
Qed.

Lemma found_path_cap {S} (o : outcome (list string)) max_visited new :
  (∀ msg, o ≠ Raise (RuntimeError msg)) →
  dequeue_count new ≤ max_visited →
  cap_enforced max_visited (@found_path S o) new.
Proof.
  intros Ho Hle. destruct o as [p | e |]; simpl; try lia.
  destruct e; simpl; try lia. exfalso. eapply Ho. reflexivity.
Qed.

Lemma bidi_step_cap start target max_depth max_visited base s c new :
  trace c = (new ++ base)%list → dequeue_count new = bidi_visited_count s →
  (bidi_visited_count s ≤ max_visited ∨ bidi_visited_count s = 0) →
  match bidi_step env start target max_depth max_visited s c with
  | (Ret (Continue s'), c') =>
      ∃ new', trace c' = (new' ++ base)%list ∧ dequeue_count new' = bidi_visited_count s' ∧
              bidi_visited_count s' ≤ max_visited
  | (r, c') => ∃ new', trace c' = (new' ++ base)%list ∧ cap_enforced max_visited r new'
  end.
Proof.
  intros Htr Hcnt Hle.
  destruct (q_fwd s) as [| [fcur fdepth] qf] eqn:Hf.
  { unfold bidi_step. rewrite Hf. simpl. exists new. split; [exact Htr |]. simpl. lia. }
  destruct (q_bwd s) as [| [bcur bdepth] qb] eqn:Hb.
  { unfold bidi_step. rewrite Hf, Hb. simpl. exists new. split; [exact Htr |]. simpl. lia. }
  pose proof (bidi_step_events env start target max_depth max_visited s c
                fcur bcur fdepth bdepth qf qb Hf Hb) as (rest & Hev & Hplain).
  cbv zeta in Hev. rewrite Hf, Hb in Hev.
  pose proof (bidi_step_run env start target max_depth max_visited s
                fcur fdepth qf bcur bdepth qb c Hf Hb) as Hrun.
  cbv zeta in Hrun. rewrite Hf, Hb in Hrun.
  set (forward := (length ((fcur, fdepth) :: qf) <=? length ((bcur, bdepth) :: qb))%nat) in *.
  set (deq := if forward then EvDequeue QFwd fcur fdepth else EvDequeue QBwd bcur bdepth) in *.
  set (fetch := if forward then EvGetLinks fcur else EvGetLinksHere bcur) in *.
  set (depth := if forward then fdepth else bdepth) in *.
  set (expands := ((bidi_visited_count s + 1 <=? max_visited) && (depth <? max_depth))%bool)
    in *.
  set (new' := (rest ++ (if expands then [fetch] else []) ++ deq :: new)%list).
  assert (Htr' : trace (bidi_step env start target max_depth max_visited s c).2
                 = (new' ++ base)%list).
  { rewrite Hev, Htr. unfold new'. rewrite <- !app_assoc. reflexivity. }
  assert (Hcount : dequeue_count new' = bidi_visited_count s + 1).
  { unfold new'. rewrite dequeue_count_app, (dequeue_count_plain _ Hplain),
      dequeue_count_app.
    replace (dequeue_count (if expands then [fetch] else [])) with 0
      by (destruct expands, forward; reflexivity).
    replace (dequeue_count (deq :: new)) with (dequeue_count new + 1)
      by (destruct forward; unfold deq; rewrite dequeue_count_dequeue; reflexivity).
    lia. }
  destruct (Z.ltb_spec max_visited (bidi_visited_count s + 1)) as [Hcap | Hcap].
  { assert (bidi_step env start target max_depth max_visited s c =
              (Raise (RuntimeError "Visited cap exceeded; aborting"), add_event deq c)) as Hr.
    { unfold deq. destruct forward; exact Hrun. }
    rewrite Hr. exists (deq :: new). simpl. rewrite Htr.
    split; [reflexivity |]. split; [reflexivity |].
    destruct forward; unfold deq; eexists _, _, _, new;
      rewrite dequeue_count_dequeue; repeat split; lia. }
  destruct (bidi_step env start target max_depth max_visited s c) as [r c'] eqn:Hstep.
  simpl in Htr'.
  assert (Hshape : (∃ s', r = Ret (Continue s') ∧
                          bidi_visited_count s' = bidi_visited_count s + 1) ∨
                   (∃ o, r = found_path o ∧ ∀ msg, o ≠ Raise (RuntimeError msg))).
  { destruct forward.
    - destruct (max_depth <=? fdepth).
      { injection Hrun as -> _. left. eauto. }
      destruct (set_iter env _) in Hrun.
      + destruct Hrun as (c2 & [= -> _] & _). left. eauto.
      + destruct Hrun as (c2 & [= -> _] & _). right. eexists. split; [reflexivity |].
        intros msg. apply reconstruct_no_runtime_error.
    - destruct (max_depth <=? bdepth).
      { injection Hrun as -> _. left. eauto. }
      destruct (set_iter env _) in Hrun.
      + destruct Hrun as (c2 & [= -> _] & _). left. eauto.
      + destruct Hrun as (c2 & [= -> _] & _). right. eexists. split; [reflexivity |].
        intros msg. apply reconstruct_no_runtime_error. }
  destruct Hshape as [(s' & -> & Hs') | (o & -> & Ho)].
  - exists new'. rewrite Hs'. split; [exact Htr' |]. split; [exact Hcount | lia].
  - assert (cap_enforced max_visited (@found_path BidiState o) new') as Hce
      by (apply found_path_cap; [exact Ho | lia]).
    destruct o as [p | e |]; simpl in *; exists new'; auto.
Qed.

End Cap.

#[local] Arguments cap_enforced {A} max_visited r new : simpl never.

Section SearchCap.

Context (env : Env).

Lemma resolve_title_raises t c e :
  (resolve_title env t c).1 = Raise e → ∃ f, e = api_exn f.
Proof.
  destruct (title_cache c !! t) as [n |] eqn:Ht.
  - rewrite (resolve_title_hit env _ _ _ Ht). discriminate.
  - destruct (resolve_title_miss env _ _ Ht) as (c' & -> & _). simpl.
    unfold resolve_pure. destruct (api_info env t) as [[| p ?] | f].
    + discriminate.
    + destruct (pi_missing p); discriminate.
    + intros [= <-]. eauto.
Qed.

Lemma quiet_cap {A} (r : outcome A) max_visited c c' :
  trace_grows is_info_request c c' →
  (∀ msg, r ≠ Raise (RuntimeError msg)) →
  ∃ new, trace c' = (new ++ trace c)%list ∧ cap_enforced max_visited r new.
Proof.
  intros (new & Htr & Hall) Hr. exists new. split; [exact Htr |].
  pose proof (dequeue_count_info new Hall) as H0. unfold cap_enforced.
  destruct r as [a | e |]; try lia.
  destruct e; try lia. exfalso. eapply Hr. reflexivity.
Qed.

Lemma set_iter_empty : set_iter env ∅ = [].
Proof.
  apply Permutation_nil_r. rewrite (set_iter_perm env ∅), elements_empty. reflexivity.
Qed.

Lemma find_path_bfs_cap start_title target_title max_depth max_visited c :
  ∃ new,
    trace (find_path_bfs env start_title target_title max_depth max_visited c).2
      = (new ++ trace c)%list ∧
    cap_enforced max_visited
      (find_path_bfs env start_title target_title max_depth max_visited c).1 new.
Proof.
  unfold find_path_bfs, bind.
  destruct (resolve_title env start_title c) as [r1 c1] eqn:E1.
  pose proof (resolve_title_grows env _ _ _ _ E1) as G1.
  pose proof (resolve_title_raises start_title c) as R1. rewrite E1 in R1. simpl in R1.
  destruct r1 as [[start |] | e |]; simpl.
  2: { apply quiet_cap; [exact G1 | discriminate]. }
  2: { apply quiet_cap; [exact G1 |]. intros msg [= ->].
       destruct (R1 _ eq_refl) as [[] ?]; discriminate. }
  2: { apply quiet_cap; [exact G1 | discriminate]. }
  destruct (resolve_title env target_title c1) as [r2 c2] eqn:E2.
  pose proof (resolve_title_grows env _ _ _ _ E2) as G2.
  pose proof (resolve_title_raises target_title c1) as R2. rewrite E2 in R2. simpl in R2.
  assert (trace_grows is_info_request c c2) as G by (etrans; eassumption).
  destruct r2 as [[target |] | e |]; simpl.
  2: { apply quiet_cap; [exact G | discriminate]. }
  2: { apply quiet_cap; [exact G |]. intros msg [= ->].
       destruct (R2 _ eq_refl) as [[] ?]; discriminate. }
  2: { apply quiet_cap; [exact G | discriminate]. }
  unfold set_crawl_graph, set_decision_info, emit, modify. simpl.
  destruct (String.eqb start target); simpl.
  { apply quiet_cap; [exact G | discriminate]. }
  destruct G as (new0 & Htr0 & Hall0).
  apply (cap_loop (bfs_step env target max_depth max_visited) bfs_visited_count
           (trace c) max_visited (bfs_step_cap env target max_depth max_visited (trace c))
           _ _ _ (EvEnqueue QBfs start 0 :: new0)).
  - simpl. rewrite Htr0. reflexivity.
  - rewrite dequeue_count_enqueue. apply dequeue_count_info, Hall0.
  - right. reflexivity.
Qed.

Lemma find_path_best_first_cap start_title target_title max_depth max_visited max_branch c :
  ∃ new,
    trace (find_path_best_first env start_title target_title max_depth max_visited
             max_branch c).2 = (new ++ trace c)%list ∧
    cap_enforced max_visited
      (find_path_best_first env start_title target_title max_depth max_visited
         max_branch c).1 new.
Proof.
  unfold find_path_best_first, bind.
  destruct (resolve_title env start_title c) as [r1 c1] eqn:E1.
  pose proof (resolve_title_grows env _ _ _ _ E1) as G1.
  pose proof (resolve_title_raises start_title c) as R1. rewrite E1 in R1. simpl in R1.
  destruct r1 as [[start |] | e |]; simpl.
  2: { apply quiet_cap; [exact G1 | discriminate]. }
  2: { apply quiet_cap; [exact G1 |]. intros msg [= ->].
       destruct (R1 _ eq_refl) as [[] ?]; discriminate. }
  2: { apply quiet_cap; [exact G1 | discriminate]. }
  destruct (resolve_title env target_title c1) as [r2 c2] eqn:E2.
  pose proof (resolve_title_grows env _ _ _ _ E2) as G2.
  pose proof (resolve_title_raises target_title c1) as R2. rewrite E2 in R2. simpl in R2.
  assert (trace_grows is_info_request c c2) as G by (etrans; eassumption).
  destruct r2 as [[target |] | e |]; simpl.
  2: { apply quiet_cap; [exact G | discriminate]. }
  2: { apply quiet_cap; [exact G |]. intros msg [= ->].
       destruct (R2 _ eq_refl) as [[] ?]; discriminate. }
  2: { apply quiet_cap; [exact G | discriminate]. }
  unfold set_crawl_graph, set_decision_info, emit, modify. simpl.
  destruct (String.eqb start target); simpl.
  { apply quiet_cap; [exact G | discriminate]. }
  destruct G as (new0 & Htr0 & Hall0).
  apply (cap_loop (best_step env target max_depth max_visited max_branch) bf_visited_count
           (trace c) max_visited
           (best_step_cap env target max_depth max_visited max_branch (trace c))
           _ _ _ (EvEnqueue QHeap start 0 :: new0)).
  - simpl. rewrite Htr0. reflexivity.
  - rewrite dequeue_count_enqueue. apply dequeue_count_info, Hall0.
  - right. reflexivity.
Qed.

Lemma find_path_bidi_cap start_title target_title max_depth max_visited c :
  ∃ new,
    trace (find_path_bidi env start_title target_title max_depth max_visited c).2
      = (new ++ trace c)%list ∧
    cap_enforced max_visited
      (find_path_bidi env start_title target_title max_depth max_visited c).1 new.
Proof.
  unfold find_path_bidi, bind.
  destruct (resolve_title env start_title c) as [r1 c1] eqn:E1.
  pose proof (resolve_title_grows env _ _ _ _ E1) as G1.
  pose proof (resolve_title_raises start_title c) as R1. rewrite E1 in R1. simpl in R1.
  destruct r1 as [[start |] | e |]; simpl.
  2: { apply quiet_cap; [exact G1 | discriminate]. }
  2: { apply quiet_cap; [exact G1 |]. intros msg [= ->].
       destruct (R1 _ eq_refl) as [[] ?]; discriminate. }
  2: { apply quiet_cap; [exact G1 | discriminate]. }
  destruct (resolve_title env target_title c1) as [r2 c2] eqn:E2.
  pose proof (resolve_title_grows env _ _ _ _ E2) as G2.
  pose proof (resolve_title_raises target_title c1) as R2. rewrite E2 in R2. simpl in R2.
  assert (trace_grows is_info_request c c2) as G by (etrans; eassumption).
  destruct r2 as [[target |] | e |]; simpl.
  2: { apply quiet_cap; [exact G | discriminate]. }
  2: { apply quiet_cap; [exact G |]. intros msg [= ->].
       destruct (R2 _ eq_refl) as [[] ?]; discriminate. }
  2: { apply quiet_cap; [exact G | discriminate]. }
  destruct (String.eqb start target); simpl.
  { apply quiet_cap; [exact G | discriminate]. }
  unfold set_crawl_graph, set_decision_info, emit, modify. simpl.
  destruct G as (new0 & Htr0 & Hall0).
  apply (cap_loop (bidi_step env start target max_depth max_visited) bidi_visited_count
           (trace c) max_visited
           (bidi_step_cap env start target max_depth max_visited (trace c))
           _ _ _ (EvEnqueue QBwd target 0 :: EvEnqueue QFwd start 0 :: new0)).
  - simpl. rewrite Htr0. reflexivity.
  - rewrite !dequeue_count_enqueue. apply dequeue_count_info, Hall0.
  - right. reflexivity.
Qed.

End SearchCap.

(** ** The cap is reached *)

Lemma iterations_run_loop {S A} (step : S → M (StepResult S A)) n : ∀ s0 c0 s c fuel,
  iterations step n s0 c0 = Some (s, c) →
  run_loop step (n + fuel) s0 c0 = run_loop step fuel s c.
Proof.
  induction n as [| n IH]; intros s0 c0 s c fuel Hit; simpl in Hit.
  - injection Hit as -> ->. reflexivity.
  - simpl. rewrite run_loop_S. unfold bind.
    destruct (step s0 c0) as [[[s' | a] | e |] c']; try discriminate.
    apply IH, Hit.
Qed.

(** A loop that counts each iteration, lets no iteration go on above the
    cap, and raises at the dequeue that would exceed the cap. *)
Lemma raises_at_cap_loop {S} (max_visited : Z)
    (step : S → M (StepResult S (option (list string))))
    (count : S → Z) (next : S → option Event) (s0 : S) (c0 : Crawler) :
  count s0 = 0 →
  (∀ s c s' c', step s c = (Ret (Continue s'), c') →
                count s' = count s + 1 ∧ count s' ≤ max_visited) →
  (∀ s c deq, next s = Some deq → max_visited < count s + 1 →
              step s c = (Raise (RuntimeError "Visited cap exceeded; aborting"),
                          add_event deq c)) →
  raises_at_cap max_visited step count next s0 c0
    (run_loop step (loop_fuel max_visited) s0 c0).
Proof.
  intros H0 Hcount Hraise n s c Hit.
  assert (Hn : ∀ m s1 c1 s2 c2,
            iterations step m s1 c1 = Some (s2, c2) →
            count s2 = count s1 + Z.of_nat m ∧ (m = O ∨ count s2 ≤ max_visited)).
  { induction m as [| m IH]; intros s1 c1 s2 c2 H; simpl in H.
    - injection H as -> ->. split; [lia | by left].
    - destruct (step s1 c1) as [[[s' | a] | e |] c'] eqn:Hstep; try discriminate.
      destruct (Hcount _ _ _ _ Hstep) as [Hc Hle].
      destruct (IH _ _ _ _ H) as [Hc' Hle']. split; [lia |]. right.
      destruct Hle' as [-> | Hle']; [simpl in Hc'; lia | exact Hle']. }
  destruct (Hn _ _ _ _ _ Hit) as [Hc Hle]. rewrite H0 in Hc. split; [lia |].
  intros deq Hnext Hcap.
  assert (∃ fuel, loop_fuel max_visited = (n + Datatypes.S fuel)%nat) as [fuel ->].
  { unfold loop_fuel. exists (Z.to_nat max_visited - n)%nat.
    destruct Hle as [-> | Hle]; lia. }
  rewrite (iterations_run_loop step n s0 c0 s c (Datatypes.S fuel) Hit), run_loop_S.
  unfold bind. rewrite (Hraise s c deq Hnext) by lia. reflexivity.
Qed.

Section AtCap.

Context (env : Env).

Lemma bfs_step_counts target max_depth max_visited s c s' c' :
  bfs_step env target max_depth max_visited s c = (Ret (Continue s'), c') →
  bfs_visited_count s' = bfs_visited_count s + 1 ∧ bfs_visited_count s' ≤ max_visited.
Proof.
  intros Hstep.
  destruct (bfs_q s) as [| [[cur path] depth] q] eqn:Hq.
  { unfold bfs_step in Hstep. rewrite Hq in Hstep. discriminate. }
  pose proof (bfs_step_run env target max_depth max_visited s cur path depth q c Hq) as Hrun.
  cbv zeta in Hrun. rewrite Hstep in Hrun.
  destruct (Z.ltb_spec max_visited (bfs_visited_count s + 1)); [discriminate |].
  destruct (max_depth <=? depth); [injection Hrun as -> _; simpl; lia |].
  destruct (bool_decide _) in Hrun; destruct Hrun as (c2 & [= -> _] & _); simpl; lia.
Qed.

Lemma best_step_counts target max_depth max_visited max_branch s c s' c' :
  best_step env target max_depth max_visited max_branch s c = (Ret (Continue s'), c') →
  bf_visited_count s' = bf_visited_count s + 1 ∧ bf_visited_count s' ≤ max_visited.
Proof.
  intros Hstep.
  destruct (heappop (bf_heap s)) as [[top heap] |] eqn:Hpop.
  2: { unfold best_step in Hstep. rewrite Hpop in Hstep. discriminate. }
  pose proof (best_step_run env target max_depth max_visited max_branch s top heap c Hpop)
    as Hrun.
  cbv zeta in Hrun. rewrite Hstep in Hrun.
  destruct (Z.ltb_spec max_visited (bf_visited_count s + 1)); [discriminate |].
  destruct (max_depth <=? h_depth top); [injection Hrun as -> _; simpl; lia |].
  destruct (bool_decide _) in Hrun; destruct Hrun as (c2 & [= -> _] & _).
  destruct (score_unvisited _ _ _ _); simpl; lia.
Qed.

Lemma bidi_step_counts start target max_depth max_visited s c s' c' :
  bidi_step env start target max_depth max_visited s c = (Ret (Continue s'), c') →
  bidi_visited_count s' = bidi_visited_count s + 1 ∧ bidi_visited_count s' ≤ max_visited.
Proof.
  intros Hstep.
  destruct (q_fwd s) as [| [fcur fdepth] qf] eqn:Hf.
  { unfold bidi_step in Hstep. rewrite Hf in Hstep. discriminate. }
  destruct (q_bwd s) as [| [bcur bdepth] qb] eqn:Hb.
  { unfold bidi_step in Hstep. rewrite Hf, Hb in Hstep. discriminate. }
  pose proof (bidi_step_run env start target max_depth max_visited s
                fcur fdepth qf bcur bdepth qb c Hf Hb) as Hrun.
  cbv zeta in Hrun. rewrite Hstep in Hrun.
  destruct (length (q_fwd s) <=? length (q_bwd s))%nat.
  - destruct (Z.ltb_spec max_visited (bidi_visited_count s + 1)); [discriminate |].
    destruct (max_depth <=? fdepth); [injection Hrun as -> _; simpl; lia |].
    destruct (set_iter env _) in Hrun; destruct Hrun as (c2 & Heq & _).
    + injection Heq as -> _. simpl. lia.
    + destruct (reconstruct_bidi_path _ _ _ _ _ _).1; discriminate.
  - destruct (Z.ltb_spec max_visited (bidi_visited_count s + 1)); [discriminate |].
    destruct (max_depth <=? bdepth); [injection Hrun as -> _; simpl; lia |].
    destruct (set_iter env _) in Hrun; destruct Hrun as (c2 & Heq & _).
    + injection Heq as -> _. simpl. lia.
    + destruct (reconstruct_bidi_path _ _ _ _ _ _).1; discriminate.
Qed.

Lemma bfs_step_at_cap target max_depth max_visited s c deq :
  bfs_next s = Some deq → max_visited < bfs_visited_count s + 1 →
  bfs_step env target max_depth max_visited s c =
    (Raise (RuntimeError "Visited cap exceeded; aborting"), add_event deq c).
Proof.
  unfold bfs_next. intros Hnext Hcap.
  destruct (bfs_q s) as [| [[cur path] depth] q] eqn:Hq; [discriminate |].
  injection Hnext as <-.
  pose proof (bfs_step_run env target max_depth max_visited s cur path depth q c Hq) as Hrun.
  cbv zeta in Hrun.
  destruct (Z.ltb_spec max_visited (bfs_visited_count s + 1)); [exact Hrun | lia].
Qed.

Lemma best_step_at_cap target max_depth max_visited max_branch s c deq :
  best_next s = Some deq → max_visited < bf_visited_count s + 1 →
  best_step env target max_depth max_visited max_branch s c =
    (Raise (RuntimeError "Visited cap exceeded; aborting"), add_event deq c).
Proof.
  unfold best_next. intros Hnext Hcap.
  destruct (heappop (bf_heap s)) as [[top heap] |] eqn:Hpop; [| discriminate].
  injection Hnext as <-.
  pose proof (best_step_run env target max_depth max_visited max_branch s top heap c Hpop)
    as Hrun.
  cbv zeta in Hrun.
  destruct (Z.ltb_spec max_visited (bf_visited_count s + 1)); [exact Hrun | lia].
Qed.

Lemma bidi_step_at_cap start target max_depth max_visited s c deq :
  bidi_next s = Some deq → max_visited < bidi_visited_count s + 1 →
  bidi_step env start target max_depth max_visited s c =
    (Raise (RuntimeError "Visited cap exceeded; aborting"), add_event deq c).
Proof.
  unfold bidi_next. intros Hnext Hcap.
  destruct (q_fwd s) as [| [fcur fdepth] qf] eqn:Hf; [discriminate |].
  destruct (q_bwd s) as [| [bcur bdepth] qb] eqn:Hb; [discriminate |].
  pose proof (bidi_step_run env start target max_depth max_visited s
                fcur fdepth qf bcur bdepth qb c Hf Hb) as Hrun.
  cbv zeta in Hrun. rewrite Hf, Hb in Hrun.
  set (forward := (length ((fcur, fdepth) :: qf) <=? length ((bcur, bdepth) :: qb))%nat) in *.
  destruct forward; injection Hnext as <-;
    (destruct (Z.ltb_spec max_visited (bidi_visited_count s + 1)); [exact Hrun | lia]).
Qed.

(** A search whose titles resolve to two pages runs its loop from the
    entry state. *)
Lemma find_path_bfs_enters start_title target_title max_depth max_visited start target c c2 :
  resolved env start_title target_title start target c c2 → start ≠ target →
  find_path_bfs env start_title target_title max_depth max_visited c =
    run_loop (bfs_step env target max_depth max_visited) (loop_fuel max_visited)
      (bfs_initial start) (bfs_loop_entry start c2).
Proof.
  intros (c1 & H1 & H2) Hne. unfold find_path_bfs, bind. rewrite H1, H2.
  unfold set_crawl_graph, set_decision_info, emit, modify. simpl.
  rewrite (proj2 (String.eqb_neq start target) Hne). reflexivity.
Qed.

Lemma find_path_best_first_enters start_title target_title max_depth max_visited max_branch
    start target c c2 :
  resolved env start_title target_title start target c c2 → start ≠ target →
  find_path_best_first env start_title target_title max_depth max_visited max_branch c =
    run_loop (best_step env target max_depth max_visited max_branch) (loop_fuel max_visited)
      (best_initial env start target) (best_loop_entry start c2).
Proof.
  intros (c1 & H1 & H2) Hne. unfold find_path_best_first, bind. rewrite H1, H2.
  unfold set_crawl_graph, set_decision_info, emit, modify. simpl.
  rewrite (proj2 (String.eqb_neq start target) Hne). reflexivity.
Qed.

Lemma find_path_bidi_enters start_title target_title max_depth max_visited start target c c2 :
  resolved env start_title target_title start target c c2 → start ≠ target →
  find_path_bidi env start_title target_title max_depth max_visited c =
    run_loop (bidi_step env start target max_depth max_visited) (loop_fuel max_visited)
      (bidi_entry start target) (bidi_loop_entry start target c2).
Proof.
  intros (c1 & H1 & H2) Hne. unfold find_path_bidi, bind. rewrite H1, H2. simpl.
  rewrite (proj2 (String.eqb_neq start target) Hne).
  unfold set_crawl_graph, set_decision_info, emit, modify. reflexivity.
Qed.

End AtCap.

(** ** A fetch that raises counts as a node without links *)

Lemma with_crawl_graph_same c : with_crawl_graph (crawl_graph c) c = c.
Proof. destruct c; reflexivity. Qed.

Section FailedFetch.

Context (env : Env).

Lemma links_or_empty_raised (fetch : string → M (gset string)) current c e :
  (fetch current c).1 = Raise e →
  links_or_empty fetch current c = (Ret ∅, (fetch current c).2).
Proof.
  intros H. unfold links_or_empty, try_except.
  destruct (fetch current c) as [r c']. simpl in H. subst r. reflexivity.
Qed.

Lemma record_no_edges (mk : string → string * string) c :
  record_edges mk (set_iter env ∅) c = (Ret tt, c).
Proof.
  rewrite (set_iter_empty env). unfold record_edges, bind, gets, set_crawl_graph, modify.
  simpl. rewrite with_crawl_graph_same. reflexivity.
Qed.

Lemma bfs_failed_fetch target max_depth max_visited s cur path depth q e c :
  bfs_q s = (cur, path, depth) :: q →
  bfs_visited_count s + 1 ≤ max_visited → depth < max_depth →
  (get_links env cur (add_event (EvDequeue QBfs cur depth) c)).1 = Raise e →
  bfs_step env target max_depth max_visited s c =
    (Ret (Continue {| bfs_q := q; bfs_visited := bfs_visited s;
                      bfs_visited_count := bfs_visited_count s + 1 |}),
     (get_links env cur (add_event (EvDequeue QBfs cur depth) c)).2).
Proof.
  intros Hq Hcap Hdepth Hraise.
  unfold bfs_step. rewrite Hq.
  rewrite (bind_eq_ret _ _ c tt (add_event (EvDequeue QBfs cur depth) c)) by reflexivity.
  cbv zeta.
  destruct (Z.ltb_spec max_visited (bfs_visited_count s + 1)); [lia |].
  destruct (Z.leb_spec max_depth depth); [lia |].
  rewrite (bind_eq_ret _ _ _ _ _ (links_or_empty_raised _ _ _ _ Hraise)).
  rewrite (bind_eq_ret _ _ _ _ _ (record_no_edges _ _)).
  rewrite bool_decide_eq_false_2 by apply not_elem_of_empty.
  rewrite (set_iter_empty env). reflexivity.
Qed.

Lemma best_failed_fetch target max_depth max_visited max_branch s top heap e c :
  heappop (bf_heap s) = Some (top, heap) →
  bf_visited_count s + 1 ≤ max_visited → h_depth top < max_depth →
  (get_links env (h_node top) (add_event (EvDequeue QHeap (h_node top) (h_depth top)) c)).1
    = Raise e →
  best_step env target max_depth max_visited max_branch s c =
    (Ret (Continue {| bf_heap := heap; bf_visited := bf_visited s;
                      bf_visited_count := bf_visited_count s + 1;
                      bf_uid_counter := bf_uid_counter s |}),
     (get_links env (h_node top)
        (add_event (EvDequeue QHeap (h_node top) (h_depth top)) c)).2).
Proof.
  intros Hpop Hcap Hdepth Hraise.
  unfold best_step. rewrite Hpop.
  rewrite (bind_eq_ret _ _ c tt (add_event (EvDequeue QHeap (h_node top) (h_depth top)) c))
    by reflexivity.
  cbv zeta.
  destruct (Z.ltb_spec max_visited (bf_visited_count s + 1)); [lia |].
  destruct (Z.leb_spec max_depth (h_depth top)); [lia |].
  rewrite (bind_eq_ret _ _ _ _ _ (links_or_empty_raised _ _ _ _ Hraise)).
  rewrite (bind_eq_ret _ _ _ _ _ (record_no_edges _ _)).
  rewrite bool_decide_eq_false_2 by apply not_elem_of_empty.
  rewrite (set_iter_empty env). reflexivity.
Qed.

Lemma bidi_failed_fetch start target max_depth max_visited s
    fcur fdepth qf bcur bdepth qb e c :
  q_fwd s = (fcur, fdepth) :: qf →
  q_bwd s = (bcur, bdepth) :: qb →
  bidi_visited_count s + 1 ≤ max_visited →
  let forward := (length (q_fwd s) <=? length (q_bwd s))%nat in
  let fetched :=
    if forward then get_links env fcur (add_event (EvDequeue QFwd fcur fdepth) c)
    else get_linkshere env bcur (add_event (EvDequeue QBwd bcur bdepth) c) in
  (if forward then fdepth else bdepth) < max_depth →
  fetched.1 = Raise e →
  bidi_step env start target max_depth max_visited s c =
    (Ret (Continue
            {| parent_fwd := parent_fwd s; parent_bwd := parent_bwd s;
               q_fwd := if forward then qf else q_fwd s;
               q_bwd := if forward then q_bwd s else qb;
               visited_fwd := visited_fwd s; visited_bwd := visited_bwd s;
               bidi_visited_count := bidi_visited_count s + 1 |}), fetched.2).
Proof.
  intros Hf Hb Hcap forward fetched Hdepth Hraise.
  unfold bidi_step. subst fetched forward.
  destruct (length (q_fwd s) <=? length (q_bwd s))%nat; rewrite Hf, Hb.
  - rewrite (bind_eq_ret _ _ c tt (add_event (EvDequeue QFwd fcur fdepth) c)) by reflexivity.
    cbv zeta.
    destruct (Z.ltb_spec max_visited (bidi_visited_count s + 1)); [lia |].
    destruct (Z.leb_spec max_depth fdepth); [lia |].
    rewrite (bind_eq_ret _ _ _ _ _ (links_or_empty_raised _ _ _ _ Hraise)).
    rewrite (bind_eq_ret _ _ _ _ _ (record_no_edges _ _)).
    rewrite (left_absorb_L ∅ (∩)), (set_iter_empty env). reflexivity.
  - rewrite (bind_eq_ret _ _ c tt (add_event (EvDequeue QBwd bcur bdepth) c)) by reflexivity.
    cbv zeta.
    destruct (Z.ltb_spec max_visited (bidi_visited_count s + 1)); [lia |].
    destruct (Z.leb_spec max_depth bdepth); [lia |].
    rewrite (bind_eq_ret _ _ _ _ _ (links_or_empty_raised _ _ _ _ Hraise)).
    rewrite (bind_eq_ret _ _ _ _ _ (record_no_edges _ _)).
    rewrite (left_absorb_L ∅ (∩)), (set_iter_empty env). reflexivity.
Qed.

(** *** No exception of a fetch leaves a loop *)

Lemma walk_left_grows parent : ∀ fuel node acc l,
  walk_left fuel parent node acc = Some l → ∃ more, l = (acc ++ more)%list.
Proof.
  induction fuel as [| fuel IH]; intros node acc l H; destruct node as [n |]; simpl in H;
    try discriminate.
  - injection H as <-. exists []. by rewrite app_nil_r.
  - apply IH in H as [more ->]. exists (n :: more). by rewrite <- app_assoc.
  - injection H as <-. exists []. by rewrite app_nil_r.
Qed.

Lemma reconstruct_never_raises pf pb meet start target c e :
  (reconstruct_bidi_path pf pb meet start target c).1 ≠ Raise e.
Proof.
  unfold reconstruct_bidi_path, bind, lift_fuel.
  destruct (walk_left (S (size pf)) pf (Some meet) []) as [l |] eqn:Hl; [| discriminate].
  destruct (walk_right (S (size pb)) pb target meet []) as [r |]; [| discriminate].
  simpl in Hl. apply walk_left_grows in Hl as [more ->]. simpl.
  rewrite reverse_cons.
  destruct ((reverse more ++ [meet]) ++ r)%list as [| first rest] eqn:Hp.
  { apply app_eq_nil in Hp as [Hp _]. apply app_eq_nil in Hp as [_ Hp]. discriminate. }
  destruct (String.eqb first start).
  - destruct (last (first :: rest)) eqn:Hlast; [discriminate |].
    apply last_None in Hlast. discriminate.
  - destruct (last (start :: first :: rest)) eqn:Hlast; [discriminate |].
    apply last_None in Hlast. discriminate.
Qed.

Lemma only_cap_loop {S A} (step : S → M (StepResult S A)) :
  (∀ s c, only_cap_error (step s c).1) →
  ∀ fuel s c, only_cap_error (run_loop step fuel s c).1.
Proof.
  intros Hstep fuel s c.
  apply (run_loop_inv step (fun _ _ => True) (fun r _ => only_cap_error r));
    [| | exact I].
  - intros _ _ _ e H. discriminate.
  - intros s1 c1 _. specialize (Hstep s1 c1).
    destruct (step s1 c1) as [[[s' | a] | e |] c']; simpl in *; auto;
      intros e' H; try discriminate. injection H as <-. apply Hstep. reflexivity.
Qed.

Lemma bfs_step_only_cap target max_depth max_visited s c :
  only_cap_error (bfs_step env target max_depth max_visited s c).1.
Proof.
  intros e He.
  destruct (bfs_q s) as [| [[cur path] depth] q] eqn:Hq.
  { unfold bfs_step in He. rewrite Hq in He. discriminate. }
  pose proof (bfs_step_run env target max_depth max_visited s cur path depth q c Hq) as Hrun.
  cbv zeta in Hrun.
  destruct (max_visited <? bfs_visited_count s + 1).
  { rewrite Hrun in He. injection He as <-. reflexivity. }
  destruct (max_depth <=? depth); [rewrite Hrun in He; discriminate |].
  destruct (bool_decide _) in Hrun; destruct Hrun as (c' & Hrun & _);
    rewrite Hrun in He; discriminate.
Qed.

Lemma best_step_only_cap target max_depth max_visited max_branch s c :
  only_cap_error (best_step env target max_depth max_visited max_branch s c).1.
Proof.
  intros e He.
  destruct (heappop (bf_heap s)) as [[top heap] |] eqn:Hpop.
  2: { unfold best_step in He. rewrite Hpop in He. discriminate. }
  pose proof (best_step_run env target max_depth max_visited max_branch s top heap c Hpop)
    as Hrun.
  cbv zeta in Hrun.
  destruct (max_visited <? bf_visited_count s + 1).
  { rewrite Hrun in He. injection He as <-. reflexivity. }
  destruct (max_depth <=? h_depth top); [rewrite Hrun in He; discriminate |].
  destruct (bool_decide _) in Hrun; destruct Hrun as (c' & Hrun & _);
    rewrite Hrun in He; discriminate.
Qed.

Lemma bidi_step_only_cap start target max_depth max_visited s c :
  only_cap_error (bidi_step env start target max_depth max_visited s c).1.
Proof.
  intros e He.
  destruct (q_fwd s) as [| [fcur fdepth] qf] eqn:Hf.
  { unfold bidi_step in He. rewrite Hf in He. discriminate. }
  destruct (q_bwd s) as [| [bcur bdepth] qb] eqn:Hb.
  { unfold bidi_step in He. rewrite Hf, Hb in He. discriminate. }
  pose proof (bidi_step_run env start target max_depth max_visited s
                fcur fdepth qf bcur bdepth qb c Hf Hb) as Hrun.
  cbv zeta in Hrun.
  destruct (length (q_fwd s) <=? length (q_bwd s))%nat.
  - destruct (max_visited <? bidi_visited_count s + 1).
    { rewrite Hrun in He. injection He as <-. reflexivity. }
    destruct (max_depth <=? fdepth); [rewrite Hrun in He; discriminate |].
    destruct (set_iter env _) in Hrun; destruct Hrun as (c' & Hrun & _);
      rewrite Hrun in He; [discriminate |]. simpl in He.
    match type of He with
    | found_path (?m).1 = _ => pose proof (reconstruct_never_raises _ _ _ _ _ _ e : m.1 ≠ _) as Hn;
                               destruct m.1; simpl in He; try discriminate
    end.
    injection He as ->. contradiction.
  - destruct (max_visited <? bidi_visited_count s + 1).
    { rewrite Hrun in He. injection He as <-. reflexivity. }
    destruct (max_depth <=? bdepth); [rewrite Hrun in He; discriminate |].
    destruct (set_iter env _) in Hrun; destruct Hrun as (c' & Hrun & _);
      rewrite Hrun in He; [discriminate |]. simpl in He.
    match type of He with
    | found_path (?m).1 = _ => pose proof (reconstruct_never_raises _ _ _ _ _ _ e : m.1 ≠ _) as Hn;
                               destruct m.1; simpl in He; try discriminate
    end.
    injection He as ->. contradiction.
Qed.

End FailedFetch.

(** C8. Each of the three searches enforces the visited cap. Read on the
    events of a run: a [RuntimeError] comes right after the dequeue that
    takes the number of dequeued nodes above [max_visited], and in no other
    case does that number exceed [max_visited]. Read on the iterations of
    the loop of a search whose titles resolve to two pages: the loop counts
    its iterations, and when [max_visited] iterations (or more, for a
    negative cap) have gone on and the frontier still holds a node, the
    search dequeues that node and raises [RuntimeError] at once. In an
    iteration of each loop, a link fetch that raises, whatever the exception,
    leaves the search with an empty set of neighbours: the iteration records
    and enqueues nothing, the crawler is as the fetch left it, and the loop
    goes on with the rest of the frontier. No loop raises any exception but
    the [RuntimeError] of the cap. *)
Theorem cap_and_failed_fetches
    (env : Env) (start_title target_title : string)
    (max_depth max_visited max_branch : Z) (c : Crawler) :
  (∀ search,
     search ∈ searches env start_title target_title max_depth max_visited max_branch →
     ∃ new, trace (search c).2 = (new ++ trace c)%list ∧
            cap_enforced max_visited (search c).1 new) ∧
  (∀ start target c2,
     resolved env start_title target_title start target c c2 → start ≠ target →
     raises_at_cap max_visited (bfs_step env target max_depth max_visited)
       bfs_visited_count bfs_next (bfs_initial start) (bfs_loop_entry start c2)
       (find_path_bfs env start_title target_title max_depth max_visited c) ∧
     raises_at_cap max_visited (best_step env target max_depth max_visited max_branch)
       bf_visited_count best_next (best_initial env start target) (best_loop_entry start c2)
       (find_path_best_first env start_title target_title max_depth max_visited max_branch c) ∧
     raises_at_cap max_visited (bidi_step env start target max_depth max_visited)
       bidi_visited_count bidi_next (bidi_entry start target)
       (bidi_loop_entry start target c2)
       (find_path_bidi env start_title target_title max_depth max_visited c)) ∧
  (∀ target s c' cur path depth q e,
     bfs_q s = (cur, path, depth) :: q →
     bfs_visited_count s + 1 ≤ max_visited → depth < max_depth →
     (get_links env cur (add_event (EvDequeue QBfs cur depth) c')).1 = Raise e →
     bfs_step env target max_depth max_visited s c' =
       (Ret (Continue {| bfs_q := q; bfs_visited := bfs_visited s;
                         bfs_visited_count := bfs_visited_count s + 1 |}),
        (get_links env cur (add_event (EvDequeue QBfs cur depth) c')).2)) ∧
  (∀ target s c' top heap e,
     heappop (bf_heap s) = Some (top, heap) →
     bf_visited_count s + 1 ≤ max_visited → h_depth top < max_depth →
     (get_links env (h_node top)
        (add_event (EvDequeue QHeap (h_node top) (h_depth top)) c')).1 = Raise e →
     best_step env target max_depth max_visited max_branch s c' =
       (Ret (Continue {| bf_heap := heap; bf_visited := bf_visited s;
                         bf_visited_count := bf_visited_count s + 1;
                         bf_uid_counter := bf_uid_counter s |}),
        (get_links env (h_node top)
           (add_event (EvDequeue QHeap (h_node top) (h_depth top)) c')).2)) ∧
  (∀ start target s c' fcur fdepth qf bcur bdepth qb e,
     q_fwd s = (fcur, fdepth) :: qf →
     q_bwd s = (bcur, bdepth) :: qb →
     bidi_visited_count s + 1 ≤ max_visited →
     let forward := (length (q_fwd s) <=? length (q_bwd s))%nat in
     let fetched :=
       if forward then get_links env fcur (add_event (EvDequeue QFwd fcur fdepth) c')
       else get_linkshere env bcur (add_event (EvDequeue QBwd bcur bdepth) c') in
     (if forward then fdepth else bdepth) < max_depth →
     fetched.1 = Raise e →
     bidi_step env start target max_depth max_visited s c' =
       (Ret (Continue
               {| parent_fwd := parent_fwd s; parent_bwd := parent_bwd s;
                  q_fwd := if forward then qf else q_fwd s;
                  q_bwd := if forward then q_bwd s else qb;
                  visited_fwd := visited_fwd s; visited_bwd := visited_bwd s;
                  bidi_visited_count := bidi_visited_count s + 1 |}), fetched.2)) ∧
  (∀ start target fuel c',
     (∀ s, only_cap_error
             (run_loop (bfs_step env target max_depth max_visited) fuel s c').1) ∧
     (∀ s, only_cap_error
             (run_loop (best_step env target max_depth max_visited max_branch) fuel s c').1) ∧
     (∀ s, only_cap_error
             (run_loop (bidi_step env start target max_depth max_visited) fuel s c').1)).
Proof.
  split; [| split; [| split; [| split; [| split]]]].
  - intros search Hin. each_search Hin.
    + apply find_path_bfs_cap.
    + apply find_path_best_first_cap.
    + apply find_path_bidi_cap.
  - intros start target c2 Hres Hne. split; [| split].
    + rewrite (find_path_bfs_enters env _ _ _ _ _ _ _ _ Hres Hne).
      apply raises_at_cap_loop; [reflexivity | |].
      * intros s c0 s' c0'. apply bfs_step_counts.
      * intros s c0 deq. apply bfs_step_at_cap.
    + rewrite (find_path_best_first_enters env _ _ _ _ _ _ _ _ _ Hres Hne).
      apply raises_at_cap_loop; [reflexivity | |].
      * intros s c0 s' c0'. apply best_step_counts.
      * intros s c0 deq. apply best_step_at_cap.
    + rewrite (find_path_bidi_enters env _ _ _ _ _ _ _ _ Hres Hne).
      apply raises_at_cap_loop; [reflexivity | |].
      * intros s c0 s' c0'. apply bidi_step_counts.
      * intros s c0 deq. apply bidi_step_at_cap.
  - intros. eapply bfs_failed_fetch; eassumption.
  - intros. eapply best_failed_fetch; eassumption.
  - intros. eapply bidi_failed_fetch; eassumption.
  - intros start target fuel c'. split; [| split]; intros s; apply only_cap_loop.
    + intros. apply bfs_step_only_cap.
    + intros. apply best_step_only_cap.
    + intros. apply bidi_step_only_cap.
Qed.

(** ** The order of the floats *)

Lemma SFcompare_rank x y :
  sf_num x → sf_num y →
  ∃ c, SFcompare x y = Some c ∧
       match c with
       | Lt => rank_lt (sf_rank x) (sf_rank y)
       | Eq => sf_rank x = sf_rank y
       | Gt => rank_lt (sf_rank y) (sf_rank x)
       end.
Proof.
  intros Hx Hy. unfold rank_lt.
  destruct x as [sx | sx | | sx mx ex], y as [sy | sy | | sy my ey];
    try contradiction; simpl;
    try (destruct sx); try (destruct sy); simpl;
    try (eexists; split; [reflexivity |]; simpl; first [reflexivity | lia]).
  - destruct (Z.compare_spec ex ey) as [-> | H | H].
    + change (Pos.compare_cont Eq mx my) with (Pos.compare mx my).
      destruct (Pos.compare_spec mx my) as [-> | H | H];
        eexists; (split; [reflexivity |]); simpl; first [reflexivity | lia].
    + eexists; (split; [reflexivity |]); simpl; lia.
    + eexists; (split; [reflexivity |]); simpl; lia.
  - destruct (Z.compare_spec ex ey) as [-> | H | H].
    + change (Pos.compare_cont Eq mx my) with (Pos.compare mx my).
      destruct (Pos.compare_spec mx my) as [-> | H | H];
        eexists; (split; [reflexivity |]); simpl; first [reflexivity | lia].
    + eexists; (split; [reflexivity |]); simpl; lia.
    + eexists; (split; [reflexivity |]); simpl; lia.
Qed.

Lemma SFcompare_num x y c : SFcompare x y = Some c → sf_num x ∧ sf_num y.
Proof.
  destruct x as [sx | sx | | sx mx ex], y as [sy | sy | | sy my ey]; simpl;
    try discriminate; auto.
Qed.

Lemma sf_nonneg_num x : sf_nonneg x → sf_num x.
Proof. destruct x as [| [] | | [] ? ?]; simpl; auto. Qed.

Lemma fnonneg_num x : fnonneg x → fnum x.
Proof. apply sf_nonneg_num. Qed.

Lemma fltb_rank x y : fnum x → fnum y → (PrimFloat.ltb x y = true ↔ rank_lt (frank x) (frank y)).
Proof.
  intros Hx Hy. rewrite ltb_spec. unfold SFltb, frank.
  destruct (SFcompare_rank _ _ Hx Hy) as (c & -> & Hc).
  unfold rank_lt in *. destruct c; split; intros H; try discriminate; try reflexivity;
    try exact Hc; exfalso; [rewrite Hc in H |]; lia.
Qed.

Lemma feqb_rank x y : fnum x → fnum y → (PrimFloat.eqb x y = true ↔ frank x = frank y).
Proof.
  intros Hx Hy. rewrite FloatAxioms.eqb_spec. unfold SFeqb, frank.
  destruct (SFcompare_rank _ _ Hx Hy) as (c & -> & Hc).
  unfold rank_lt in *. destruct c; split; intros H; try discriminate; try reflexivity;
    try exact Hc; exfalso; rewrite H in Hc; lia.
Qed.

Lemma fleb_rank x y :
  fnum x → fnum y →
  (PrimFloat.leb x y = true ↔ rank_lt (frank x) (frank y) ∨ frank x = frank y).
Proof.
  intros Hx Hy. rewrite leb_spec. unfold SFleb, frank.
  destruct (SFcompare_rank _ _ Hx Hy) as (c & -> & Hc).
  unfold rank_lt in *. destruct c; split; intros H; try discriminate; try reflexivity; auto.
  exfalso. destruct H as [H | H]; [| rewrite H in Hc]; lia.
Qed.

Lemma fleb_num x y : PrimFloat.leb x y = true → fnum x ∧ fnum y.
Proof.
  rewrite leb_spec. unfold SFleb. destruct (SFcompare _ _) as [c |] eqn:Hc; [| discriminate].
  intros _. eapply SFcompare_num, Hc.
Qed.

Lemma fltb_num x y : PrimFloat.ltb x y = true → fnum x ∧ fnum y.
Proof.
  rewrite ltb_spec. unfold SFltb. destruct (SFcompare _ _) as [c |] eqn:Hc; [| discriminate].
  intros _. eapply SFcompare_num, Hc.
Qed.

Lemma feqb_num x y : PrimFloat.eqb x y = true → fnum x ∧ fnum y.
Proof.
  rewrite FloatAxioms.eqb_spec. unfold SFeqb.
  destruct (SFcompare _ _) as [c |] eqn:Hc; [| discriminate].
  intros _. eapply SFcompare_num, Hc.
Qed.

Lemma fleb_refl x : fnum x → PrimFloat.leb x x = true.
Proof. intros H. apply fleb_rank; auto. Qed.

Lemma fleb_trans x y z :
  PrimFloat.leb x y = true → PrimFloat.leb y z = true → PrimFloat.leb x z = true.
Proof.
  intros Hxy Hyz. destruct (fleb_num _ _ Hxy) as [Hx Hy]. destruct (fleb_num _ _ Hyz) as [_ Hz].
  apply fleb_rank in Hxy, Hyz; try assumption. apply fleb_rank; try assumption.
  unfold rank_lt in *.
  destruct Hxy as [Hxy | Hxy]; destruct Hyz as [Hyz | Hyz];
    try rewrite Hxy in *; try rewrite <- Hyz in *; auto.
  left. lia.
Qed.

(** Of two numbers, one is below the other. *)
Lemma fltb_false x y : fnum x → fnum y → PrimFloat.ltb x y = false → PrimFloat.leb y x = true.
Proof.
  intros Hx Hy H. apply fleb_rank; try assumption.
  assert (¬ rank_lt (frank x) (frank y)) as Hn.
  { intros Hlt. apply fltb_rank in Hlt; try assumption. congruence. }
  unfold rank_lt in *.
  destruct (frank x) as [[a1 a2] a3], (frank y) as [[b1 b2] b3]. simpl in *.
  destruct (Z.eq_dec a1 b1), (Z.eq_dec a2 b2), (Z.eq_dec a3 b3); subst; auto; left; lia.
Qed.

Lemma fltb_leb x y : PrimFloat.ltb x y = true → PrimFloat.leb x y = true.
Proof.
  intros H. destruct (fltb_num _ _ H) as [Hx Hy].
  apply fleb_rank; try assumption. left. apply fltb_rank; assumption.
Qed.

Lemma feqb_leb x y : PrimFloat.eqb x y = true → PrimFloat.leb x y = true.
Proof.
  intros H. destruct (feqb_num _ _ H) as [Hx Hy].
  apply fleb_rank; try assumption. right. apply feqb_rank; assumption.
Qed.

Lemma feqb_sym x y : PrimFloat.eqb x y = true → PrimFloat.eqb y x = true.
Proof.
  intros H. destruct (feqb_num _ _ H) as [Hx Hy].
  apply feqb_rank; try assumption. symmetry. apply feqb_rank; assumption.
Qed.

(** A strict comparison that fails both ways between numbers is an
    equality. *)
Lemma fleb_ltb x y : PrimFloat.leb x y = true → PrimFloat.ltb y x = false.
Proof.
  intros H. destruct (fleb_num _ _ H) as [Hx Hy].
  apply fleb_rank in H; try assumption.
  destruct (PrimFloat.ltb y x) eqn:Hlt; [| reflexivity].
  apply fltb_rank in Hlt; try assumption. exfalso.
  unfold rank_lt in *. destruct H as [H | H]; [| rewrite H in Hlt]; lia.
Qed.

(** Negation reverses the order. *)
Lemma fopp_num x : fnum x → fnum (- x)%float.
Proof. unfold fnum. rewrite opp_spec. destruct (Prim2SF x); simpl; auto. Qed.

Lemma frank_opp x :
  fnum x → frank (- x)%float = (- (frank x).1.1, - (frank x).1.2, - (frank x).2).
Proof.
  unfold fnum, frank. rewrite opp_spec.
  destruct (Prim2SF x) as [[] | [] | | [] m e]; simpl; try contradiction; intros _;
    try reflexivity; f_equal; try f_equal; lia.
Qed.

Lemma fleb_opp x y :
  PrimFloat.leb (- x) (- y) = true ↔ PrimFloat.leb y x = true.
Proof.
  assert (∀ a b, fnum a → fnum b →
                 PrimFloat.leb b a = true → PrimFloat.leb (- a) (- b) = true) as Hdir.
  { intros a b Ha Hb H. apply fleb_rank; [apply fopp_num, Ha | apply fopp_num, Hb |].
    rewrite !frank_opp by assumption. apply fleb_rank in H; try assumption.
    unfold rank_lt in *. simpl.
    destruct (frank a) as [[a1 a2] a3], (frank b) as [[b1 b2] b3]. simpl in *.
    destruct H as [H | H]; [left; lia | right]. injection H as -> -> ->. reflexivity. }
  split; intros H.
  - destruct (fleb_num _ _ H) as [Hx Hy].
    assert (fnum x) as Hx'.
    { unfold fnum in *. rewrite opp_spec in Hx. destruct (Prim2SF x); simpl in *; auto. }
    assert (fnum y) as Hy'.
    { unfold fnum in *. rewrite opp_spec in Hy. destruct (Prim2SF y); simpl in *; auto. }
    apply fleb_rank; try assumption.
    apply fleb_rank in H; try assumption. rewrite !frank_opp in H by assumption.
    unfold rank_lt in *. simpl in H.
    destruct (frank x) as [[a1 a2] a3], (frank y) as [[b1 b2] b3]. simpl in *.
    destruct H as [H | H]; [left; lia | right]. injection H as H1 H2 H3.
    f_equal; [f_equal |]; lia.
  - destruct (fleb_num _ _ H) as [Hy Hx]. apply Hdir; assumption.
Qed.

(** *** A sum of numbers that are not negative *)

Lemma shr_1_nonneg mrs : 0 ≤ shr_m mrs → 0 ≤ shr_m (shr_1 mrs).
Proof.
  destruct mrs as [m r s]. simpl. destruct m as [| [p | p |] | [p | p |]]; simpl; lia.
Qed.

Lemma iter_shr_1_nonneg p mrs : 0 ≤ shr_m mrs → 0 ≤ shr_m (SpecFloat.iter_pos shr_1 p mrs).
Proof.
  revert mrs. induction p as [p IH | p IH |]; intros mrs H; simpl.
  - apply IH, IH, shr_1_nonneg, H.
  - apply IH, IH, H.
  - apply shr_1_nonneg, H.
Qed.

Lemma shr_nonneg mrs e n : 0 ≤ shr_m mrs → 0 ≤ shr_m (shr mrs e n).1.
Proof.
  intros H. unfold shr. destruct n; simpl; try exact H. apply iter_shr_1_nonneg, H.
Qed.

Lemma shr_fexp_nonneg prec emax m e l : 0 ≤ m → 0 ≤ shr_m (shr_fexp prec emax m e l).1.
Proof.
  intros H. unfold shr_fexp. apply shr_nonneg.
  destruct l as [| []]; simpl; exact H.
Qed.

Lemma round_nearest_even_nonneg m l : 0 ≤ m → 0 ≤ round_nearest_even m l.
Proof.
  intros H. unfold round_nearest_even. destruct l as [| []]; try lia.
  destruct (Z.even m); lia.
Qed.

Lemma binary_round_aux_nonneg prec emax m e l :
  0 ≤ m → sf_nonneg (binary_round_aux prec emax false m e l).
Proof.
  intros H. unfold binary_round_aux.
  pose proof (shr_fexp_nonneg prec emax m e l H) as H1.
  destruct (shr_fexp prec emax m e l) as [mrs' e'].
  pose proof (shr_fexp_nonneg prec emax
                (round_nearest_even (shr_m mrs') (loc_of_shr_record mrs')) e' loc_Exact
                (round_nearest_even_nonneg _ _ H1)) as H2.
  destruct (shr_fexp prec emax _ e' loc_Exact) as [mrs'' e''].
  simpl in H2. destruct (shr_m mrs''); simpl; [exact I | | lia].
  destruct (e'' <=? emax - prec); exact I.
Qed.

Lemma SFadd_nonneg prec emax x y :
  sf_nonneg x → sf_nonneg y → sf_nonneg (SFadd prec emax x y).
Proof.
  destruct x as [sx | [] | | [] mx ex], y as [sy | [] | | [] my ey]; simpl;
    try contradiction; intros _ _; try exact I.
  - destruct sx, sy; exact I.
  - unfold binary_round.
    destruct (shl_align _ _ _) as [mz ez]. apply binary_round_aux_nonneg. lia.
Qed.

Lemma fadd_nonneg x y : fnonneg x → fnonneg y → fnonneg (x + y)%float.
Proof. unfold fnonneg. rewrite add_spec. apply SFadd_nonneg. Qed.

Lemma fnonneg_leb x : PrimFloat.leb 0 x = true → fnonneg x.
Proof.
  rewrite leb_spec. unfold fnonneg, SFleb.
  change (Prim2SF 0) with (S754_zero false).
  destruct (Prim2SF x) as [s | [] | | [] m e]; simpl; auto; discriminate.
Qed.

(** ** Scores are numbers *)

Lemma seq_ratio_nonneg env a b : fnonneg (seq_ratio env a b).
Proof.
  pose proof (seq_ratio_range env a b) as H. apply andb_true_iff in H as [H _].
  apply fnonneg_leb, H.
Qed.

Lemma token_bonus_nonneg (cand : PyUni.ustr) (tokens : list PyUni.ustr) (b : float) :
  fnonneg b →
  fnonneg (fold_left (fun token_bonus tkn =>
                        if PyUni.contains tkn cand then (token_bonus + 0.25)%float
                        else token_bonus) tokens b).
Proof.
  revert b. induction tokens as [| t tokens IH]; intros b Hb; simpl; [exact Hb |].
  apply IH. destruct (PyUni.contains t cand); [| exact Hb].
  apply fadd_nonneg; [exact Hb | exact I].
Qed.

Lemma title_score_nonneg env candidate_title target_title :
  fnonneg (title_score env candidate_title target_title).
Proof.
  unfold title_score. apply fadd_nonneg; [apply seq_ratio_nonneg |].
  apply token_bonus_nonneg. exact I.
Qed.

Lemma title_score_num env candidate_title target_title :
  fnum (title_score env candidate_title target_title).
Proof. apply fnonneg_num, title_score_nonneg. Qed.

(** ** Best-first search: the neighbours pushed in an iteration *)

Lemma insert_desc_perm x l : insert_desc x l ≡ₚ x :: l.
Proof.
  induction l as [| y l IH]; simpl; [reflexivity |].
  destruct (x.1 <? y.1)%float; [| reflexivity].
  rewrite IH. apply Permutation_swap.
Qed.

Lemma sort_desc_perm l : sort_desc l ≡ₚ l.
Proof.
  induction l as [| x l IH]; simpl; [reflexivity |].
  unfold sort_desc in *. simpl. rewrite insert_desc_perm, IH. reflexivity.
Qed.

Lemma insert_desc_sorted x l :
  fnum x.1 → Forall (fun y => fnum y.1) l →
  StronglySorted by_score_desc l → StronglySorted by_score_desc (insert_desc x l).
Proof.
  intros Hx. induction l as [| y l IH]; intros Hnum Hs; simpl.
  - repeat constructor.
  - apply Forall_cons in Hnum as [Hy Hnum].
    apply StronglySorted_cons in Hs as [Hall Hs].
    destruct (x.1 <? y.1)%float eqn:Hlt.
    + apply StronglySorted_cons. split; [| apply IH; assumption].
      rewrite insert_desc_perm. constructor; [| exact Hall].
      apply fltb_leb, Hlt.
    + assert (by_score_desc x y) as Hxy by (apply fltb_false; assumption).
      apply StronglySorted_cons. split.
      * constructor; [exact Hxy |].
        eapply Forall_impl; [exact Hall |]. intros z Hz. unfold by_score_desc in *.
        eapply fleb_trans; eassumption.
      * apply StronglySorted_cons. auto.
Qed.

Lemma sort_desc_sorted l :
  Forall (fun y => fnum y.1) l → StronglySorted by_score_desc (sort_desc l).
Proof.
  induction l as [| x l IH]; intros Hnum; [constructor |].
  apply Forall_cons in Hnum as [Hx Hnum].
  unfold sort_desc in *. simpl. apply insert_desc_sorted; [exact Hx | | apply IH, Hnum].
  change (foldr insert_desc [] l) with (sort_desc l).
  rewrite sort_desc_perm. exact Hnum.
Qed.

Section Scored.

Context (env : Env) (target : string).

Lemma score_unvisited_spec visited ns :
  score_unvisited env target visited ns =
    map (fun n => (title_score env n target, n))
        (List.filter (fun n => negb (bool_decide (n ∈ visited))) ns).
Proof.
  unfold score_unvisited.
  enough (∀ acc,
            fold_left (fun scored n =>
                         if bool_decide (n ∈ visited) then scored
                         else (scored ++ [(title_score env n target, n)])%list) ns acc
            = (acc ++ map (fun n => (title_score env n target, n))
                          (List.filter (fun n => negb (bool_decide (n ∈ visited))) ns))%list)
    as H by apply (H []).
  induction ns as [| n ns IH]; intros acc; simpl.
  - rewrite app_nil_r. reflexivity.
  - rewrite IH. destruct (bool_decide (n ∈ visited)); simpl; [reflexivity |].
    rewrite <- app_assoc. reflexivity.
Qed.

Lemma elem_of_score_unvisited visited ns item :
  item ∈ score_unvisited env target visited ns ↔
  item.1 = title_score env item.2 target ∧ item.2 ∈ ns ∧ item.2 ∉ visited.
Proof.
  rewrite score_unvisited_spec, elem_of_map. split.
  - intros (n & -> & Hn). rewrite list_elem_of_In in Hn. apply filter_In in Hn as [Hn Hv].
    simpl. split; [reflexivity |]. split; [apply list_elem_of_In, Hn |].
    apply negb_true_iff, bool_decide_eq_false in Hv. exact Hv.
  - intros (Hs & Hn & Hv). exists item.2. split.
    + destruct item as [sc n]. simpl in *. congruence.
    + apply list_elem_of_In, filter_In. split; [apply list_elem_of_In, Hn |].
      apply negb_true_iff, bool_decide_eq_false. exact Hv.
Qed.

Lemma score_unvisited_nodup visited ns :
  NoDup ns → NoDup (map snd (score_unvisited env target visited ns)).
Proof.
  intros Hnd. rewrite score_unvisited_spec, map_map. simpl. rewrite map_id.
  apply NoDup_ListNoDup, List.NoDup_filter, NoDup_ListNoDup, Hnd.
Qed.

End Scored.

Lemma score_unvisited_num env target visited ns :
  Forall (fun y => fnum y.1) (score_unvisited env target visited ns).
Proof.
  apply Forall_forall. intros item Hitem.
  apply elem_of_score_unvisited in Hitem as (-> & _). apply title_score_num.
Qed.

(** As many neighbours are scored as there are outside the visited set. *)
Lemma score_unvisited_length env target (visited neighbors : gset string) :
  length (score_unvisited env target visited (set_iter env neighbors))
    = size (neighbors ∖ visited).
Proof.
  rewrite score_unvisited_spec, length_map.
  set (l := List.filter _ _).
  assert (NoDup l) as Hnd.
  { apply NoDup_ListNoDup, List.NoDup_filter, NoDup_ListNoDup.
    rewrite (set_iter_perm env neighbors). apply NoDup_elements. }
  rewrite <- (size_list_to_set (C := gset string) l Hnd). f_equal.
  apply set_eq. intros x. rewrite elem_of_list_to_set, elem_of_difference.
  unfold l. rewrite list_elem_of_In, filter_In, <- list_elem_of_In.
  rewrite (set_iter_perm env neighbors), elem_of_elements, negb_true_iff,
    bool_decide_eq_false. reflexivity.
Qed.

Lemma fresh_scored_all visited items :
  NoDup (map snd items) → (∀ item, item ∈ items → item.2 ∉ visited) →
  fresh_scored visited items = items.
Proof.
  revert visited. induction items as [| item items IH]; intros visited Hnd Hv; [reflexivity |].
  simpl. simpl in Hnd. apply NoDup_cons in Hnd as [Hitem Hnd].
  rewrite bool_decide_eq_false_2 by (apply Hv; left).
  f_equal. apply IH; [exact Hnd |].
  intros it Hit. apply not_elem_of_union. split.
  - intros Heq%elem_of_singleton. apply Hitem, elem_of_map.
    exists it. split; [symmetry; exact Heq | exact Hit].
  - apply Hv. right. exact Hit.
Qed.

Lemma slice_to_nonneg {A} (k : Z) (l : list A) :
  0 ≤ k → PyStr.slice_to k l = take (Z.to_nat k) l.
Proof.
  intros Hk. unfold PyStr.slice_to. destruct (Z.ltb_spec k 0); [lia | reflexivity].
Qed.

Lemma push_entries_nodes depth path items : ∀ heap uid,
  map h_node (push_entries depth path items heap uid).1 =
    (reverse (map snd items) ++ map h_node heap)%list.
Proof.
  induction items as [| item items IH]; intros heap uid; simpl; [reflexivity |].
  rewrite IH. simpl. rewrite reverse_cons, <- app_assoc. reflexivity.
Qed.

Lemma enqueued_expansion f d' (items : list string) api t n d :
  forallb is_api_event api = true →
  enqueued f (reverse (map (fun x => EvEnqueue f x d') items)
                ++ api ++ [EvGetLinks t; EvDequeue f n d])%list
    = reverse items.
Proof.
  intros Hall. rewrite !enqueued_app, enqueued_rev_map.
  rewrite (no_queue_events_enqueued _ _ (api_events_not_queue _ Hall)).
  simpl. rewrite app_nil_r. reflexivity.
Qed.

Lemma enqueued_no_expansion f api t n d :
  forallb is_api_event api = true →
  enqueued f (api ++ [EvGetLinks t; EvDequeue f n d])%list = [].
Proof.
  intros Hall. rewrite enqueued_app.
  rewrite (no_queue_events_enqueued _ _ (api_events_not_queue _ Hall)). reflexivity.
Qed.

(** C4, as amended. For a branching cap [max_branch] that is not negative,
    in an iteration of the best-first loop: when the iteration expands its
    node (the visited cap and the depth allow it, and the target is not a
    neighbour), the number of nodes pushed onto the heap is [max_branch], or
    the number of unvisited neighbours if there are fewer; otherwise nothing
    is pushed. The nodes pushed are distinct unvisited neighbours of the
    expanded node, and every unvisited neighbour that is not pushed scores
    no higher against the target than any node that is pushed. The heap
    after the iteration holds the pushed nodes on top of those that were
    left. *)
Theorem best_first_pushes_top_neighbors
    (env : Env) (target : string) (max_depth max_visited max_branch : Z)
    (s : BestState) (c : Crawler) (top : HeapEntry) (heap : list HeapEntry)
    (Hpop : heappop (bf_heap s) = Some (top, heap))
    (Hbranch : 0 ≤ max_branch) :
  let c1 := add_event (EvDequeue QHeap (h_node top) (h_depth top)) c in
  let neighbors := match (get_links env (h_node top) c1).1 with Ret n => n | _ => ∅ end in
  let unvisited := neighbors ∖ bf_visited s in
  let expands :=
    ((bf_visited_count s + 1 <=? max_visited) && (h_depth top <? max_depth)
     && negb (bool_decide (target ∈ neighbors)))%bool in
  ∃ new,
    trace (best_step env target max_depth max_visited max_branch s c).2
      = (new ++ trace c)%list ∧
    let pushed := enqueued QHeap new in
    Z.of_nat (length pushed)
      = (if expands then Z.min max_branch (Z.of_nat (size unvisited)) else 0) ∧
    NoDup pushed ∧
    (∀ n, n ∈ pushed → n ∈ unvisited) ∧
    (∀ n m, n ∈ pushed → m ∈ unvisited → m ∉ pushed →
            (title_score env m target <=? title_score env n target)%float = true) ∧
    (∀ s', (best_step env target max_depth max_visited max_branch s c).1
             = Ret (Continue s') →
           map h_node (bf_heap s') = (pushed ++ map h_node heap)%list).
Proof.
  intros c1 neighbors unvisited expands.
  pose proof (best_step_run env target max_depth max_visited max_branch s top heap c Hpop)
    as Hrun.
  cbv zeta in Hrun. fold c1 in Hrun. fold neighbors in Hrun.
  set (cur := h_node top) in *. set (depth := h_depth top) in *.
  assert (Hquiet : ∀ new,
            enqueued QHeap new = [] →
            (expands = true → size unvisited = 0%nat) →
            let pushed := enqueued QHeap new in
            Z.of_nat (length pushed)
              = (if expands then Z.min max_branch (Z.of_nat (size unvisited)) else 0) ∧
            NoDup pushed ∧
            (∀ n, n ∈ pushed → n ∈ unvisited) ∧
            (∀ n m, n ∈ pushed → m ∈ unvisited → m ∉ pushed →
                    (title_score env m target <=? title_score env n target)%float = true)).
  { intros new Hnew Hsize pushed. subst pushed. rewrite Hnew. simpl.
    split; [destruct expands; [rewrite Hsize by reflexivity; lia | reflexivity] |].
    split; [constructor |].
    split; intros n; [| intros m]; intros H; by apply elem_of_nil in H. }
  destruct (Z.ltb_spec max_visited (bf_visited_count s + 1)) as [Hcap | Hcap].
  { assert (expands = false) as Hex.
    { unfold expands. destruct (Z.leb_spec (bf_visited_count s + 1) max_visited); [lia |].
      reflexivity. }
    exists [EvDequeue QHeap cur depth]. rewrite Hrun. split; [reflexivity |].
    destruct (Hquiet [EvDequeue QHeap cur depth] eq_refl) as (H1 & H2 & H3 & H4);
      [rewrite Hex; discriminate |].
    cbv zeta. split; [exact H1 |]. split; [exact H2 |]. split; [exact H3 |].
    split; [exact H4 |]. intros s' Hs'. simpl in Hs'. discriminate. }
  destruct (Z.leb_spec max_depth depth) as [Hdepth | Hdepth].
  { assert (expands = false) as Hex.
    { unfold expands. fold depth. destruct (Z.ltb_spec depth max_depth); [lia |].
      apply andb_false_intro1, andb_false_r. }
    exists [EvDequeue QHeap cur depth]. rewrite Hrun. split; [reflexivity |].
    destruct (Hquiet [EvDequeue QHeap cur depth] eq_refl) as (H1 & H2 & H3 & H4);
      [rewrite Hex; discriminate |].
    cbv zeta. split; [exact H1 |]. split; [exact H2 |]. split; [exact H3 |].
    split; [exact H4 |]. intros s' Hs'. simpl in Hs'. injection Hs' as <-.
    reflexivity. }
  destruct (get_links_events env cur c1) as (api & Hapi & Hall).
  destruct (bool_decide (target ∈ neighbors)) eqn:Htarget.
  { assert (expands = false) as Hex by (unfold expands; apply andb_false_r).
    destruct Hrun as (c' & -> & Htr & _).
    exists (api ++ [EvGetLinks cur; EvDequeue QHeap cur depth])%list.
    split; [simpl; rewrite Htr, Hapi, <- app_assoc; reflexivity |].
    destruct (Hquiet _ (enqueued_no_expansion QHeap api cur cur depth Hall))
      as (H1 & H2 & H3 & H4); [rewrite Hex; discriminate |].
    cbv zeta. split; [exact H1 |]. split; [exact H2 |]. split; [exact H3 |].
    split; [exact H4 |]. intros s' Hs'. simpl in Hs'. discriminate. }
  assert (expands = true) as Hex.
  { unfold expands. fold depth.
    destruct (Z.leb_spec (bf_visited_count s + 1) max_visited); [| lia].
    destruct (Z.ltb_spec depth max_depth); [reflexivity | lia]. }
  destruct Hrun as (c' & -> & Htr & _).
  set (scored := score_unvisited env target (bf_visited s) (set_iter env neighbors)) in *.
  pose proof (score_unvisited_length env target (bf_visited s) neighbors) as Hlen.
  fold scored in Hlen. fold unvisited in Hlen.
  destruct scored as [| sc0 scored'] eqn:Hscored.
  { exists (api ++ [EvGetLinks cur; EvDequeue QHeap cur depth])%list.
    split; [simpl; rewrite Htr, Hapi, <- app_assoc; reflexivity |].
    destruct (Hquiet _ (enqueued_no_expansion QHeap api cur cur depth Hall))
      as (H1 & H2 & H3 & H4); [intros _; symmetry; exact Hlen |].
    cbv zeta. split; [exact H1 |]. split; [exact H2 |]. split; [exact H3 |].
    split; [exact H4 |].
    intros s' Hs'. simpl in Hs'. injection Hs' as <-. simpl.
    rewrite (enqueued_no_expansion QHeap api cur cur depth Hall). reflexivity. }
  rewrite <- Hscored in *. clear Hscored sc0 scored'.
  (* the neighbours scored, sorted and cut *)
  set (sorted := sort_desc scored) in *.
  set (k := Z.to_nat max_branch).
  rewrite (slice_to_nonneg max_branch sorted Hbranch) in *. fold k in Htr |- *.
  assert (Hnd_iter : NoDup (set_iter env neighbors)).
  { rewrite (set_iter_perm env neighbors). apply NoDup_elements. }
  assert (Hin_sorted : ∀ item, item ∈ sorted ↔
            item.1 = title_score env item.2 target ∧ item.2 ∈ unvisited).
  { intros item. unfold sorted. rewrite sort_desc_perm. unfold scored.
    rewrite elem_of_score_unvisited. unfold unvisited.
    rewrite (set_iter_perm env neighbors), elem_of_elements, elem_of_difference.
    reflexivity. }
  assert (Hnd_sorted : NoDup (map snd sorted)).
  { unfold sorted. rewrite sort_desc_perm. apply score_unvisited_nodup, Hnd_iter. }
  assert (Hnd_top : NoDup (map snd (take k sorted))).
  { rewrite <- (take_drop k sorted), map_app in Hnd_sorted.
    apply NoDup_app in Hnd_sorted. tauto. }
  assert (Hfresh : fresh_scored (bf_visited s) (take k sorted) = take k sorted).
  { apply fresh_scored_all; [exact Hnd_top |].
    intros item Hitem. apply elem_of_take in Hitem as (i & Hi & _).
    apply list_elem_of_lookup_2, Hin_sorted in Hi. destruct Hi as [_ Hi].
    apply elem_of_difference in Hi. apply Hi. }
  rewrite Hfresh in *.
  exists (reverse (map (fun n => EvEnqueue QHeap n (depth + 1)) (map snd (take k sorted)))
            ++ api ++ [EvGetLinks cur; EvDequeue QHeap cur depth])%list.
  split.
  { simpl. rewrite Htr, Hapi, map_map, <- !app_assoc. reflexivity. }
  rewrite (enqueued_expansion QHeap (depth + 1) _ api cur cur depth Hall).
  cbv zeta.
  assert (Hpushed : ∀ n, n ∈ reverse (map snd (take k sorted)) ↔
                         ∃ item, item ∈ take k sorted ∧ item.2 = n).
  { intros n. rewrite elem_of_reverse, elem_of_map. split.
    - intros (item & -> & H). eauto.
    - intros (item & H & <-). eauto. }
  split; [| split; [| split; [| split]]].
  - rewrite Hex, length_reverse, length_map, length_take.
    assert (length sorted = size unvisited) as ->.
    { unfold sorted. rewrite sort_desc_perm. exact Hlen. }
    unfold k. lia.
  - rewrite reverse_Permutation. exact Hnd_top.
  - intros n (item & Hitem & <-)%Hpushed.
    apply elem_of_take in Hitem as (i & Hi & _).
    apply list_elem_of_lookup_2, Hin_sorted in Hi. apply Hi.
  - intros n m (item & Hitem & <-)%Hpushed Hm Hnot.
    assert ((title_score env m target, m) ∈ sorted) as Hm'
      by (apply Hin_sorted; split; [reflexivity | exact Hm]).
    rewrite <- (take_drop k sorted) in Hm'. apply elem_of_app in Hm' as [Hm' | Hm'].
    { exfalso. apply Hnot, Hpushed. eauto. }
    pose proof (sort_desc_sorted scored (score_unvisited_num _ _ _ _)) as Hs.
    fold sorted in Hs.
    rewrite <- (take_drop k sorted) in Hs.
    pose proof (StronglySorted_app_1_elem_of _ _ _ _ _ Hs Hitem Hm') as Hle.
    unfold by_score_desc in Hle. simpl in Hle.
    assert (item.1 = title_score env item.2 target) as <-; [| exact Hle].
    apply elem_of_take in Hitem as (i & Hi & _).
    apply list_elem_of_lookup_2, Hin_sorted in Hi. apply Hi.
  - intros s' Hs'. simpl in Hs'. injection Hs' as <-.
    destruct scored; simpl; apply push_entries_nodes.
Qed.

(** ** Best-first search: the score and the entry popped *)

Lemma token_bonus_iter (cand : PyUni.ustr) (tokens : list PyUni.ustr) (b : float) :
  fold_left (fun token_bonus tkn =>
               if PyUni.contains tkn cand then (token_bonus + 0.25)%float else token_bonus)
            tokens b
  = Nat.iter (length (List.filter (fun t => PyUni.contains t cand) tokens))
             (fun bonus => (bonus + 0.25)%float) b.
Proof.
  revert b. induction tokens as [| t tokens IH]; intros b; simpl; [reflexivity |].
  rewrite IH. destruct (PyUni.contains t cand); [| reflexivity].
  simpl length. rewrite Nat.iter_succ_r. reflexivity.
Qed.

Lemma filter_filter_and {A} (f g : A → bool) (l : list A) :
  List.filter g (List.filter f l) = List.filter (fun x => f x && g x) l.
Proof.
  induction l as [| x l IH]; simpl; [reflexivity |].
  destruct (f x); simpl; [destruct (g x) |]; rewrite IH; reflexivity.
Qed.

Lemma title_score_claimed env candidate_title target_title :
  title_score env candidate_title target_title
    = claimed_score env candidate_title target_title.
Proof.
  unfold title_score, claimed_score, quarter_per_token.
  rewrite token_bonus_iter, filter_filter_and. reflexivity.
Qed.

(** The least of two entries has the least negated score. *)
Lemma entry_ltb_score a b :
  fnum (h_neg_score a) → fnum (h_neg_score b) →
  (h_neg_score (if entry_ltb a b then a else b)
   <=? h_neg_score (if entry_ltb a b then b else a))%float = true.
Proof.
  intros Ha Hb. unfold entry_ltb.
  destruct (h_neg_score a =? h_neg_score b)%float eqn:Heq.
  - destruct (match entry_rest_compare a b with Lt => true | _ => false end).
    + apply feqb_leb, Heq.
    + apply feqb_leb, feqb_sym, Heq.
  - destruct (h_neg_score a <? h_neg_score b)%float eqn:Hlt.
    + apply fltb_leb, Hlt.
    + apply fltb_false; assumption.
Qed.

Lemma pop_least_perm x l : let '(m, rest) := pop_least x l in x :: l ≡ₚ m :: rest.
Proof.
  revert x. induction l as [| y l IH]; intros x; simpl; [reflexivity |].
  specialize (IH y). destruct (pop_least y l) as [m rest].
  destruct (entry_ltb m x); [| reflexivity]. rewrite IH. apply Permutation_swap.
Qed.

Lemma heappop_perm h top heap : heappop h = Some (top, heap) → h ≡ₚ top :: heap.
Proof.
  destruct h as [| x l]; [discriminate |]. simpl. intros [= H].
  pose proof (pop_least_perm x l) as Hp. rewrite H in Hp. exact Hp.
Qed.

Lemma pop_least_spec x l :
  Forall (fun e => fnum (h_neg_score e)) (x :: l) →
  let '(m, rest) := pop_least x l in
  x :: l ≡ₚ m :: rest ∧
  ∀ e, e ∈ x :: l → (h_neg_score m <=? h_neg_score e)%float = true.
Proof.
  revert x. induction l as [| y l IH]; intros x Hnum; simpl.
  - apply Forall_cons in Hnum as [Hx _].
    split; [reflexivity |]. intros e ->%list_elem_of_singleton. apply fleb_refl, Hx.
  - apply Forall_cons in Hnum as [Hx Hnum].
    specialize (IH y Hnum). destruct (pop_least y l) as [m rest]. destruct IH as [Hp Hmin].
    assert (fnum (h_neg_score m)) as Hm.
    { eapply (proj1 (Forall_forall _ _) Hnum). rewrite Hp. left. }
    pose proof (entry_ltb_score m x Hm Hx) as Hmx.
    destruct (entry_ltb m x).
    + split.
      * rewrite Hp. apply Permutation_swap.
      * intros e [-> | He]%elem_of_cons; [exact Hmx | apply Hmin, He].
    + split; [reflexivity |]. intros e [-> | He]%elem_of_cons; [apply fleb_refl, Hx |].
      eapply fleb_trans; [exact Hmx | apply Hmin, He].
Qed.

Lemma push_entries_scored depth path items : ∀ heap uid e,
  e ∈ (push_entries depth path items heap uid).1 →
  e ∈ heap ∨ ∃ item, item ∈ items ∧ h_neg_score e = (- item.1)%float ∧ h_node e = item.2.
Proof.
  induction items as [| item items IH]; intros heap uid e He; simpl in He; [by left |].
  apply IH in He as [He | (it & Hit & Hs)].
  - apply elem_of_cons in He as [-> | He]; [| by left].
    right. exists item. split; [left | split; reflexivity].
  - right. exists it. split; [right; exact Hit | exact Hs].
Qed.

Lemma fresh_scored_subset visited items it : it ∈ fresh_scored visited items → it ∈ items.
Proof.
  revert visited. induction items as [| i items IH]; intros visited Hit; simpl in Hit.
  - by apply elem_of_nil in Hit.
  - destruct (bool_decide (i.2 ∈ visited)).
    + right. eapply IH, Hit.
    + apply elem_of_cons in Hit as [-> | Hit]; [left | right; eapply IH, Hit].
Qed.

Lemma iterations_inv {S A} (step : S → M (StepResult S A)) (I : S → Prop) :
  (∀ s c s' c', I s → step s c = (Ret (Continue s'), c') → I s') →
  ∀ n s0 c0 s c, I s0 → iterations step n s0 c0 = Some (s, c) → I s.
Proof.
  intros Hstep. induction n as [| n IH]; intros s0 c0 s c H0 Hit; simpl in Hit.
  - injection Hit as <- _. exact H0.
  - destruct (step s0 c0) as [[[s' | a] | e |] c'] eqn:Hs; try discriminate.
    eapply IH; [| exact Hit]. eapply Hstep; eassumption.
Qed.

Section Popped.

Context (env : Env) (target : string) (max_depth max_visited max_branch : Z).

(** Every iteration leaves a heap whose entries carry the scores of their
    nodes. *)
Lemma best_step_scored s c s' c' :
  heap_scored env target s →
  best_step env target max_depth max_visited max_branch s c = (Ret (Continue s'), c') →
  heap_scored env target s'.
Proof.
  intros Hscored Hstep.
  destruct (heappop (bf_heap s)) as [[top heap] |] eqn:Hpop.
  2: { unfold best_step in Hstep. rewrite Hpop in Hstep. discriminate. }
  pose proof (heappop_perm _ _ _ Hpop) as Hperm.
  assert (Hheap : ∀ e, e ∈ heap →
                       h_neg_score e = (- title_score env (h_node e) target)%float).
  { intros e He. apply Hscored. rewrite Hperm. right. exact He. }
  pose proof (best_step_run env target max_depth max_visited max_branch s top heap c Hpop)
    as Hrun.
  cbv zeta in Hrun. rewrite Hstep in Hrun.
  destruct (max_visited <? bf_visited_count s + 1); [discriminate |].
  destruct (max_depth <=? h_depth top).
  { injection Hrun as -> _. exact Hheap. }
  destruct (bool_decide _) in Hrun; destruct Hrun as (c2 & [= -> _] & _).
  intros e He.
  destruct (score_unvisited _ _ _ _) as [| sc0 scored'] eqn:Hsc; [apply Hheap, He |].
  rewrite <- Hsc in He. simpl in He.
  apply push_entries_scored in He as [He | (item & Hitem & Hs & Hn)]; [apply Hheap, He |].
  rewrite Hs, Hn. f_equal.
  apply fresh_scored_subset in Hitem. unfold PyStr.slice_to in Hitem.
  assert (item ∈ score_unvisited env target (bf_visited s)
                    (set_iter env
                       match (get_links env (h_node top)
                                (add_event (EvDequeue QHeap (h_node top) (h_depth top)) c)).1
                       with
                       | Ret n => n
                       | _ => ∅
                       end)) as Hin.
  { destruct (max_branch <? 0);
      apply elem_of_take in Hitem as (i & Hi & _);
      apply list_elem_of_lookup_2 in Hi; rewrite sort_desc_perm in Hi; exact Hi. }
  apply elem_of_score_unvisited in Hin. apply Hin.
Qed.

Lemma best_initial_scored start : heap_scored env target (best_initial env start target).
Proof. intros e ->%list_elem_of_singleton. reflexivity. Qed.

(** The events of one iteration on a heap that is not empty: the dequeue
    of the entry popped, then the fetch call when the guards let the node
    expand, then requests and enqueues only. *)
Lemma best_step_events s c top heap :
  heappop (bf_heap s) = Some (top, heap) →
  let expands :=
    ((bf_visited_count s + 1 <=? max_visited) && (h_depth top <? max_depth))%bool in
  ∃ rest,
    trace (best_step env target max_depth max_visited max_branch s c).2 =
      (rest ++ (if expands then [EvGetLinks (h_node top)] else [])
            ++ EvDequeue QHeap (h_node top) (h_depth top) :: trace c)%list ∧
    forallb (fun e => negb (is_dequeue_event e || is_fetch_call e)) rest = true.
Proof.
  intros Hpop expands.
  pose proof (best_step_run env target max_depth max_visited max_branch s top heap c Hpop)
    as Hrun.
  cbv zeta in Hrun. subst expands.
  rewrite (Z.leb_antisym max_visited), (Z.ltb_antisym max_depth).
  destruct (max_visited <? bf_visited_count s + 1).
  { rewrite Hrun. exists []. split; reflexivity. }
  destruct (max_depth <=? h_depth top).
  { rewrite Hrun. exists []. split; reflexivity. }
  destruct (get_links_events env (h_node top)
              (add_event (EvDequeue QHeap (h_node top) (h_depth top)) c))
    as (api & Hapi & Hall).
  simpl negb. simpl andb.
  destruct (bool_decide _) in Hrun.
  - destruct Hrun as (c' & -> & Htr & _). simpl. rewrite Htr, Hapi.
    exists api. split; [reflexivity | apply api_events_plain, Hall].
  - destruct Hrun as (c' & -> & Htr & _). simpl. rewrite Htr, Hapi.
    eexists. rewrite app_assoc. split; [reflexivity |].
    rewrite forallb_app, (api_events_plain _ Hall), andb_true_r.
    destruct (score_unvisited _ _ _ _); [reflexivity |].
    rewrite <- (map_map snd (fun n => EvEnqueue QHeap n (h_depth top + 1))).
    apply enqueue_events_plain.
Qed.

End Popped.

(** C5. The score of a candidate title against a target title is the
    similarity ratio of the two titles in lower case, plus a quarter for each
    whitespace-separated token of the target in lower case that has more than
    two characters and occurs in the candidate in lower case. After any
    number of iterations of the best-first loop, every entry of the heap
    carries that score of its node, negated; the entry that the next
    iteration pops is one whose node has the highest score of the heap; that
    entry is dequeued, and its node is the one expanded: its links are
    fetched when, and only when, the visited cap and the depth allow it, and
    nothing else is dequeued or fetched in the iteration. *)
Theorem best_first_follows_the_score
    (env : Env) (start target : string) (max_depth max_visited max_branch : Z)
    (c0 : Crawler) (n : nat) (s : BestState) (c : Crawler)
    (top : HeapEntry) (heap : list HeapEntry)
    (Hiter : iterations (best_step env target max_depth max_visited max_branch) n
               (best_initial env start target) c0 = Some (s, c))
    (Hpop : heappop (bf_heap s) = Some (top, heap)) :
  (∀ candidate_title target_title,
     title_score env candidate_title target_title
       = claimed_score env candidate_title target_title) ∧
  (∀ e, e ∈ bf_heap s → h_neg_score e = (- claimed_score env (h_node e) target)%float) ∧
  bf_heap s ≡ₚ top :: heap ∧
  (∀ e, e ∈ bf_heap s →
        (claimed_score env (h_node e) target
         <=? claimed_score env (h_node top) target)%float = true) ∧
  let expands :=
    ((bf_visited_count s + 1 <=? max_visited) && (h_depth top <? max_depth))%bool in
  ∃ rest,
    trace (best_step env target max_depth max_visited max_branch s c).2 =
      (rest ++ (if expands then [EvGetLinks (h_node top)] else [])
            ++ EvDequeue QHeap (h_node top) (h_depth top) :: trace c)%list ∧
    forallb (fun e => negb (is_dequeue_event e || is_fetch_call e)) rest = true.
Proof.
  assert (Hscored : heap_scored env target s).
  { eapply (iterations_inv _ (heap_scored env target)); [| | exact Hiter].
    - intros s1 c1 s2 c2. apply best_step_scored.
    - apply best_initial_scored. }
  assert (Hnum : Forall (fun e => fnum (h_neg_score e)) (bf_heap s)).
  { apply Forall_forall. intros e He. rewrite (Hscored e He).
    apply fopp_num, title_score_num. }
  assert (Hspec : bf_heap s ≡ₚ top :: heap ∧
                  ∀ e, e ∈ bf_heap s → (h_neg_score top <=? h_neg_score e)%float = true).
  { unfold heappop in Hpop. destruct (bf_heap s) as [| x l]; [discriminate |].
    pose proof (pop_least_spec x l Hnum) as H. injection Hpop as Hpop.
    rewrite Hpop in H. exact H. }
  destruct Hspec as [Hperm Hmin].
  split; [apply title_score_claimed |].
  split; [intros e He; rewrite <- title_score_claimed; apply Hscored, He |].
  split; [exact Hperm |]. split.
  - intros e He. pose proof (Hmin e He) as H.
    rewrite (Hscored e He), (Hscored top) in H by (rewrite Hperm; left).
    apply (proj1 (fleb_opp _ _)) in H. rewrite <- !title_score_claimed. exact H.
  - apply (best_step_events env target max_depth max_visited max_branch s c top heap Hpop).
Qed.

(** ** Examples *)

Lemma graph_env_canonical_fixed g : canonical_fixed (graph_env g).
Proof. intros t n H. injection H as <-. reflexivity. Qed.

Lemma new_crawler_coherent env : coherent env new_crawler.
Proof. repeat split; intros ? ? H; discriminate. Qed.

Lemma bfs_returns_shortest_path_witness :
  ∃ start target,
    (resolve_title chain_env "A" new_crawler).1 = Ret (Some start) ∧
    (resolve_title chain_env "T" (resolve_title chain_env "A" new_crawler).2).1
      = Ret (Some target) ∧
    path_between (links_to chain_env new_crawler) start target ["A"; "B"; "T"] ∧
    ∀ p, path_between (links_to chain_env new_crawler) start target p →
         (length ["A"; "B"; "T"] ≤ length p)%nat.
Proof.
  apply (bfs_returns_shortest_path chain_env "A" "T" 6 100 new_crawler
           (find_path_bfs chain_env "A" "T" 6 100 new_crawler).2).
  - apply graph_env_canonical_fixed.
  - apply new_crawler_coherent.
  - vm_compute. reflexivity.
Defined.

(** C2. From [A] to [T] in the wiki where [A] links to [B] and [B] to [T],
    the forward frontier meets the backward one at [T] while [B] is
    expanded. [find_path_bidi] returns [[A; T]]: the path starts at the
    start, ends at the target and passes through the meeting node, but [A]
    does not link to [T]: the forward parent chain of the expanded node is
    not on the path. Breadth-first search returns [[A; B; T]]. *)
Theorem bidi_path_skips_forward_parents :
  (find_path_bidi chain_env "A" "T" 6 100 new_crawler).1 = Ret (Some ["A"; "T"]) ∧
  ¬ links_to chain_env new_crawler "A" "T" ∧
  ¬ walk (links_to chain_env new_crawler) ["A"; "T"] ∧
  (find_path_bfs chain_env "A" "T" 6 100 new_crawler).1 = Ret (Some ["A"; "B"; "T"]).
Proof.
  assert (Hlinks : (get_links chain_env "A" new_crawler).1 = Ret {["B"]})
    by (vm_compute; reflexivity).
  assert (Hno : ¬ links_to chain_env new_crawler "A" "T").
  { intros (s & Hs & Hin). rewrite Hlinks in Hs. injection Hs as <-.
    apply elem_of_singleton in Hin. discriminate. }
  split; [vm_compute; reflexivity |]. split; [exact Hno |].
  split; [intros [H _]; exact (Hno H) |]. vm_compute. reflexivity.
Qed.

(** C3: a dequeued node is not always expanded. From [A] to [T] with
    [max_depth = 1], in the wiki where [A] links to [B] and [B] to [T]: the
    second iteration finds one node in
    each queue, so it works on the forward queue and dequeues [B]; [B] is at
    the depth cap and its links are not fetched. In the whole run two nodes
    leave the forward queue and [get_links] is called once. *)
Lemma bidi_dequeues_without_fetching :
  let first := bidi_step chain_env "A" "T" 1 100 (bidi_entry "A" "T") new_crawler in
  ∃ s1,
    first.1 = Ret (Continue s1) ∧
    q_fwd s1 = [("B", 1)] ∧ q_bwd s1 = [("T", 0)] ∧
    (length (q_fwd s1) <=? length (q_bwd s1))%nat = true ∧
    trace (bidi_step chain_env "A" "T" 1 100 s1 first.2).2
      = EvDequeue QFwd "B" 1 :: trace first.2 ∧
    dequeued QFwd (trace (find_path_bidi chain_env "A" "T" 1 100 new_crawler).2)
      = ["B"; "A"] ∧
    expanded (trace (find_path_bidi chain_env "A" "T" 1 100 new_crawler).2) = ["A"].
Proof.
  eexists. split; [vm_compute; reflexivity |].
  repeat split; vm_compute; reflexivity.
Qed.

Lemma bidi_works_on_smaller_frontier_witness :
  ∃ rest,
    trace (bidi_step chain_env "A" "T" 1 100 (bidi_entry "A" "T") new_crawler).2 =
      (rest ++ [EvGetLinks "A"] ++ EvDequeue QFwd "A" 0 :: trace new_crawler)%list ∧
    forallb (fun e => negb (is_dequeue_event e || is_fetch_call e)) rest = true.
Proof.
  apply (bidi_works_on_smaller_frontier chain_env "A" "T" 1 100 (bidi_entry "A" "T")
           new_crawler "A" "T" 0 0 [] []); reflexivity.
Defined.

(** C4: a negative cap is not a bound. With [max_branch = -1], expanding [A],
    whose two neighbours are unvisited, pushes one of them: the slice
    [scored[:-1]] drops the last scored neighbour only. *)
Lemma negative_branch_cap_still_pushes :
  let after := best_step fork_env "T" 6 100 (-1) (best_initial fork_env "A" "T")
                 new_crawler in
  (get_links fork_env "A" new_crawler).1 = Ret {["B"; "C"]} ∧
  enqueued QHeap (trace after.2) = ["C"] ∧
  ¬ (Z.of_nat (length (enqueued QHeap (trace after.2))) ≤ -1) ∧
  enqueued QHeap (trace (find_path_best_first fork_env "A" "T" 6 100 (-1) new_crawler).2)
    = ["C"; "A"].
Proof.
  split; [vm_compute; reflexivity |]. split; [vm_compute; reflexivity |].
  split; [| vm_compute; reflexivity].
  vm_compute. intros H. apply H. reflexivity.
Qed.

Lemma best_first_pushes_top_neighbors_witness :
  (let s := best_initial turing_env "A" "Alan Turing" in
   let c1 := add_event (EvDequeue QHeap "A" 0) new_crawler in
   let neighbors := match (get_links turing_env "A" c1).1 with Ret n => n | _ => ∅ end in
   let unvisited := neighbors ∖ bf_visited s in
   ∃ new,
     trace (best_step turing_env "Alan Turing" 6 100 2 s new_crawler).2
       = (new ++ trace new_crawler)%list ∧
     let pushed := enqueued QHeap new in
     Z.of_nat (length pushed) = Z.min 2 (Z.of_nat (size unvisited)) ∧
     NoDup pushed ∧
     (∀ n, n ∈ pushed → n ∈ unvisited) ∧
     (∀ n m, n ∈ pushed → m ∈ unvisited → m ∉ pushed →
             (title_score turing_env m "Alan Turing"
              <=? title_score turing_env n "Alan Turing")%float = true) ∧
     (∀ s', (best_step turing_env "Alan Turing" 6 100 2 s new_crawler).1 = Ret (Continue s') →
            map h_node (bf_heap s') = (pushed ++ map h_node [])%list)) ∧
  (get_links turing_env "A" new_crawler).1
    = Ret {["Turing machine"; "B"; "Alan Turing Institute"]} ∧
  enqueued QHeap
    (trace (best_step turing_env "Alan Turing" 6 100 2
              (best_initial turing_env "A" "Alan Turing") new_crawler).2)
    = ["Turing machine"; "Alan Turing Institute"] ∧
  title_score turing_env "Alan Turing Institute" "Alan Turing" = 0.5%float ∧
  title_score turing_env "Turing machine" "Alan Turing" = 0.25%float ∧
  title_score turing_env "B" "Alan Turing" = 0%float.
Proof.
  split.
  - apply (best_first_pushes_top_neighbors turing_env "Alan Turing" 6 100 2
             (best_initial turing_env "A" "Alan Turing") new_crawler
             {| h_neg_score := (- title_score turing_env "A" "Alan Turing")%float;
                h_depth := 0; h_uid := 0; h_node := "A"; h_path := ["A"] |} []).
    + reflexivity.
    + lia.
  - repeat split; vm_compute; reflexivity.
Defined.

Lemma best_first_follows_the_score_witness :
  ∃ s c top heap,
    iterations (best_step turing_env "Alan Turing" 6 100 50) 1
      (best_initial turing_env "A" "Alan Turing") new_crawler = Some (s, c) ∧
    heappop (bf_heap s) = Some (top, heap) ∧
    map h_node (bf_heap s) = ["B"; "Turing machine"; "Alan Turing Institute"] ∧
    h_node top = "Alan Turing Institute" ∧
    claimed_score turing_env "Alan Turing Institute" "Alan Turing" = 0.5%float ∧
    claimed_score turing_env "Turing machine" "Alan Turing" = 0.25%float ∧
    claimed_score turing_env "B" "Alan Turing" = 0%float ∧
    (∀ e, e ∈ bf_heap s →
          (claimed_score turing_env (h_node e) "Alan Turing"
           <=? claimed_score turing_env (h_node top) "Alan Turing")%float = true) ∧
    ∃ rest,
      trace (best_step turing_env "Alan Turing" 6 100 50 s c).2 =
        (rest ++ [EvGetLinks "Alan Turing Institute"]
              ++ EvDequeue QHeap "Alan Turing Institute" 1 :: trace c)%list ∧
      forallb (fun e => negb (is_dequeue_event e || is_fetch_call e)) rest = true.
Proof.
  do 4 eexists.
  split; [vm_compute; reflexivity |]. split; [vm_compute; reflexivity |].
  split; [vm_compute; reflexivity |]. split; [reflexivity |].
  split; [vm_compute; reflexivity |]. split; [vm_compute; reflexivity |].
  split; [vm_compute; reflexivity |].
  match goal with
  | |- (∀ e, e ∈ bf_heap ?s → _) ∧ (∃ rest, trace (best_step _ _ _ _ _ _ ?c).2 = _ ∧ _) =>
      destruct (best_first_follows_the_score turing_env "A" "Alan Turing" 6 100 50
                  new_crawler 1 s c _ _ eq_refl eq_refl) as (_ & _ & _ & Hmax & Hev)
  end.
  split; [exact Hmax | exact Hev].
Defined.

(** C7: a cache hit may still cost a request. Once [get_links] has fetched the links of
    [A], a call with the redirect [a], which resolves to [A] and was not
    resolved before, returns the cached set and sends no links request, but
    it sends a title-resolution request. *)
Lemma alias_lookup_sends_a_request :
  let c1 := (get_links alias_env "A" new_crawler).2 in
  (resolve_title alias_env "A" new_crawler).1 = Ret (Some "A") ∧
  (resolve_title alias_env "a" c1).1 = Ret (Some "A") ∧
  (get_links alias_env "A" new_crawler).1 = Ret {["B"]} ∧
  (get_links alias_env "a" c1).1 = Ret {["B"]} ∧
  trace (get_links alias_env "a" c1).2
    = EvApi (ReqInfo "a") :: EvGetLinks "a" :: trace c1.
Proof. repeat split; vm_compute; reflexivity. Qed.

Lemma link_sets_are_memoised_witness :
  let c1 := (get_links alias_env "A" new_crawler).2 in
  let c2 := run_ops alias_env [OpFindPathBfs "A" "B" 6 100; OpGetLinksHere "B"] c1 in
  cache_of Outgoing c1 !! "A" = Some {["B"]} ∧
  (∃ c3 new,
     fetcher alias_env Outgoing "a" c2 = (Ret {["B"]}, c3) ∧
     trace c3 = (new ++ trace c2)%list ∧
     forallb (fun e => negb (is_link_request e)) new = true ∧
     (is_Some (title_cache c2 !! "a") →
      forallb (fun e => negb (is_api_event e)) new = true)) ∧
  (∀ op c, caches_kept c (run_op alias_env op c)).
Proof.
  apply (link_sets_are_memoised alias_env Outgoing "A" "a" "A" {["B"]} new_crawler
           (get_links alias_env "A" new_crawler).2
           [OpFindPathBfs "A" "B" 6 100; OpGetLinksHere "B"]).
  - vm_compute. reflexivity.
  - discriminate.
  - vm_compute. reflexivity.
  - vm_compute. reflexivity.
Defined.

Lemma cap_and_failed_fetches_witness :
  Forall (fun search : M (option (list string)) =>
            (search new_crawler).1 = Raise (RuntimeError "Visited cap exceeded; aborting"))
         (searches chain_env "A" "T" 6 1 50) ∧
  dequeued QBfs (trace (find_path_bfs chain_env "A" "T" 6 1 new_crawler).2) = ["B"; "A"] ∧
  (∃ c0 s1 c1,
     resolved flaky_env "A" "T" "A" "T" new_crawler c0 ∧
     iterations (bfs_step flaky_env "T" 6 100) 1 (bfs_initial "A") (bfs_loop_entry "A" c0)
       = Some (s1, c1) ∧
     bfs_q s1 = [("C", ["A"; "C"], 1); ("B", ["A"; "B"], 1)] ∧
     (get_links flaky_env "C" (add_event (EvDequeue QBfs "C" 1) c1)).1
       = Raise (RequestException "Read timed out.") ∧
     bfs_step flaky_env "T" 6 100 s1 c1 =
       (Ret (Continue {| bfs_q := [("B", ["A"; "B"], 1)]; bfs_visited := bfs_visited s1;
                         bfs_visited_count := bfs_visited_count s1 + 1 |}),
        (get_links flaky_env "C" (add_event (EvDequeue QBfs "C" 1) c1)).2)) ∧
  (∃ c0 s1 c1 top heap,
     resolved flaky_env "A" "T" "A" "T" new_crawler c0 ∧
     iterations (best_step flaky_env "T" 6 100 50) 1 (best_initial flaky_env "A" "T")
       (best_loop_entry "A" c0) = Some (s1, c1) ∧
     heappop (bf_heap s1) = Some (top, heap) ∧
     h_node top = "C" ∧ map h_node heap = ["B"] ∧
     (get_links flaky_env (h_node top)
        (add_event (EvDequeue QHeap (h_node top) (h_depth top)) c1)).1
       = Raise (RequestException "Read timed out.") ∧
     best_step flaky_env "T" 6 100 50 s1 c1 =
       (Ret (Continue {| bf_heap := heap; bf_visited := bf_visited s1;
                         bf_visited_count := bf_visited_count s1 + 1;
                         bf_uid_counter := bf_uid_counter s1 |}),
        (get_links flaky_env (h_node top)
           (add_event (EvDequeue QHeap (h_node top) (h_depth top)) c1)).2)) ∧
  (∃ c0 s1 c1,
     resolved flaky_env "A" "T" "A" "T" new_crawler c0 ∧
     iterations (bidi_step flaky_env "A" "T" 6 100) 1 (bidi_entry "A" "T")
       (bidi_loop_entry "A" "T" c0) = Some (s1, c1) ∧
     q_fwd s1 = [("C", 1); ("B", 1)] ∧ q_bwd s1 = [("T", 0)] ∧
     (get_linkshere flaky_env "T" (add_event (EvDequeue QBwd "T" 0) c1)).1
       = Raise (WikipediaAPIError "Bad status 503: Service Unavailable") ∧
     bidi_step flaky_env "A" "T" 6 100 s1 c1 =
       (Ret (Continue
               {| parent_fwd := parent_fwd s1; parent_bwd := parent_bwd s1;
                  q_fwd := q_fwd s1; q_bwd := [];
                  visited_fwd := visited_fwd s1; visited_bwd := visited_bwd s1;
                  bidi_visited_count := bidi_visited_count s1 + 1 |}),
        (get_linkshere flaky_env "T" (add_event (EvDequeue QBwd "T" 0) c1)).2)) ∧
  (find_path_bfs flaky_env "A" "T" 6 100 new_crawler).1 = Ret (Some ["A"; "B"; "T"]) ∧
  (find_path_best_first flaky_env "A" "T" 6 100 50 new_crawler).1
    = Ret (Some ["A"; "B"; "T"]) ∧
  (find_path_bidi flaky_env "A" "T" 6 100 new_crawler).1 = Ret None.
Proof.
  destruct (cap_and_failed_fetches chain_env "A" "T" 6 1 50 new_crawler)
    as (_ & Hcap & _).
  destruct (cap_and_failed_fetches flaky_env "A" "T" 6 100 50 new_crawler)
    as (_ & _ & Hbfs & Hbest & Hbidi & _).
  split; [| split; [| split; [| split; [| split]]]].
  - edestruct (Hcap "A" "T") as (Cbfs & Cbest & Cbidi).
    { eexists. split; vm_compute; reflexivity. }
    { discriminate. }
    unfold searches.
    apply Forall_cons_2; [| apply Forall_cons_2; [| apply Forall_cons_2; [| apply Forall_nil_2]]].
    + edestruct (Cbfs 1%nat) as [_ Hraise]; [vm_compute; reflexivity |].
      erewrite Hraise; [reflexivity | vm_compute; reflexivity | lia].
    + edestruct (Cbest 1%nat) as [_ Hraise]; [vm_compute; reflexivity |].
      erewrite Hraise; [reflexivity | vm_compute; reflexivity | lia].
    + edestruct (Cbidi 1%nat) as [_ Hraise]; [vm_compute; reflexivity |].
      erewrite Hraise; [reflexivity | vm_compute; reflexivity | lia].
  - vm_compute. reflexivity.
  - do 3 eexists.
    split; [eexists; split; vm_compute; reflexivity |].
    split; [vm_compute; reflexivity |].
    split; [vm_compute; reflexivity |].
    split; [vm_compute; reflexivity |].
    eapply Hbfs; [reflexivity | vm_compute; discriminate | lia | vm_compute; reflexivity].
  - do 5 eexists.
    split; [eexists; split; vm_compute; reflexivity |].
    split; [vm_compute; reflexivity |].
    split; [vm_compute; reflexivity |].
    split; [reflexivity |]. split; [reflexivity |].
    split; [vm_compute; reflexivity |].
    eapply Hbest; [vm_compute; reflexivity | vm_compute; discriminate | vm_compute; reflexivity
                  | vm_compute; reflexivity].
  - do 3 eexists.
    split; [eexists; split; vm_compute; reflexivity |].
    split; [vm_compute; reflexivity |].
    split; [vm_compute; reflexivity |]. split; [vm_compute; reflexivity |].
    split; [vm_compute; reflexivity |].
    match goal with
    | |- bidi_step _ _ _ _ _ ?s ?c = _ =>
        refine (Hbidi "A" "T" s c "C" 1 [("B", 1)] "T" 0 []
                  (WikipediaAPIError "Bad status 503: Service Unavailable") _ _ _ _ _)
    end;
      [reflexivity | reflexivity | vm_compute; discriminate | vm_compute; reflexivity
      | vm_compute; reflexivity].
  - repeat split; vm_compute; reflexivity.
Defined.

Lemma same_page_returns_singleton_witness :
  Forall
    (fun search : M (option (list string)) =>
       (search new_crawler).1 = Ret (Some ["A"]) ∧
       ∃ new, trace (search new_crawler).2 = (new ++ trace new_crawler)%list ∧
              forallb is_info_request new = true ∧
              forallb (fun e => negb (is_fetch_call e || is_link_request e || is_queue_event e))
                      new = true)
    (searches alias_env "a" "A" 6 100 50).
Proof.
  apply Forall_forall.
  apply (same_page_returns_singleton alias_env "a" "A" "A" 6 100 50 new_crawler
           (resolve_title alias_env "a" new_crawler).2
           (resolve_title alias_env "A" (resolve_title alias_env "a" new_crawler).2).2).
  - vm_compute. reflexivity.
  - vm_compute. reflexivity.
Defined.

Lemma unknown_page_raises_value_error_witness :
  (∀ search, search ∈ searches gap_env "X" "A" 6 100 50 →
     (search new_crawler).1 = Raise (ValueError "Start page not found: X") ∧
     search_data_kept new_crawler (search new_crawler).2 ∧
     trace_grows is_info_request new_crawler (search new_crawler).2) ∧
  (∀ search, search ∈ searches gap_env "A" "X" 6 100 50 →
     (search new_crawler).1 = Raise (ValueError "Target page not found: X") ∧
     search_data_kept new_crawler (search new_crawler).2 ∧
     trace_grows is_info_request new_crawler (search new_crawler).2).
Proof.
  split.
  - destruct (unknown_page_raises_value_error gap_env "X" "A" 6 100 50 new_crawler)
      as [Hstart _].
    apply Hstart. vm_compute. reflexivity.
  - destruct (unknown_page_raises_value_error gap_env "A" "X" 6 100 50 new_crawler)
      as [_ Htarget].
    apply (Htarget "A" (resolve_title gap_env "A" new_crawler).2).
    + vm_compute. reflexivity.
    + vm_compute. reflexivity.
Defined.

(** * Further properties *)

(** ** What a fetch collects *)






(** A title resolution changes the title cache and the trace only. *)
Lemma resolve_title_link_caches env t c :
  link_cache (resolve_title env t c).2 = link_cache c ∧
  linkshere_cache (resolve_title env t c).2 = linkshere_cache c.
Proof.
  destruct (title_cache c !! t) as [n |] eqn:H.
  - rewrite (resolve_title_hit env t c n H). auto.
  - destruct (resolve_title_miss env t c H) as (c' & -> & H1 & H2 & _). auto.
Qed.



(** X2. When the title names no page, or resolves to the empty title,
    [get_links] and [get_linkshere] return the empty set, send no links
    request, and store nothing in the link caches. *)
Theorem unresolved_title_has_no_links
    (env : Env) (k : LinkKind) (t : string) (c : Crawler)
    (Hunresolved : (resolve_title env t c).1 = Ret None ∨
                   (resolve_title env t c).1 = Ret (Some EmptyString)) :
  let r := fetcher env k t c in
  r.1 = Ret ∅ ∧
  link_cache r.2 = link_cache c ∧ linkshere_cache r.2 = linkshere_cache c ∧
  ∃ info, trace r.2 = (info ++ fetch_call k t :: trace c)%list ∧
          forallb is_info_request info = true.
Proof.
  intros r. subst r.
  pose proof (resolve_title_link_caches env t (add_event (fetch_call k t) c)) as [Hl Hh].
  pose proof (resolve_title_trace env t (add_event (fetch_call k t) c)) as (info & Hinfo & Hall).
  assert (Hn : (resolve_title env t (add_event (fetch_call k t) c)).1 = Ret None ∨
               (resolve_title env t (add_event (fetch_call k t) c)).1 = Ret (Some EmptyString)).
  { rewrite (resolve_title_value env t _ c) by reflexivity. exact Hunresolved. }
  destruct k; simpl in *.
  - destruct (get_links_cases env t c) as (rt & c1 & Hr & Hcase).
    rewrite Hr in Hn, Hl, Hh, Hinfo. simpl in Hn, Hl, Hh, Hinfo.
    destruct Hn as [-> | ->]; simpl in Hcase; rewrite Hcase; simpl; eauto 10.
  - destruct (get_linkshere_cases env t c) as (rt & c1 & Hr & Hcase).
    rewrite Hr in Hn, Hl, Hh, Hinfo. simpl in Hn, Hl, Hh, Hinfo.
    destruct Hn as [-> | ->]; simpl in Hcase; rewrite Hcase; simpl; eauto 10.
Qed.

(** X3. A call of [resolve_title] that does not return a canonical title
    (the page is missing, the answer holds no page, or the request fails)
    sends one request and changes nothing else in the crawler: the failure
    is not cached, and the next call with the same title sends the request
    again, with the same outcome. *)
Theorem missing_title_is_not_cached
    (env : Env) (t : string) (c : Crawler)
    (Hfails : ∀ n, (resolve_title env t c).1 ≠ Ret (Some n)) :
  let c1 := add_event (EvApi (ReqInfo t)) c in
  resolve_title env t c = (resolve_pure env t, c1) ∧
  resolve_title env t c1 = (resolve_pure env t, add_event (EvApi (ReqInfo t)) c1).
Proof.
  intros c1.
  assert (Hmiss : title_cache c !! t = None).
  { destruct (title_cache c !! t) as [n |] eqn:H; [| reflexivity].
    exfalso. apply (Hfails n). rewrite (resolve_title_hit env t c n H). reflexivity. }
  assert (Hrun : ∀ c0, title_cache c0 !! t = None →
                       (∀ n, resolve_pure env t ≠ Ret (Some n)) →
                       resolve_title env t c0 =
                         (resolve_pure env t, add_event (EvApi (ReqInfo t)) c0)).
  { intros c0 H0 Hp. unfold resolve_title, resolve_pure, api_get_info, bind, gets, emit, modify
      in *. simpl. rewrite H0.
    destruct (api_info env t) as [[| page pages] | msg]; simpl; try reflexivity.
    destruct (pi_missing page); simpl; [reflexivity |].
    exfalso. eapply Hp. reflexivity. }
  assert (Hp : ∀ n, resolve_pure env t ≠ Ret (Some n)).
  { intros n E. apply (Hfails n).
    destruct (resolve_title_miss env t c Hmiss) as (c' & -> & _). exact E. }
  split; apply Hrun; auto.
Qed.

(** ** The title cache on the crawlers that operations reach *)

#[global] Instance preserves_preorder P : PreOrder (preserves P).
Proof.
  split.
  - intros c H. exact H.
  - intros c1 c2 c3 H1 H2 H. apply H2, H1, H.
Qed.

Lemma stable_closed_modify (f : Crawler → Crawler) :
  (∀ c, title_cache (f c) = title_cache c) → stable (preserves titles_closed) (modify f).
Proof. intros H c Hc t n. simpl. rewrite !H. apply Hc. Qed.

Lemma resolve_title_closed env t : stable (preserves titles_closed) (resolve_title env t).
Proof.
  intros c Hc. destruct (title_cache c !! t) as [n |] eqn:Ht.
  - rewrite (resolve_title_hit env t c n Ht). exact Hc.
  - destruct (resolve_title_miss env t c Ht) as (c' & -> & _ & _ & _ & _ & _ & Htc).
    simpl. intros t' n'. rewrite Htc.
    destruct (resolve_pure env t) as [[n |] | |]; try apply Hc.
    rewrite !lookup_insert. case_decide as E1.
    + intros [= <-]. rewrite decide_True by reflexivity. reflexivity.
    + case_decide as E2.
      * intros [= <-]. rewrite decide_True by reflexivity. reflexivity.
      * intros H. pose proof (Hc _ _ H) as Hn'.
        case_decide as E3; [congruence |]. case_decide as E4; [| exact Hn'].
        subst n'. congruence.
Qed.

Lemma fetch_all_closed mk add cont chain acc :
  stable (preserves titles_closed) (fetch_all mk add cont chain acc).
Proof.
  eapply stable_weaken; [| apply fetch_all_same].
  intros c c' (_ & _ & H) Hc t n. rewrite !H. apply Hc.
Qed.

Ltac closed_solve :=
  repeat first
    [ apply resolve_title_closed
    | apply fetch_all_closed
    | apply stable_closed_modify; intros ?; reflexivity
    | stable_step ].

Lemma run_op_closed env op : ∀ c, titles_closed c → titles_closed (run_op env op c).
Proof.
  assert (Hl : ∀ t, stable (preserves titles_closed) (get_links env t)).
  { intros t. unfold get_links, set_link_cache, emit. closed_solve. }
  assert (Hh : ∀ t, stable (preserves titles_closed) (get_linkshere env t)).
  { intros t. unfold get_linkshere, set_linkshere_cache, emit. closed_solve. }
  destruct op; simpl; intros c.
  - apply resolve_title_closed.
  - revert c. change (stable (preserves titles_closed) (random_page_title env namespace)).
    unfold random_page_title, emit. closed_solve.
  - revert c. change (stable (preserves titles_closed) (search_title env query limit)).
    unfold search_title, emit. closed_solve.
  - apply Hl.
  - apply Hh.
  - revert c.
    change (stable (preserves titles_closed)
              (find_path_bfs env start_title target_title max_depth max_visited)).
    unfold find_path_bfs, bfs_step, links_or_empty, record_edges, set_decision, bfs_enqueue,
      set_decision_info, set_crawl_graph, emit.
    repeat first [apply Hl | closed_solve].
  - revert c.
    change (stable (preserves titles_closed)
              (find_path_best_first env start_title target_title max_depth max_visited
                 max_branch)).
    unfold find_path_best_first, best_step, links_or_empty, record_edges, set_decision,
      best_enqueue, set_decision_info, set_crawl_graph, emit.
    repeat first [apply Hl | closed_solve].
  - revert c.
    change (stable (preserves titles_closed)
              (find_path_bidi env start_title target_title max_depth max_visited)).
    unfold find_path_bidi, bidi_step, links_or_empty, record_edges, set_decision,
      fwd_enqueue, bwd_enqueue, set_decision_if_absent, reconstruct_bidi_path,
      set_decision_info, set_crawl_graph, emit.
    repeat first [apply Hl | apply Hh | closed_solve].
Qed.

Lemma run_ops_closed env ops : ∀ c, titles_closed c → titles_closed (run_ops env ops c).
Proof.
  induction ops as [| op ops IH]; intros c Hc; simpl; [exact Hc |].
  apply IH, run_op_closed, Hc.
Qed.

(** X4. On a crawler that was created and used through its methods only:
    once [resolve_title] has returned the canonical title [n] for [t], the
    title cache holds [n] for both [t] and [n], and resolving either again
    returns [n] at once, with no request and no change to the crawler. *)
Theorem resolved_titles_hit_the_cache
    (env : Env) (ops : list CrawlerOp) (t n : string) (c1 : Crawler)
    (Hresolve : resolve_title env t (run_ops env ops new_crawler) = (Ret (Some n), c1)) :
  title_cache c1 !! t = Some n ∧ title_cache c1 !! n = Some n ∧
  resolve_title env t c1 = (Ret (Some n), c1) ∧
  resolve_title env n c1 = (Ret (Some n), c1).
Proof.
  assert (Hclosed : titles_closed c1).
  { pose proof (resolve_title_closed env t (run_ops env ops new_crawler)) as H.
    rewrite Hresolve in H. apply H, run_ops_closed.
    intros t' n' H'. simpl in H'. rewrite lookup_empty in H'. discriminate. }
  assert (Ht : title_cache c1 !! t = Some n).
  { destruct (title_cache (run_ops env ops new_crawler) !! t) as [m |] eqn:E.
    - rewrite (resolve_title_hit env _ _ _ E) in Hresolve. congruence.
    - destruct (resolve_title_miss env _ _ E) as (c' & Hrun & _ & _ & _ & _ & _ & Htc).
      rewrite Hresolve in Hrun. injection Hrun as Hr <-. rewrite Htc, <- Hr.
      rewrite lookup_insert. case_decide as E1; [congruence |].
      apply lookup_insert_eq. }
  pose proof (Hclosed _ _ Ht) as Hn.
  split; [exact Ht |]. split; [exact Hn |].
  split; apply resolve_title_hit; assumption.
Qed.

(** ** The caches hold what the endpoint answers *)

#[global] Instance coherent_growth_preorder env : PreOrder (coherent_growth env).
Proof.
  split.
  - intros c H. split; [exact H | reflexivity].
  - intros c1 c2 c3 H1 H2 H. destruct (H1 H) as [Hc2 Hs1]. destruct (H2 Hc2) as [Hc3 Hs2].
    split; [exact Hc3 | etrans; eassumption].
Qed.

Section Growth.

Context (env : Env).
Hypothesis Hfixed : canonical_fixed env.

Lemma get_linkshere_coherent t c :
  coherent env c →
  (get_linkshere env t c).1 = linkshere_pure env t ∧ coherent env (get_linkshere env t c).2.
Proof.
  intros Hc.
  destruct (get_linkshere_cases env t c) as (rt & c1 & Hr & Hcase).
  destruct (resolve_title_coherent env Hfixed t (add_event (EvGetLinksHere t) c)) as [Hv Hc1].
  { eapply coherent_same; [| exact Hc]. repeat split. }
  rewrite Hr in Hv, Hc1. simpl in Hv, Hc1. subst rt.
  unfold linkshere_pure, fetch_pure.
  destruct (resolve_pure env t) as [[n |] | e |]; try (rewrite Hcase; auto).
  destruct (String.eqb n EmptyString); [rewrite Hcase; auto |].
  destruct (linkshere_cache c1 !! n) as [s |] eqn:Hn.
  - rewrite Hcase. simpl. split; [| exact Hc1].
    destruct Hc1 as (_ & _ & Hh). symmetry. apply Hh, Hn.
  - simpl in Hcase.
    destruct (chain_result add_incoming (api_linkshere env n) ∅) as [s | e |] eqn:Hres;
      rewrite Hcase; simpl; (split; [reflexivity |]).
    + destruct Hc1 as (Ht & Hl & Hh). split; [exact Ht |]. split; [exact Hl |].
      simpl. intros n' s'. rewrite lookup_insert. case_decide as E.
      * intros [= <-]. subst n'. exact Hres.
      * apply Hh.
    + eapply coherent_same; [| exact Hc1]. repeat split.
    + eapply coherent_same; [| exact Hc1]. repeat split.
Qed.

Lemma stable_growth_modify (f : Crawler → Crawler) :
  (∀ c, link_cache (f c) = link_cache c) →
  (∀ c, linkshere_cache (f c) = linkshere_cache c) →
  (∀ c, title_cache (f c) = title_cache c) →
  stable (coherent_growth env) (modify f).
Proof.
  intros H1 H2 H3 c Hc. simpl. split; [| rewrite H3; reflexivity].
  eapply coherent_same; [| exact Hc]. repeat split; auto.
Qed.

Lemma resolve_title_growth t : stable (coherent_growth env) (resolve_title env t).
Proof.
  intros c Hc. split; [apply resolve_title_coherent; assumption |].
  destruct (title_cache c !! t) as [n |] eqn:Ht.
  - rewrite (resolve_title_hit env t c n Ht). reflexivity.
  - destruct (resolve_title_miss env t c Ht) as (c' & -> & _ & _ & _ & _ & _ & Htc).
    simpl. rewrite Htc.
    destruct (resolve_pure env t) as [[n |] | |] eqn:Hr; try reflexivity.
    apply map_subseteq_spec. intros t' n' H'.
    rewrite !lookup_insert. case_decide as E1.
    + subst t'. destruct Hc as (Hc & _). apply Hc in H'.
      apply Hfixed in Hr. congruence.
    + case_decide as E2; [congruence | exact H'].
Qed.

Lemma title_cache_after_get_links t c :
  title_cache (get_links env t c).2 =
    title_cache (resolve_title env t (add_event (EvGetLinks t) c)).2.
Proof.
  destruct (get_links_cases env t c) as (rt & c1 & Hr & Hcase). rewrite Hr. simpl.
  destruct rt as [[n |] | e |]; try (rewrite Hcase; reflexivity).
  destruct (String.eqb n EmptyString); [rewrite Hcase; reflexivity |].
  destruct (link_cache c1 !! n); [rewrite Hcase; reflexivity |].
  simpl in Hcase.
  destruct (chain_result add_links (api_links env n) ∅); rewrite Hcase; reflexivity.
Qed.

Lemma title_cache_after_get_linkshere t c :
  title_cache (get_linkshere env t c).2 =
    title_cache (resolve_title env t (add_event (EvGetLinksHere t) c)).2.
Proof.
  destruct (get_linkshere_cases env t c) as (rt & c1 & Hr & Hcase). rewrite Hr. simpl.
  destruct rt as [[n |] | e |]; try (rewrite Hcase; reflexivity).
  destruct (String.eqb n EmptyString); [rewrite Hcase; reflexivity |].
  destruct (linkshere_cache c1 !! n); [rewrite Hcase; reflexivity |].
  simpl in Hcase.
  destruct (chain_result add_incoming (api_linkshere env n) ∅); rewrite Hcase; reflexivity.
Qed.

Lemma get_links_growth t : stable (coherent_growth env) (get_links env t).
Proof.
  intros c Hc. split; [apply get_links_coherent; assumption |].
  rewrite title_cache_after_get_links.
  apply (resolve_title_growth t (add_event (EvGetLinks t) c)).
  eapply coherent_same; [| exact Hc]. repeat split.
Qed.

Lemma get_linkshere_growth t : stable (coherent_growth env) (get_linkshere env t).
Proof.
  intros c Hc. split; [apply get_linkshere_coherent; assumption |].
  rewrite title_cache_after_get_linkshere.
  apply (resolve_title_growth t (add_event (EvGetLinksHere t) c)).
  eapply coherent_same; [| exact Hc]. repeat split.
Qed.

Ltac growth_solve :=
  repeat first
    [ apply get_links_growth
    | apply get_linkshere_growth
    | apply resolve_title_growth
    | apply stable_growth_modify; intros ?; reflexivity
    | stable_step ].

Lemma run_op_growth op : ∀ c, coherent_growth env c (run_op env op c).
Proof.
  destruct op; simpl; intros c.
  - apply resolve_title_growth.
  - revert c. change (stable (coherent_growth env) (random_page_title env namespace)).
    unfold random_page_title, emit. growth_solve.
  - revert c. change (stable (coherent_growth env) (search_title env query limit)).
    unfold search_title, emit. growth_solve.
  - apply get_links_growth.
  - apply get_linkshere_growth.
  - revert c.
    change (stable (coherent_growth env)
              (find_path_bfs env start_title target_title max_depth max_visited)).
    unfold find_path_bfs, bfs_step, links_or_empty, record_edges, set_decision, bfs_enqueue,
      set_decision_info, set_crawl_graph, emit.
    growth_solve.
  - revert c.
    change (stable (coherent_growth env)
              (find_path_best_first env start_title target_title max_depth max_visited
                 max_branch)).
    unfold find_path_best_first, best_step, links_or_empty, record_edges, set_decision,
      best_enqueue, set_decision_info, set_crawl_graph, emit.
    growth_solve.
  - revert c.
    change (stable (coherent_growth env)
              (find_path_bidi env start_title target_title max_depth max_visited)).
    unfold find_path_bidi, bidi_step, links_or_empty, record_edges, set_decision,
      fwd_enqueue, bwd_enqueue, set_decision_if_absent, reconstruct_bidi_path,
      set_decision_info, set_crawl_graph, emit.
    growth_solve.
Qed.

Lemma run_ops_growth ops : ∀ c, coherent_growth env c (run_ops env ops c).
Proof.
  induction ops as [| op ops IH]; intros c; simpl; [reflexivity |].
  etrans; [apply run_op_growth | apply IH].
Qed.

End Growth.

(** X5. With an endpoint for which canonical titles are their own
    canonical titles, the caches stay faithful: when the three caches hold
    what the endpoint answers, so they do after any sequence of operations
    on the crawler. *)
Theorem caches_stay_coherent
    (env : Env) (ops : list CrawlerOp) (c : Crawler)
    (Hfixed : canonical_fixed env)
    (Hcoherent : coherent env c) :
  coherent env (run_ops env ops c).
Proof. apply (run_ops_growth env Hfixed ops c Hcoherent). Qed.

(** X6. Under the same conditions, no operation on the crawler removes or
    replaces an entry of the title cache. *)
Theorem title_cache_only_grows
    (env : Env) (ops : list CrawlerOp) (c : Crawler)
    (Hfixed : canonical_fixed env)
    (Hcoherent : coherent env c) :
  title_cache c ⊆ title_cache (run_ops env ops c).
Proof. apply (run_ops_growth env Hfixed ops c Hcoherent). Qed.

(** ** The searches end *)

(** A loop whose count grows by one in each iteration and does not pass
    [max_visited] ends before its fuel does. *)
Lemma fuel_loop {S A} (step : S → M (StepResult S A)) (count : S → Z) (I : S → Prop)
    (max_visited : Z) :
  (∀ s c, I s →
     match step s c with
     | (Ret (Continue s'), _) => I s' ∧ count s' = count s + 1 ∧ count s' ≤ max_visited
     | (OutOfFuel, _) => False
     | _ => True
     end) →
  ∀ fuel s c, I s →
    (count s ≤ max_visited ∧ max_visited < count s + Z.of_nat fuel) ∨
    (count s = 0 ∧ (0 < fuel)%nat ∧ max_visited < Z.of_nat fuel) →
    (run_loop step fuel s c).1 ≠ OutOfFuel.
Proof.
  intros Hstep. induction fuel as [| fuel IH]; intros s c HI Hfuel; [lia |].
  rewrite run_loop_S. unfold bind. specialize (Hstep s c HI).
  destruct (step s c) as [[[s' | a] | e |] c']; simpl; try discriminate; [| contradiction].
  destruct Hstep as (HI' & Hc & Hle). apply IH; [exact HI' |]. left. lia.
Qed.

Lemma loop_fuel_enough max_visited :
  (0 < loop_fuel max_visited)%nat ∧ max_visited < Z.of_nat (loop_fuel max_visited).
Proof. unfold loop_fuel. lia. Qed.

Section Ends.

Context (env : Env).

Lemma bfs_step_ends target max_depth max_visited s c :
  match bfs_step env target max_depth max_visited s c with
  | (Ret (Continue s'), _) =>
      True ∧ bfs_visited_count s' = bfs_visited_count s + 1 ∧
      bfs_visited_count s' ≤ max_visited
  | (OutOfFuel, _) => False
  | _ => True
  end.
Proof.
  destruct (bfs_q s) as [| [[cur path] depth] q] eqn:Hq.
  { unfold bfs_step. rewrite Hq. exact I. }
  pose proof (bfs_step_run env target max_depth max_visited s cur path depth q c Hq) as Hrun.
  cbv zeta in Hrun.
  destruct (Z.ltb_spec max_visited (bfs_visited_count s + 1)); [rewrite Hrun; exact I |].
  destruct (max_depth <=? depth); [rewrite Hrun; simpl; auto |].
  destruct (bool_decide _) in Hrun; destruct Hrun as (c' & -> & _); simpl; auto.
Qed.

Lemma best_step_ends target max_depth max_visited max_branch s c :
  match best_step env target max_depth max_visited max_branch s c with
  | (Ret (Continue s'), _) =>
      True ∧ bf_visited_count s' = bf_visited_count s + 1 ∧
      bf_visited_count s' ≤ max_visited
  | (OutOfFuel, _) => False
  | _ => True
  end.
Proof.
  destruct (heappop (bf_heap s)) as [[top heap] |] eqn:Hpop.
  2: { unfold best_step. rewrite Hpop. exact I. }
  pose proof (best_step_run env target max_depth max_visited max_branch s top heap c Hpop)
    as Hrun.
  cbv zeta in Hrun.
  destruct (Z.ltb_spec max_visited (bf_visited_count s + 1)); [rewrite Hrun; exact I |].
  destruct (max_depth <=? h_depth top); [rewrite Hrun; simpl; auto |].
  destruct (bool_decide _) in Hrun; destruct Hrun as (c' & -> & _); simpl; auto.
  destruct (score_unvisited _ _ _ _); simpl; auto.
Qed.

End Ends.

(** *** The parent maps of the bidirectional search are forests *)

Lemma parent_get_Some parent n p :
  parent_get parent n = Some p ↔ parent !! n = Some (Some p).
Proof.
  unfold parent_get. destruct (parent !! n) as [[q |] |]; simpl; split; congruence.
Qed.

Lemma walk_left_total parent (rank : string → nat) :
  (∀ n p, parent !! n = Some (Some p) → is_Some (parent !! p) ∧ (rank p < rank n)%nat) →
  ∀ fuel n acc,
    (0 < fuel)%nat → (is_Some (parent !! n) → (rank n < fuel)%nat) →
    is_Some (walk_left fuel parent (Some n) acc).
Proof.
  intros Hrank. induction fuel as [| fuel IH]; intros n acc Hpos Hn; [lia |].
  simpl. destruct (parent_get parent n) as [p |] eqn:Hp.
  - apply parent_get_Some in Hp. destruct (Hrank n p Hp) as [Hsome Hlt].
    assert (rank n < S fuel)%nat by (apply Hn; rewrite Hp; eauto).
    apply IH; [lia |]. intros _. lia.
  - destruct fuel; simpl; eauto.
Qed.

Lemma walk_right_total parent (rank : string → nat) target :
  (∀ n p, parent !! n = Some (Some p) → is_Some (parent !! p) ∧ (rank p < rank n)%nat) →
  ∀ fuel cur acc,
    (is_Some (parent !! cur) → (rank cur < fuel)%nat) →
    is_Some (walk_right fuel parent target cur acc).
Proof.
  intros Hrank. induction fuel as [| fuel IH]; intros cur acc Hcur; simpl.
  - destruct (String.eqb cur target); [eauto |].
    destruct (parent_get parent cur) as [p |] eqn:Hp; [| eauto].
    apply parent_get_Some in Hp.
    assert (rank cur < 0)%nat by (apply Hcur; rewrite Hp; eauto). lia.
  - destruct (String.eqb cur target); [eauto |].
    destruct (parent_get parent cur) as [p |] eqn:Hp; [| eauto].
    apply parent_get_Some in Hp. destruct (Hrank cur p Hp) as [Hsome Hlt].
    assert (rank cur < S fuel)%nat by (apply Hcur; rewrite Hp; eauto).
    apply IH. intros _. lia.
Qed.

Lemma reconstruct_ends pf pb meet start target c :
  parent_forest pf → parent_forest pb →
  (reconstruct_bidi_path pf pb meet start target c).1 ≠ OutOfFuel.
Proof.
  intros (rf & Hrf & Hsf) (rb & Hrb & Hsb).
  unfold reconstruct_bidi_path, bind, lift_fuel.
  destruct (walk_left_total pf rf Hrf (S (size pf)) meet []) as [l ->]; [lia | |].
  { intros H. specialize (Hsf _ H). lia. }
  destruct (walk_right_total pb rb target Hrb (S (size pb)) meet []) as [r ->].
  { intros H. specialize (Hsb _ H). lia. }
  destruct (reverse l ++ r)%list as [| first rest]; [discriminate |].
  destruct (last (if (first =? start)%string then first :: rest else start :: first :: rest));
    discriminate.
Qed.

Lemma parent_forest_insert parent n cur :
  parent_forest parent → parent !! n = None → is_Some (parent !! cur) →
  parent_forest (<[n := Some cur]> parent).
Proof.
  intros (rank & Hrank & Hsize) Hn Hcur.
  assert (Hne : cur ≠ n) by (intros ->; rewrite Hn in Hcur; by destruct Hcur).
  exists (fun x => if decide (x = n) then size parent else rank x). split.
  - intros x p. rewrite lookup_insert. case_decide as E1.
    + intros [= <-]. rewrite lookup_insert_ne by congruence. split; [exact Hcur |].
      rewrite decide_False by exact Hne. subst x. rewrite decide_True by reflexivity.
      apply Hsize, Hcur.
    + intros Hx. destruct (Hrank x p Hx) as [Hp Hlt].
      assert (p ≠ n) by (intros ->; rewrite Hn in Hp; by destruct Hp).
      rewrite lookup_insert_ne by congruence.
      rewrite !decide_False by congruence. auto.
  - intros x. rewrite map_size_insert_None by exact Hn.
    rewrite lookup_insert. case_decide as E1.
    + intros _. subst x. rewrite decide_True by reflexivity. lia.
    + intros Hx. rewrite decide_False by congruence. specialize (Hsize x Hx). lia.
Qed.

Lemma side_ok_enqueue current depth ns : ∀ parent visited q,
  side_ok parent visited q → current ∈ visited →
  side_ok (set_parents current (fresh_nodes visited ns) parent)
          (list_to_set (fresh_nodes visited ns) ∪ visited)
          (q ++ map (fun n => (n, depth + 1)) (fresh_nodes visited ns))%list.
Proof.
  induction ns as [| x ns IH]; intros parent visited q Hok Hcur.
  - simpl. rewrite app_nil_r, (left_id_L ∅ (∪)). exact Hok.
  - simpl. destruct (bool_decide_reflect (x ∈ visited)) as [Hx | Hx]; [apply IH; assumption |].
    destruct Hok as (Hf & Hdom & Hq).
    assert (Hnone : parent !! x = None).
    { destruct (parent !! x) eqn:E; [| reflexivity].
      exfalso. apply Hx, Hdom. rewrite E. eauto. }
    specialize (IH (<[x := Some current]> parent) ({[x]} ∪ visited)
                  (q ++ [(x, depth + 1)])%list).
    simpl. unfold set_parents in *. simpl.
    replace (({[x]} ∪ list_to_set (fresh_nodes ({[x]} ∪ visited) ns)) ∪ visited)
      with (list_to_set (fresh_nodes ({[x]} ∪ visited) ns) ∪ ({[x]} ∪ visited))
      by set_solver.
    replace (q ++ (x, depth + 1) :: map (fun n => (n, depth + 1))
                                        (fresh_nodes ({[x]} ∪ visited) ns))%list
      with ((q ++ [(x, depth + 1)]) ++ map (fun n => (n, depth + 1))
                                           (fresh_nodes ({[x]} ∪ visited) ns))%list
      by (rewrite <- app_assoc; reflexivity).
    apply IH; [| set_solver].
    split; [| split].
    + apply parent_forest_insert; [exact Hf | exact Hnone | apply Hdom, Hcur].
    + intros n. rewrite lookup_insert. case_decide as E.
      * subst n. split; [eauto | set_solver].
      * rewrite <- Hdom. set_solver.
    + intros e He. apply elem_of_app in He as [He | He].
      * apply elem_of_union_r, Hq, He.
      * apply list_elem_of_singleton in He. subst e. set_solver.
Qed.

Lemma side_ok_tail parent visited e q :
  side_ok parent visited (e :: q) → side_ok parent visited q ∧ e.1 ∈ visited.
Proof.
  intros (Hf & Hdom & Hq). split; [| apply Hq; left].
  split; [exact Hf |]. split; [exact Hdom |]. intros e' He'. apply Hq. by right.
Qed.

Lemma side_ok_initial n : side_ok {[n := None]} {[n]} [(n, 0)].
Proof.
  split; [| split].
  - exists (fun _ => 0%nat). split.
    + intros x p Hx. apply lookup_singleton_Some in Hx as [_ [=]].
    + intros x _. rewrite map_size_singleton. lia.
  - intros x. rewrite elem_of_singleton. split.
    + intros ->. rewrite lookup_singleton_eq. eauto.
    + intros [v Hv]. apply lookup_singleton_Some in Hv as [-> _]. reflexivity.
  - intros e He. apply list_elem_of_singleton in He. subst e. set_solver.
Qed.

Section BidiEnds.

Context (env : Env).

Lemma bidi_step_ends start target max_depth max_visited s c :
  bidi_inv s →
  match bidi_step env start target max_depth max_visited s c with
  | (Ret (Continue s'), _) =>
      bidi_inv s' ∧ bidi_visited_count s' = bidi_visited_count s + 1 ∧
      bidi_visited_count s' ≤ max_visited
  | (OutOfFuel, _) => False
  | _ => True
  end.
Proof.
  intros [Hfwd Hbwd].
  destruct (q_fwd s) as [| [fcur fdepth] qf] eqn:Hf.
  { unfold bidi_step. rewrite Hf. exact I. }
  destruct (q_bwd s) as [| [bcur bdepth] qb] eqn:Hb.
  { unfold bidi_step. rewrite Hf, Hb. exact I. }
  pose proof (bidi_step_run env start target max_depth max_visited s
                fcur fdepth qf bcur bdepth qb c Hf Hb) as Hrun.
  cbv zeta in Hrun.
  destruct (side_ok_tail _ _ _ _ Hfwd) as [Hfwd' Hfcur].
  destruct (side_ok_tail _ _ _ _ Hbwd) as [Hbwd' Hbcur].
  assert (Hrec : ∀ meet,
            match found_path (S := BidiState)
                    (reconstruct_bidi_path (parent_fwd s) (parent_bwd s)
                       meet start target new_crawler).1 with
            | Ret (Continue _) => False
            | OutOfFuel => False
            | _ => True
            end).
  { intros meet.
    pose proof (reconstruct_ends (parent_fwd s) (parent_bwd s) meet start target new_crawler
                  (proj1 Hfwd) (proj1 Hbwd)) as Hne.
    destruct (reconstruct_bidi_path _ _ _ _ _ _).1; simpl; auto. }
  destruct (length (q_fwd s) <=? length (q_bwd s))%nat.
  - destruct (Z.ltb_spec max_visited (bidi_visited_count s + 1)); [rewrite Hrun; exact I |].
    destruct (max_depth <=? fdepth).
    { rewrite Hrun. simpl. split; [| auto]. split; simpl; [exact Hfwd' | rewrite Hb; exact Hbwd]. }
    destruct (set_iter env _) as [| meet rest] in Hrun.
    + destruct Hrun as (c' & -> & _). simpl. split; [| auto].
      split; simpl; [| rewrite Hb; exact Hbwd].
      apply side_ok_enqueue; assumption.
    + destruct Hrun as (c' & -> & _). specialize (Hrec meet).
      destruct (found_path _) as [[|] | |]; first [contradiction | exact I].
  - destruct (Z.ltb_spec max_visited (bidi_visited_count s + 1)); [rewrite Hrun; exact I |].
    destruct (max_depth <=? bdepth).
    { rewrite Hrun. simpl. split; [| auto]. split; simpl; [rewrite Hf; exact Hfwd | exact Hbwd']. }
    destruct (set_iter env _) as [| meet rest] in Hrun.
    + destruct Hrun as (c' & -> & _). simpl. split; [| auto].
      split; simpl; [rewrite Hf; exact Hfwd |].
      apply side_ok_enqueue; assumption.
    + destruct Hrun as (c' & -> & _). specialize (Hrec meet).
      destruct (found_path _) as [[|] | |]; first [contradiction | exact I].
Qed.

End BidiEnds.

(** X8. Every search ends, by returning or by raising: the main loop of a
    search runs at most [max_visited + 1] times, and the path reconstruction
    of the bidirectional search follows parent maps that are forests. *)
Theorem searches_end
    (env : Env) (start_title target_title : string)
    (max_depth max_visited max_branch : Z) (c : Crawler) :
  Forall (fun search : M (option (list string)) => (search c).1 ≠ OutOfFuel)
         (searches env start_title target_title max_depth max_visited max_branch).
Proof.
  apply Forall_forall. intros search Hin.
  pose proof (loop_fuel_enough max_visited) as [Hpos Hfuel].
  each_search Hin.
  - unfold find_path_bfs, bind.
    pose proof (resolve_title_fuel env start_title c) as H1.
    destruct (resolve_title env start_title c) as [[[start |] | e |] c1]; simpl in *;
      try discriminate; [| contradiction].
    pose proof (resolve_title_fuel env target_title c1) as H2.
    destruct (resolve_title env target_title c1) as [[[target |] | e |] c2]; simpl in *;
      try discriminate; [| contradiction].
    destruct (String.eqb start target); [discriminate |]. simpl.
    apply (fuel_loop _ bfs_visited_count (fun _ => True) max_visited); [| exact I | right; auto].
    intros s c0 _. apply bfs_step_ends.
  - unfold find_path_best_first, bind.
    pose proof (resolve_title_fuel env start_title c) as H1.
    destruct (resolve_title env start_title c) as [[[start |] | e |] c1]; simpl in *;
      try discriminate; [| contradiction].
    pose proof (resolve_title_fuel env target_title c1) as H2.
    destruct (resolve_title env target_title c1) as [[[target |] | e |] c2]; simpl in *;
      try discriminate; [| contradiction].
    destruct (String.eqb start target); [discriminate |]. simpl.
    apply (fuel_loop _ bf_visited_count (fun _ => True) max_visited); [| exact I | right; auto].
    intros s c0 _. apply best_step_ends.
  - unfold find_path_bidi, bind.
    pose proof (resolve_title_fuel env start_title c) as H1.
    destruct (resolve_title env start_title c) as [[[start |] | e |] c1]; simpl in *;
      try discriminate; [| contradiction].
    pose proof (resolve_title_fuel env target_title c1) as H2.
    destruct (resolve_title env target_title c1) as [[[target |] | e |] c2]; simpl in *;
      try discriminate; [| contradiction].
    destruct (String.eqb start target); [discriminate |]. simpl.
    apply (fuel_loop _ bidi_visited_count bidi_inv max_visited); [| | right; auto].
    + intros s c0 Hs. apply bidi_step_ends, Hs.
    + split; apply side_ok_initial.
Qed.

(** ** What the bidirectional search returns *)

Lemma last_cons_ne {A} (x : A) l : l ≠ [] → last (x :: l) = last l.
Proof. destruct l; [contradiction | reflexivity]. Qed.

Lemma reconstruct_endpoints pf pb meet start target c p :
  (reconstruct_bidi_path pf pb meet start target c).1 = Ret p →
  head p = Some start ∧ last p = Some target.
Proof.
  unfold reconstruct_bidi_path, bind, lift_fuel.
  destruct (walk_left (S (size pf)) pf (Some meet) []) as [l |]; [| discriminate].
  destruct (walk_right (S (size pb)) pb target meet []) as [r |]; [| discriminate].
  destruct (reverse l ++ r)%list as [| first rest]; [discriminate |].
  set (full := if (first =? start)%string then first :: rest else start :: first :: rest).
  assert (Hhead : head full = Some start).
  { unfold full. destruct (String.eqb_spec first start) as [-> |]; reflexivity. }
  destruct (last full) as [final |] eqn:Hlast; [| discriminate].
  simpl. intros [= <-].
  destruct (String.eqb_spec final target) as [-> | Hne].
  - auto.
  - split; [| apply last_snoc].
    destruct full; [discriminate | exact Hhead].
Qed.

(** Whatever a loop returns was returned by an iteration. *)
Lemma run_loop_result {S A} (step : S → M (StepResult S A)) (P : A → Prop) :
  (∀ s c a c', step s c = (Ret (Done a), c') → P a) →
  ∀ fuel s c a c', run_loop step fuel s c = (Ret a, c') → P a.
Proof.
  intros Hstep. induction fuel as [| fuel IH]; intros s c a c' Hrun.
  - rewrite run_loop_O in Hrun. discriminate.
  - rewrite run_loop_S in Hrun. unfold bind in Hrun.
    destruct (step s c) as [[[s' | a'] | e |] c1] eqn:E; try discriminate.
    + eapply IH, Hrun.
    + injection Hrun as <- _. eapply Hstep, E.
Qed.

Lemma found_path_done {S} (o : outcome (list string)) (a : option (list string)) :
  @found_path S o = Ret (Done a) → ∃ p, o = Ret p ∧ a = Some p.
Proof. destruct o; simpl; intros [=]. eauto. Qed.

(** X9. A path that [find_path_bidi] returns begins at the page the start
    title resolves to and ends at the page the target title resolves to. *)
Theorem bidi_path_joins_start_and_target
    (env : Env) (start_title target_title : string) (max_depth max_visited : Z)
    (c c' : Crawler) (path : list string)
    (Hrun : find_path_bidi env start_title target_title max_depth max_visited c
              = (Ret (Some path), c')) :
  ∃ start target,
    (resolve_title env start_title c).1 = Ret (Some start) ∧
    (resolve_title env target_title (resolve_title env start_title c).2).1
      = Ret (Some target) ∧
    head path = Some start ∧ last path = Some target.
Proof.
  unfold find_path_bidi, bind in Hrun.
  destruct (resolve_title env start_title c) as [[[start |] | e |] c1]; try discriminate.
  simpl in *.
  destruct (resolve_title env target_title c1) as [[[target |] | e |] c2]; try discriminate.
  exists start, target. simpl. split; [reflexivity |]. split; [reflexivity |].
  destruct (String.eqb_spec start target) as [<- | Hne].
  { injection Hrun as <- _. auto. }
  unfold set_crawl_graph, set_decision_info, emit, modify in Hrun. simpl in Hrun.
  eapply (run_loop_result _ (fun a => ∀ p, a = Some p →
                                       head p = Some start ∧ last p = Some target));
    [| exact Hrun | reflexivity].
  intros s1 c3 a c4 Hs p ->.
  destruct (q_fwd s1) as [| [fcur fdepth] qf] eqn:Hf.
  { unfold bidi_step in Hs. rewrite Hf in Hs. discriminate. }
  destruct (q_bwd s1) as [| [bcur bdepth] qb] eqn:Hb.
  { unfold bidi_step in Hs. rewrite Hf, Hb in Hs. discriminate. }
  pose proof (bidi_step_run env start target max_depth max_visited s1
                fcur fdepth qf bcur bdepth qb c3 Hf Hb) as Hstep.
  cbv zeta in Hstep.
  assert (Hrec : ∀ meet c5,
            (found_path (S := BidiState)
               (reconstruct_bidi_path (parent_fwd s1) (parent_bwd s1)
                  meet start target new_crawler).1, c5) = (Ret (Done (Some p)), c4) →
            head p = Some start ∧ last p = Some target).
  { intros meet c5 [= H _]. apply found_path_done in H as (p' & H & [= <-]).
    eapply reconstruct_endpoints, H. }
  destruct (length (q_fwd s1) <=? length (q_bwd s1))%nat.
  - destruct (max_visited <? bidi_visited_count s1 + 1); [congruence |].
    destruct (max_depth <=? fdepth); [congruence |].
    destruct (set_iter env _) as [| meet rest] in Hstep.
    + destruct Hstep as (c5 & Hs' & _). congruence.
    + destruct Hstep as (c5 & Hs' & _). rewrite Hs' in Hs. eapply Hrec, Hs.
  - destruct (max_visited <? bidi_visited_count s1 + 1); [congruence |].
    destruct (max_depth <=? bdepth); [congruence |].
    destruct (set_iter env _) as [| meet rest] in Hstep.
    + destruct Hstep as (c5 & Hs' & _). congruence.
    + destruct Hstep as (c5 & Hs' & _). rewrite Hs' in Hs. eapply Hrec, Hs.
Qed.

(** X10. When the start title and the target title resolve to the same
    page, [find_path_bfs] and [find_path_best_first] leave a crawl graph that
    holds that page only and no decision, while [find_path_bidi] returns
    before it resets them: the crawl graph and the decisions of an earlier
    search stay in place. *)
Theorem same_page_search_data
    (env : Env) (start_title target_title start : string)
    (max_depth max_visited max_branch : Z) (c c1 c2 : Crawler)
    (Hstart : resolve_title env start_title c = (Ret (Some start), c1))
    (Htarget : resolve_title env target_title c1 = (Ret (Some start), c2)) :
  let bfs := (find_path_bfs env start_title target_title max_depth max_visited c).2 in
  let best :=
    (find_path_best_first env start_title target_title max_depth max_visited max_branch c).2 in
  let bidi := (find_path_bidi env start_title target_title max_depth max_visited c).2 in
  (crawl_graph bfs = add_node start empty_graph ∧ decision_info bfs = ∅) ∧
  (crawl_graph best = add_node start empty_graph ∧ decision_info best = ∅) ∧
  (crawl_graph bidi = crawl_graph c ∧ decision_info bidi = decision_info c).
Proof.
  intros bfs best bidi. subst bfs best bidi.
  unfold find_path_bfs, find_path_best_first, find_path_bidi, bind.
  rewrite Hstart. simpl. rewrite Htarget. simpl. rewrite String.eqb_refl. simpl.
  split; [auto |]. split; [auto |].
  pose proof (resolve_title_keeps env _ _ _ _ Hstart) as [H1 H2].
  pose proof (resolve_title_keeps env _ _ _ _ Htarget) as [H3 H4].
  split; congruence.
Qed.

(** ** What a search records *)

Lemma record_edge_edges mk g n e :
  e ∈ g_edges (record_edge mk g n) ↔ e ∈ g_edges g ∨ mk n = e.
Proof.
  unfold record_edge. destruct (mk n) as [u v].
  set (g1 := if has_node n g then g else add_node n g).
  assert (Hg1 : g_edges g1 = g_edges g) by (unfold g1; destruct (has_node n g); reflexivity).
  unfold has_edge. destruct (bool_decide_reflect ((u, v) ∈ g_edges g1)) as [Hin | Hin].
  - rewrite Hg1 in *. split; [auto |]. intros [H | <-]; assumption.
  - simpl. rewrite Hg1. set_solver.
Qed.

Lemma record_edges_edges mk ns : ∀ g e,
  e ∈ g_edges (fold_left (record_edge mk) ns g) ↔ e ∈ g_edges g ∨ ∃ n, n ∈ ns ∧ mk n = e.
Proof.
  induction ns as [| x ns IH]; intros g e; simpl.
  - split; [auto |]. intros [H | (n & Hn & _)]; [exact H |]. by apply elem_of_nil in Hn.
  - rewrite IH, record_edge_edges. split.
    + intros [[H | H] | (n & Hn & He)]; [by left | right | right].
      * exists x. split; [left | exact H].
      * exists n. split; [by right | exact He].
    + intros [H | (n & Hn & He)]; [by left; left |].
      apply elem_of_cons in Hn as [-> | Hn]; [by left; right |].
      right. eauto.
Qed.

Lemma record_all_other {A} (key : A → string * string) d l : ∀ di k,
  k ∉ map key l → record_all key d l di !! k = di !! k.
Proof.
  unfold record_all. induction l as [| x l IH]; intros di k Hk; simpl; [reflexivity |].
  simpl in Hk. apply not_elem_of_cons in Hk as [Hx Hl].
  rewrite IH by exact Hl. apply lookup_insert_ne. congruence.
Qed.

Lemma record_all_lookup {A} (key : A → string * string) d l : ∀ di x,
  NoDup (map key l) → x ∈ l → record_all key d l di !! key x = Some (d x).
Proof.
  unfold record_all. induction l as [| y l IH]; intros di x Hnd Hx; simpl.
  - by apply elem_of_nil in Hx.
  - simpl in Hnd. apply NoDup_cons in Hnd as [Hy Hnd].
    apply elem_of_cons in Hx as [-> | Hx]; [| apply IH; assumption].
    change (record_all key d l (<[key y := d y]> di) !! key y = Some (d y)).
    rewrite record_all_other by exact Hy. apply lookup_insert_eq.
Qed.

Section BfsData.

Context (env : Env).

Lemma bfs_enqueue_data current depth path ns : ∀ q visited c,
  let c' := (for_each (bfs_enqueue current depth path) ns (q, visited) c).2 in
  crawl_graph c' = crawl_graph c ∧
  decision_info c' =
    record_all (fun n => (current, n))
               (fun _ => bfs_decision (depth + 1) (NoteEnqueuedFrom current))
               (fresh_nodes visited ns) (decision_info c).
Proof.
  induction ns as [| n ns IH]; intros q visited c; [split; reflexivity |].
  cbv zeta. rewrite for_each_cons, bfs_enqueue_eq. simpl fresh_nodes.
  destruct (bool_decide (n ∈ visited)); [apply IH |].
  edestruct IH as [H1 H2]. rewrite H1, H2. split; reflexivity.
Qed.

(** The crawl graph and the decisions after an iteration. *)
Lemma bfs_step_data target max_depth max_visited s current path depth q c :
  bfs_q s = (current, path, depth) :: q →
  let c' := (bfs_step env target max_depth max_visited s c).2 in
  let fetched := get_links env current (add_event (EvDequeue QBfs current depth) c) in
  let neighbors := match fetched.1 with Ret n => n | _ => ∅ end in
  let fresh := fresh_nodes (bfs_visited s) (set_iter env neighbors) in
  if (max_visited <? bfs_visited_count s + 1) || (max_depth <=? depth) then
    crawl_graph c' = crawl_graph c ∧ decision_info c' = decision_info c
  else
    crawl_graph c' =
      fold_left (record_edge (fun n => (current, n))) (set_iter env neighbors) (crawl_graph c) ∧
    decision_info c' =
      if bool_decide (target ∈ neighbors)
      then <[(current, target) := bfs_decision (depth + 1) NoteTargetFound]> (decision_info c)
      else record_all (fun n => (current, n))
                      (fun _ => bfs_decision (depth + 1) (NoteEnqueuedFrom current))
                      fresh (decision_info c).
Proof.
  intros Hq c' fetched neighbors fresh. subst c'.
  set (c1 := add_event (EvDequeue QBfs current depth) c).
  unfold bfs_step. rewrite Hq.
  rewrite (bind_eq_ret _ _ c tt c1) by reflexivity. cbv zeta.
  destruct (max_visited <? bfs_visited_count s + 1); [split; reflexivity |].
  destruct (max_depth <=? depth); [split; reflexivity |].
  rewrite (bind_eq_ret _ _ c1 neighbors fetched.2)
    by apply (links_or_empty_run (get_links env) current c1 (get_links_fuel _ _ _)).
  pose proof (get_links_data env current c1) as [Hg Hd].
  change (get_links env current c1) with fetched in Hg, Hd.
  set (c2 := with_crawl_graph
               (fold_left (record_edge (fun n => (current, n))) (set_iter env neighbors)
                          (crawl_graph fetched.2)) fetched.2).
  rewrite (bind_eq_ret _ _ fetched.2 tt c2) by reflexivity.
  simpl orb. cbv iota.
  destruct (bool_decide (target ∈ neighbors)).
  - simpl. rewrite Hg, Hd. split; reflexivity.
  - pose proof (bfs_enqueue_data current depth path (set_iter env neighbors)
                  q (bfs_visited s) c2) as [H1 H2].
    cbv zeta in H1, H2. unfold bind.
    destruct (for_each _ _ _ c2) as [[[q' v'] | e |] c3]; simpl in *;
      rewrite H1, H2, Hg, Hd; split; reflexivity.
Qed.

End BfsData.

Lemma hops_recorded_mono d c c' (visited : gset string) p :
  hops_recorded d c p →
  (∀ x, x ∈ p → x ∈ visited) →
  (∀ e, e ∈ g_edges (crawl_graph c) → e ∈ g_edges (crawl_graph c')) →
  (∀ a b, b ∈ visited → decision_info c' !! (a, b) = decision_info c !! (a, b)) →
  hops_recorded d c' p.
Proof.
  intros H Hv He Hd i a b Ha Hb. destruct (H i a b Ha Hb) as [H1 H2].
  split; [apply He, H1 |]. rewrite Hd; [exact H2 |].
  apply Hv. eapply list_elem_of_lookup_2, Hb.
Qed.

Lemma hops_recorded_snoc d d' c p cur n :
  hops_recorded d c p → last p = Some cur →
  (∀ i a b, (S i < length p)%nat → d' i a b = d i a b) →
  (cur, n) ∈ g_edges (crawl_graph c) →
  decision_info c !! (cur, n) = Some (d' (pred (length p)) cur n) →
  hops_recorded d' c (p ++ [n]).
Proof.
  intros H Hlast Hd He Hn i a b Ha Hb.
  destruct (Nat.lt_trichotomy (S i) (length p)) as [Hlt | [Heq | Hgt]].
  - rewrite lookup_app_l in Ha by lia. rewrite lookup_app_l in Hb by lia.
    rewrite Hd by exact Hlt. apply H; assumption.
  - rewrite lookup_app_l in Ha by lia. rewrite lookup_app_r in Hb by lia.
    rewrite Heq, Nat.sub_diag in Hb. injection Hb as <-.
    rewrite last_lookup in Hlast. rewrite <- Heq in Hlast. simpl in Hlast.
    rewrite Hlast in Ha. injection Ha as <-.
    rewrite <- Heq in Hn. simpl in Hn. auto.
  - apply lookup_lt_Some in Hb. rewrite length_app in Hb. simpl in Hb. lia.
Qed.

Section BfsRecord.

Context (env : Env) (target : string) (max_depth max_visited : Z).

Lemma bfs_record_step s c :
  bfs_record_inv target s c →
  match bfs_step env target max_depth max_visited s c with
  | (Ret (Continue s'), c') => bfs_record_inv target s' c'
  | (Ret (Done (Some p)), c') => bfs_found max_depth p c'
  | _ => True
  end.
Proof.
  intros [Htarget Hq].
  destruct (bfs_q s) as [| [[cur path] depth] q] eqn:Eq.
  { unfold bfs_step. rewrite Eq. exact I. }
  pose proof (bfs_step_run env target max_depth max_visited s cur path depth q c Eq) as Hrun.
  pose proof (bfs_step_data env target max_depth max_visited s cur path depth q c Eq) as Hdata.
  cbv zeta in Hrun, Hdata.
  destruct (Hq (cur, path, depth)) as [(Hlast & Hlen & Hnd & Hvis) Hrec]; [left |].
  simpl in Hlast, Hlen, Hnd, Hvis, Hrec.
  assert (Htail : ∀ e, e ∈ q → e ∈ (cur, path, depth) :: q) by (intros e He; by right).
  assert (Hpos : (0 < length path)%nat) by (destruct path; [discriminate | simpl; lia]).
  destruct (max_visited <? bfs_visited_count s + 1); [rewrite Hrun; exact I |].
  destruct (Z.leb_spec max_depth depth) as [Hdeep | Hdepth].
  { rewrite Hrun in *. simpl in *. destruct Hdata as [Hg Hd].
    split; [exact Htarget |]. simpl. intros e He.
    destruct (Hq e (Htail e He)) as [Hok Hr]. split; [exact Hok |].
    intros i a b Ha Hb. destruct (Hr i a b Ha Hb) as [H1 H2].
    simpl. auto. }
  simpl in Hdata. destruct Hdata as [Hg Hd].
  set (neighbors := match (get_links env cur (add_event (EvDequeue QBfs cur depth) c)).1 with
                    | Ret n => n
                    | _ => ∅
                    end) in *.
  set (fresh := fresh_nodes (bfs_visited s) (set_iter env neighbors)) in *.
  assert (Hedges : ∀ c', crawl_graph c' =
                     fold_left (record_edge (fun n => (cur, n))) (set_iter env neighbors)
                               (crawl_graph c) →
                   (∀ e, e ∈ g_edges (crawl_graph c) → e ∈ g_edges (crawl_graph c')) ∧
                   (∀ n, n ∈ neighbors → (cur, n) ∈ g_edges (crawl_graph c'))).
  { intros c' E. rewrite E. split.
    - intros e He. apply record_edges_edges. by left.
    - intros n Hn. apply record_edges_edges. right. exists n. split; [| reflexivity].
      rewrite (set_iter_perm env neighbors). apply elem_of_elements, Hn. }
  destruct (bool_decide_reflect (target ∈ neighbors)) as [Hfound | Hnot].
  - destruct Hrun as (c' & Hs & _). rewrite Hs in *. simpl in Hg, Hd.
    destruct (Hedges c' Hg) as [Hold Hnew].
    split; [| split].
    + apply NoDup_app. split; [exact Hnd |]. split; [| apply NoDup_singleton].
      intros x Hx Hx'. apply list_elem_of_singleton in Hx'. subst x.
      apply Htarget, Hvis, Hx.
    + rewrite length_app. simpl. lia.
    + eapply (hops_recorded_snoc
                (fun i a _ => bfs_decision (Z.of_nat i + 1) (NoteEnqueuedFrom a))).
      * eapply hops_recorded_mono; [exact Hrec | exact Hvis | exact Hold |].
        intros a b Hb. rewrite Hd. apply lookup_insert_ne.
        intros [= _ <-]. contradiction.
      * exact Hlast.
      * intros i a b Hi. unfold bfs_hop_decision.
        rewrite decide_False; [reflexivity |]. rewrite length_app. simpl. lia.
      * apply Hnew, Hfound.
      * rewrite Hd, lookup_insert_eq. unfold bfs_hop_decision.
        rewrite decide_True by (rewrite length_app; simpl; lia).
        do 2 f_equal. lia.
  - destruct Hrun as (c' & Hs & _). rewrite Hs in *. simpl in Hg, Hd.
    destruct (Hedges c' Hg) as [Hold Hnew].
    destruct (fresh_nodes_spec (set_iter env neighbors) (bfs_visited s)) as [Hfnd Hfin].
    fold fresh in Hfnd, Hfin.
    assert (Hfresh : ∀ n, n ∈ fresh → n ∈ neighbors ∧ n ∉ bfs_visited s).
    { intros n Hn. apply Hfin in Hn as [Hn Hv]. split; [| exact Hv].
      rewrite (set_iter_perm env neighbors) in Hn. apply elem_of_elements, Hn. }
    assert (Hkeep : ∀ a b, b ∈ bfs_visited s →
                           decision_info c' !! (a, b) = decision_info c !! (a, b)).
    { intros a b Hb. rewrite Hd. apply record_all_other.
      intros Hin. apply elem_of_map in Hin as (n & [= _ <-] & Hn).
      apply Hfresh in Hn as [_ Hn]. contradiction. }
    split; simpl.
    + intros Ht. apply elem_of_union in Ht as [Ht | Ht]; [| contradiction].
      apply elem_of_list_to_set, Hfresh in Ht as [Ht _]. contradiction.
    + intros e He. apply elem_of_app in He as [He | He].
      * destruct (Hq e (Htail e He)) as [(H1 & H2 & H3 & H4) Hr]. split.
        -- split; [exact H1 |]. split; [exact H2 |]. split; [exact H3 |].
           intros x Hx. apply elem_of_union_r, H4, Hx.
        -- eapply hops_recorded_mono; [exact Hr | exact H4 | exact Hold | exact Hkeep].
      * apply elem_of_map in He as (n & -> & Hn). simpl.
        destruct (Hfresh n Hn) as [Hnb Hnv]. split.
        -- split; [apply last_snoc |]. split; [rewrite length_app; simpl; lia |].
           split.
           ++ apply NoDup_app. split; [exact Hnd |]. split; [| apply NoDup_singleton].
              intros x Hx Hx'. apply list_elem_of_singleton in Hx'. subst x.
              apply Hnv, Hvis, Hx.
           ++ intros x Hx. apply elem_of_app in Hx as [Hx | Hx].
              ** apply elem_of_union_r, Hvis, Hx.
              ** apply list_elem_of_singleton in Hx. subst x.
                 apply elem_of_union_l, elem_of_list_to_set, Hn.
        -- eapply (hops_recorded_snoc
                     (fun i a _ => bfs_decision (Z.of_nat i + 1) (NoteEnqueuedFrom a))).
           ++ eapply hops_recorded_mono; [exact Hrec | exact Hvis | exact Hold | exact Hkeep].
           ++ exact Hlast.
           ++ reflexivity.
           ++ apply Hnew, Hnb.
           ++ rewrite Hd.
              rewrite (record_all_lookup (fun n => (cur, n))
                         (fun _ => bfs_decision (depth + 1) (NoteEnqueuedFrom cur))
                         fresh (decision_info c) n).
              ** do 2 f_equal. lia.
              ** apply NoDup_fmap_2; [| exact Hfnd]. intros x y [= ->]. reflexivity.
              ** exact Hn.
Qed.

End BfsRecord.

Lemma find_path_bfs_found env start_title target_title max_depth max_visited c c' path :
  find_path_bfs env start_title target_title max_depth max_visited c = (Ret (Some path), c') →
  bfs_found (Z.max 0 max_depth) path c'.
Proof.
  intros Hrun. unfold find_path_bfs, bind in Hrun.
  destruct (resolve_title env start_title c) as [[[start |] | e |] c1]; try discriminate.
  simpl in Hrun.
  destruct (resolve_title env target_title c1) as [[[target |] | e |] c2]; try discriminate.
  unfold set_crawl_graph, set_decision_info, emit, modify in Hrun. simpl in Hrun.
  destruct (String.eqb_spec start target) as [<- | Hne].
  { injection Hrun as <- <-. split; [apply NoDup_singleton |]. split; [simpl; lia |].
    intros i a b Ha Hb. destruct i; discriminate. }
  cut (bfs_found max_depth path c').
  { intros (H1 & H2 & H3). split; [exact H1 |]. split; [lia | exact H3]. }
  match type of Hrun with
  | run_loop ?step ?fuel ?s ?c0 = _ =>
      pose proof (run_loop_inv step (bfs_record_inv target)
                    (fun r c => ∀ p, r = Ret (Some p) → bfs_found max_depth p c)) as Hloop;
      specialize (Hloop (fun _ _ _ _ => ltac:(discriminate)));
      assert (Hinit : bfs_record_inv target s c0);
      [| assert (Hstep : ∀ s1 c3, bfs_record_inv target s1 c3 →
                  match step s1 c3 with
                  | (Ret (Continue s'), c4) => bfs_record_inv target s' c4
                  | (Ret (Done a), c4) =>
                      ∀ p, Ret (A := option (list string)) a = Ret (Some p) →
                           bfs_found max_depth p c4
                  | (Raise e, c4) =>
                      ∀ p, Raise (A := option (list string)) e = Ret (Some p) →
                           bfs_found max_depth p c4
                  | (OutOfFuel, c4) =>
                      ∀ p, OutOfFuel (A := option (list string)) = Ret (Some p) →
                           bfs_found max_depth p c4
                  end);
         [| specialize (Hloop Hstep fuel s c0 Hinit); rewrite Hrun in Hloop;
            apply Hloop; reflexivity]]
  end.
  - split; simpl; [set_solver |]. intros e He. apply list_elem_of_singleton in He. subst e.
    simpl. split.
    + split; [reflexivity |]. split; [reflexivity |]. split; [apply NoDup_singleton |].
      set_solver.
    + intros i a b Ha Hb. destruct i; discriminate.
  - intros s1 c3 Hinv.
    pose proof (bfs_record_step env target max_depth max_visited s1 c3 Hinv) as H.
    destruct (bfs_step env target max_depth max_visited s1 c3) as [[[s' | [p |]] | e |] c4];
      try discriminate; [exact H |]. intros p' [= <-]. exact H.
Qed.

(** X14. Every hop of a path that [find_path_bfs] returns is an edge of
    the crawl graph and has its decision recorded under its two pages: the
    method is [bfs], the depth is the number of the hop, counted from 1, and
    the note says that the target was found for the last hop, and names the
    page the hop was enqueued from for the others. *)
Theorem bfs_path_is_recorded
    (env : Env) (start_title target_title : string) (max_depth max_visited : Z)
    (c c' : Crawler) (path : list string) (i : nat) (a b : string)
    (Hrun : find_path_bfs env start_title target_title max_depth max_visited c
              = (Ret (Some path), c'))
    (Ha : path !! i = Some a)
    (Hb : path !! S i = Some b) :
  (a, b) ∈ g_edges (crawl_graph c') ∧
  decision_info c' !! (a, b) =
    Some {| d_method := MBfs; d_depth := Z.of_nat i + 1;
            d_note := if decide (S (S i) = length path) then NoteTargetFound
                      else NoteEnqueuedFrom a;
            d_score := None |}.
Proof. apply (find_path_bfs_found _ _ _ _ _ _ _ _ Hrun); assumption. Qed.

(** ** The paths of the best-first search *)

Lemma elem_of_push_entries depth path items : ∀ heap uid e,
  e ∈ (push_entries depth path items heap uid).1 →
  e ∈ heap ∨
  ∃ item, item ∈ items ∧ h_node e = item.2 ∧ h_path e = (path ++ [item.2])%list ∧
          h_depth e = depth + 1.
Proof.
  induction items as [| item items IH]; intros heap uid e He; simpl in He; [by left |].
  apply IH in He as [He | (it & Hit & Hs)].
  - apply elem_of_cons in He as [-> | He]; [| by left].
    right. exists item. split; [left | auto].
  - right. exists it. split; [right; exact Hit | exact Hs].
Qed.

Lemma elem_of_fresh_scored items : ∀ visited item,
  item ∈ fresh_scored visited items → item ∈ items ∧ item.2 ∉ visited.
Proof.
  induction items as [| x items IH]; intros visited item H; simpl in H.
  - by apply elem_of_nil in H.
  - destruct (bool_decide_reflect (x.2 ∈ visited)) as [Hx | Hx].
    + apply IH in H as [H1 H2]. split; [by right | exact H2].
    + apply elem_of_cons in H as [-> | H]; [split; [left | exact Hx] |].
      apply IH in H as [H1 H2]. split; [by right | set_solver].
Qed.

Lemma elem_of_slice_to {A} (k : Z) (l : list A) x : x ∈ PyStr.slice_to k l → x ∈ l.
Proof.
  unfold PyStr.slice_to. intros H.
  destruct (k <? 0); eapply subseteq_take, H.
Qed.

Lemma heappop_elems h top heap :
  heappop h = Some (top, heap) → ∀ e, e ∈ top :: heap ↔ e ∈ h.
Proof.
  intros H e. rewrite (heappop_perm _ _ _ H). reflexivity.
Qed.

Section BestPaths.

Context (env : Env) (E : string → string → Prop) (G : Crawler → Prop).
Context (start target : string) (max_depth max_visited max_branch : Z).

Hypothesis Hlinks : ∀ cur c n,
  G c → n ∈ match (get_links env cur c).1 with Ret s => s | _ => ∅ end → E cur n.
Hypothesis Hfetch : ∀ cur c, G c → G (get_links env cur c).2.
Hypothesis Hsame : ∀ c c', caches_same c c' → G c → G c'.

Lemma best_path_step s c :
  best_inv E start target s → G c →
  match best_step env target max_depth max_visited max_branch s c with
  | (Ret (Continue s'), c') => best_inv E start target s' ∧ G c'
  | (Ret (Done (Some p)), c') => best_found E start target max_depth p
  | _ => True
  end.
Proof.
  intros [Htarget Hheap] HG.
  destruct (heappop (bf_heap s)) as [[top heap] |] eqn:Hpop.
  2: { unfold best_step. rewrite Hpop. exact I. }
  pose proof (heappop_elems _ _ _ Hpop) as Helems.
  pose proof (best_step_run env target max_depth max_visited max_branch s top heap c Hpop)
    as Hrun.
  cbv zeta in Hrun.
  destruct (Hheap top) as ((Hlast & Hlen & Hnd & Hvis) & Hhead & Hwalk).
  { apply Helems. left. }
  assert (Htail : ∀ e, e ∈ heap → e ∈ bf_heap s) by (intros e He; apply Helems; by right).
  assert (HG1 : G (add_event (EvDequeue QHeap (h_node top) (h_depth top)) c)).
  { eapply Hsame; [| exact HG]. repeat split. }
  destruct (max_visited <? bf_visited_count s + 1); [rewrite Hrun; exact I |].
  destruct (Z.leb_spec max_depth (h_depth top)) as [Hdeep | Hdepth].
  { rewrite Hrun. split; [| exact HG1]. split; [exact Htarget |]. simpl.
    intros e He. apply Hheap, Htail, He. }
  set (c1 := add_event (EvDequeue QHeap (h_node top) (h_depth top)) c) in *.
  set (neighbors := match (get_links env (h_node top) c1).1 with
                    | Ret n => n
                    | _ => ∅
                    end) in *.
  assert (Hnb : ∀ n, n ∈ neighbors → E (h_node top) n).
  { intros n Hn. eapply Hlinks; [exact HG1 | exact Hn]. }
  destruct (bool_decide_reflect (target ∈ neighbors)) as [Hfound | Hnot].
  - destruct Hrun as (c' & -> & _). split; [| split].
    + apply NoDup_app. split; [exact Hnd |]. split; [| apply NoDup_singleton].
      intros x Hx Hx'. apply list_elem_of_singleton in Hx'. subst x.
      apply Htarget, Hvis, Hx.
    + rewrite length_app. simpl. lia.
    + split; [| split].
      * destruct (h_path top); [discriminate | exact Hhead].
      * apply last_snoc.
      * eapply walk_snoc; [exact Hwalk | exact Hlast | apply Hnb, Hfound].
  - destruct Hrun as (c' & -> & _ & Hcs).
    assert (HG' : G c') by (eapply Hsame; [exact Hcs | apply Hfetch, HG1]).
    split; [| exact HG'].
    set (scored := score_unvisited env target (bf_visited s) (set_iter env neighbors)) in *.
    destruct scored as [| sc0 scored'] eqn:Hscored.
    { split; [exact Htarget |]. simpl. intros e He. apply Hheap, Htail, He. }
    rewrite <- Hscored. clear Hscored sc0 scored'.
    set (pushed := fresh_scored (bf_visited s)
                     (PyStr.slice_to max_branch (sort_desc scored))).
    assert (Hpushed : ∀ item, item ∈ pushed →
                              item.2 ∈ neighbors ∧ item.2 ∉ bf_visited s).
    { intros item Hitem. apply elem_of_fresh_scored in Hitem as [Hitem Hv].
      split; [| exact Hv].
      apply elem_of_slice_to in Hitem. rewrite sort_desc_perm in Hitem.
      apply elem_of_score_unvisited in Hitem as (_ & Hn & _).
      rewrite (set_iter_perm env neighbors) in Hn. apply elem_of_elements, Hn. }
    split; simpl.
    + intros Ht. apply elem_of_union in Ht as [Ht | Ht]; [| contradiction].
      apply elem_of_list_to_set, elem_of_map in Ht as (item & -> & Hitem).
      apply Hpushed in Hitem as [Hitem _]. contradiction.
    + intros e He. apply elem_of_push_entries in He as [He | (item & Hitem & Hn & Hp & Hd)].
      * destruct (Hheap e (Htail e He)) as ((H1 & H2 & H3 & H4) & H5 & H6).
        split; [| auto]. split; [exact H1 |]. split; [exact H2 |]. split; [exact H3 |].
        intros x Hx. apply elem_of_union_r, H4, Hx.
      * destruct (Hpushed item Hitem) as [Hnb' Hnv]. rewrite Hn, Hp, Hd. split; [| split].
        -- split; [apply last_snoc |]. split; [rewrite length_app; simpl; lia |].
           split.
           ++ apply NoDup_app. split; [exact Hnd |]. split; [| apply NoDup_singleton].
              intros x Hx Hx'. apply list_elem_of_singleton in Hx'. subst x.
              apply Hnv, Hvis, Hx.
           ++ intros x Hx. apply elem_of_app in Hx as [Hx | Hx].
              ** apply elem_of_union_r, Hvis, Hx.
              ** apply list_elem_of_singleton in Hx. subst x.
                 apply elem_of_union_l, elem_of_list_to_set, elem_of_map.
                 exists item. auto.
        -- destruct (h_path top); [discriminate | exact Hhead].
        -- eapply walk_snoc; [exact Hwalk | exact Hlast | apply Hnb, Hnb'].
Qed.

Lemma best_path_loop fuel : ∀ s c p c',
  best_inv E start target s → G c →
  run_loop (best_step env target max_depth max_visited max_branch) fuel s c
    = (Ret (Some p), c') →
  best_found E start target max_depth p.
Proof.
  induction fuel as [| fuel IH]; intros s c p c' Hinv HG Hrun.
  - rewrite run_loop_O in Hrun. discriminate.
  - rewrite run_loop_S in Hrun. unfold bind in Hrun.
    pose proof (best_path_step s c Hinv HG) as Hstep.
    destruct (best_step env target max_depth max_visited max_branch s c)
      as [[[s' | a] | e |] c1]; try discriminate.
    + destruct Hstep as [Hinv' HG']. eapply IH; eassumption.
    + injection Hrun as -> _. exact Hstep.
Qed.

End BestPaths.

Lemma best_inv_initial env (E : string → string → Prop) start target :
  start ≠ target → best_inv E start target (best_initial env start target).
Proof.
  intros Hne. split; simpl; [set_solver |].
  intros e He. apply list_elem_of_singleton in He. subst e. simpl.
  split; [| split; [reflexivity | exact I]].
  split; [reflexivity |]. split; [reflexivity |]. split; [apply NoDup_singleton | set_solver].
Qed.

(** X11. A path returned by [find_path_bfs] or by [find_path_best_first]
    holds no title twice and has at most [max_depth] links (no link at all
    when [max_depth] is negative). Its titles are those of the links
    followed: two of them may name one page, when one redirects to the
    other. *)
Theorem found_paths_are_simple_and_short
    (env : Env) (start_title target_title : string)
    (max_depth max_visited max_branch : Z) (c : Crawler) (path : list string)
    (Hrun : (find_path_bfs env start_title target_title max_depth max_visited c).1
              = Ret (Some path) ∨
            (find_path_best_first env start_title target_title max_depth max_visited
               max_branch c).1 = Ret (Some path)) :
  NoDup path ∧ Z.of_nat (length path) - 1 ≤ Z.max 0 max_depth.
Proof.
  destruct Hrun as [Hrun | Hrun].
  - destruct (find_path_bfs env start_title target_title max_depth max_visited c)
      as [r c'] eqn:E. simpl in Hrun. subst r.
    destruct (find_path_bfs_found _ _ _ _ _ _ _ _ E) as (H1 & H2 & _). auto.
  - unfold find_path_best_first, bind in Hrun.
    destruct (resolve_title env start_title c) as [[[start |] | e |] c1]; try discriminate.
    simpl in Hrun.
    destruct (resolve_title env target_title c1) as [[[target |] | e |] c2]; try discriminate.
    unfold set_crawl_graph, set_decision_info, emit, modify in Hrun. simpl in Hrun.
    destruct (String.eqb_spec start target) as [<- | Hne].
    { injection Hrun as <-. split; [apply NoDup_singleton | simpl; lia]. }
    match type of Hrun with
    | (run_loop ?step ?fuel ?s ?c0).1 = _ =>
        destruct (run_loop step fuel s c0) as [r c'] eqn:Eloop
    end.
    simpl in Hrun. subst r.
    destruct (best_path_loop env (fun _ _ => True) (fun _ => True) start target
                max_depth max_visited max_branch
                (fun _ _ _ _ _ => I) (fun _ _ _ => I) (fun _ _ _ _ => I)
                _ _ _ _ _
                (best_inv_initial env (fun _ _ => True) start target Hne) I Eloop)
      as (H1 & H2 & _).
    split; [exact H1 | lia].
Qed.

(** X12. On a crawler whose caches hold what the endpoint answers, and with
    an endpoint for which canonical titles are their own canonical titles: a
    path returned by [find_path_best_first] leads from the resolved start to
    the resolved target along links that [get_links] shows. *)
Theorem best_first_returns_a_link_path
    (env : Env) (start_title target_title : string)
    (max_depth max_visited max_branch : Z) (c c' : Crawler) (path : list string)
    (Hfixed : canonical_fixed env)
    (Hcoherent : coherent env c)
    (Hrun : find_path_best_first env start_title target_title max_depth max_visited
              max_branch c = (Ret (Some path), c')) :
  ∃ start target,
    (resolve_title env start_title c).1 = Ret (Some start) ∧
    (resolve_title env target_title (resolve_title env start_title c).2).1
      = Ret (Some target) ∧
    path_between (links_to env c) start target path.
Proof.
  unfold find_path_best_first, bind in Hrun.
  destruct (resolve_title env start_title c) as [r1 c1] eqn:E1.
  destruct (resolve_title_coherent env Hfixed start_title c Hcoherent) as [_ Hc1].
  rewrite E1 in Hc1. simpl in Hc1.
  destruct r1 as [[start |] | e |]; try discriminate. simpl.
  destruct (resolve_title env target_title c1) as [r2 c2] eqn:E2.
  destruct (resolve_title_coherent env Hfixed target_title c1 Hc1) as [_ Hc2].
  rewrite E2 in Hc2. simpl in Hc2.
  destruct r2 as [[target |] | e |]; try discriminate.
  exists start, target. simpl. split; [reflexivity |]. split; [reflexivity |].
  assert (Hedges : ∀ u v, links_to env c u v ↔ edge (out_links env) u v).
  { intros u v. apply links_to_out_links; assumption. }
  cut (path_between (edge (out_links env)) start target path).
  { intros (Hh & Hl & Hw). split; [exact Hh |]. split; [exact Hl |].
    apply (walk_ext _ _ _ Hedges), Hw. }
  unfold set_crawl_graph, set_decision_info, emit, modify in Hrun. simpl in Hrun.
  destruct (String.eqb_spec start target) as [<- | Hne].
  { injection Hrun as <- _. split; [reflexivity |]. split; [reflexivity | exact I]. }
  eapply (best_path_loop env (edge (out_links env)) (coherent env) start target
            max_depth max_visited max_branch); [| | | | | exact Hrun].
  - intros cur c0 n Hc0 Hn.
    destruct (get_links_coherent env Hfixed cur c0 Hc0) as [Hv _].
    rewrite Hv in Hn. exact Hn.
  - intros cur c0 Hc0. apply get_links_coherent; assumption.
  - intros c0 c0' Hs Hc0. eapply coherent_same; eassumption.
  - apply best_inv_initial, Hne.
  - eapply coherent_same; [| exact Hc2]. repeat split.
Qed.

(** ** When the breadth-first search finds nothing *)

Section BfsNone.

Context (N : string → gset string) (start target : string).
Hypothesis Hdistinct : start ≠ target.

(** With every node of the queue deeper than [D], the target is more than
    [D + 1] links away. *)
Lemma bfs_inv_no_short D s :
  bfs_inv N start target D s →
  (∀ e, e ∈ bfs_q s → D < e.2) →
  ∀ k, reach (edge N) start k target → D + 1 < Z.of_nat k.
Proof.
  intros Hinv Hdeep k Hr.
  pose proof Hinv as (qa & qb & Hq & Ha & Hb & Hok & Hnd & HB & HC).
  destruct (Z_lt_le_dec (D + 1) (Z.of_nat k)) as [Hlt | Hge]; [exact Hlt | exfalso].
  destruct k as [| k]; [apply reach_zero in Hr; congruence |].
  apply reach_succ in Hr as (u & Hr & Hu).
  assert (Hvis : u ∈ bfs_visited s) by (eapply HB; [exact Hr | lia]).
  assert (Hout : u ∉ map (fun e : string * list string * Z => e.1.1) (bfs_q s)).
  { intros Hin. apply elem_of_map in Hin as (e & -> & He).
    rewrite Forall_forall in Hok. destruct (Hok e He) as (_ & _ & _ & Hmin).
    specialize (Hmin k Hr). specialize (Hdeep e He). lia. }
  destruct (HC u Hvis Hout) as [Hno _]. contradiction.
Qed.

Lemma bfs_inv_empty_any D s (n : nat) :
  bfs_q s = [] → 0 ≤ D → bfs_inv N start target D s →
  bfs_inv N start target (D + Z.of_nat n) s.
Proof.
  intros Hq HD Hinv. induction n as [| n IH].
  - replace (D + Z.of_nat 0) with D by lia. exact Hinv.
  - replace (D + Z.of_nat (S n)) with (D + Z.of_nat n + 1) by lia.
    apply bfs_inv_shift; [lia | exact IH |]. rewrite Hq. constructor.
Qed.

Lemma bfs_inv_empty_unreachable D s k :
  bfs_q s = [] → 0 ≤ D → bfs_inv N start target D s → ¬ reach (edge N) start k target.
Proof.
  intros Hq HD Hinv Hr.
  pose proof (bfs_inv_empty_any D s k Hq HD Hinv) as Hinv'.
  pose proof (bfs_inv_no_short _ s Hinv') as H.
  specialize (H ltac:(intros e He; rewrite Hq in He; by apply elem_of_nil in He) k Hr).
  lia.
Qed.

End BfsNone.

Section BfsNoneLoop.

Context (env : Env).
Hypothesis Hfixed : canonical_fixed env.
Context (start target : string) (max_depth max_visited : Z).
Hypothesis Hdistinct : start ≠ target.

Lemma bfs_loop_complete fuel : ∀ D s c c',
  0 ≤ D < max_depth →
  bfs_inv (out_links env) start target D s →
  coherent env c →
  run_loop (bfs_step env target max_depth max_visited) fuel s c = (Ret None, c') →
  ∀ k, reach (edge (out_links env)) start k target → max_depth < Z.of_nat k.
Proof.
  induction fuel as [| fuel IH]; intros D s c c' HD Hinv Hc Hrun; [discriminate |].
  destruct (bfs_q s) as [| [[cur p] d] q] eqn:Hq.
  { intros k Hr. exfalso.
    eapply (bfs_inv_empty_unreachable (out_links env) start target Hdistinct D s k);
      [exact Hq | lia | exact Hinv | exact Hr]. }
  assert (Hexpand : ∀ D', 0 ≤ D' < max_depth → bfs_inv (out_links env) start target D' s →
                          d = D' →
                          ∀ k, reach (edge (out_links env)) start k target →
                               max_depth < Z.of_nat k).
  { intros D' HD' Hinv' ->.
    rewrite run_loop_S in Hrun. unfold bind in Hrun.
    pose proof (bfs_step_run env target max_depth max_visited s cur p D' q c Hq) as Hstep.
    cbv zeta in Hstep.
    destruct (max_visited <? bfs_visited_count s + 1); [rewrite Hstep in Hrun; discriminate |].
    destruct (Z.leb_spec max_depth D') as [Hle | _]; [lia |].
    destruct (get_links_coherent env Hfixed cur (add_event (EvDequeue QBfs cur D') c))
      as [Hv Hc1].
    { eapply coherent_same; [| exact Hc]. repeat split. }
    assert (Hn : match (get_links env cur (add_event (EvDequeue QBfs cur D') c)).1 with
                 | Ret n => n
                 | _ => ∅
                 end = out_links env cur).
    { rewrite Hv. reflexivity. }
    rewrite Hn in Hstep.
    destruct (bool_decide_reflect (target ∈ out_links env cur)) as [Ht | Ht].
    - destruct Hstep as (c1 & Hs1 & _). rewrite Hs1 in Hrun. discriminate.
    - destruct Hstep as (c1 & Hs1 & _ & Hsame). rewrite Hs1 in Hrun.
      eapply (IH D'); [exact HD' | | | exact Hrun].
      + eapply bfs_inv_step with (cur := cur) (p := p) (q := q); try eassumption.
        intros n. rewrite (set_iter_perm env (out_links env cur)). apply elem_of_elements.
      + eapply coherent_same; [exact Hsame | exact Hc1]. }
  destruct (bfs_inv_head (out_links env) start target D s cur p d q Hinv Hq) as [-> | [-> Hall]].
  - apply (Hexpand D); auto.
  - destruct (Z_lt_le_dec (D + 1) max_depth) as [Hlt | Hge].
    + apply (Hexpand (D + 1)); [lia | | reflexivity].
      apply bfs_inv_shift; [lia | exact Hinv | exact Hall].
    + intros k Hr.
      pose proof (bfs_inv_no_short (out_links env) start target Hdistinct D s Hinv) as H.
      assert (D + 1 < Z.of_nat k); [| lia].
      apply H; [| exact Hr]. intros e He. rewrite Forall_forall in Hall.
      specialize (Hall e He). lia.
Qed.

End BfsNoneLoop.

(** X13. On a crawler whose caches hold what the endpoint answers, and
    with an endpoint for which canonical titles are their own canonical
    titles: when [find_path_bfs] returns [None], every path from the resolved
    start to the resolved target along links that [get_links] shows has more
    than [max_depth] links. *)
Theorem bfs_none_means_no_short_path
    (env : Env) (start_title target_title : string) (max_depth max_visited : Z)
    (c c' : Crawler)
    (Hfixed : canonical_fixed env)
    (Hcoherent : coherent env c)
    (Hrun : find_path_bfs env start_title target_title max_depth max_visited c
              = (Ret None, c')) :
  ∃ start target,
    (resolve_title env start_title c).1 = Ret (Some start) ∧
    (resolve_title env target_title (resolve_title env start_title c).2).1
      = Ret (Some target) ∧
    ∀ p, path_between (links_to env c) start target p →
         max_depth < Z.of_nat (length p) - 1.
Proof.
  unfold find_path_bfs, bind in Hrun.
  destruct (resolve_title env start_title c) as [r1 c1] eqn:E1.
  destruct (resolve_title_coherent env Hfixed start_title c Hcoherent) as [_ Hc1].
  rewrite E1 in Hc1. simpl in Hc1.
  destruct r1 as [[start |] | e |]; try discriminate. simpl.
  destruct (resolve_title env target_title c1) as [r2 c2] eqn:E2.
  destruct (resolve_title_coherent env Hfixed target_title c1 Hc1) as [_ Hc2].
  rewrite E2 in Hc2. simpl in Hc2.
  destruct r2 as [[target |] | e |]; try discriminate.
  exists start, target. simpl. split; [reflexivity |]. split; [reflexivity |].
  assert (Hedges : ∀ u v, links_to env c u v ↔ edge (out_links env) u v).
  { intros u v. apply links_to_out_links; assumption. }
  unfold set_crawl_graph, set_decision_info, modify in Hrun. simpl in Hrun.
  destruct (String.eqb_spec start target) as [<- | Hne]; [discriminate |].
  unfold bind, emit, modify in Hrun. simpl in Hrun.
  intros p (Hh & Hl & Hw). apply (walk_ext _ _ _ Hedges) in Hw.
  pose proof (walk_reach _ p start target Hh Hl Hw) as Hr.
  assert (Hlen : (2 ≤ length p)%nat).
  { destruct p as [| x [| y p]]; simpl in *; [discriminate | congruence | lia]. }
  destruct (Z_lt_le_dec 0 max_depth) as [Hpos | Hneg]; [| lia].
  assert (H : max_depth < Z.of_nat (pred (length p))); [| lia].
  eapply (bfs_loop_complete env Hfixed start target max_depth max_visited Hne
            (loop_fuel max_visited) 0); [lia | | | exact Hrun | exact Hr].
  - apply bfs_inv_initial; assumption.
  - eapply coherent_same; [| exact Hc2]. repeat split.
Qed.

(** ** Labels of the flowchart *)

Lemma slice_to_length {A} (k : Z) (l : list A) :
  0 ≤ k ≤ Z.of_nat (length l) → Z.of_nat (length (PyStr.slice_to k l)) = k.
Proof.
  intros Hk. unfold PyStr.slice_to. destruct (Z.ltb_spec k 0); [lia |].
  rewrite length_take. lia.
Qed.

Lemma uni_flush_nil cur acc : PyUni.flush cur acc = [] ↔ cur = [] ∧ acc = [].
Proof.
  destruct cur; simpl; split; try (intros [? ?]); try discriminate; auto.
Qed.

(** No token exactly when every character is a separator. *)
Lemma uni_split_nil s : PyUni.split s = [] ↔ forallb PyUni.is_space s = true.
Proof.
  unfold PyUni.split.
  enough (H : (let '(cur, acc) := PyUni.split_aux s in cur = [] ∧ acc = []) ↔
              forallb PyUni.is_space s = true).
  { destruct (PyUni.split_aux s) as [cur acc]. rewrite uni_flush_nil. exact H. }
  induction s as [| c s IH]; simpl; [tauto |].
  destruct (PyUni.split_aux s) as [cur acc].
  destruct (PyUni.is_space c); simpl.
  - rewrite <- IH, uni_flush_nil. tauto.
  - split; [intros [[=] _] | discriminate].
Qed.

(** X16. For [max_len] of 3 or more: a label that [_shorten_label] returns
    has at most [max_len] characters, and shortening it again returns it
    unchanged. *)
Theorem shortened_labels_fit
    (label s : PyUni.ustr) (max_len : Z)
    (Hlen : 3 ≤ max_len)
    (Hret : shorten_label label max_len = inr s) :
  Z.of_nat (length s) ≤ max_len ∧ shorten_label s max_len = inr s.
Proof.
  assert (Hfit : Z.of_nat (length s) ≤ max_len).
  { unfold shorten_label in Hret.
    destruct (Z.leb_spec (Z.of_nat (length label)) max_len) as [Hle | Hgt].
    { injection Hret as <-. exact Hle. }
    assert (Hcut : Z.of_nat (length (PyStr.slice_to (max_len - 3) label
                                       ++ PyUni.of_string "...")%list) ≤ max_len).
    { rewrite length_app, Nat2Z.inj_add, slice_to_length by lia. simpl. lia. }
    destruct (length (PyUni.split label) =? 1)%nat; [injection Hret as <-; exact Hcut |].
    destruct (last (PyUni.split label)) as [last_ |]; [| discriminate].
    match type of Hret with
    | context [Z.of_nat (length ?short) <=? max_len] =>
        destruct (Z.leb_spec (Z.of_nat (length short)) max_len) as [Hs | Hs]
    end.
    - injection Hret as <-. exact Hs.
    - injection Hret as <-. exact Hcut. }
  split; [exact Hfit |].
  unfold shorten_label. destruct (Z.leb_spec (Z.of_nat (length s)) max_len); [reflexivity | lia].
Qed.

(** X17. [_shorten_label] raises exactly on the labels that are longer than
    [max_len] and hold blank characters only: [parts[-1]] is then taken of an
    empty list, an [IndexError]. *)
Theorem blank_labels_raise (label : PyUni.ustr) (max_len : Z) (e : exn) :
  shorten_label label max_len = inl e ↔
  e = IndexError "list index out of range" ∧
  max_len < Z.of_nat (length label) ∧ forallb PyUni.is_space label = true.
Proof.
  unfold shorten_label. rewrite <- uni_split_nil.
  destruct (Z.leb_spec (Z.of_nat (length label)) max_len) as [Hle | Hgt].
  { split; [discriminate | intros (_ & H & _); lia]. }
  destruct (PyUni.split label) as [| p ps] eqn:Hs.
  - simpl. split; [intros [= <-]; auto | intros (-> & _); reflexivity].
  - assert (Hne : last (p :: ps) ≠ None).
    { rewrite last_lookup. simpl. intros H. apply lookup_ge_None in H. simpl in H. lia. }
    destruct (length (p :: ps) =? 1)%nat; [split; [discriminate | intros (_ & _ & [=])] |].
    destruct (last (p :: ps)); [| contradiction].
    match goal with
    | |- context [if ?b then _ else _] => destruct b
    end; (split; [discriminate | intros (_ & _ & [=])]).
Qed.

(** ** The explanation of a breadth-first path *)

Lemma explain_step_bfs format_score di len i a b :
  di !! (a, b) = Some (bfs_hop_decision len i a b) →
  explain_step format_score di i a b = bfs_step_text len i a b.
Proof.
  intros H. unfold explain_step, bfs_step_text, bfs_hop_decision in *. rewrite H.
  cbn [d_method d_depth d_note d_score bfs_decision method_text].
  destruct (decide (S (S i) = len)); reflexivity.
Qed.

Lemma explain_steps_bfs format_score di len p : ∀ i,
  (∀ j a b, p !! j = Some a → p !! S j = Some b →
            di !! (a, b) = Some (bfs_hop_decision len (i + j) a b)) →
  explain_steps format_score di i p = bfs_steps_text len i p.
Proof.
  induction p as [| a [| b p] IH]; intros i H; try reflexivity.
  cbn [explain_steps bfs_steps_text]. f_equal.
  - apply explain_step_bfs. specialize (H 0%nat a b eq_refl eq_refl).
    rewrite Nat.add_0_r in H. exact H.
  - apply IH. intros j x y Hx Hy.
    replace (S i + j)%nat with (i + S j)%nat by lia. apply H; assumption.
Qed.

(** X15. [explain_path], called on a path of two pages or more that
    [find_path_bfs] has just returned, finds the recorded decision of every
    hop: the text is the heading, the number of hops, and for each hop its
    number, the two titles, the method [bfs], the depth (the number of the
    hop) and the note, which names the page the hop was enqueued from, or
    says that the target was found for the last hop. The line for a hop
    without recorded decision does not occur. *)
Theorem bfs_path_is_explained
    (env : Env) (format_score : float → string) (start_title target_title : string)
    (max_depth max_visited : Z) (c c' : Crawler) (path : list string)
    (Hrun : find_path_bfs env start_title target_title max_depth max_visited c
              = (Ret (Some path), c'))
    (Hhops : (2 ≤ length path)%nat) :
  explain_path format_score (Some path) c' = (Ret (bfs_explanation path), c').
Proof.
  destruct (find_path_bfs_found _ _ _ _ _ _ _ _ Hrun) as (_ & _ & Hrec).
  unfold explain_path, bfs_explanation, bind, gets, ret. simpl.
  destruct path as [| a [| b p]]; simpl in Hhops; try lia.
  rewrite (explain_steps_bfs format_score (decision_info c') (length (a :: b :: p))).
  - reflexivity.
  - intros j x y Hx Hy. apply (Hrec j x y Hx Hy).
Qed.

(** ** The interactive prompts *)

Section PromptFacts.

Context (strip lower : string → string).


Lemma ask_loop_result prompt_str default validator inputs : ∀ out,
  match (ask_loop strip prompt_str default validator inputs out).1 with
  | Answered r =>
      match validator with
      | Some validate => ∃ raw, validate raw = inr r
      | None => ∃ l, r = ask_value strip default l
      end
  | SystemExit msg => msg = aborted
  end.
Proof.
  induction inputs as [| [l | |] inputs IH]; intros out; simpl; try reflexivity.
  destruct validator as [validate |]; simpl; [| exists l; reflexivity].
  destruct (validate _) as [e | r] eqn:Hv; simpl; [apply IH | eauto].
Qed.


Lemma ask_yes_no_loop_exit prompt_str default inputs : ∀ out msg,
  (ask_yes_no_loop strip lower prompt_str default inputs out).1 = SystemExit msg →
  msg = aborted.
Proof.
  induction inputs as [| [l | |] inputs IH]; intros out msg; simpl;
    try (intros [= <-]; reflexivity).
  destruct (String.eqb (lower (strip l)) EmptyString); [discriminate |].
  destruct (String.eqb (lower (strip l)) "y" || String.eqb (lower (strip l)) "yes");
    [discriminate |].
  destruct (String.eqb (lower (strip l)) "n" || String.eqb (lower (strip l)) "no");
    [discriminate |].
  apply IH.
Qed.

End PromptFacts.



Lemma is_one_of_elem choices s : is_one_of choices s = true → s ∈ choices.
Proof.
  unfold is_one_of. intros H. apply existsb_exists in H as (x & Hx & He).
  apply String.eqb_eq in He. subst x. apply list_elem_of_In, Hx.
Qed.

(** X20. Whatever is typed, [interactive_collect_core] either raises
    [SystemExit] with the message of an aborted prompt, or returns options
    in which the strategy is one of [bfs], [best], [bidi], the flowchart mode
    is one of the five modes, the target title is not empty, [random_start]
    holds exactly when there is no start title, the flowchart mode is
    [pruned] and labels are not hidden when no flowchart file is given, and
    [explain] is set with no file to save it in. *)
Theorem interactive_options_are_valid
    (strip lower : string → string) (k : Console) :
  match (interactive_collect_core strip lower k).1 with
  | Answered o => valid_options o
  | SystemExit msg => msg = aborted
  end.
Proof.
  unfold interactive_collect_core, io_bind, print, io_ret. simpl.
  match goal with
  | |- context [ask strip ?p ?d None ?k0] =>
      pose proof (ask_loop_result strip
                    (match d with Some d0 => p ++ " [" ++ d0 ++ "]: " | None => p ++ ": " end)
                    d None (stdin k0) (stdout k0)) as H1;
      change (ask_loop strip _ d None (stdin k0) (stdout k0)) with (ask strip p d None k0) in H1;
      destruct (ask strip p d None k0) as [[start_or_random | msg] k1]; [| exact H1]
  end.
  clear H1. simpl.
  match goal with
  | |- context [ask strip ?p ?d (Some ?v) ?k0] =>
      pose proof (ask_loop_result strip
                    (match d with Some d0 => p ++ " [" ++ d0 ++ "]: " | None => p ++ ": " end)
                    d (Some v) (stdin k0) (stdout k0)) as H2;
      change (ask_loop strip _ d (Some v) (stdin k0) (stdout k0))
        with (ask strip p d (Some v) k0) in H2;
      destruct (ask strip p d (Some v) k0) as [[target_title | msg] k2]; [| exact H2]
  end.
  simpl in *.
  match goal with
  | |- context [ask strip ?p ?d (Some ?v) ?k0] =>
      pose proof (ask_loop_result strip
                    (match d with Some d0 => p ++ " [" ++ d0 ++ "]: " | None => p ++ ": " end)
                    d (Some v) (stdin k0) (stdout k0)) as H3;
      change (ask_loop strip _ d (Some v) (stdin k0) (stdout k0))
        with (ask strip p d (Some v) k0) in H3;
      destruct (ask strip p d (Some v) k0) as [[strategy | msg] k3]; [| exact H3]
  end.
  simpl in *.
  assert (Htarget : target_title ≠ EmptyString).
  { destruct H2 as (raw & Hraw). unfold target_validator in Hraw.
    destruct (String.eqb_spec raw EmptyString); [discriminate |]. congruence. }
  assert (Hstrategy : strategy ∈ strategies).
  { destruct H3 as (raw & Hraw). unfold strat_validator in Hraw.
    destruct (is_one_of strategies (lower raw)) eqn:E; [| discriminate].
    injection Hraw as <-. apply is_one_of_elem, E. }
  assert (Hstart : ∀ b : bool, b = true ↔ (if b then None else Some start_or_random) = None).
  { intros []; split; congruence. }
  match goal with
  | |- context [ask_yes_no strip lower ?p ?d ?k0] =>
      pose proof (ask_yes_no_loop_exit strip lower
                    (p ++ " [" ++ (if d then "Y/n" else "y/N") ++ "]: ") d
                    (stdin k0) (stdout k0)) as H4;
      change (ask_yes_no_loop strip lower _ d (stdin k0) (stdout k0))
        with (ask_yes_no strip lower p d k0) in H4;
      destruct (ask_yes_no strip lower p d k0) as [[want | msg] k4];
        [| simpl; eapply H4; reflexivity]
  end.
  clear H4. simpl. destruct want.
  2: { simpl. unfold valid_options. simpl. split; [exact Hstrategy |].
       split; [unfold flowchart_modes; set_solver |]. auto 10. }
  match goal with
  | |- context [ask strip ?p ?d None ?k0] =>
      pose proof (ask_loop_result strip
                    (match d with Some d0 => p ++ " [" ++ d0 ++ "]: " | None => p ++ ": " end)
                    d None (stdin k0) (stdout k0)) as H5;
      change (ask_loop strip _ d None (stdin k0) (stdout k0)) with (ask strip p d None k0) in H5;
      destruct (ask strip p d None k0) as [[flowchart | msg] k5]; [| exact H5]
  end.
  simpl in *.
  assert (Hflowchart : flowchart ≠ EmptyString).
  { destruct H5 as (l & ->). unfold ask_value.
    destruct (String.eqb_spec (strip l) EmptyString); [discriminate | assumption]. }
  match goal with
  | |- context [ask strip ?p ?d (Some ?v) ?k0] =>
      pose proof (ask_loop_result strip
                    (match d with Some d0 => p ++ " [" ++ d0 ++ "]: " | None => p ++ ": " end)
                    d (Some v) (stdin k0) (stdout k0)) as H6;
      change (ask_loop strip _ d (Some v) (stdin k0) (stdout k0))
        with (ask strip p d (Some v) k0) in H6;
      destruct (ask strip p d (Some v) k0) as [[mode | msg] k6]; [| exact H6]
  end.
  simpl in *.
  assert (Hmode : mode ∈ flowchart_modes).
  { destruct H6 as (raw & Hraw). unfold fc_mode_validator in Hraw.
    destruct (is_one_of flowchart_modes (lower raw)) eqn:E; [| discriminate].
    injection Hraw as <-. apply is_one_of_elem, E. }
  match goal with
  | |- context [ask_yes_no strip lower ?p ?d ?k0] =>
      pose proof (ask_yes_no_loop_exit strip lower
                    (p ++ " [" ++ (if d then "Y/n" else "y/N") ++ "]: ") d
                    (stdin k0) (stdout k0)) as H7;
      change (ask_yes_no_loop strip lower _ d (stdin k0) (stdout k0))
        with (ask_yes_no strip lower p d k0) in H7;
      destruct (ask_yes_no strip lower p d k0) as [[hide | msg] k7];
        [| simpl; eapply H7; reflexivity]
  end.
  simpl. unfold valid_options. simpl.
  split; [exact Hstrategy |]. split; [exact Hmode |]. split; [exact Htarget |].
  split; [apply Hstart |]. split; [intros E; contradiction | auto].
Qed.

(** ** The crawl graph holds reported links *)

Section GraphSound.

Context (env : Env).
Hypothesis Hfixed : canonical_fixed env.

Lemma stable_sound_modify (f : Crawler → Crawler) :
  (∀ c, link_cache (f c) = link_cache c) →
  (∀ c, linkshere_cache (f c) = linkshere_cache c) →
  (∀ c, title_cache (f c) = title_cache c) →
  (∀ c, crawl_graph (f c) = crawl_graph c ∨ g_edges (crawl_graph (f c)) = ∅) →
  stable (preserves (sound env)) (modify f).
Proof.
  intros H1 H2 H3 H4 c [Hc Hg]. simpl. split.
  - eapply coherent_same; [| exact Hc]. repeat split; auto.
  - intros u v. destruct (H4 c) as [-> | ->]; [apply Hg | set_solver].
Qed.

Lemma stable_sound_kept {A} (m : M A) :
  stable (coherent_growth env) m → stable search_data_kept m →
  stable (preserves (sound env)) m.
Proof.
  intros H1 H2 c [Hc Hg]. split; [apply (H1 c Hc) |].
  destruct (H2 c) as [E _]. intros u v. rewrite E. apply Hg.
Qed.

Lemma resolve_title_sound t : stable (preserves (sound env)) (resolve_title env t).
Proof.
  apply stable_sound_kept; [apply resolve_title_growth, Hfixed | apply resolve_title_data].
Qed.

Lemma get_links_sound t : stable (preserves (sound env)) (get_links env t).
Proof.
  apply stable_sound_kept; [apply get_links_growth, Hfixed | apply get_links_data].
Qed.

Lemma get_linkshere_sound t : stable (preserves (sound env)) (get_linkshere env t).
Proof.
  apply stable_sound_kept; [apply get_linkshere_growth, Hfixed | apply get_linkshere_data].
Qed.

(** Fetching the links of [current] and recording them as edges. *)
Lemma fetch_and_record_out {A} current (k : gset string → M A) :
  (∀ neighbors, stable (preserves (sound env)) (k neighbors)) →
  stable (preserves (sound env))
    (let! neighbors := links_or_empty (get_links env) current in
     run! record_edges (fun n => (current, n)) (set_iter env neighbors) in
     k neighbors).
Proof.
  intros Hk c [Hc Hg]. unfold bind.
  rewrite (links_or_empty_run (get_links env) current c (get_links_fuel env _ _)).
  destruct (get_links_coherent env Hfixed current c Hc) as [Hv Hc1].
  pose proof (get_links_data env current c) as [Hgraph _].
  set (neighbors := match (get_links env current c).1 with Ret s => s | _ => ∅ end).
  assert (Hn : neighbors = out_links env current) by (unfold neighbors; rewrite Hv; reflexivity).
  unfold record_edges, bind, gets, set_crawl_graph, modify. simpl.
  apply Hk. split.
  - eapply coherent_same; [| exact Hc1]. repeat split.
  - intros u v. simpl. rewrite record_edges_edges, Hgraph.
    intros [H | (n & Hin & [= <- <-])]; [apply Hg, H |].
    left. rewrite <- Hn. rewrite (set_iter_perm env neighbors) in Hin.
    apply elem_of_elements, Hin.
Qed.

Lemma fetch_and_record_in {A} current (k : gset string → M A) :
  (∀ incoming, stable (preserves (sound env)) (k incoming)) →
  stable (preserves (sound env))
    (let! incoming := links_or_empty (get_linkshere env) current in
     run! record_edges (fun n => (n, current)) (set_iter env incoming) in
     k incoming).
Proof.
  intros Hk c [Hc Hg]. unfold bind.
  rewrite (links_or_empty_run (get_linkshere env) current c (get_linkshere_fuel env _ _)).
  destruct (get_linkshere_coherent env Hfixed current c Hc) as [Hv Hc1].
  pose proof (get_linkshere_data env current c) as [Hgraph _].
  set (incoming := match (get_linkshere env current c).1 with Ret s => s | _ => ∅ end).
  assert (Hn : incoming = in_links env current)
    by (unfold incoming; rewrite Hv; reflexivity).
  unfold record_edges, bind, gets, set_crawl_graph, modify. simpl.
  apply Hk. split.
  - eapply coherent_same; [| exact Hc1]. repeat split.
  - intros u v. simpl. rewrite record_edges_edges, Hgraph.
    intros [H | (n & Hin & [= <- <-])]; [apply Hg, H |].
    right. rewrite <- Hn. rewrite (set_iter_perm env incoming) in Hin.
    apply elem_of_elements, Hin.
Qed.

Ltac sound_leaf :=
  apply stable_sound_modify; intros ?;
    first [reflexivity | left; reflexivity | right; reflexivity].

Ltac sound_solve :=
  repeat first
    [ apply resolve_title_sound
    | apply get_links_sound
    | apply get_linkshere_sound
    | apply fetch_and_record_out; intros ?
    | apply fetch_and_record_in; intros ?
    | sound_leaf
    | stable_step ].

Lemma bfs_step_sound target max_depth max_visited s :
  stable (preserves (sound env)) (bfs_step env target max_depth max_visited s).
Proof.
  unfold bfs_step, set_decision, bfs_enqueue, set_decision_info, emit.
  sound_solve.
Qed.

Lemma best_step_sound target max_depth max_visited max_branch s :
  stable (preserves (sound env)) (best_step env target max_depth max_visited max_branch s).
Proof.
  unfold best_step, set_decision, best_enqueue, set_decision_info, emit.
  sound_solve.
Qed.

Lemma bidi_step_sound start target max_depth max_visited s :
  stable (preserves (sound env)) (bidi_step env start target max_depth max_visited s).
Proof.
  unfold bidi_step, set_decision, fwd_enqueue, bwd_enqueue, set_decision_if_absent,
    reconstruct_bidi_path, set_decision_info, emit.
  sound_solve.
Qed.

Lemma run_op_sound op : ∀ c, sound env c → sound env (run_op env op c).
Proof.
  destruct op; simpl; intros c.
  - apply resolve_title_sound.
  - revert c. change (stable (preserves (sound env)) (random_page_title env namespace)).
    unfold random_page_title, emit. sound_solve.
  - revert c. change (stable (preserves (sound env)) (search_title env query limit)).
    unfold search_title, emit. sound_solve.
  - apply get_links_sound.
  - apply get_linkshere_sound.
  - revert c.
    change (stable (preserves (sound env))
              (find_path_bfs env start_title target_title max_depth max_visited)).
    unfold find_path_bfs, set_decision_info, set_crawl_graph, emit.
    repeat first [apply bfs_step_sound | sound_solve].
  - revert c.
    change (stable (preserves (sound env))
              (find_path_best_first env start_title target_title max_depth max_visited
                 max_branch)).
    unfold find_path_best_first, set_decision_info, set_crawl_graph, emit.
    repeat first [apply best_step_sound | sound_solve].
  - revert c.
    change (stable (preserves (sound env))
              (find_path_bidi env start_title target_title max_depth max_visited)).
    unfold find_path_bidi, set_decision_info, set_crawl_graph, emit.
    repeat first [apply bidi_step_sound | sound_solve].
Qed.

Lemma run_ops_sound ops : ∀ c, sound env c → sound env (run_ops env ops c).
Proof.
  induction ops as [| op ops IH]; intros c Hc; simpl; [exact Hc |].
  apply IH, run_op_sound, Hc.
Qed.

End GraphSound.

(** X7. With an endpoint for which canonical titles are their own
    canonical titles, on a crawler that was created and used through its
    methods only: every edge of the crawl graph is a link that the endpoint
    reported, as an outgoing link of its source or as an incoming link of its
    target. *)
Theorem crawl_graph_holds_reported_links
    (env : Env) (ops : list CrawlerOp) (u v : string)
    (Hfixed : canonical_fixed env)
    (Hedge : (u, v) ∈ g_edges (crawl_graph (run_ops env ops new_crawler))) :
  v ∈ out_links env u ∨ u ∈ in_links env v.
Proof.
  destruct (run_ops_sound env Hfixed ops new_crawler) as [_ Hg].
  - split; [apply new_crawler_coherent |]. intros x y H. simpl in H. set_solver.
  - apply Hg, Hedge.
Qed.

(** ** More examples *)


Lemma unresolved_title_has_no_links_witness :
  let r := fetcher gap_env Incoming "X" new_crawler in
  r.1 = Ret ∅ ∧
  link_cache r.2 = link_cache new_crawler ∧
  linkshere_cache r.2 = linkshere_cache new_crawler ∧
  ∃ info, trace r.2 = (info ++ fetch_call Incoming "X" :: trace new_crawler)%list ∧
          forallb is_info_request info = true.
Proof.
  apply (unresolved_title_has_no_links gap_env Incoming "X" new_crawler).
  left. vm_compute. reflexivity.
Defined.

Lemma missing_title_is_not_cached_witness :
  let c1 := add_event (EvApi (ReqInfo "X")) new_crawler in
  resolve_title gap_env "X" new_crawler = (resolve_pure gap_env "X", c1) ∧
  resolve_title gap_env "X" c1 =
    (resolve_pure gap_env "X", add_event (EvApi (ReqInfo "X")) c1).
Proof.
  apply (missing_title_is_not_cached gap_env "X" new_crawler).
  intros n. vm_compute. discriminate.
Defined.

Lemma resolved_titles_hit_the_cache_witness :
  let c1 := (resolve_title alias_env "a" (run_ops alias_env [OpGetLinks "B"] new_crawler)).2 in
  title_cache c1 !! "a" = Some "A" ∧ title_cache c1 !! "A" = Some "A" ∧
  resolve_title alias_env "a" c1 = (Ret (Some "A"), c1) ∧
  resolve_title alias_env "A" c1 = (Ret (Some "A"), c1).
Proof.
  apply (resolved_titles_hit_the_cache alias_env [OpGetLinks "B"] "a" "A").
  vm_compute. reflexivity.
Defined.

Lemma caches_stay_coherent_witness :
  coherent chain_env
    (run_ops chain_env [OpFindPathBidi "A" "T" 6 100; OpGetLinksHere "B"] new_crawler).
Proof.
  apply (caches_stay_coherent chain_env [OpFindPathBidi "A" "T" 6 100; OpGetLinksHere "B"]
           new_crawler).
  - apply graph_env_canonical_fixed.
  - apply new_crawler_coherent.
Defined.

Lemma title_cache_only_grows_witness :
  title_cache (run_ops chain_env [OpResolveTitle "A"] new_crawler)
    ⊆ title_cache (run_ops chain_env [OpFindPathBfs "A" "T" 6 100]
                     (run_ops chain_env [OpResolveTitle "A"] new_crawler)).
Proof.
  apply (title_cache_only_grows chain_env [OpFindPathBfs "A" "T" 6 100]
           (run_ops chain_env [OpResolveTitle "A"] new_crawler)).
  - apply graph_env_canonical_fixed.
  - apply (run_ops_growth chain_env (graph_env_canonical_fixed _) [OpResolveTitle "A"]
             new_crawler (new_crawler_coherent _)).
Defined.

Lemma crawl_graph_holds_reported_links_witness :
  "B" ∈ out_links chain_env "A" ∨ "A" ∈ in_links chain_env "B".
Proof.
  apply (crawl_graph_holds_reported_links chain_env [OpFindPathBfs "A" "T" 6 100] "A" "B").
  - apply graph_env_canonical_fixed.
  - vm_compute. reflexivity.
Defined.

Lemma bidi_path_joins_start_and_target_witness :
  ∃ start target,
    (resolve_title chain_env "A" new_crawler).1 = Ret (Some start) ∧
    (resolve_title chain_env "T" (resolve_title chain_env "A" new_crawler).2).1
      = Ret (Some target) ∧
    head ["A"; "T"] = Some start ∧ last ["A"; "T"] = Some target.
Proof.
  apply (bidi_path_joins_start_and_target chain_env "A" "T" 6 100 new_crawler
           (find_path_bidi chain_env "A" "T" 6 100 new_crawler).2).
  vm_compute. reflexivity.
Defined.

Lemma same_page_search_data_witness :
  let c := run_ops chain_env [OpFindPathBfs "A" "T" 6 100] new_crawler in
  let bfs := (find_path_bfs chain_env "B" "B" 6 100 c).2 in
  let best := (find_path_best_first chain_env "B" "B" 6 100 50 c).2 in
  let bidi := (find_path_bidi chain_env "B" "B" 6 100 c).2 in
  (crawl_graph bfs = add_node "B" empty_graph ∧ decision_info bfs = ∅) ∧
  (crawl_graph best = add_node "B" empty_graph ∧ decision_info best = ∅) ∧
  (crawl_graph bidi = crawl_graph c ∧ decision_info bidi = decision_info c).
Proof.
  apply (same_page_search_data chain_env "B" "B" "B" 6 100 50
           (run_ops chain_env [OpFindPathBfs "A" "T" 6 100] new_crawler)
           (run_ops chain_env [OpFindPathBfs "A" "T" 6 100] new_crawler)
           (run_ops chain_env [OpFindPathBfs "A" "T" 6 100] new_crawler)).
  - vm_compute. reflexivity.
  - vm_compute. reflexivity.
Defined.

Lemma found_paths_are_simple_and_short_witness :
  (NoDup ["A"; "B"; "T"] ∧ Z.of_nat (length ["A"; "B"; "T"]) - 1 ≤ Z.max 0 2) ∧
  (NoDup ["A"; "b"; "X"; "B"] ∧ Z.of_nat (length ["A"; "b"; "X"; "B"]) - 1 ≤ Z.max 0 6) ∧
  (find_path_bfs redirect_env "A" "B" 6 100 new_crawler).1 = Ret (Some ["A"; "b"; "X"; "B"]) ∧
  (resolve_title redirect_env "b" new_crawler).1 = Ret (Some "B").
Proof.
  split; [| split; [| split]].
  - apply (found_paths_are_simple_and_short chain_env "A" "T" 2 100 50 new_crawler).
    right. vm_compute. reflexivity.
  - apply (found_paths_are_simple_and_short redirect_env "A" "B" 6 100 50 new_crawler).
    left. vm_compute. reflexivity.
  - vm_compute. reflexivity.
  - vm_compute. reflexivity.
Defined.

Lemma best_first_returns_a_link_path_witness :
  ∃ start target,
    (resolve_title chain_env "A" new_crawler).1 = Ret (Some start) ∧
    (resolve_title chain_env "T" (resolve_title chain_env "A" new_crawler).2).1
      = Ret (Some target) ∧
    path_between (links_to chain_env new_crawler) start target ["A"; "B"; "T"].
Proof.
  apply (best_first_returns_a_link_path chain_env "A" "T" 6 100 50 new_crawler
           (find_path_best_first chain_env "A" "T" 6 100 50 new_crawler).2).
  - apply graph_env_canonical_fixed.
  - apply new_crawler_coherent.
  - vm_compute. reflexivity.
Defined.

Lemma bfs_none_means_no_short_path_witness :
  ∃ start target,
    (resolve_title chain_env "A" new_crawler).1 = Ret (Some start) ∧
    (resolve_title chain_env "T" (resolve_title chain_env "A" new_crawler).2).1
      = Ret (Some target) ∧
    ∀ p, path_between (links_to chain_env new_crawler) start target p →
         1 < Z.of_nat (length p) - 1.
Proof.
  apply (bfs_none_means_no_short_path chain_env "A" "T" 1 100 new_crawler
           (find_path_bfs chain_env "A" "T" 1 100 new_crawler).2).
  - apply graph_env_canonical_fixed.
  - apply new_crawler_coherent.
  - vm_compute. reflexivity.
Defined.

Lemma bfs_path_is_recorded_witness :
  let c' := (find_path_bfs chain_env "A" "T" 6 100 new_crawler).2 in
  ("B", "T") ∈ g_edges (crawl_graph c') ∧
  decision_info c' !! ("B", "T") =
    Some {| d_method := MBfs; d_depth := Z.of_nat 1 + 1;
            d_note := if decide (3 = length ["A"; "B"; "T"])%nat then NoteTargetFound
                      else NoteEnqueuedFrom "B";
            d_score := None |}.
Proof.
  apply (bfs_path_is_recorded chain_env "A" "T" 6 100 new_crawler
           (find_path_bfs chain_env "A" "T" 6 100 new_crawler).2 ["A"; "B"; "T"] 1 "B" "T").
  - vm_compute. reflexivity.
  - reflexivity.
  - reflexivity.
Defined.

Lemma bfs_path_is_explained_witness :
  let c' := (find_path_bfs chain_env "A" "T" 6 100 new_crawler).2 in
  explain_path (fun _ => EmptyString) (Some ["A"; "B"; "T"]) c' =
    (Ret (bfs_explanation ["A"; "B"; "T"]), c').
Proof.
  apply (bfs_path_is_explained chain_env (fun _ => EmptyString) "A" "T" 6 100 new_crawler
           (find_path_bfs chain_env "A" "T" 6 100 new_crawler).2 ["A"; "B"; "T"]).
  - vm_compute. reflexivity.
  - simpl. lia.
Defined.

Lemma shortened_labels_fit_witness :
  let s := (PyUni.of_string "Alan Turing at " ++ [8230%N]
            ++ PyUni.of_string " war")%list in
  Z.of_nat (length s) ≤ 28 ∧ shorten_label s 28 = inr s.
Proof.
  apply (shortened_labels_fit
           (PyUni.of_string "Alan Turing at Bletchley Park in the war")).
  - lia.
  - vm_compute. reflexivity.
Defined.


